(** * make-maze: a shallow embedding of McCaughan's hexagonal maze maker

    The development follows [src/c/make-maze.c] function by function:
    the disjoint-set forest ([base], [unify]), the wall table
    ([init_walls]), the bucket shuffle ([shuffle_walls]), the carving
    loop ([create_maze]), the tree analysis ([analyse_tree]) and the
    seeding of the generator ([init_rand]).

    Conventions.
    - A C [int] is a [Z].  Every quantity the program computes in a run
      is bounded by [3 * 1000 * 1000], far inside the 32-bit range, so
      wrap-around is written out only where the source masks explicitly,
      where it sets the top bit of a bitmap, and in [unify], which can be
      handed two sizes whose sum is no [int].
    - An array is a [list]; [rd] and [wr] are the guarded reads and writes.
      An access outside the array is undefined behaviour in C and is
      modelled by [None].
    - A pointer into an array is the index of the element; a pointer that
      may be null is an [option].
    - A [while] loop whose termination depends on the data carries a fuel
      argument; running out of fuel is [None] as well.  The theorems show
      that the stated amount of fuel always suffices. *)

From Stdlib Require Import ZArith Lia.
From stdpp Require Import relations list.

Local Open Scope Z_scope.

(** ** Guarded array accesses *)

Definition rd {A} (a : list A) (i : Z) : option A :=
  if decide (0 <= i) then a !! Z.to_nat i else None.

Definition wr {A} (a : list A) (i : Z) (v : A) : option (list A) :=
  if decide (0 <= i < Z.of_nat (length a))
  then Some (<[Z.to_nat i := v]> a) else None.

(** ** 32-bit integers *)

(** The [int] with the same 32-bit pattern as [z]. *)
Definition to_int (z : Z) : Z :=
  (z + 2147483648) mod 4294967296 - 2147483648.

(** ** The disjoint-set forest (lines 35-73) *)

Module UF.

(** First loop of [base]: [while (y>=0) { z=y; y=cells[y]; }]. *)
Fixpoint find_root (fuel : nat) (cells : list Z) (y z : Z) : option Z :=
  if decide (0 <= y) then
    match fuel with
    | O => None
    | S f => y' ← rd cells y; find_root f cells y' y
    end
  else Some z.

(** Second loop of [base]:
    [y=x; while (cells[y]>=0) { x=cells[y]; cells[y]=z; y=x; }]. *)
Fixpoint snap (fuel : nat) (cells : list Z) (y z : Z) : option (list Z) :=
  v ← rd cells y;
  if decide (0 <= v) then
    match fuel with
    | O => None
    | S f => cells' ← wr cells y z; snap f cells' v z
    end
  else Some cells.

Definition base (fuel : nat) (cells : list Z) (x : Z) : option (Z * list Z) :=
  y ← rd cells x;
  z ← find_root fuel cells y x;
  cells' ← snap fuel cells x z;
  Some (z, cells').

(** [unify]; [sx+sy] is the sum of two [int]s, stored in an [int]. *)
Definition unify (cells : list Z) (x y : Z) : option (list Z) :=
  sx ← rd cells x;
  sy ← rd cells y;
  if decide (sx < sy) then
    c1 ← wr cells y x; wr c1 x (to_int (sx + sy))
  else
    c1 ← wr cells x y; wr c1 y (to_int (sx + sy)).

(** [init_cells]: [memset(cells,-1,...)] puts every cell in a component
    of its own. *)
Definition init_cells (n : Z) : list Z := replicate (Z.to_nat n) (-1).

(** [chain cells x l r]: following the links from [x] visits the cells
    [l] (none of them a root) and stops at the root [r]. *)
Inductive chain (cells : list Z) : Z -> list Z -> Z -> Prop :=
| chain_root x v : rd cells x = Some v -> v < 0 -> chain cells x [] x
| chain_step x v l r :
    rd cells x = Some v -> 0 <= v -> chain cells v l r ->
    chain cells x (x :: l) r.

Definition root_of (cells : list Z) (x r : Z) : Prop :=
  exists l, chain cells x l r.

(** Every cell leads to a root: the invariant of the forest. *)
Definition forest_ok (cells : list Z) : Prop :=
  forall x, 0 <= x < Z.of_nat (length cells) -> exists r, root_of cells x r.

(** The root of a cell after the root [child] was linked under [parent]. *)
Definition relink (child parent rc : Z) : Z :=
  if decide (rc = child) then parent else rc.

(** Number of roots, that is, of components. *)
Definition count_roots (cells : list Z) : nat :=
  length (filter (fun v => v < 0) cells).

End UF.

(** ** Nodes (lines 75-103) *)

Module Node.
Record node := mk {
  exits : Z;                 (* bitmap representing exits *)
  n_kids : Z;                (* number of descendants in tree *)
  kids : list nat;           (* and which ones they are *)
  first : option nat;
  second : option nat;
  furthest : option nat;
  length : Z;
  distance : Z
}.
(** What [calloc] hands out. *)
Definition zero : node := mk 0 0 [] None None None 0 0.
Definition set_exits (nd : node) (e : Z) : node :=
  mk e (n_kids nd) (kids nd) (first nd) (second nd) (furthest nd)
     (length nd) (distance nd).
End Node.
Abbreviation node := Node.node.

Definition Up : Z := 1.
Definition Down : Z := 2.
Definition LDown : Z := 4.
Definition RDown : Z := 8.
Definition LEq : Z := 16.
Definition REq : Z := 32.
Definition LUp : Z := 64.
Definition RUp : Z := 128.

(** The neighbour each exit bit leads to, as [build_tree] reads it
    (lines 333-340), in the order in which it probes them. *)
Definition dirs (n_rows : Z) : list (Z * Z) :=
  [ (LDown, - n_rows - 1); (LEq, - n_rows); (LUp, - n_rows + 1);
    (Down, -1); (Up, 1);
    (RDown, n_rows - 1); (REq, n_rows); (RUp, n_rows + 1) ].

Definition init_nodes (n : Z) : list node := replicate (Z.to_nat n) Node.zero.

(** ** Walls (lines 123-208) *)

Record wall := Wall {
  next : option nat;   (* next wall after this one *)
  lower : Z;           (* one neighbouring cell *)
  higher : Z           (* the other neighbouring cell *)
}.

Definition set_next (w : wall) (p : option nat) : wall :=
  Wall p (lower w) (higher w).

Definition ends (w : wall) : Z * Z := (lower w, higher w).

(** [e->next=e+1; e->lower=lo; e->higher=hi; ++e;] *)
Definition add_wall (e : list wall) (lo hi : Z) : list wall :=
  e ++ [Wall (Some (S (length e))) lo hi].

(** The body of the inner loop of [init_walls] for cell [(i,j)]. *)
Definition cell_walls (m n i j this : Z) (e : list wall) : list wall :=
  let e1 := if decide (0 < i /\ (j < n - 1 \/ Z.land i 1 = 0))
            then add_wall e this (this - n + Z.land i 1) else e in
  let e2 := if decide (j < n - 1)
            then add_wall e1 this (this + 1) else e1 in
  if decide (i < m - 1 /\ (j < n - 1 \/ Z.land i 1 = 0))
  then add_wall e2 this (this + n + Z.land i 1) else e2.

(** [for (j=...;j<n;++j)], with [k] iterations left. *)
Fixpoint rows_loop (m n i : Z) (k : nat) (j this : Z) (e : list wall)
  : list wall * Z :=
  match k with
  | O => (e, this)
  | S k' => rows_loop m n i k' (j + 1) (this + 1) (cell_walls m n i j this e)
  end.

(** [for (i=...;i<m;++i)], with [k] iterations left. *)
Fixpoint cols_loop (m n : Z) (k : nat) (i this : Z) (e : list wall)
  : list wall * Z :=
  match k with
  | O => (e, this)
  | S k' =>
      let '(e', this') := rows_loop m n i (Z.to_nat n) 0 this e in
      cols_loop m n k' (i + 1) this' e'
  end.

(** [init_walls m n]: [None] is the exit taken when the number of walls
    written differs from [3*m*n-m-m-n-n+1].  Allocation is assumed to
    succeed. *)
Definition init_walls (m n : Z) : option (list wall) :=
  let '(e, _) := cols_loop m n (Z.to_nat m) 0 0 [] in
  if decide (Z.of_nat (length e) = 3 * m * n - m - m - n - n + 1) then
    let last := (length e - 1)%nat in
    w ← e !! last;
    Some (<[last := set_next w None]> e)
  else None.

(** Neighbourhood of the hexagonal array as the source describes it
    (lines 156-160): cell [(k,l)] is adjacent to [(k,l+-1)], and to
    [(k+-1,l)] and [(k+-1,l-1)] if [k] is even, or to [(k+-1,l)] and
    [(k+-1,l+1)] if [k] is odd. *)
Definition neighbour (k l k' l' : Z) : Prop :=
  (k' = k /\ (l' = l + 1 \/ l' = l - 1)) \/
  ((k' = k + 1 \/ k' = k - 1) /\
   (l' = l \/ (Z.land k 1 = 0 /\ l' = l - 1) \/ (Z.land k 1 = 1 /\ l' = l + 1))).

Definition in_grid (m n k l : Z) : Prop := 0 <= k < m /\ 0 <= l < n.

(** Cell [(i,j)] is number [n*i+j]. *)
Definition cell_no (n i j : Z) : Z := n * i + j.

(** [w] is the wall between cells [a] and [b]. *)
Definition joins (w : wall) (a b : Z) : Prop :=
  (lower w = a /\ higher w = b) \/ (lower w = b /\ higher w = a).

Global Instance joins_dec w a b : Decision (joins w a b).
Proof. unfold joins. apply _. Defined.

(** The walls [init_walls] writes for cell [(i,j)], numbered [this]. *)
Definition wall_from (m n i j this hi : Z) : Prop :=
  (0 < i /\ (j < n - 1 \/ Z.land i 1 = 0) /\ hi = this - n + Z.land i 1) \/
  (j < n - 1 /\ hi = this + 1) \/
  (i < m - 1 /\ (j < n - 1 \/ Z.land i 1 = 0) /\ hi = this + n + Z.land i 1).

Definition wall_at (m n lo hi : Z) : Prop :=
  exists i j, 0 <= i < m /\ 0 <= j < n /\ lo = n * i + j /\
    wall_from m n i j lo hi.

(** A truth value as the integer C makes of it. *)
Definition b2z (P : Prop) `{Decision P} : Z := if decide P then 1 else 0.

(** While the table is being filled every wall points at the next slot. *)
Definition linked (e : list wall) : Prop :=
  forall k w, e !! k = Some w -> next w = Some (S k).

(** Walls written up to, and not including, column [i]. *)
Definition walls_before (m n i : Z) : Z :=
  if decide (i <= 0) then 0
  else if decide (m <= i) then 3 * m * n - m - m - n - n + 1
  else (n - 1) * (3 * i - 1) + 2 * ((i - 1) / 2) + 1.

(** ** Linked lists of walls *)

(** [is_list ws p l]: starting at [p] and following [next] one meets
    exactly the walls [l], then the null pointer. *)
Fixpoint is_list (ws : list wall) (p : option nat) (l : list nat) : Prop :=
  match l with
  | [] => p = None
  | x :: l' => p = Some x /\ exists w, ws !! x = Some w /\ is_list ws (next w) l'
  end.

(** [lseg ws p l e]: starting at [p] one meets the walls [l] and then
    arrives at the wall [e], whose [next] field is not looked at. *)
Fixpoint lseg (ws : list wall) (p : option nat) (l : list nat) (e : nat) : Prop :=
  match l with
  | [] => p = Some e
  | x :: l' => p = Some x /\ exists w, ws !! x = Some w /\ lseg ws (next w) l' e
  end.

(** The list heads [head], from slot [i] on, hold the lists [bs]. *)
Definition buckets_from (i : nat) (ws : list wall) (head : list (option nat))
    (bs : list (list nat)) : Prop :=
  length head = length bs /\
  forall j h b, (i <= j)%nat -> head !! j = Some h -> bs !! j = Some b ->
    is_list ws h b.

(** What the loops that rebuild a list through [q] maintain: nothing
    linked yet and [q] null, or the walls [acc] linked from [first_wall]
    with [q] the last of them. *)
Definition linked_up (ws : list wall) (q first_wall : option nat)
    (acc : list nat) : Prop :=
  match q with
  | None => acc = []
  | Some qi => is_list ws first_wall acc /\ last acc = Some qi
  end.

(** ** The bucket shuffle (lines 233-281) *)

Section Shuffle.
Context {rng : Type} (Random : rng -> Z * rng).

(** [while (p) { k=Random()&1023; q=p->next; p->next=head[k];
                 head[k]=p; p=q; }] *)
Fixpoint scatter (fuel : nat) (p : option nat) (ws : list wall)
    (head : list (option nat)) (g : rng)
  : option (list wall * list (option nat) * rng) :=
  match p with
  | None => Some (ws, head, g)
  | Some pi =>
    match fuel with
    | O => None
    | S f =>
      let '(r, g') := Random g in
      let k := Z.to_nat (Z.land r 1023) in
      w ← ws !! pi;
      h ← head !! k;
      scatter f (next w) (<[pi := set_next w h]> ws) (<[k := Some pi]> head) g'
    end
  end.

(** [for (i=...;i<1024;++i) { p=src[i]; src[i]=0; while (p) ... dst ... }],
    with [cnt] iterations left. *)
Fixpoint pour (fuel cnt i : nat) (ws : list wall)
    (src dst : list (option nat)) (g : rng)
  : option (list wall * list (option nat) * list (option nat) * rng) :=
  match cnt with
  | O => Some (ws, src, dst, g)
  | S c =>
    p ← src !! i;
    '(ws', dst', g') ← scatter fuel p ws dst g;
    pour fuel c (S i) ws' (<[i := None]> src) dst' g'
  end.

(** [while (p) { q=p; p=p->next; }] entered with [p] non-null. *)
Fixpoint last_of (fuel : nat) (ws : list wall) (p : nat) : option nat :=
  match fuel with
  | O => None
  | S f =>
    w ← ws !! p;
    match next w with
    | None => Some p
    | Some p' => last_of f ws p'
    end
  end.

(** The final loop of [shuffle_walls], with [cnt] iterations left. *)
Fixpoint gather (fuel cnt i : nat) (ws : list wall) (head : list (option nat))
    (q first_wall : option nat)
  : option (list wall * option nat * option nat) :=
  match cnt with
  | O => Some (ws, first_wall, q)
  | S c =>
    p ← head !! i;
    match p with
    | None => gather fuel c (S i) ws head q first_wall
    | Some pi =>
      '(ws', first') ←
        match q with
        | Some qi => w ← ws !! qi; Some (<[qi := set_next w (Some pi)]> ws, first_wall)
        | None => Some (ws, Some pi)
        end;
      q' ← last_of fuel ws' pi;
      gather fuel c (S i) ws' head (Some q') first'
    end
  end.

(** [shuffle_walls]: the walls, [first_wall] and the generator afterwards.
    [head1] and [head2] are static arrays, all null at the start. *)
Definition shuffle_walls (fuel : nat) (ws : list wall) (g : rng)
  : option (list wall * option nat * rng) :=
  let head1 := replicate 1024 None in
  let head2 := replicate 1024 None in
  '(ws1, head1, g1) ← scatter fuel (Some O) ws head1 g;
  '(ws2, head1, head2, g2) ← pour fuel 1024 0 ws1 head1 head2 g1;
  '(ws3, head2, head1, g3) ← pour fuel 1024 0 ws2 head2 head1 g2;
  '(ws4, first_wall, _) ← gather fuel 1024 0 ws3 head1 None None;
  Some (ws4, first_wall, g3).

End Shuffle.

(** ** Carving (lines 283-319) *)

(** [Add_exits(dh,dl)] for the wall between [lo] and [hi]. *)
Definition add_exits (nodes : list node) (hi lo dh dl : Z) : option (list node) :=
  nh ← rd nodes hi;
  nodes1 ← wr nodes hi (Node.set_exits nh (Z.lor (Node.exits nh) dh));
  nl ← rd nodes1 lo;
  wr nodes1 lo (Node.set_exits nl (Z.lor (Node.exits nl) dl)).

(** The [delta] case analysis of [create_maze]. *)
Definition open_wall (n_rows : Z) (nodes : list node) (lo hi : Z)
  : option (list node) :=
  let delta := hi - lo in
  if decide (delta = 1) then add_exits nodes hi lo Down Up
  else if decide (0 < delta) then
    if decide (delta - n_rows = -1) then add_exits nodes hi lo LUp RDown
    else if decide (delta - n_rows = 0) then add_exits nodes hi lo LEq REq
    else if decide (delta - n_rows = 1) then add_exits nodes hi lo LDown RUp
    else Some nodes
  else
    if decide (delta + n_rows = -1) then add_exits nodes hi lo RUp LDown
    else if decide (delta + n_rows = 0) then add_exits nodes hi lo REq LEq
    else if decide (delta + n_rows = 1) then add_exits nodes hi lo RDown LUp
    else Some nodes.

(** What the loop body does to [cells] and [nodes] for the wall between
    [lo] and [hi]; the flag tells whether the wall was removed. *)
Definition try_wall (fuel : nat) (n_rows : Z) (cells : list Z)
    (nodes : list node) (lo hi : Z) : option (list Z * list node * bool) :=
  '(x, c1) ← UF.base fuel cells lo;
  '(y, c2) ← UF.base fuel c1 hi;
  if decide (x <> y) then
    c3 ← UF.unify c2 x y;
    nodes' ← open_wall n_rows nodes lo hi;
    Some (c3, nodes', true)
  else Some (c2, nodes, false).

Record maze := Maze {
  cells : list Z;
  nodes : list node;
  walls : list wall;
  first_wall : option nat
}.

(** The loop of [create_maze]; [bfuel] is the fuel handed to [base]. *)
Fixpoint create_loop (bfuel : nat) (n_rows : Z) (fuel : nat)
    (p q : option nat) (st : maze) : option (maze * option nat) :=
  match p with
  | None => Some (st, q)
  | Some pi =>
    match fuel with
    | O => None
    | S f =>
      w ← walls st !! pi;
      '(cells', nodes', removed) ←
        try_wall bfuel n_rows (cells st) (nodes st) (lower w) (higher w);
      if (removed : bool) then
        create_loop bfuel n_rows f (next w) q
          (Maze cells' nodes' (walls st) (first_wall st))
      else
        '(walls', first') ←
          match q with
          | Some qi =>
              wq ← walls st !! qi;
              Some (<[qi := set_next wq (Some pi)]> (walls st), first_wall st)
          | None => Some (walls st, Some pi)
          end;
        w' ← walls' !! pi;
        create_loop bfuel n_rows f (next w') (Some pi)
          (Maze cells' nodes' walls' first')
    end
  end.

(** [create_maze]; the second component is the final value of [q].  The
    closing [q->next=0] through a null [q] is undefined: [None]. *)
Definition create_maze (fuel : nat) (n_rows : Z) (st : maze)
  : option (maze * nat) :=
  '(st', q) ← create_loop fuel n_rows fuel (first_wall st) None st;
  qi ← q;
  wq ← walls st' !! qi;
  Some (Maze (cells st') (nodes st') (<[qi := set_next wq None]> (walls st'))
             (first_wall st'), qi).

(** [main] from [init_cells] to [create_maze], for a generator already
    seeded. *)
Definition make_maze {rng} (Random : rng -> Z * rng) (fuel : nat)
    (n_columns n_rows : Z) (g : rng) : option (maze * nat) :=
  ws ← init_walls n_columns n_rows;
  '(ws', fw, _) ← shuffle_walls Random fuel ws g;
  create_maze fuel n_rows
    (Maze (UF.init_cells (n_rows * n_columns))
          (init_nodes (n_rows * n_columns)) ws' fw).

(** The list-level reading of the loop: the walls in the order met. *)
Fixpoint carve (fuel : nat) (n_rows : Z) (cells : list Z) (nodes : list node)
    (l : list (Z * Z)) : option (list Z * list node * list bool) :=
  match l with
  | [] => Some (cells, nodes, [])
  | (lo, hi) :: l' =>
    '(cells', nodes', b) ← try_wall fuel n_rows cells nodes lo hi;
    '(cells'', nodes'', bs) ← carve fuel n_rows cells' nodes' l';
    Some (cells'', nodes'', b :: bs)
  end.

(** ** Undirected graphs on cell numbers *)

(** Edges given by a list of pairs. *)
Definition adj (E : list (Z * Z)) (a b : Z) : Prop := (a, b) ∈ E \/ (b, a) ∈ E.

(** The relation [R] without the edge between [a] and [b]. *)
Definition minus (R : relation Z) (a b : Z) : relation Z :=
  fun u v => R u v /\ ~ (u = a /\ v = b) /\ ~ (u = b /\ v = a).

(** Two cells are connected when a path of edges, taken in either
    direction, leads from one to the other. *)
Definition connected (R : relation Z) : relation Z := rtsc R.

Definition connected_graph (n : Z) (R : relation Z) : Prop :=
  forall a b, 0 <= a < n -> 0 <= b < n -> connected R a b.

(** Consecutive vertices of [c] are joined by an edge. *)
Fixpoint walk (R : relation Z) (c : list Z) : Prop :=
  match c with
  | a :: ((b :: _) as c') => sc R a b /\ walk R c'
  | _ => True
  end.

(** A cycle: at least three distinct vertices, each joined to the next
    and the last joined to the first. *)
Definition cycle (R : relation Z) (c : list Z) : Prop :=
  (3 <= length c)%nat /\ NoDup c /\ walk R c /\
  exists a z, head c = Some a /\ last c = Some z /\ sc R z a.

Definition acyclic (R : relation Z) : Prop := forall c, ~ cycle R c.

(** Every edge is a bridge. *)
Definition all_bridges (R : relation Z) : Prop :=
  forall a b, R a b -> ~ connected (minus (sc R) a b) a b.

(** The exit relation recorded in the bitmaps: [b] is the neighbour of
    [a] in a direction whose bit is set in [a]'s [exits]. *)
Definition exit_rel (n_rows : Z) (nodes : list node) (a b : Z) : Prop :=
  exists nd bit d, rd nodes a = Some nd /\ (bit, d) ∈ dirs n_rows /\
    Z.land (Node.exits nd) bit <> 0 /\ b = a + d.

(** Number of direction bits set in a bitmap, and in all of them. *)
Definition n_exits (e : Z) : nat :=
  length (filter (fun bit => Z.land e bit <> 0) [1; 2; 4; 8; 16; 32; 64; 128]).

(** The same count over any list of masks. *)
Definition count_bits (L : list Z) (e : Z) : nat :=
  length (filter (fun bit => Z.land e bit <> 0) L).

Definition total_exits (nodes : list node) : nat :=
  sum_list (map (fun nd => n_exits (Node.exits nd)) nodes).

(** The differences [higher - lower] the carving loop has a case for. *)
Definition known_delta (n_rows : Z) (d : Z) : Prop :=
  d = 1 \/ d = n_rows - 1 \/ d = n_rows \/ d = n_rows + 1 \/
  d = - n_rows - 1 \/ d = - n_rows \/ d = - n_rows + 1.

(** No wall is listed twice, in either direction. *)
Definition simple_edges (E : list (Z * Z)) : Prop :=
  NoDup E /\ forall a b, (a, b) ∈ E -> (b, a) ∉ E.

(** ** What the carving loop maintains *)

Definition same_root (cells : list Z) (a b : Z) : Prop :=
  exists r, UF.root_of cells a r /\ UF.root_of cells b r.

(** The forest and the list [E] of walls removed so far: two cells have
    the same root exactly when removed walls connect them, every removal
    merged two components, and every removed wall is a bridge. *)
Definition kruskal_inv (n : Z) (cells : list Z) (E : list (Z * Z)) : Prop :=
  Z.of_nat (length cells) = n /\
  UF.forest_ok cells /\
  (forall a b, 0 <= a < n -> 0 <= b < n ->
     (same_root cells a b <-> connected (adj E) a b)) /\
  (UF.count_roots cells + length E)%nat = Z.to_nat n /\
  all_bridges (adj E) /\
  simple_edges E.

(** The bitmaps record the removed walls, one bit at either end. *)
Definition exits_inv (n_rows : Z) (nodes : list node) (E : list (Z * Z)) : Prop :=
  (forall a b, exit_rel n_rows nodes a b <-> adj E a b) /\
  total_exits nodes = (2 * length E)%nat.

(** The walls of [l] flagged as removed, put in front of [E]. *)
Fixpoint opened (E : list (Z * Z)) (l : list (Z * Z)) (bs : list bool)
  : list (Z * Z) :=
  match l, bs with
  | e :: l', b :: bs' => opened (if b then e :: E else E) l' bs'
  | _, _ => E
  end.

(** The elements of [l] flagged as kept. *)
Fixpoint kept {A} (l : list A) (bs : list bool) : list A :=
  match l, bs with
  | x :: l', b :: bs' => if b then kept l' bs' else x :: kept l' bs'
  | _, _ => []
  end.

(** The list of kept walls while [create_maze] is rebuilding it:
    [q] is the last kept wall and its [next] field is still to be set. *)
Definition kept_inv (ws : list wall) (q first_wall : option nat)
    (acc : list nat) : Prop :=
  match q with
  | None => acc = []
  | Some qi => exists acc0, acc = acc0 ++ [qi] /\ lseg ws first_wall acc0 qi /\
                 (qi < length ws)%nat
  end.

(** The end pairs of the walls numbered [l]. *)
Definition ends_of (ws : list wall) (l : list nat) (es : list (Z * Z)) : Prop :=
  Forall2 (fun x e => (ends <$> ws) !! x = Some e) l es.


(** ** Tree analysis (lines 345-393) *)

Module Tree.
Import Node.

Definition set_distance (nd : node) (v : Z) : node :=
  mk (exits nd) (n_kids nd) (kids nd) (first nd) (second nd) (furthest nd)
     (length nd) v.
Definition set_length (nd : node) (v : Z) : node :=
  mk (exits nd) (n_kids nd) (kids nd) (first nd) (second nd) (furthest nd)
     v (distance nd).
Definition set_furthest (nd : node) (p : option nat) : node :=
  mk (exits nd) (n_kids nd) (kids nd) (first nd) (second nd) p
     (length nd) (distance nd).
Definition set_first (nd : node) (p : option nat) : node :=
  mk (exits nd) (n_kids nd) (kids nd) p (second nd) (furthest nd)
     (length nd) (distance nd).
Definition set_second (nd : node) (p : option nat) : node :=
  mk (exits nd) (n_kids nd) (kids nd) (first nd) p (furthest nd)
     (length nd) (distance nd).

(** [n->field = ...]: a write through the pointer [n]. *)
Definition upd (nodes : list node) (n : nat) (f : node -> node)
  : option (list node) :=
  nd ← nodes !! n; Some (<[n := f nd]> nodes).

(** The locals [l1,ln1,d1,dn1,d2,dn2] of [analyse_tree]. *)
Record locals := Locals {
  l1 : Z; ln1 : option nat;
  d1 : Z; dn1 : option nat;
  d2 : Z; dn2 : option nat
}.

Definition locals0 : locals := Locals 0 None 0 None 0 None.

(** The three tests made on a child [m] once it has been analysed. *)
Definition visit (a : locals) (m : nat) (mn : node) : locals :=
  let a :=
    if decide (l1 a <= length mn)
    then Locals (length mn) (Some m) (d1 a) (dn1 a) (d2 a) (dn2 a) else a in
  if decide (d1 a <= distance mn)
  then Locals (l1 a) (ln1 a) (distance mn) (Some m) (d1 a) (dn1 a)
  else if decide (d2 a <= distance mn)
  then Locals (l1 a) (ln1 a) (d1 a) (dn1 a) (distance mn) (Some m)
  else a.

(** [while (--i>=0) { m=n->kids[i]; analyse_tree(m); ... }], entered
    with [i] iterations left; [rec] is the recursive call. *)
Fixpoint kid_loop (rec : list node -> nat -> option (list node))
    (n : nat) (i : nat) (nodes : list node) (a : locals)
  : option (list node * locals) :=
  match i with
  | O => Some (nodes, a)
  | S i' =>
    nd ← nodes !! n;
    m ← kids nd !! i';
    nodes' ← rec nodes m;
    mn ← nodes' !! m;
    kid_loop rec n i' nodes' (visit a m mn)
  end.

(** The leaf case:
    [n->first=n->second=n->furthest=n; n->length=n->distance=0;]. *)
Definition set_leaf (nodes : list node) (n : nat) : option (list node) :=
  nodes ← upd nodes n (fun nd => set_furthest nd (Some n));
  nodes ← upd nodes n (fun nd => set_second nd (Some n));
  nodes ← upd nodes n (fun nd => set_first nd (Some n));
  nodes ← upd nodes n (fun nd => set_distance nd 0);
  upd nodes n (fun nd => set_length nd 0).

(** The general case, from [d1+=n->n_kids] to the end. *)
Definition set_inner (nodes : list node) (n : nat) (a : locals)
  : option (list node) :=
  nd ← nodes !! n;
  let d1 := d1 a + n_kids nd in
  let d2 := d2 a + n_kids nd in
  (* n->distance=d1; n->furthest=dn1->furthest; *)
  nodes ← upd nodes n (fun nd => set_distance nd d1);
  m1 ← dn1 a;
  nm1 ← nodes !! m1;
  nodes ← upd nodes n (fun nd => set_furthest nd (furthest nm1));
  if decide (l1 a < d1 + d2) then
    nodes ← upd nodes n (fun nd => set_length nd (d1 + d2));
    nm1 ← nodes !! m1;
    nodes ← upd nodes n (fun nd => set_first nd (furthest nm1));
    match dn2 a with
    | Some m2 =>
        nm2 ← nodes !! m2;
        upd nodes n (fun nd => set_second nd (furthest nm2))
    | None => upd nodes n (fun nd => set_second nd (Some n))
    end
  else
    nodes ← upd nodes n (fun nd => set_length nd (l1 a));
    ml ← ln1 a;
    nml ← nodes !! ml;
    nodes ← upd nodes n (fun nd => set_first nd (first nml));
    nml ← nodes !! ml;
    upd nodes n (fun nd => set_second nd (second nml)).

Fixpoint analyse_tree (fuel : nat) (nodes : list node) (n : nat)
  : option (list node) :=
  match fuel with
  | O => None
  | S f =>
    nd ← nodes !! n;
    if decide (n_kids nd = 0) then set_leaf nodes n
    else
      '(nodes, a) ← kid_loop (analyse_tree f) n (Z.to_nat (n_kids nd)) nodes locals0;
      set_inner nodes n a
  end.

(** The part of a node that says what the tree is. *)
Definition shape (nd : node) : Z * list nat := (n_kids nd, kids nd).

(** The children of [x]: the first [n_kids] entries of [kids]. *)
Definition children (nodes : list node) (x : nat) : list nat :=
  match nodes !! x with
  | Some nd => take (Z.to_nat (n_kids nd)) (kids nd)
  | None => []
  end.

(** The nodes below [n], [n] first; [None] when a pointer leaves the
    array, a count exceeds the entries present, or [fuel] levels do not
    reach the leaves. *)
Fixpoint subtree (fuel : nat) (nodes : list node) (n : nat)
  : option (list nat) :=
  match fuel with
  | O => None
  | S f =>
    nd ← nodes !! n;
    if decide (0 <= n_kids nd <= Z.of_nat (List.length (kids nd))) then
      subs ← mapM (subtree f nodes) (take (Z.to_nat (n_kids nd)) (kids nd));
      Some (n :: concat subs)
    else None
  end.

(** [n] is the root of a tree: the nodes below it are all distinct. *)
Definition is_tree (nodes : list node) (n : nat) (l : list nat) : Prop :=
  exists fuel, subtree fuel nodes n = Some l /\ NoDup l.

Definition dist (nodes : list node) (y : nat) : Z :=
  match nodes !! y with Some nd => distance nd | None => 0 end.
Definition len (nodes : list node) (y : nat) : Z :=
  match nodes !! y with Some nd => length nd | None => 0 end.
Definition far (nodes : list node) (y : nat) : option nat :=
  nodes !! y ≫= furthest.
Definition fst_end (nodes : list node) (y : nat) : option nat :=
  nodes !! y ≫= first.
Definition snd_end (nodes : list node) (y : nat) : option nat :=
  nodes !! y ≫= second.

(** A node without children. *)
Definition leaf_rule (nodes : list node) (x : nat) : Prop :=
  dist nodes x = 0 /\ len nodes x = 0 /\
  fst_end nodes x = Some x /\ snd_end nodes x = Some x /\
  far nodes x = Some x.

(** How [x] combines its children when the two largest distances are
    those of [c1] and [c2], incremented to [D1 >= D2], and the largest
    length is that of [cl]. *)
Definition combine (nodes : list node) (x c1 cl : nat) (D1 D2 : Z)
    (sec : option nat) : Prop :=
  dist nodes x = D1 /\ far nodes x = far nodes c1 /\
  if decide (len nodes cl < D1 + D2) then
    len nodes x = D1 + D2 /\ fst_end nodes x = far nodes c1 /\
    snd_end nodes x = sec
  else
    len nodes x = len nodes cl /\ fst_end nodes x = fst_end nodes cl /\
    snd_end nodes x = snd_end nodes cl.

(** A node with children, as the specification words it: [c1] and [c2]
    are two children with the largest [distance] values, [cl] is a child
    with the largest [length]. *)
Definition internal_rule (nodes : list node) (x : nat) : Prop :=
  let K := children nodes x in
  let k := Z.of_nat (List.length K) in
  exists c1 c2 cl,
    c1 ∈ K /\ c2 ∈ K /\ cl ∈ K /\ c1 <> c2 /\
    (forall y, y ∈ K -> dist nodes y <= dist nodes c1) /\
    (forall y, y ∈ K -> y <> c1 -> dist nodes y <= dist nodes c2) /\
    (forall y, y ∈ K -> len nodes y <= len nodes cl) /\
    combine nodes x c1 cl (dist nodes c1 + k) (dist nodes c2 + k)
            (far nodes c2).

(** A node with a single child [c]: the second distance is the child
    count itself and the second end is the node. *)
Definition single_rule (nodes : list node) (x c : nat) : Prop :=
  combine nodes x c c (dist nodes c + 1) 1 (Some x).

(** The rule of the specification, for every node. *)
Definition claimed_rule (nodes : list node) (x : nat) : Prop :=
  match children nodes x with
  | [] => leaf_rule nodes x
  | _ => internal_rule nodes x
  end.

(** The rule the code follows. *)
Definition actual_rule (nodes : list node) (x : nat) : Prop :=
  match children nodes x with
  | [] => leaf_rule nodes x
  | [c] => single_rule nodes x c
  | _ => internal_rule nodes x
  end.

(** What the loop over the children has established once the children
    [P] have been visited. *)
Definition visited (nodes : list node) (P : list nat) (a : locals) : Prop :=
  match P with
  | [] => a = locals0
  | _ =>
    exists c1 cl,
      dn1 a = Some c1 /\ ln1 a = Some cl /\ c1 ∈ P /\ cl ∈ P /\
      d1 a = dist nodes c1 /\ l1 a = len nodes cl /\
      (forall y, y ∈ P -> dist nodes y <= d1 a) /\
      (forall y, y ∈ P -> len nodes y <= l1 a) /\
      match P with
      | [_] => dn2 a = None /\ d2 a = 0
      | _ => exists c2, dn2 a = Some c2 /\ c2 ∈ P /\ c2 <> c1 /\
               d2 a = dist nodes c2 /\
               (forall y, y ∈ P -> y <> c1 -> dist nodes y <= d2 a)
      end
  end.

(** A root with [k] leaves below it, built by hand: node [0] is the
    root, nodes [1..k] the leaves. *)
Definition star (k : nat) : list node :=
  mk 0 (Z.of_nat k) (seq 1 k) None None None 0 0 :: replicate k zero.

(** A root with one leaf below it. *)
Definition chain2 : list node :=
  [mk 0 1 [1%nat] None None None 0 0; zero].

(** Two levels: the root [0] has the children [1] and [2], node [1] has
    the child [3]. *)
Definition two_level : list node :=
  [mk 0 2 [1%nat; 2%nat] None None None 0 0;
   mk 0 1 [3%nat] None None None 0 0; zero; zero].

End Tree.

(** A small linear congruential generator, to run the model on. *)
Definition lcg (g : Z) : Z * Z :=
  let g' := (g * 1103515245 + 12345) mod 2147483648 in (g' / 65536, g').

(** ** Seeding the generator (lines 210-231, 551) *)

(** What the C library and the system report when [init_rand] runs. *)
Record clock_env := Env {
  clock : Z;      (* clock() *)
  time0 : Z;      (* time(0), and t.time *)
  millitm : Z;    (* t.millitm *)
  pid : Z         (* getpid() *)
}.

(** [init_rand]: the value handed to [SRandom], which is also the seed
    printed on the maze.  [sun] tells whether the program was compiled
    with [-DSUN]; [seed] is the static variable, zero unless [main] read
    a third argument into it. *)
Definition init_rand (sun : bool) (env : clock_env) (seed : Z) : Z :=
  let seed :=
    if sun then
      if decide (seed = 0)
      then Z.shiftl (time0 env) 8 + millitm env + Z.shiftl (pid env) 16
      else seed
    else clock env + time0 env in
  Z.land seed 2147483647.

(** [if (argc==4) seed=atoi(argv[3]);] followed by [init_rand()]. *)
Definition main_seed (sun : bool) (env : clock_env) (arg : option Z) : Z :=
  init_rand sun env (default 0 arg).

(** ** Component sizes *)

(** The sizes recorded in the roots, added up. *)
Definition size_sum (cells : list Z) : Z :=
  foldr (fun v s => (if decide (v < 0) then - v else 0) + s) 0 cells.

(** ** Directions on the hexagonal array (lines 93-103) *)

(** The step in (column, place in column) each exit bit stands for, as
    the comments on the enumeration give it. *)
Definition geo : list (Z * (Z * Z)) :=
  [ (Up, (0, 1)); (Down, (0, -1));
    (LDown, (-1, -1)); (RDown, (1, -1));
    (LEq, (-1, 0)); (REq, (1, 0));
    (LUp, (-1, 1)); (RUp, (1, 1)) ].

(** The bitmaps agree with the geometry: a bit is set in the bitmap of
    cell [(k,l)] exactly when the step it stands for leads to a
    neighbouring cell of the array and the wall between the two is in
    [E]; no other bit is set. *)
Definition exits_geo (m n : Z) (nodes : list node) (E : list (Z * Z)) : Prop :=
  forall k l, in_grid m n k l ->
    exists nd, rd nodes (cell_no n k l) = Some nd /\
      0 <= Node.exits nd < 256 /\
      forall bit dk dl, (bit, (dk, dl)) ∈ geo ->
        (Z.land (Node.exits nd) bit <> 0 <->
         in_grid m n (k + dk) (l + dl) /\
         neighbour k l (k + dk) (l + dl) /\
         adj E (cell_no n k l) (cell_no n (k + dk) (l + dl))).

(** ** Building the tree (lines 321-343) *)

(** [exits] is an [int]; the mark [0x80000000] is tested and set on its
    32-bit pattern, and the pattern with the mark set is a negative
    [int]. *)
Definition visited_mark : Z := 2147483648.
Definition to_unsigned (z : Z) : Z := z mod 4294967296.

(** [exits&0x80000000] *)
Definition is_visited (exits : Z) : Prop :=
  Z.land (to_unsigned exits) visited_mark <> 0.

Global Instance is_visited_dec exits : Decision (is_visited exits).
Proof. unfold is_visited. apply _. Defined.

(** [exits|0x80000000], stored back into the [int]. *)
Definition mark (exits : Z) : Z :=
  to_int (Z.lor (to_unsigned exits) visited_mark).

Definition set_n_kids (nd : node) (v : Z) : node :=
  Node.mk (Node.exits nd) v (Node.kids nd) (Node.first nd) (Node.second nd)
          (Node.furthest nd) (Node.length nd) (Node.distance nd).
Definition set_kids (nd : node) (ks : list nat) : node :=
  Node.mk (Node.exits nd) (Node.n_kids nd) ks (Node.first nd) (Node.second nd)
          (Node.furthest nd) (Node.length nd) (Node.distance nd).

(** [n->kids[nk]=p].  The array has six slots; the list holds the slots
    written so far, so a write lands on one of them or just behind
    them.  A write outside the six slots is undefined: [None]. *)
Definition set_kid (ks : list nat) (nk : Z) (p : nat) : option (list nat) :=
  if decide (0 <= nk < 6) then
    if decide (Z.to_nat nk < length ks)%nat then Some (<[Z.to_nat nk := p]> ks)
    else if decide (Z.to_nat nk = length ks) then Some (ks ++ [p])
    else None
  else None.

(** The eight lines
    [if (exits&bit) if (build_tree(n+d)) n->kids[nk++]=n+d;]
    for the directions [ds] still to probe; [rec] is the recursive
    call. *)
Fixpoint probe (rec : list node -> Z -> option (list node * bool))
    (n exits : Z) (ds : list (Z * Z)) (nodes : list node) (nk : Z)
  : option (list node * Z) :=
  match ds with
  | [] => Some (nodes, nk)
  | (bit, d) :: ds' =>
    if decide (Z.land exits bit <> 0) then
      '(nodes1, r) ← rec nodes (n + d);
      if (r : bool) then
        nd ← rd nodes1 n;
        ks ← set_kid (Node.kids nd) nk (Z.to_nat (n + d));
        nodes2 ← wr nodes1 n (set_kids nd ks);
        probe rec n exits ds' nodes2 (nk + 1)
      else probe rec n exits ds' nodes1 nk
    else probe rec n exits ds' nodes nk
  end.

(** [build_tree]: the nodes afterwards and the value returned. *)
Fixpoint build_tree (fuel : nat) (n_rows : Z) (nodes : list node) (n : Z)
  : option (list node * bool) :=
  match fuel with
  | O => None
  | S f =>
    nd ← rd nodes n;
    let exits := Node.exits nd in
    if decide (is_visited exits) then Some (nodes, false)
    else
      nodes ← wr nodes n (Node.set_exits nd (mark exits));
      '(nodes, nk) ← probe (build_tree f n_rows) n exits (dirs n_rows) nodes 0;
      nd ← rd nodes n;
      nodes ← wr nodes n (set_n_kids nd nk);
      Some (nodes, true)
  end.

(** The cells on the [n] side of the edge between [p] and [n]: those
    joined to [n] by a path that does not use that edge. *)
Definition side (G : relation Z) (p n : Z) : Z -> Prop :=
  connected (minus (sc G) p n) n.

(** ** What [build_tree] maintains *)

(** Visited: the mark makes [exits] negative. *)
Definition vis (nodes : list node) (x : Z) : Prop :=
  exists nd, rd nodes x = Some nd /\ Node.exits nd < 0.

(** Every node of [nodes] has the bitmap it had in [nodes0], or that
    bitmap with the mark. *)
Definition marking (nodes0 nodes : list node) : Prop :=
  length nodes = length nodes0 /\
  forall x nd, rd nodes x = Some nd ->
    rd nodes0 x = Some nd \/
    exists nd0, rd nodes0 x = Some nd0 /\
      Node.exits nd = mark (Node.exits nd0).

(** What [build_tree] does on a node [n] not yet visited, entered from
    [p], when nothing on the [n] side of that edge has been visited. *)
Definition builds (n_rows : Z) (nodes0 : list node) (f : nat)
    (rec : list node -> Z -> option (list node * bool)) : Prop :=
  let G := exit_rel n_rows nodes0 in
  forall nodes p n (L : list Z),
    marking nodes0 nodes ->
    (forall x, side G p n x -> rd nodes x = rd nodes0 x) ->
    is_Some (rd nodes0 n) ->
    (G n p -> vis nodes p) ->
    (forall x, side G p n x -> x ∈ L) -> (length L < f)%nat ->
    exists nodes' l,
      rec nodes n = Some (nodes', true) /\
      marking nodes0 nodes' /\
      (forall x, ~ side G p n x -> rd nodes' x = rd nodes x) /\
      (forall x, side G p n x -> vis nodes' x) /\
      Tree.subtree f nodes' (Z.to_nat n) = Some l /\ NoDup l /\
      (forall x : nat, x ∈ l <-> side G p n (Z.of_nat x)) /\
      (forall x c, x ∈ l -> c ∈ Tree.children nodes' x ->
         G (Z.of_nat x) (Z.of_nat c)) /\
      (forall m, G n m ->
         m = p \/ Z.to_nat m ∈ Tree.children nodes' (Z.to_nat n)) /\
      (forall x, x ∈ l -> exists px, forall m, G (Z.of_nat x) m ->
         m = px \/ Z.to_nat m ∈ Tree.children nodes' x).

(** What holds between two of the eight probes at [n]: [K] are the kids
    entered so far, [subs] the nodes below each of them, [ds] the
    directions still to probe, [nodesC] the nodes when [build_tree] was
    called on [n]. *)
Definition probe_inv (n_rows : Z) (nodes0 : list node) (f : nat)
    (nodesC : list node) (p n : Z) (e0 : Z)
    (ds : list (Z * Z)) (nodes : list node) (K : list Z)
    (subs : list (list nat)) : Prop :=
  let G := exit_rel n_rows nodes0 in
  marking nodes0 nodes /\
  (exists ndn, rd nodes n = Some ndn /\ Node.exits ndn < 0 /\
     take (length K) (Node.kids ndn) = Z.to_nat <$> K) /\
  (forall m, m ∈ K -> G n m /\ m <> p) /\
  length K = length subs /\
  (forall j m lm, K !! j = Some m -> subs !! j = Some lm ->
     Tree.subtree f nodes (Z.to_nat m) = Some lm /\
     (forall x : nat, x ∈ lm <-> side G n m (Z.of_nat x)) /\
     (forall x c, x ∈ lm -> c ∈ Tree.children nodes x ->
        G (Z.of_nat x) (Z.of_nat c)) /\
     (forall x, x ∈ lm -> exists px, forall m', G (Z.of_nat x) m' ->
        m' = px \/ Z.to_nat m' ∈ Tree.children nodes x)) /\
  NoDup (concat subs) /\
  (forall x, (x = n \/ exists m, m ∈ K /\ side G n m x) -> vis nodes x) /\
  (forall x, side G p n x -> x <> n ->
     (forall m, m ∈ K -> ~ side G n m x) -> rd nodes x = rd nodes0 x) /\
  (forall x, ~ side G p n x -> rd nodes x = rd nodesC x) /\
  (length K + count_bits ds.*1 e0 <= 6)%nat /\
  (forall m, G n m -> m = p \/ m ∈ K \/
     exists bit d, (bit, d) ∈ ds /\ Z.land e0 bit <> 0 /\ m = n + d).

(** ** The two ends found by [analyse_tree] *)

(** What the fields of [n] say once the rule holds in the tree [l]
    below [n]: [furthest] and [first] are leaves of the tree; [second]
    is a leaf, or [n] itself when [n] has one child and the longest
    path ends at [n]; with a child, [first] and [second] differ. *)
Definition ends_ok (nodes : list node) (l : list nat) (n : nat) : Prop :=
  0 <= Tree.dist nodes n <= Tree.len nodes n /\
  (exists a, Tree.far nodes n = Some a /\ a ∈ l /\ Tree.children nodes a = []) /\
  (exists b, Tree.fst_end nodes n = Some b /\ b ∈ l /\
     Tree.children nodes b = []) /\
  (exists c, Tree.snd_end nodes n = Some c /\ c ∈ l /\
     (Tree.children nodes c = [] \/
      (c = n /\ Tree.len nodes n = Tree.dist nodes n + 1 /\
       exists k, Tree.children nodes n = [k]))) /\
  (Tree.children nodes n <> [] ->
     Tree.fst_end nodes n <> Tree.snd_end nodes n /\ 1 <= Tree.dist nodes n).

(** ** The picture (lines 395-496) *)

(** The letter printed for a cell of column [i] whose bitmap is [x]
    (lines 482-486): [printf("%c",65+x)] after
    [x = ((x&Up)?0:1) | ((x&LUp)?0:2) | ((x&RUp)?0:4)] in an odd column,
    with [LEq] and [REq] in an even one. *)
Definition cell_letter (i x : Z) : Z :=
  let x' :=
    if decide (Z.land i 1 <> 0) then
      Z.lor (Z.lor (if decide (Z.land x Up <> 0) then 0 else 1)
                   (if decide (Z.land x LUp <> 0) then 0 else 2))
            (if decide (Z.land x RUp <> 0) then 0 else 4)
    else
      Z.lor (Z.lor (if decide (Z.land x Up <> 0) then 0 else 1)
                   (if decide (Z.land x LEq <> 0) then 0 else 2))
            (if decide (Z.land x REq <> 0) then 0 else 4) in
  65 + x'.

(** The inner walls: the letters of the cells, column by column (lines
    480-488). *)
Definition inner_walls (n_columns n_rows : Z) (nodes : list node)
  : option (list (list Z)) :=
  mapM (fun i =>
    mapM (fun j =>
      nd ← rd nodes (i * n_rows + j);
      Some (cell_letter i (Node.exits nd)))
    (seqZ 0 n_rows))
  (seqZ 0 n_columns).

(** The walls a letter draws, by the operators the prologue defines
    (lines 456-463): [/A] draws nothing, [/B {N A}], [/C {NW A}],
    [/D {NW N A}], [/E {NE A}], [/F {N NE A}], [/G {NW NE A}],
    [/H {NW N NE A}]. *)
Inductive drawn := N_wall | NW_wall | NE_wall.

Global Instance drawn_eq_dec : EqDecision drawn.
Proof. solve_decision. Defined.

Definition letter_walls (c : Z) : list drawn :=
  if decide (c = 66) then [N_wall]
  else if decide (c = 67) then [NW_wall]
  else if decide (c = 68) then [NW_wall; N_wall]
  else if decide (c = 69) then [NE_wall]
  else if decide (c = 70) then [N_wall; NE_wall]
  else if decide (c = 71) then [NW_wall; NE_wall]
  else if decide (c = 72) then [NW_wall; N_wall; NE_wall]
  else [].

(** The cell across each of the three walls of cell [(k,l)]: above it,
    to its upper left and to its upper right.  Even columns lie half a
    cell lower than odd ones. *)
Definition across (w : drawn) (k l : Z) : Z * Z :=
  match w with
  | N_wall => (k, l + 1)
  | NW_wall => (k - 1, if decide (Z.land k 1 <> 0) then l + 1 else l)
  | NE_wall => (k + 1, if decide (Z.land k 1 <> 0) then l + 1 else l)
  end.

(** ** The whole run (lines 540-582) *)

(** [main] from [init_cells] to the call of [print_maze], once the three
    arrays have been allocated: the final state and the two arguments
    [nodes->first-nodes] and [nodes->second-nodes], for a generator
    already seeded. *)
Definition run {rng} (Random : rng -> Z * rng) (fuel : nat)
    (n_columns n_rows : Z) (g : rng) : option (maze * nat * nat) :=
  '(st, _) ← make_maze Random fuel n_columns n_rows g;
  '(nodes1, _) ← build_tree fuel n_rows (nodes st) 0;
  nodes2 ← Tree.analyse_tree fuel nodes1 0;
  root ← nodes2 !! 0%nat;
  start ← Node.first root;
  finish ← Node.second root;
  Some (Maze (cells st) nodes2 (walls st) (first_wall st), start, finish).

(** The three arrays the program asks memory for: [cells] and [nodes]
    in [init_cells] (lines 110 and 116), [walls] in [init_walls] (line
    173). *)
Inductive block := Cells_block | Nodes_block | Walls_block.

(** [alloc b] tells whether [malloc] or [calloc] gives the array [b].
    The program asks for the three in this order, and stops at the
    first it does not get. *)
Definition first_refused (alloc : block -> bool) : option block :=
  if negb (alloc Cells_block) then Some Cells_block
  else if negb (alloc Nodes_block) then Some Nodes_block
  else if negb (alloc Walls_block) then Some Walls_block
  else None.

(** The arguments [main] goes on with: two or three of them, the first
    two in 2..1000. *)
Definition good_args (args : list Z) : Prop :=
  (length args = 2%nat \/ length args = 3%nat) /\
  exists c r, args !! 0%nat = Some c /\ args !! 1%nat = Some r /\
    2 <= c <= 1000 /\ 2 <= r <= 1000.

(** How [main] ends: with the usage message and 0; with the message
    about the dimensions and 1; with the message that there is not
    enough memory for an array and [exit(1)]; or with 0 after
    [print_maze] has been called with the seed, the nodes and the two
    ends. *)
Inductive outcome :=
| Usage
| Bad_dimensions
| No_memory (b : block)
| Printed (seed : Z) (st : maze) (start finish : nat).

(** [main]; [args] are the values [atoi] gives for [argv[1]], ...,
    [alloc] tells which arrays the program can get, and [SRandom] seeds
    the generator. *)
Definition main {rng} (sun : bool) (env : clock_env) (alloc : block -> bool)
    (SRandom : Z -> rng) (Random : rng -> Z * rng) (fuel : nat)
    (args : list Z) : option outcome :=
  if decide (length args <> 2%nat /\ length args <> 3%nat) then Some Usage
  else
    n_columns ← args !! 0%nat;
    n_rows ← args !! 1%nat;
    if decide (n_columns < 2 \/ n_rows < 2 \/ n_columns > 1000 \/ n_rows > 1000)
    then Some Bad_dimensions
    else
      let seed := main_seed sun env (args !! 2%nat) in
      match first_refused alloc with
      | Some b => Some (No_memory b)
      | None =>
        '(st, start, finish) ← run Random fuel n_columns n_rows (SRandom seed);
        Some (Printed seed st start finish)
      end.

(** The exit bit [print_maze] tests for each wall of a cell of column
    [i]. *)
Definition wall_bit (i : Z) (w : drawn) : Z :=
  match w with
  | N_wall => Up
  | NW_wall => if decide (Z.land i 1 <> 0) then LUp else LEq
  | NE_wall => if decide (Z.land i 1 <> 0) then RUp else REq
  end.

(** * Facts about guarded array accesses *)

Section Arrays.
Context {A : Type}.
Implicit Types (a : list A) (i j : Z) (v : A).

Lemma rd_Some_range a i v : rd a i = Some v -> 0 <= i < Z.of_nat (length a).
Proof.
  unfold rd. case_decide; [|done]. intros H1.
  apply lookup_lt_Some in H1. lia.
Qed.

Lemma rd_is_Some a i : 0 <= i < Z.of_nat (length a) -> is_Some (rd a i).
Proof.
  intros Hi. unfold rd. case_decide; [|lia].
  apply lookup_lt_is_Some. lia.
Qed.

Lemma wr_is_Some a i v :
  0 <= i < Z.of_nat (length a) -> wr a i v = Some (<[Z.to_nat i := v]> a).
Proof. intros Hi. unfold wr. by case_decide. Qed.

Lemma wr_Some a i v a' :
  wr a i v = Some a' ->
  0 <= i < Z.of_nat (length a) /\ a' = <[Z.to_nat i := v]> a.
Proof. unfold wr. case_decide; [|done]. intros [= <-]. done. Qed.

Lemma wr_length a i v a' : wr a i v = Some a' -> length a' = length a.
Proof. intros [_ ->]%wr_Some. apply length_insert. Qed.

Lemma rd_wr_eq a i v a' : wr a i v = Some a' -> rd a' i = Some v.
Proof.
  intros [Hi ->]%wr_Some. unfold rd. case_decide; [|lia].
  apply list_lookup_insert_eq. lia.
Qed.

Lemma rd_wr_ne a i v a' j : wr a i v = Some a' -> j <> i -> rd a' j = rd a j.
Proof.
  intros [Hi ->]%wr_Some Hne. unfold rd. case_decide; [|done].
  apply list_lookup_insert_ne. lia.
Qed.

Lemma rd_ext a a' :
  length a = length a' -> (forall i, rd a i = rd a' i) -> a = a'.
Proof.
  intros _ H. apply list_eq. intros k.
  specialize (H (Z.of_nat k)). unfold rd in H.
  case_decide; [|lia]. by rewrite Nat2Z.id in H.
Qed.

End Arrays.

Lemma bind_Some {A B} (x : A) (f : A -> option B) : Some x ≫= f = f x.
Proof. reflexivity. Qed.

Ltac bind_ok := rewrite bind_Some; cbv beta iota.

(** * The disjoint-set forest *)

Import UF.

Lemma chain_rd cells x l r : chain cells x l r -> is_Some (rd cells x).
Proof. destruct 1; eauto. Qed.

Lemma chain_det cells x l r :
  chain cells x l r -> forall l' r', chain cells x l' r' -> l = l' /\ r = r'.
Proof.
  induction 1 as [x v Hx Hv|x v l r Hx Hv Hc IH]; intros l' r' H'.
  - inversion H'; subst; [done|]. simplify_eq. lia.
  - inversion H'; subst; simplify_eq; [lia|].
    destruct (IH _ _ ltac:(eassumption)) as [-> ->]. done.
Qed.

Lemma chain_root_neg cells x l r :
  chain cells x l r -> exists v, rd cells r = Some v /\ v < 0.
Proof. induction 1; eauto. Qed.

Lemma chain_of_root cells r v :
  rd cells r = Some v -> v < 0 -> forall l r', chain cells r l r' -> l = [] /\ r' = r.
Proof.
  intros Hr Hv l r' H. pose proof (chain_root cells r v Hr Hv) as H0.
  destruct (chain_det _ _ _ _ H0 _ _ H) as [<- <-]. done.
Qed.

Lemma chain_suffix cells x l r :
  chain cells x l r -> forall y, y ∈ l ->
  exists l1 l2, l = l1 ++ y :: l2 /\ chain cells y (y :: l2) r.
Proof.
  induction 1 as [x v Hx Hv|x v l r Hx Hv Hc IH]; intros y Hy.
  - by apply elem_of_nil in Hy.
  - apply elem_of_cons in Hy as [->|Hy].
    + exists [], l. split; [done|]. by econstructor.
    + destruct (IH _ Hy) as (l1 & l2 & -> & H). exists (x :: l1), l2. done.
Qed.

Lemma chain_root_final cells x l r : chain cells x l r -> chain cells r [] r.
Proof.
  intros H. destruct (chain_root_neg _ _ _ _ H) as (v & Hr & Hv).
  by econstructor.
Qed.

Lemma chain_root_notin cells x l r : chain cells x l r -> r ∉ l.
Proof.
  intros H Hin. destruct (chain_suffix _ _ _ _ H _ Hin) as (l1 & l2 & -> & H2).
  pose proof (chain_root_final _ _ _ _ H) as H0.
  by destruct (chain_det _ _ _ _ H0 _ _ H2) as [? _].
Qed.

Lemma chain_NoDup cells x l r : chain cells x l r -> NoDup l.
Proof.
  induction 1 as [x v Hx Hv|x v l r Hx Hv Hc IH]; [constructor|].
  constructor; [|done]. intros Hin.
  destruct (chain_suffix _ _ _ _ Hc _ Hin) as (l1 & l2 & E & H2).
  assert (H3 : chain cells x (x :: l) r) by (by econstructor).
  destruct (chain_det _ _ _ _ H3 _ _ H2) as [E' _].
  simplify_eq. apply (f_equal length) in E'.
  rewrite length_app in E'. simpl in E'. lia.
Qed.

Lemma chain_range cells x l r :
  chain cells x l r -> forall y, y ∈ l -> 0 <= y < Z.of_nat (length cells).
Proof.
  induction 1 as [x v Hx Hv|x v l r Hx Hv Hc IH]; intros y Hy.
  - by apply elem_of_nil in Hy.
  - apply elem_of_cons in Hy as [->|Hy]; [|by apply IH].
    by apply rd_Some_range in Hx.
Qed.

Lemma chain_root_range cells x l r :
  chain cells x l r -> 0 <= r < Z.of_nat (length cells).
Proof.
  intros (v & Hr & _)%chain_root_neg. by apply rd_Some_range in Hr.
Qed.

Lemma chain_start_range cells x l r :
  chain cells x l r -> 0 <= x < Z.of_nat (length cells).
Proof. intros [v Hv]%chain_rd. by apply rd_Some_range in Hv. Qed.

Lemma NoDup_range_length (l : list Z) (n : nat) :
  NoDup l -> (forall y, y ∈ l -> 0 <= y < Z.of_nat n) -> (length l <= n)%nat.
Proof.
  intros Hnd Hr.
  assert (H : l ⊆+ (Z.of_nat <$> seq 0 n)).
  { apply NoDup_submseteq; [done|]. intros y Hy. apply Hr in Hy.
    apply list_elem_of_fmap. exists (Z.to_nat y). split; [lia|].
    apply elem_of_seq. lia. }
  apply submseteq_length in H. by rewrite length_fmap, length_seq in H.
Qed.

(** A chain has strictly fewer links than there are cells. *)
Lemma chain_length cells x l r :
  chain cells x l r -> (length l < length cells)%nat.
Proof.
  intros H.
  assert (Hnd : NoDup (r :: l)).
  { constructor; [by eapply chain_root_notin|by eapply chain_NoDup]. }
  apply NoDup_range_length with (n := length cells) in Hnd; [simpl in Hnd; lia|].
  intros y [->|Hy]%elem_of_cons.
  - by eapply chain_root_range.
  - by eapply chain_range.
Qed.

(** Writing outside a chain leaves the chain alone. *)
Lemma chain_frame cells x l r :
  chain cells x l r -> forall y z cells',
  wr cells y z = Some cells' -> y ∉ l -> y <> r -> chain cells' x l r.
Proof.
  induction 1 as [x v Hx Hv|x v l r Hx Hv Hc IH]; intros y z cells' Hw Hy Hr.
  - apply chain_root with v; [|done]. by rewrite (rd_wr_ne _ _ _ _ _ Hw).
  - apply not_elem_of_cons in Hy as [Hxy Hy].
    apply chain_step with v; [|done|by eapply IH].
    by rewrite (rd_wr_ne _ _ _ _ _ Hw).
Qed.

Lemma find_root_spec cells z l r :
  chain cells z l r -> forall fuel y,
  rd cells z = Some y -> (length l <= fuel)%nat ->
  find_root fuel cells y z = Some r.
Proof.
  induction 1 as [x v Hx Hv|x v l r Hx Hv Hc IH]; intros fuel y Hy Hf.
  - simplify_eq. destruct fuel; simpl; by case_decide; try lia.
  - simplify_eq. destruct fuel as [|f]; [simpl in Hf; lia|]. simpl.
    case_decide; [|lia]. destruct (chain_rd _ _ _ _ Hc) as [y' Hy'].
    rewrite Hy'. simpl. apply IH; [done|]. simpl in Hf. lia.
Qed.

Lemma snap_spec l : forall cells y r fuel,
  chain cells y l r -> (length l <= fuel)%nat ->
  exists cells', snap fuel cells y r = Some cells' /\
    length cells' = length cells /\
    (forall c, c ∈ l -> rd cells' c = Some r) /\
    (forall c, c ∉ l -> rd cells' c = rd cells c).
Proof.
  induction l as [|x l IH]; intros cells y r fuel Hc Hf.
  - inversion Hc; subst. exists cells.
    split; [|split; [done|split; [|done]]].
    + destruct fuel; simpl; rewrite H; simpl; by case_decide; try lia.
    + intros c Hin. by apply elem_of_nil in Hin.
  - pose proof (chain_NoDup _ _ _ _ Hc) as Hnd.
    pose proof (chain_root_notin _ _ _ _ Hc) as Hrl.
    inversion Hc as [|? v ? ? Hx Hv Hc']; subst.
    apply NoDup_cons in Hnd as [Hxl Hnd].
    apply not_elem_of_cons in Hrl as [Hrx Hrl].
    destruct fuel as [|f]; [simpl in Hf; lia|]. simpl.
    rewrite Hx. simpl. case_decide; [|lia].
    pose proof (rd_Some_range _ _ _ Hx) as Hrg.
    rewrite (wr_is_Some _ _ r Hrg). simpl.
    set (c1 := <[Z.to_nat x := r]> cells).
    assert (Hw : wr cells x r = Some c1) by by apply wr_is_Some.
    assert (Hc1 : chain c1 v l r) by (eapply chain_frame; eauto).
    destruct (IH c1 v r f Hc1 ltac:(simpl in Hf; lia))
      as (cells' & Hs & Hlen & Hin & Hout).
    exists cells'. split; [done|]. split.
    { rewrite Hlen. by eapply wr_length. }
    split.
    + intros c [->|Hcl]%elem_of_cons; [|by apply Hin].
      rewrite Hout by done. by eapply rd_wr_eq.
    + intros c [Hcx Hcl]%not_elem_of_cons.
      rewrite Hout by done. by eapply rd_wr_ne.
Qed.

Lemma base_spec cells x l r fuel :
  chain cells x l r -> (length l <= fuel)%nat ->
  exists cells', base fuel cells x = Some (r, cells') /\
    length cells' = length cells /\
    (forall c, c ∈ l -> rd cells' c = Some r) /\
    (forall c, c ∉ l -> rd cells' c = rd cells c).
Proof.
  intros Hc Hf. destruct (chain_rd _ _ _ _ Hc) as [y Hy].
  destruct (snap_spec l cells x r fuel Hc Hf) as (cells' & Hs & H).
  exists cells'. split; [|done]. unfold base. rewrite Hy. simpl.
  rewrite (find_root_spec _ _ _ _ Hc fuel y Hy Hf). simpl.
  rewrite Hs. done.
Qed.

(** ** Path compression does not change who is whose root *)

Lemma chain_elem_link cells x l r c :
  chain cells x l r -> c ∈ l -> exists v, rd cells c = Some v /\ 0 <= v.
Proof.
  intros H Hin. destruct (chain_suffix _ _ _ _ H _ Hin) as (l1 & l2 & _ & H2).
  inversion H2; subst; eauto.
Qed.

Section Compression.
Variables (cells cells' : list Z) (x : Z) (l : list Z) (r : Z).
Hypothesis Hchain : chain cells x l r.
Hypothesis Hlen : length cells' = length cells.
Hypothesis Hin : forall c, c ∈ l -> rd cells' c = Some r.
Hypothesis Hout : forall c, c ∉ l -> rd cells' c = rd cells c.

Lemma compress_root : chain cells' r [] r.
Proof.
  destruct (chain_root_neg _ _ _ _ Hchain) as (v & Hr & Hv).
  apply chain_root with v; [|done]. rewrite Hout; [done|].
  by eapply chain_root_notin.
Qed.

Lemma compress_chain c lc rc : chain cells c lc rc -> root_of cells' c rc.
Proof.
  induction 1 as [c v Hc Hv|c v lc rc Hc Hv Hch [lc' IH]].
  - exists []. apply chain_root with v; [|done]. rewrite Hout; [done|].
    intros Hcl. destruct (chain_elem_link _ _ _ _ _ Hchain Hcl) as (v' & ? & ?).
    simplify_eq. lia.
  - destruct (decide (c ∈ l)) as [Hcl|Hcl].
    + destruct (chain_suffix _ _ _ _ Hchain _ Hcl) as (l1 & l2 & _ & H2).
      assert (H3 : chain cells c (c :: lc) rc) by (by econstructor).
      destruct (chain_det _ _ _ _ H3 _ _ H2) as [_ ->].
      exists [c]. apply chain_step with r; [by apply Hin| |apply compress_root].
      pose proof (chain_root_range _ _ _ _ Hchain). lia.
    + exists (c :: lc'). apply chain_step with v; [|done|done].
      by rewrite Hout.
Qed.

Lemma compress_root_of c rc :
  forest_ok cells -> root_of cells' c rc <-> root_of cells c rc.
Proof.
  intros Hok. split.
  - intros [lc Hc]. pose proof (chain_start_range _ _ _ _ Hc) as Hr.
    rewrite Hlen in Hr. destruct (Hok c Hr) as (rc0 & lc0 & H0).
    destruct (compress_chain _ _ _ H0) as [lc1 H1].
    destruct (chain_det _ _ _ _ Hc _ _ H1) as [_ ->]. by exists lc0.
  - intros [lc Hc]. by eapply compress_chain.
Qed.

Lemma compress_forest_ok : forest_ok cells -> forest_ok cells'.
Proof.
  intros Hok c Hc. rewrite Hlen in Hc. destruct (Hok c Hc) as (rc & lc & H).
  exists rc. by eapply compress_chain.
Qed.

End Compression.

(** ** Counting roots *)

Lemma count_roots_insert (cells : list Z) (i : nat) (u v : Z) :
  cells !! i = Some u ->
  (count_roots (<[i := v]> cells) + (if decide (u < 0)%Z then 1 else 0) =
   count_roots cells + (if decide (v < 0)%Z then 1 else 0))%nat.
Proof.
  unfold count_roots. revert i. induction cells as [|w cells IH]; intros i Hi.
  - by rewrite lookup_nil in Hi.
  - destruct i as [|i]; simpl in *.
    + simplify_eq. rewrite !filter_cons. repeat case_decide; simpl; lia.
    + specialize (IH i Hi). rewrite !filter_cons.
      repeat case_decide; simpl; lia.
Qed.

Lemma count_roots_wr cells i u v cells' :
  rd cells i = Some u -> wr cells i v = Some cells' ->
  (count_roots cells' + (if decide (u < 0)%Z then 1 else 0) =
   count_roots cells + (if decide (v < 0)%Z then 1 else 0))%nat.
Proof.
  intros Hr [Hi ->]%wr_Some. apply count_roots_insert.
  unfold rd in Hr. by case_decide.
Qed.

Lemma snap_count l : forall cells y r fuel cells',
  chain cells y l r -> snap fuel cells y r = Some cells' ->
  count_roots cells' = count_roots cells.
Proof.
  induction l as [|x l IH]; intros cells y r fuel cells' Hc Hs.
  - inversion Hc; subst. destruct fuel; simpl in Hs; rewrite H in Hs;
      simpl in Hs; case_decide; try lia; by simplify_eq.
  - pose proof (chain_NoDup _ _ _ _ Hc) as Hnd.
    pose proof (chain_root_notin _ _ _ _ Hc) as Hrl.
    pose proof (chain_root_range _ _ _ _ Hc) as Hrr.
    inversion Hc as [|? v ? ? Hx Hv Hc']; subst.
    apply NoDup_cons in Hnd as [Hxl Hnd].
    apply not_elem_of_cons in Hrl as [Hrx Hrl].
    destruct fuel as [|f]; simpl in Hs; rewrite Hx in Hs; simpl in Hs;
      (case_decide; [|lia]); [done|].
    destruct (wr cells x r) as [c1|] eqn:Hw; [|done]. simpl in Hs.
    assert (Hc1 : chain c1 v l r) by (eapply chain_frame; eauto).
    rewrite (IH _ _ _ _ _ Hc1 Hs).
    pose proof (count_roots_wr _ _ _ _ _ Hx Hw) as E.
    repeat case_decide; lia.
Qed.

Lemma base_count cells x l r fuel cells' :
  chain cells x l r -> (length l <= fuel)%nat ->
  base fuel cells x = Some (r, cells') ->
  count_roots cells' = count_roots cells.
Proof.
  intros Hc Hf Hb. destruct (snap_spec l cells x r fuel Hc Hf) as (c' & Hs & _).
  destruct (base_spec _ _ _ _ _ Hc Hf) as (c2 & Hb2 & _).
  rewrite Hb in Hb2. simplify_eq.
  unfold base in Hb. destruct (rd cells x) as [y0|]; [|done]. simpl in Hb.
  destruct (find_root fuel cells y0 x) as [z'|] eqn:Hz; [|done]. simpl in Hb.
  destruct (snap fuel cells x z') as [c3|] eqn:Hs3; [|done]. simpl in Hb.
  injection Hb as <- <-. by eapply snap_count.
Qed.

(** ** Linking one root under another *)

Section Link.
Variables (cells cells' : list Z) (child parent s : Z).
Hypothesis Hlen : length cells' = length cells.
Hypothesis Hchild : exists v, rd cells child = Some v /\ v < 0.
Hypothesis Hparent : exists v, rd cells parent = Some v /\ v < 0.
Hypothesis Hc' : rd cells' child = Some parent.
Hypothesis Hp' : rd cells' parent = Some s.
Hypothesis Hs : s < 0.
Hypothesis Hother :
  forall c, c <> child -> c <> parent -> rd cells' c = rd cells c.

Local Abbreviation relink := (UF.relink child parent).

Lemma link_parent_root : chain cells' parent [] parent.
Proof. by apply chain_root with s. Qed.

Lemma link_chain c lc rc : chain cells c lc rc -> root_of cells' c (relink rc).
Proof.
  destruct Hchild as (vc & Hvc & Hvc0). destruct Hparent as (vp & Hvp & Hvp0).
  induction 1 as [c v Hc Hv|c v lc rc Hc Hv Hch [lc' IH]]; unfold relink in *.
  - case_decide as E.
    + subst. exists [child]. apply chain_step with parent; [done| |apply link_parent_root].
      apply rd_Some_range in Hvp. lia.
    + exists []. destruct (decide (c = parent)) as [->|E'].
      * apply link_parent_root.
      * apply chain_root with v; [|done]. by rewrite Hother.
  - exists (c :: lc'). apply chain_step with v; [|done|done].
    rewrite Hother; [done| |]; intros ->; simplify_eq; lia.
Qed.

Lemma link_root_of c rc' :
  forest_ok cells ->
  root_of cells' c rc' <-> exists rc, root_of cells c rc /\ rc' = relink rc.
Proof.
  intros Hok. split.
  - intros [lc Hc]. pose proof (chain_start_range _ _ _ _ Hc) as Hr.
    rewrite Hlen in Hr. destruct (Hok c Hr) as (rc0 & lc0 & H0).
    destruct (link_chain _ _ _ H0) as [lc1 H1].
    destruct (chain_det _ _ _ _ Hc _ _ H1) as [_ ->].
    exists rc0. split; [by exists lc0|done].
  - intros (rc & [lc Hc] & ->). by eapply link_chain.
Qed.

Lemma link_forest_ok : forest_ok cells -> forest_ok cells'.
Proof.
  intros Hok c Hc. rewrite Hlen in Hc. destruct (Hok c Hc) as (rc & lc & H).
  exists (relink rc). by eapply link_chain.
Qed.

End Link.

(** An [int] is its own 32-bit pattern. *)
Lemma to_int_small z : -2147483648 <= z <= 2147483647 -> to_int z = z.
Proof. intros Hz. unfold to_int. rewrite Z.mod_small; lia. Qed.

(** What [unify] writes, read back cell by cell, when the sum is an
    [int]. *)
Lemma unify_spec cells x y sx sy :
  x <> y -> rd cells x = Some sx -> rd cells y = Some sy ->
  -2147483648 <= sx + sy <= 2147483647 ->
  exists cells', unify cells x y = Some cells' /\
    length cells' = length cells /\
    let child := if decide (sx < sy) then y else x in
    let parent := if decide (sx < sy) then x else y in
    rd cells' child = Some parent /\
    rd cells' parent = Some (sx + sy) /\
    (forall c, c <> child -> c <> parent -> rd cells' c = rd cells c).
Proof.
  intros Hne Hx Hy Hs. unfold unify. rewrite Hx, Hy. simpl.
  rewrite (to_int_small _ Hs).
  pose proof (rd_Some_range _ _ _ Hx) as Rx.
  pose proof (rd_Some_range _ _ _ Hy) as Ry.
  case_decide.
  - rewrite (wr_is_Some _ _ x Ry). simpl.
    set (c1 := <[Z.to_nat y := x]> cells).
    assert (W1 : wr cells y x = Some c1) by by apply wr_is_Some.
    assert (L1 : length c1 = length cells) by by eapply wr_length.
    assert (W2 : wr c1 x (sx + sy) = Some (<[Z.to_nat x := sx + sy]> c1)).
    { apply wr_is_Some. by rewrite L1. }
    rewrite W2. eexists. split; [done|]. split; [|split; [|split]].
    + rewrite (wr_length _ _ _ _ W2). done.
    + rewrite (rd_wr_ne _ _ _ _ _ W2) by done. by eapply rd_wr_eq.
    + by eapply rd_wr_eq.
    + intros c ? ?. rewrite (rd_wr_ne _ _ _ _ _ W2) by done.
      by rewrite (rd_wr_ne _ _ _ _ _ W1).
  - rewrite (wr_is_Some _ _ y Rx). simpl.
    set (c1 := <[Z.to_nat x := y]> cells).
    assert (W1 : wr cells x y = Some c1) by by apply wr_is_Some.
    assert (L1 : length c1 = length cells) by by eapply wr_length.
    assert (W2 : wr c1 y (sx + sy) = Some (<[Z.to_nat y := sx + sy]> c1)).
    { apply wr_is_Some. by rewrite L1. }
    rewrite W2. eexists. split; [done|]. split; [|split; [|split]].
    + rewrite (wr_length _ _ _ _ W2). done.
    + rewrite (rd_wr_ne _ _ _ _ _ W2) by done. by eapply rd_wr_eq.
    + by eapply rd_wr_eq.
    + intros c ? ?. rewrite (rd_wr_ne _ _ _ _ _ W2) by done.
      by rewrite (rd_wr_ne _ _ _ _ _ W1).
Qed.

Lemma unify_count cells x y sx sy cells' :
  x <> y -> rd cells x = Some sx -> rd cells y = Some sy ->
  sx < 0 -> sy < 0 -> -2147483648 <= sx + sy ->
  unify cells x y = Some cells' ->
  S (count_roots cells') = count_roots cells.
Proof.
  intros Hne Hx Hy Sx Sy Hs. unfold unify. rewrite Hx, Hy. simpl.
  rewrite (to_int_small (sx + sy)) by lia.
  pose proof (rd_Some_range _ _ _ Hx) as Rx.
  pose proof (rd_Some_range _ _ _ Hy) as Ry.
  case_decide; intros Hu.
  - destruct (wr cells y x) as [c1|] eqn:W1; [|done]. simpl in Hu.
    pose proof (count_roots_wr _ _ _ _ _ Hy W1) as E1.
    assert (Hx1 : rd c1 x = Some sx) by by rewrite (rd_wr_ne _ _ _ _ _ W1).
    pose proof (count_roots_wr _ _ _ _ _ Hx1 Hu) as E2.
    repeat case_decide; lia.
  - destruct (wr cells x y) as [c1|] eqn:W1; [|done]. simpl in Hu.
    pose proof (count_roots_wr _ _ _ _ _ Hx W1) as E1.
    assert (Hy1 : rd c1 y = Some sy) by by rewrite (rd_wr_ne _ _ _ _ _ W1).
    pose proof (count_roots_wr _ _ _ _ _ Hy1 Hu) as E2.
    repeat case_decide; lia.
Qed.

(** * The wall table *)

Lemma land_1 i : Z.land i 1 = i mod 2.
Proof. change 1 with (Z.ones 1) at 1. by rewrite Z.land_ones. Qed.

Lemma cell_no_inj n i j i' j' :
  0 <= j < n -> 0 <= j' < n -> n * i + j = n * i' + j' -> i = i' /\ j = j'.
Proof. intros Hj Hj' E. assert (i = i') by nia. subst. lia. Qed.

Lemma linked_add_wall e lo hi : linked e -> linked (add_wall e lo hi).
Proof.
  intros H k w. unfold add_wall. intros Hk.
  apply lookup_app_Some in Hk as [Hk|[Hge Hk]]; [by apply H|].
  apply list_lookup_singleton_Some in Hk as [Hk <-]. simpl.
  f_equal. lia.
Qed.

Lemma ends_add_wall e lo hi : ends <$> add_wall e lo hi = (ends <$> e) ++ [(lo, hi)].
Proof. unfold add_wall. by rewrite fmap_app. Qed.

Lemma length_add_wall e lo hi : length (add_wall e lo hi) = S (length e).
Proof. unfold add_wall. rewrite length_app. simpl. lia. Qed.

Lemma NoDup_snoc_2 {A} (l : list A) x : x ∉ l -> NoDup l -> NoDup (l ++ [x]).
Proof.
  intros Hx Hl. apply NoDup_app. split; [done|]. split.
  - intros y Hy ->%list_elem_of_singleton. done.
  - apply NoDup_singleton.
Qed.

Lemma cell_walls_spec m n i j this e :
  let e' := cell_walls m n i j this e in
  (linked e -> linked e') /\
  (forall p, p ∈ ends <$> e' <->
     p ∈ ends <$> e \/ (p.1 = this /\ wall_from m n i j this p.2)) /\
  Z.of_nat (length e') = Z.of_nat (length e) +
     b2z (0 < i /\ (j < n - 1 \/ Z.land i 1 = 0)) +
     b2z (j < n - 1) +
     b2z (i < m - 1 /\ (j < n - 1 \/ Z.land i 1 = 0)) /\
  (1 <= n -> 0 <= j ->
   NoDup (ends <$> e) -> (forall p, p ∈ ends <$> e -> p.1 < this) ->
   NoDup (ends <$> e')).
Proof.
  pose proof (land_1 i) as Hl. pose proof (Z.mod_pos_bound i 2 ltac:(lia)) as Hm.
  unfold cell_walls, wall_from, b2z. simpl.
  split; [|split; [|split]].
  - intros H. repeat case_decide; repeat apply linked_add_wall; done.
  - intros [lo hi]. simpl.
    repeat case_decide; rewrite ?ends_add_wall, ?elem_of_app, ?list_elem_of_singleton;
      split; intros Hp; try (intuition (simplify_eq; auto; lia)).
  - repeat case_decide; rewrite ?length_add_wall; lia.
  - intros Hn Hj Hnd Hlt.
    repeat case_decide; rewrite ?ends_add_wall;
      repeat (apply NoDup_snoc_2; [|]); try done;
      rewrite ?elem_of_app, ?list_elem_of_singleton;
      intros Hin;
      repeat match type of Hin with _ \/ _ => destruct Hin as [Hin|Hin] end;
      try (apply Hlt in Hin; simpl in Hin; lia); simplify_eq; lia.
Qed.

Lemma walls_before_step m n i :
  0 <= i < m ->
  walls_before m n (i + 1) = walls_before m n i +
    (n - 1) * (b2z (0 < i) + 1 + b2z (i < m - 1)) +
    (b2z (0 < i /\ Z.land i 1 = 0) + b2z (i < m - 1 /\ Z.land i 1 = 0)).
Proof.
  intros Hi. rewrite land_1. unfold walls_before, b2z.
  replace (i + 1 - 1) with i by lia.
  pose proof (Z.div_mod i 2 ltac:(lia)) as D1.
  pose proof (Z.div_mod (i - 1) 2 ltac:(lia)) as D2.
  pose proof (Z.mod_pos_bound i 2 ltac:(lia)) as B1.
  pose proof (Z.mod_pos_bound (i - 1) 2 ltac:(lia)) as B2.
  repeat case_decide; try lia;
    try (assert (m = i + 1) by lia; subst m);
    try (assert (i = 0) by lia; subst i); lia.
Qed.

Lemma rows_loop_spec m n i : forall k j this e e' this',
  1 <= n -> 0 <= j -> j + Z.of_nat k = n -> this = n * i + j ->
  rows_loop m n i k j this e = (e', this') ->
  this' = n * i + n /\
  (linked e -> linked e') /\
  (forall p, p ∈ ends <$> e' <->
     p ∈ ends <$> e \/
     exists j', j <= j' < n /\ p.1 = n * i + j' /\ wall_from m n i j' p.1 p.2) /\
  Z.of_nat (length e') = Z.of_nat (length e) +
     (if decide (k = O) then 0 else
        (Z.of_nat k - 1) * (b2z (0 < i) + 1 + b2z (i < m - 1)) +
        (b2z (0 < i /\ Z.land i 1 = 0) + b2z (i < m - 1 /\ Z.land i 1 = 0))) /\
  (NoDup (ends <$> e) -> (forall p, p ∈ ends <$> e -> p.1 < this) ->
   NoDup (ends <$> e') /\ (forall p, p ∈ ends <$> e' -> p.1 < this')).
Proof.
  induction k as [|k IH]; intros j this e e' this' Hn Hj Hk Hthis Hr; simpl in Hr.
  - injection Hr as <- <-. split; [lia|]. split; [done|]. split; [|split].
    + intros p. split; [by left|]. intros [?|(j' & ? & _)]; [done|lia].
    + case_decide; [lia|done].
    + intros ? Hlt. split; [done|]. intros p Hp. apply Hlt in Hp. lia.
  - destruct (cell_walls_spec m n i j this e) as (Hlk & Hmem & Hlen & Hnd).
    set (e1 := cell_walls m n i j this e) in *.
    destruct (IH (j + 1) (this + 1) e1 e' this' Hn ltac:(lia) ltac:(lia)
                ltac:(lia) Hr) as (Ht & Hlk' & Hmem' & Hlen' & Hnd').
    split; [done|]. split; [tauto|]. split; [|split].
    + intros p. rewrite Hmem', Hmem. split.
      * intros [[?|[E Hw]]|(j' & ? & ? & ?)]; [by left| |].
        -- right. exists j. split; [lia|]. split; [lia|]. by rewrite E.
        -- right. exists j'. split; [lia|done].
      * intros [?|(j' & Hj' & E & Hw)]; [by left; left|].
        destruct (decide (j' = j)) as [->|Hne].
        -- left. right. split; [lia|]. replace this with p.1 by lia. done.
        -- right. exists j'. split; [lia|done].
    + rewrite Hlen', Hlen. clear Hlen Hlen'. unfold b2z.
      destruct k as [|k].
      * assert (j = n - 1) by lia.
        repeat case_decide; try lia.
      * assert (j < n - 1) by lia.
        repeat case_decide; try lia.
    + intros Hnd0 Hlt0. apply Hnd'.
      * by apply Hnd.
      * intros p [Hp|[Hp _]]%Hmem; [apply Hlt0 in Hp|]; lia.
Qed.

Lemma cols_loop_spec m n : forall k i this e e' this',
  1 <= n -> 0 <= i -> i + Z.of_nat k = m -> this = n * i ->
  cols_loop m n k i this e = (e', this') ->
  (linked e -> linked e') /\
  (forall p, p ∈ ends <$> e' <->
     p ∈ ends <$> e \/
     exists i' j', i <= i' < m /\ 0 <= j' < n /\ p.1 = n * i' + j' /\
       wall_from m n i' j' p.1 p.2) /\
  Z.of_nat (length e') =
    Z.of_nat (length e) + walls_before m n m - walls_before m n i /\
  (NoDup (ends <$> e) -> (forall p, p ∈ ends <$> e -> p.1 < this) ->
   NoDup (ends <$> e')).
Proof.
  induction k as [|k IH]; intros i this e e' this' Hn Hi Hk Hthis Hr; simpl in Hr.
  - injection Hr as <- <-. assert (i = m) as -> by lia.
    split; [done|]. split; [|split; [lia|done]].
    intros p. split; [by left|]. intros [?|(i' & j' & ? & _)]; [done|lia].
  - destruct (rows_loop m n i (Z.to_nat n) 0 this e) as [e1 this1] eqn:Hrow.
    assert (H0 : 0 <= 0) by lia.
    assert (Hkn : 0 + Z.of_nat (Z.to_nat n) = n) by lia.
    assert (Hth : this = n * i + 0) by lia.
    destruct (rows_loop_spec m n i _ _ _ _ _ _ Hn H0 Hkn Hth Hrow)
      as (Ht & Hlk & Hmem & Hlen & Hnd).
    destruct (IH (i + 1) this1 e1 e' this' Hn ltac:(lia) ltac:(lia)
                ltac:(lia) Hr) as (Hlk' & Hmem' & Hlen' & Hnd').
    split; [tauto|]. split; [|split].
    + intros p. rewrite Hmem', Hmem. split.
      * intros [[?|(j' & ? & ? & ?)]|(i' & j' & ? & ?)]; [by left| |].
        -- right. exists i, j'. split; [lia|]. split; [lia|done].
        -- right. exists i', j'. split; [lia|done].
      * intros [?|(i' & j' & Hi' & Hj' & E & Hw)]; [by left; left|].
        destruct (decide (i' = i)) as [->|Hne].
        -- left. right. exists j'. split; [lia|done].
        -- right. exists i', j'. split; [lia|done].
    + rewrite Hlen', Hlen. rewrite (walls_before_step m n i) by lia.
      case_decide; lia.
    + intros Hnd0 Hlt0. destruct (Hnd Hnd0 Hlt0) as [Hnd1 Hlt1].
      apply Hnd'; [done|]. intros p Hp. apply Hlt1 in Hp. lia.
Qed.

Lemma wall_at_grid m n i j hi :
  0 <= i < m -> 0 <= j < n ->
  wall_at m n (n * i + j) hi <-> wall_from m n i j (n * i + j) hi.
Proof.
  intros Hi Hj. split.
  - intros (i' & j' & Hi' & Hj' & E & Hw).
    destruct (cell_no_inj n i j i' j' Hj Hj' E) as [<- <-]. done.
  - intros Hw. by exists i, j.
Qed.

Lemma parity_succ k : (k + 1) mod 2 = 1 - k mod 2.
Proof.
  pose proof (Z.div_mod k 2 ltac:(lia)).
  pose proof (Z.div_mod (k + 1) 2 ltac:(lia)).
  pose proof (Z.mod_pos_bound k 2 ltac:(lia)).
  pose proof (Z.mod_pos_bound (k + 1) 2 ltac:(lia)). lia.
Qed.

Lemma parity_pred k : (k - 1) mod 2 = 1 - k mod 2.
Proof.
  pose proof (Z.div_mod k 2 ltac:(lia)).
  pose proof (Z.div_mod (k - 1) 2 ltac:(lia)).
  pose proof (Z.mod_pos_bound k 2 ltac:(lia)).
  pose proof (Z.mod_pos_bound (k - 1) 2 ltac:(lia)). lia.
Qed.

(** A wall is written for every pair of neighbours, from one side only. *)
Lemma neighbour_wall m n k l k' l' :
  in_grid m n k l -> in_grid m n k' l' -> neighbour k l k' l' ->
  let a := cell_no n k l in let b := cell_no n k' l' in
  a <> b /\
  ((wall_at m n a b /\ ~ wall_at m n b a) \/
   (wall_at m n b a /\ ~ wall_at m n a b)).
Proof.
  unfold in_grid, neighbour, cell_no. intros [Hk Hl] [Hk' Hl'] Hnb. simpl.
  rewrite !wall_at_grid by done. unfold wall_from. rewrite !land_1 in *.
  pose proof (Z.mod_pos_bound k 2 ltac:(lia)) as Bk.
  pose proof (parity_succ k) as Ps. pose proof (parity_pred k) as Pp.
  destruct Hnb as [[-> Hv]|[Hh Hv]].
  - split; [lia|]. destruct Hv as [-> | ->]; [left|right]; split; lia.
  - destruct Hh as [-> | ->].
    + rewrite Ps. replace (n * (k + 1)) with (n * k + n) by lia.
      split; [lia|].
      destruct (decide (k mod 2 = 0)) as [E|E].
      * destruct Hv as [-> |[[_ ->]|[? _]]]; [left|right|lia]; split; lia.
      * destruct Hv as [-> |[[? _]|[_ ->]]]; [right|lia|left]; split; lia.
    + rewrite Pp. replace (n * (k - 1)) with (n * k - n) by lia.
      split; [lia|].
      destruct (decide (k mod 2 = 0)) as [E|E].
      * destruct Hv as [-> |[[_ ->]|[? _]]]; [left|right|lia]; split; lia.
      * destruct Hv as [-> |[[? _]|[_ ->]]]; [right|lia|left]; split; lia.
Qed.

(** Every wall written separates two neighbours. *)
Lemma wall_neighbour m n lo hi :
  1 <= n -> wall_at m n lo hi ->
  exists k l k' l', in_grid m n k l /\ in_grid m n k' l' /\
    neighbour k l k' l' /\ lo = cell_no n k l /\ hi = cell_no n k' l'.
Proof.
  intros Hn (i & j & Hi & Hj & -> & Hw). unfold wall_from in Hw.
  rewrite !land_1 in Hw. unfold in_grid, neighbour, cell_no.
  pose proof (Z.mod_pos_bound i 2 ltac:(lia)) as Bk.
  destruct Hw as [(H1 & H2 & ->)|[(H1 & ->)|(H1 & H2 & ->)]].
  - exists i, j, (i - 1), (j + i mod 2). rewrite !land_1.
    split; [lia|]. split; [lia|]. split; [|lia]. right. split; [lia|].
    destruct (decide (i mod 2 = 0)); [left|right; right]; lia.
  - exists i, j, i, (j + 1). split; [lia|]. split; [lia|]. split; [|lia].
    left. lia.
  - exists i, j, (i + 1), (j + i mod 2). rewrite !land_1.
    split; [lia|]. split; [lia|]. split; [|lia]. right. split; [lia|].
    destruct (decide (i mod 2 = 0)); [left|right; right]; lia.
Qed.

Lemma ends_set_next w p : ends (set_next w p) = ends w.
Proof. done. Qed.

Lemma ends_insert_set_next (ws : list wall) (k : nat) w p :
  ws !! k = Some w -> ends <$> <[k := set_next w p]> ws = ends <$> ws.
Proof.
  intros Hk. rewrite list_fmap_insert. apply list_insert_id.
  by rewrite list_lookup_fmap, Hk.
Qed.

(** Terminating a table whose walls each point at the next slot gives
    the list of all its walls in order. *)
Lemma linked_is_list e w :
  linked e -> e !! (length e - 1)%nat = Some w ->
  forall d k, (k + S d = length e)%nat ->
  is_list (<[(length e - 1)%nat := set_next w None]> e) (Some k) (seq k (S d)).
Proof.
  intros Hlk Hw. induction d as [|d IH]; intros k Hk.
  - assert (k = (length e - 1)%nat) as -> by lia. simpl.
    split; [done|]. exists (set_next w None). split; [|done].
    apply list_lookup_insert_eq. lia.
  - change (seq k (S (S d))) with (k :: seq (S k) (S d)). simpl.
    split; [done|].
    destruct (lookup_lt_is_Some_2 e k ltac:(lia)) as [wk Hwk].
    exists wk. split; [rewrite list_lookup_insert_ne by lia; done|].
    rewrite (Hlk _ _ Hwk). apply (IH (S k)). lia.
Qed.

Lemma init_walls_spec m n :
  1 <= m -> 1 <= n -> 0 < 3 * m * n - m - m - n - n + 1 ->
  exists ws, init_walls m n = Some ws /\
    Z.of_nat (length ws) = 3 * m * n - m - m - n - n + 1 /\
    (forall p, p ∈ ends <$> ws <-> wall_at m n p.1 p.2) /\
    NoDup (ends <$> ws) /\
    is_list ws (Some O) (seq 0 (length ws)).
Proof.
  intros Hm Hn Hmn. unfold init_walls.
  destruct (cols_loop m n (Z.to_nat m) 0 0 []) as [e this'] eqn:Hloop.
  assert (H0 : 0 <= 0) by lia.
  assert (Hk : 0 + Z.of_nat (Z.to_nat m) = m) by lia.
  assert (Hth : 0 = n * 0) by lia.
  destruct (cols_loop_spec m n _ _ _ _ _ _ Hn H0 Hk Hth Hloop)
    as (Hlk & Hmem & Hlen & Hnd).
  assert (Hlen' : Z.of_nat (length e) = 3 * m * n - m - m - n - n + 1).
  { rewrite Hlen. unfold walls_before. simpl. repeat case_decide; lia. }
  case_decide; [|done].
  assert (Hpos : (0 < length e)%nat) by lia.
  destruct (lookup_lt_is_Some_2 e (length e - 1)%nat ltac:(lia)) as [w Hw].
  rewrite Hw. simpl. eexists. split; [done|].
  rewrite length_insert, (ends_insert_set_next _ _ _ _ Hw).
  split; [done|]. split; [|split].
  - intros p. rewrite Hmem. split.
    + intros [Hp|(i & j & ? & ? & ? & ?)]; [by apply elem_of_nil in Hp|].
      exists i, j. done.
    + intros (i & j & ? & ? & ? & ?). right. exists i, j. done.
  - apply Hnd; [constructor|]. intros p Hp. by apply elem_of_nil in Hp.
  - assert (exists d, length e = S d) as [d E].
    { exists (length e - 1)%nat. lia. }
    assert (Hlk' : linked e).
    { apply Hlk. intros k w' Hk'. by rewrite lookup_nil in Hk'. }
    pose proof (linked_is_list e w Hlk' Hw d O ltac:(lia)) as HL.
    by rewrite <- E in HL.
Qed.

Lemma joins_ends w a b : joins w a b <-> ends w = (a, b) \/ ends w = (b, a).
Proof.
  unfold joins, ends. destruct w as [p lo hi]. simpl. split.
  - intros [[-> ->]|[-> ->]]; [by left|by right].
  - intros [H|H]; injection H as -> ->; [by left|by right].
Qed.

Lemma joins_none (ws : list wall) a b :
  (a, b) ∉ ends <$> ws -> (b, a) ∉ ends <$> ws ->
  filter (fun w => joins w a b) ws = [].
Proof.
  induction ws as [|w ws IH]; intros H1 H2; [done|].
  rewrite fmap_cons in *.
  apply not_elem_of_cons in H1 as [H1 H1'].
  apply not_elem_of_cons in H2 as [H2 H2'].
  rewrite filter_cons. case_decide as Hj; [|by apply IH].
  apply joins_ends in Hj as [Hj|Hj]; congruence.
Qed.

(** Among walls with distinct end pairs, the pair [(a,b)] listed once
    and [(b,a)] never, exactly one wall joins [a] and [b]. *)
Lemma joins_once (ws : list wall) a b :
  NoDup (ends <$> ws) -> (a, b) ∈ ends <$> ws -> (b, a) ∉ ends <$> ws ->
  length (filter (fun w => joins w a b) ws) = 1%nat.
Proof.
  induction ws as [|w ws IH]; intros Hnd Hin Hrev.
  - by apply elem_of_nil in Hin.
  - rewrite fmap_cons in *. apply NoDup_cons in Hnd as [Hw Hnd].
    apply not_elem_of_cons in Hrev as [Hr1 Hr2].
    rewrite filter_cons. apply elem_of_cons in Hin as [Hin|Hin].
    + assert (Hj : joins w a b) by (apply joins_ends; by left).
      case_decide; [|done]. simpl. f_equal.
      rewrite joins_none; [done| |done]. by rewrite Hin.
    + case_decide as Hj; [|by apply IH].
      exfalso. apply joins_ends in Hj as [Hj|Hj]; [|congruence].
      apply Hw. by rewrite Hj.
Qed.

Lemma joins_sym w a b : joins w a b <-> joins w b a.
Proof. unfold joins. tauto. Qed.

(** * Linked lists of walls *)

Section Wall_lists.
Local Open Scope nat_scope.

Lemma is_list_det ws p l : forall l', is_list ws p l -> is_list ws p l' -> l = l'.
Proof.
  revert p. induction l as [|x l IH]; intros p [|x' l']; simpl.
  - done.
  - intros -> [? _]. done.
  - intros [-> _] ?. done.
  - intros [-> (w & Hw & H)] [E (w' & Hw' & H')]. simplify_eq.
    f_equal. by eapply IH.
Qed.

Lemma is_list_frame ws ws' p l :
  (forall x, x ∈ l -> ws' !! x = ws !! x) -> is_list ws p l -> is_list ws' p l.
Proof.
  revert p. induction l as [|x l IH]; intros p Hf; simpl; [done|].
  intros [-> (w & Hw & H)]. split; [done|]. exists w. split.
  - rewrite Hf; [done|left].
  - apply IH; [|done]. intros y Hy. apply Hf. by right.
Qed.

Lemma is_list_lt ws p l x : is_list ws p l -> x ∈ l -> x < length ws.
Proof.
  revert p. induction l as [|y l IH]; intros p; simpl.
  - intros _ Hx. by apply elem_of_nil in Hx.
  - intros [-> (w & Hw & H)] [->|Hx]%elem_of_cons.
    + by eapply lookup_lt_Some.
    + by eapply IH.
Qed.

Lemma is_list_suffix ws p l x :
  is_list ws p l -> x ∈ l ->
  exists l1 l2, l = l1 ++ x :: l2 /\ is_list ws (Some x) (x :: l2).
Proof.
  revert p. induction l as [|y l IH]; intros p; simpl.
  - intros _ Hx. by apply elem_of_nil in Hx.
  - intros [-> (w & Hw & H)] [->|Hx]%elem_of_cons.
    + exists [], l. split; [done|]. simpl. eauto.
    + destruct (IH _ H Hx) as (l1 & l2 & -> & H2). by exists (y :: l1), l2.
Qed.

Lemma is_list_NoDup ws p l : is_list ws p l -> NoDup l.
Proof.
  revert p. induction l as [|y l IH]; intros p; simpl; [constructor|].
  intros [-> (w & Hw & H)]. constructor; [|by eapply IH].
  intros Hy. destruct (is_list_suffix _ _ _ _ H Hy) as (l1 & l2 & E & H2).
  assert (H3 : is_list ws (Some y) (y :: l)) by (simpl; eauto).
  pose proof (is_list_det _ _ _ _ H3 H2) as E'. simplify_eq.
  apply (f_equal length) in E'. rewrite length_app in E'. simpl in E'. lia.
Qed.

Lemma NoDup_lt_length (l : list nat) (n : nat) :
  NoDup l -> (forall y, y ∈ l -> y < n) -> length l <= n.
Proof.
  intros Hnd Hr.
  assert (H : l ⊆+ seq 0 n).
  { apply NoDup_submseteq; [done|]. intros y Hy. apply Hr in Hy.
    apply elem_of_seq. lia. }
  apply submseteq_length in H. by rewrite length_seq in H.
Qed.

Lemma is_list_length ws p l : is_list ws p l -> length l <= length ws.
Proof.
  intros H. apply NoDup_lt_length; [by eapply is_list_NoDup|].
  intros y Hy. by eapply is_list_lt.
Qed.

(** Hooking the list [b] behind the last wall of the list [acc]. *)
Lemma is_list_append ws first acc qi wq pi b :
  is_list ws first acc -> last acc = Some qi -> ws !! qi = Some wq ->
  is_list ws (Some pi) b -> NoDup (acc ++ b) ->
  is_list (<[qi := set_next wq (Some pi)]> ws) first (acc ++ b).
Proof.
  revert first. induction acc as [|x acc IH]; intros first; simpl; [done|].
  intros [-> (w & Hw & H)] Hlast Hq Hb Hnd.
  apply NoDup_cons in Hnd as [Hx Hnd]. split; [done|].
  destruct acc as [|y acc].
  - simpl in *. simplify_eq. exists (set_next w (Some pi)). split.
    + apply list_lookup_insert_eq. by eapply lookup_lt_Some.
    + simpl. eapply is_list_frame; [|done]. intros y Hy.
      apply list_lookup_insert_ne. intros ->. done.
  - exists w. split.
    + rewrite list_lookup_insert_ne; [done|]. intros ->.
      apply Hx. apply elem_of_app. left.
      change (last (x :: y :: acc)) with (last (y :: acc)) in Hlast.
      by apply last_Some_elem_of.
    + apply IH; try done.
Qed.

Lemma last_of_spec ws b : forall fuel pi,
  is_list ws (Some pi) b -> length b <= fuel ->
  exists z, last_of fuel ws pi = Some z /\ last b = Some z.
Proof.
  induction b as [|x b IH]; intros fuel pi; simpl; [done|].
  intros [E (w & Hw & H)] Hf. simplify_eq.
  destruct fuel as [|f]; [lia|]. simpl. rewrite Hw. simpl.
  destruct b as [|y b].
  - simpl in H. rewrite H. by exists x.
  - destruct H as [E H']. rewrite E.
    destruct (IH f y) as (z & Hz & Hl); [simpl; eauto|simpl in *; lia|].
    exists z. done.
Qed.

(** * Buckets *)

Lemma concat_replicate_nil {A} n : concat (replicate n (@nil A)) = [].
Proof. induction n; simpl; done. Qed.

Lemma concat_all_nil {A} (bs : list (list A)) :
  (forall j b, bs !! j = Some b -> b = []) -> concat bs = [].
Proof.
  induction bs as [|b bs IH]; intros H; [done|]. simpl.
  rewrite (H O b eq_refl). simpl. apply IH. intros j b' Hj. by apply (H (S j)).
Qed.

Lemma concat_insert_perm {A} (bs : list (list A)) k b b' :
  bs !! k = Some b -> b' ++ concat (<[k := b]> bs) ≡ₚ concat (<[k := b' ++ b]> bs).
Proof.
  revert k. induction bs as [|c bs IH]; intros [|k] Hk; simplify_eq/=.
  - by rewrite (assoc (++)).
  - rewrite <- (IH k Hk). rewrite !(assoc (++)). f_equiv. apply Permutation_app_comm.
Qed.

Lemma concat_insert_cons {A} (bs : list (list A)) k b x :
  bs !! k = Some b -> concat (<[k := x :: b]> bs) ≡ₚ x :: concat bs.
Proof.
  intros Hk. rewrite <- (concat_insert_perm bs k b [x] Hk).
  by rewrite list_insert_id.
Qed.

Lemma concat_insert_nil {A} (bs : list (list A)) k b :
  bs !! k = Some b -> concat bs ≡ₚ b ++ concat (<[k := []]> bs).
Proof.
  intros Hk.
  assert (Hk' : <[k := []]> bs !! k = Some []).
  { apply list_lookup_insert_eq. by eapply lookup_lt_Some. }
  pose proof (concat_insert_perm (<[k := []]> bs) k [] b Hk') as H.
  rewrite !list_insert_insert_eq, app_nil_r in H.
  rewrite H. by rewrite list_insert_id.
Qed.

Lemma elem_of_concat_lookup {A} (bs : list (list A)) j b x :
  bs !! j = Some b -> x ∈ b -> x ∈ concat bs.
Proof.
  revert j. induction bs as [|c bs IH]; intros [|j] Hj Hx; simplify_eq/=.
  - apply elem_of_app. by left.
  - apply elem_of_app. right. by eapply IH.
Qed.

Lemma elem_of_concat_inv {A} (bs : list (list A)) x :
  x ∈ concat bs -> exists j b, bs !! j = Some b /\ x ∈ b.
Proof.
  induction bs as [|c bs IH]; simpl; intros Hx.
  - by apply elem_of_nil in Hx.
  - apply elem_of_app in Hx as [Hx|Hx].
    + by exists O, c.
    + destruct (IH Hx) as (j & b & Hj & Hb). by exists (S j), b.
Qed.

Lemma land_1023 r : (0 <= Z.land r 1023 < 1024)%Z.
Proof.
  change 1023%Z with (Z.ones 10). rewrite Z.land_ones by lia.
  apply Z.mod_pos_bound. lia.
Qed.

Lemma buckets_from_empty ws i n :
  buckets_from i ws (replicate n None) (replicate n []).
Proof.
  split; [by rewrite !length_replicate|].
  intros j h b _ [-> _]%lookup_replicate [-> _]%lookup_replicate. done.
Qed.

Lemma buckets_from_frame i ws ws' head bs :
  buckets_from i ws head bs ->
  (forall j b x, i <= j -> bs !! j = Some b -> x ∈ b -> ws' !! x = ws !! x) ->
  buckets_from i ws' head bs.
Proof.
  intros [Hlen Hb] Hf. split; [done|]. intros j h b Hj Hh Hbs.
  eapply is_list_frame; [|by eapply Hb]. intros x Hx. by eapply Hf.
Qed.

Lemma buckets_from_weaken i i' ws head bs :
  i <= i' -> buckets_from i ws head bs -> buckets_from i' ws head bs.
Proof.
  intros Hi [Hlen Hb]. split; [done|]. intros j h b Hj. apply Hb. lia.
Qed.

Section Shuffle_facts.
Context {rng : Type} (Random : rng -> Z * rng).

Lemma scatter_spec l : forall fuel p ws head bs g,
  is_list ws p l -> buckets_from 0 ws head bs -> length head = 1024 ->
  NoDup (l ++ concat bs) -> length l <= fuel ->
  exists ws' head' bs' g',
    scatter Random fuel p ws head g = Some (ws', head', g') /\
    buckets_from 0 ws' head' bs' /\ length head' = 1024 /\
    concat bs' ≡ₚ l ++ concat bs /\
    (forall x, x ∉ l -> ws' !! x = ws !! x) /\
    ends <$> ws' = ends <$> ws /\ length ws' = length ws.
Proof.
  induction l as [|x l IH]; intros fuel p ws head bs g Hl Hb Hlen Hnd Hf.
  - simpl in Hl. subst p. exists ws, head, bs, g.
    split; [by destruct fuel|]. done.
  - destruct Hl as [-> (w & Hw & Hl)].
    destruct fuel as [|f]; [simpl in Hf; lia|]. simpl.
    destruct (Random g) as [r g1]. rewrite Hw. simpl.
    pose proof (land_1023 r) as Hr.
    set (k := Z.to_nat (Z.land r 1023)).
    assert (Hk : k < 1024) by lia.
    destruct Hb as [Hlb Hb].
    destruct (lookup_lt_is_Some_2 head k ltac:(lia)) as [h Hh].
    destruct (lookup_lt_is_Some_2 bs k ltac:(lia)) as [b Hbk].
    rewrite Hh. simpl.
    simpl in Hnd. apply NoDup_cons in Hnd as [Hx Hnd].
    apply not_elem_of_app in Hx as [Hxl Hxb].
    set (ws1 := <[x := set_next w h]> ws).
    assert (Hfr : forall y, y <> x -> ws1 !! y = ws !! y).
    { intros y Hy. by apply list_lookup_insert_ne. }
    assert (Hxlt : x < length ws) by by eapply lookup_lt_Some.
    destruct (IH f (next w) ws1 (<[k := Some x]> head) (<[k := x :: b]> bs) g1)
      as (ws' & head' & bs' & g' & Hs & Hb' & Hlen' & Hperm & Hfr' & He & Hl').
    + eapply is_list_frame; [|done]. intros y Hy. apply Hfr. by intros ->.
    + split; [by rewrite !length_insert|]. intros j h' b' _ Hj1 Hj2.
      destruct (decide (j = k)) as [->|Hne].
      * rewrite list_lookup_insert_eq in Hj1 by lia.
        rewrite list_lookup_insert_eq in Hj2 by lia. simplify_eq. simpl.
        split; [done|]. exists (set_next w h). split.
        -- by apply list_lookup_insert_eq.
        -- simpl. eapply is_list_frame; [|apply (Hb k); [lia|done|done]].
           intros y Hy. apply Hfr. intros ->. apply Hxb.
           by eapply elem_of_concat_lookup.
      * rewrite list_lookup_insert_ne in Hj1 by done.
        rewrite list_lookup_insert_ne in Hj2 by done.
        eapply is_list_frame; [|apply (Hb j); [lia|done|done]].
        intros y Hy. apply Hfr. intros ->. apply Hxb.
        by eapply elem_of_concat_lookup.
    + by rewrite length_insert.
    + rewrite (concat_insert_cons bs k b x Hbk).
      rewrite <- Permutation_middle. constructor; [|done].
      intros [?|?]%elem_of_app; done.
    + simpl in Hf. lia.
    + exists ws', head', bs', g'. split; [done|]. split; [done|]. split; [done|].
      split; [|split; [|split]].
      * rewrite Hperm, (concat_insert_cons bs k b x Hbk).
        by rewrite <- Permutation_middle.
      * intros y [Hy1 Hy2]%not_elem_of_cons. rewrite Hfr' by done. by apply Hfr.
      * rewrite He. unfold ws1. by apply ends_insert_set_next.
      * rewrite Hl'. apply length_insert.
Qed.

Lemma pour_spec fuel : forall cnt i ws src dst ss ds g,
  i + cnt = 1024 -> length src = 1024 -> length dst = 1024 ->
  buckets_from 0 ws src ss -> buckets_from 0 ws dst ds ->
  (forall j b, j < i -> ss !! j = Some b -> b = []) ->
  NoDup (concat ss ++ concat ds) -> length ws <= fuel ->
  exists ws' src' dst' ss' ds' g',
    pour Random fuel cnt i ws src dst g = Some (ws', src', dst', g') /\
    length src' = 1024 /\ length dst' = 1024 /\
    buckets_from 0 ws' src' ss' /\ buckets_from 0 ws' dst' ds' /\
    (forall j b, ss' !! j = Some b -> b = []) /\
    concat ds' ≡ₚ concat ss ++ concat ds /\
    ends <$> ws' = ends <$> ws /\ length ws' = length ws.
Proof.
  induction cnt as [|cnt IH];
    intros i ws src dst ss ds g Hi Hls Hld Hs Hd Hnil Hnd Hf.
  - exists ws, src, dst, ss, ds, g. simpl. split; [done|].
    split; [done|]. split; [done|]. split; [done|]. split; [done|].
    assert (Hall : forall j b, ss !! j = Some b -> b = []).
    { intros j b Hj. apply (Hnil j); [|done].
      apply lookup_lt_Some in Hj. destruct Hs as [E _]. lia. }
    split; [done|]. by rewrite (concat_all_nil ss Hall).
  - simpl. destruct Hs as [Hlss Hs].
    destruct (lookup_lt_is_Some_2 src i ltac:(lia)) as [h Hh].
    destruct (lookup_lt_is_Some_2 ss i ltac:(lia)) as [b Hb].
    rewrite Hh. simpl.
    pose proof (Hs i h b ltac:(lia) Hh Hb) as Hlist.
    pose proof (concat_insert_nil ss i b Hb) as Hsplit.
    set (ss1 := <[i := []]> ss) in *.
    assert (Hnd1 : NoDup (concat ss1 ++ b ++ concat ds)).
    { rewrite (assoc (++)), (Permutation_app_comm (concat ss1) b).
      by rewrite <- Hsplit. }
    apply NoDup_app in Hnd1 as (Hnd_ss1 & Hdisj & Hnd_b).
    destruct (scatter_spec b fuel h ws dst ds g Hlist Hd Hld Hnd_b)
      as (ws1 & dst1 & ds1 & g1 & Hsc & Hd1 & Hld1 & Hperm1 & Hfr1 & He1 & Hl1).
    { etrans; [by eapply is_list_length|done]. }
    rewrite Hsc. simpl.
    destruct (IH (S i) ws1 (<[i := None]> src) dst1 ss1 ds1 g1)
      as (ws' & src' & dst' & ss' & ds' & g' & Hp & ? & ? & ? & ? & ? & Hperm' & He' & Hl').
    + lia.
    + by rewrite length_insert.
    + done.
    + split; [unfold ss1; by rewrite !length_insert|].
      intros j h' b' _ Hj1 Hj2. destruct (decide (j = i)) as [->|Hne].
      * rewrite list_lookup_insert_eq in Hj1 by lia.
        unfold ss1 in Hj2. rewrite list_lookup_insert_eq in Hj2 by lia.
        by simplify_eq.
      * rewrite list_lookup_insert_ne in Hj1 by done.
        unfold ss1 in Hj2. rewrite list_lookup_insert_ne in Hj2 by done.
        eapply is_list_frame; [|apply (Hs j); [lia|done|done]].
        intros y Hy. apply Hfr1. intros Hyb.
        apply (Hdisj y).
        -- apply (elem_of_concat_lookup ss1 j b'); [|done]. unfold ss1.
           by rewrite list_lookup_insert_ne.
        -- apply elem_of_app. by left.
    + done.
    + intros j b' Hj Hj2. destruct (decide (j = i)) as [->|Hne].
      * unfold ss1 in Hj2. rewrite list_lookup_insert_eq in Hj2 by lia. by simplify_eq.
      * unfold ss1 in Hj2. rewrite list_lookup_insert_ne in Hj2 by done.
        apply (Hnil j); [lia|done].
    + rewrite Hperm1. by apply NoDup_app.
    + lia.
    + exists ws', src', dst', ss', ds', g'. split; [done|].
      repeat (split; [done|]). split; [|split]; [|congruence|congruence].
      rewrite Hperm', Hperm1, Hsplit.
      rewrite !(assoc (++)). f_equiv. apply Permutation_app_comm.
Qed.

Lemma gather_spec fuel head bs : forall cnt i ws q first acc,
  i + cnt = 1024 -> length head = 1024 ->
  buckets_from i ws head bs -> linked_up ws q first acc ->
  NoDup (acc ++ concat (drop i bs)) -> length ws <= fuel ->
  exists ws' first' q',
    gather fuel cnt i ws head q first = Some (ws', first', q') /\
    linked_up ws' q' first' (acc ++ concat (drop i bs)) /\
    ends <$> ws' = ends <$> ws /\ length ws' = length ws.
Proof.
  induction cnt as [|cnt IH]; intros i ws q first acc Hi Hlh Hb Hq Hnd Hf.
  - exists ws, first, q. simpl. split; [done|]. split; [|done].
    destruct Hb as [E _]. rewrite drop_ge by lia. simpl. by rewrite app_nil_r.
  - simpl. pose proof Hb as [Hlb Hb'].
    destruct (lookup_lt_is_Some_2 head i ltac:(lia)) as [h Hh].
    destruct (lookup_lt_is_Some_2 bs i ltac:(lia)) as [b Hbi].
    rewrite Hh. simpl.
    pose proof (Hb' i h b ltac:(lia) Hh Hbi) as Hlist.
    rewrite (drop_S bs b i Hbi) in *. simpl in Hnd.
    change (concat (b :: drop (S i) bs)) with (b ++ concat (drop (S i) bs)).
    destruct h as [pi|].
    + (* a non-empty bucket *)
      destruct b as [|x b]; [done|]. destruct Hlist as [E (wp & Hwp & Hrest)].
      simplify_eq.
      assert (Hlist : is_list ws (Some x) (x :: b)) by (simpl; eauto).
      rewrite (assoc (++)) in Hnd. apply NoDup_app in Hnd as (Hnd1 & Hdisj & Hnd2).
      pose proof Hnd1 as (_ & Hdisj1 & _)%NoDup_app.
      assert (exists ws1 first1,
        match q with
        | Some qi => w ← ws !! qi; Some (<[qi := set_next w (Some x)]> ws, first)
        | None => Some (ws, Some x)
        end = Some (ws1, first1) /\
        is_list ws1 first1 (acc ++ x :: b) /\
        (forall y, y ∉ acc -> ws1 !! y = ws !! y) /\
        ends <$> ws1 = ends <$> ws /\ length ws1 = length ws)
        as (ws1 & first1 & -> & Hl1 & Hfr1 & He1 & Hlen1).
      { destruct q as [qi|]; simpl in Hq.
        - destruct Hq as [Hacc Hlast].
          assert (Hqi : qi ∈ acc) by by apply last_Some_elem_of.
          destruct (lookup_lt_is_Some_2 ws qi) as [wq Hwq].
          { eapply is_list_lt; [exact Hacc|exact Hqi]. }
          rewrite Hwq. simpl. eexists _, _. split; [done|]. split; [|split; [|split]].
          + by apply is_list_append.
          + intros y Hy. apply list_lookup_insert_ne. by intros ->.
          + by apply ends_insert_set_next.
          + apply length_insert.
        - subst acc. exists ws, (Some x). done. }
      simpl.
      assert (Hxb : is_list ws1 (Some x) (x :: b)).
      { eapply is_list_frame; [|exact Hlist]. intros y Hy. apply Hfr1.
        intros Hya. by apply (Hdisj1 y). }
      destruct (last_of_spec ws1 (x :: b) fuel x Hxb) as (z & -> & Hz).
      { rewrite <- Hlen1 in Hf. etrans; [by eapply is_list_length|done]. }
      simpl.
      destruct (IH (S i) ws1 (Some z) first1 (acc ++ x :: b))
        as (ws' & first' & q' & Hg & Hq' & He' & Hl').
      * lia.
      * done.
      * eapply buckets_from_frame; [by eapply buckets_from_weaken; [|exact Hb]; lia|].
        intros j b' y Hj Hbj Hy. apply Hfr1. intros Hya.
        apply (Hdisj y); [apply elem_of_app; by left|].
        assert (Hj' : drop (S i) bs !! (j - S i) = Some b').
        { rewrite lookup_drop. rewrite <- Hbj. f_equal. lia. }
        by eapply elem_of_concat_lookup.
      * simpl. split; [done|]. rewrite last_app. by rewrite Hz.
      * apply NoDup_app. done.
      * lia.
      * exists ws', first', q'. split; [done|].
        rewrite <- (assoc (++)) in Hq'. split; [done|]. split; congruence.
    + (* an empty bucket *)
      simpl in Hlist. destruct b; [|by destruct Hlist]. simpl.
      apply (IH (S i)); try done; try lia.
      eapply buckets_from_weaken; [|done]. lia.
Qed.

Local Opaque scatter pour gather replicate.

(** [shuffle_walls] relinks the walls of the input list in some other
    order, leaving each wall's two cells alone. *)
Lemma shuffle_walls_spec fuel ws l g :
  is_list ws (Some 0) l -> length ws <= fuel ->
  exists ws' first l' g',
    shuffle_walls Random fuel ws g = Some (ws', first, g') /\
    is_list ws' first l' /\ l' ≡ₚ l /\
    ends <$> ws' = ends <$> ws /\ length ws' = length ws.
Proof.
  intros Hl Hf. unfold shuffle_walls.
  pose proof (is_list_NoDup _ _ _ Hl) as Hnd.
  pose proof (is_list_length _ _ _ Hl) as Hlen.
  destruct (scatter_spec l fuel (Some 0) ws (replicate 1024 None)
              (replicate 1024 []) g Hl (buckets_from_empty _ _ _))
    as (ws1 & h1 & b1 & g1 & -> & Hb1 & Hl1 & Hp1 & _ & He1 & Hn1).
  { by rewrite length_replicate. }
  { by rewrite concat_replicate_nil, app_nil_r. }
  { lia. }
  rewrite concat_replicate_nil, app_nil_r in Hp1. bind_ok.
  destruct (pour_spec fuel 1024 0 ws1 h1 (replicate 1024 None) b1
              (replicate 1024 []) g1 eq_refl Hl1 (length_replicate _ _) Hb1
              (buckets_from_empty _ _ _))
    as (ws2 & h1' & h2 & s1 & b2 & g2 & -> & Hl1' & Hl2 & Hs1 & Hb2 & Hnil1
        & Hp2 & He2 & Hn2).
  { intros j b Hj. lia. }
  { rewrite concat_replicate_nil, app_nil_r. by rewrite Hp1. }
  { lia. }
  rewrite concat_replicate_nil, app_nil_r in Hp2. bind_ok.
  pose proof (concat_all_nil s1 Hnil1) as Hs1nil.
  destruct (pour_spec fuel 1024 0 ws2 h2 h1' b2 s1 g2 eq_refl Hl2 Hl1' Hb2 Hs1)
    as (ws3 & h2' & h3 & s2 & b3 & g3 & -> & Hl2' & Hl3 & Hs2 & Hb3 & Hnil2
        & Hp3 & He3 & Hn3).
  { intros j b Hj. lia. }
  { rewrite Hs1nil, app_nil_r, Hp2. by rewrite Hp1. }
  { lia. }
  rewrite Hs1nil, app_nil_r in Hp3. bind_ok.
  destruct (gather_spec fuel h3 b3 1024 0 ws3 None None [] eq_refl Hl3 Hb3 eq_refl)
    as (ws4 & first & q & -> & Hq & He4 & Hn4).
  { rewrite drop_0, Hp3, Hp2. by rewrite Hp1. }
  { lia. }
  rewrite drop_0 in Hq. bind_ok.
  assert (Hperm : concat b3 ≡ₚ l) by (by rewrite Hp3, Hp2).
  exists ws4, first, (concat b3), g3. split; [reflexivity|]. split.
  - destruct q as [qi|]; [exact (proj1 Hq)|].
    unfold linked_up in Hq. rewrite app_nil_l in Hq. rewrite Hq in Hperm. apply Permutation_nil_l in Hperm.
    subst l. simpl in Hl. discriminate Hl.
  - split; [exact Hperm|]. split.
    + by rewrite He4, He3, He2, He1.
    + by rewrite Hn4, Hn3, Hn2, Hn1.
Qed.

Local Transparent scatter pour gather replicate.

End Shuffle_facts.

End Wall_lists.

(** * Undirected graphs *)

Section Graphs.
Implicit Types (R : relation Z) (E : list (Z * Z)).

Lemma connected_mono R R' a b :
  (forall x y, R x y -> connected R' x y) -> connected R a b -> connected R' a b.
Proof.
  intros H. unfold connected, rtsc. induction 1 as [|x y z Hxy _ IH]; [done|].
  etrans; [|exact IH]. destruct Hxy as [Hxy|Hxy].
  - by apply H.
  - symmetry. by apply H.
Qed.

Lemma connected_iff R R' a b :
  (forall x y, R x y <-> R' x y) -> connected R a b <-> connected R' a b.
Proof.
  intros H. split; apply connected_mono; intros x y Hxy; apply rtsc_lr;
    by apply H.
Qed.

Lemma adj_sym E a b : adj E a b -> adj E b a.
Proof. unfold adj. tauto. Qed.

Lemma sc_adj E a b : sc (adj E) a b <-> adj E a b.
Proof. unfold sc, adj. tauto. Qed.

Lemma adj_cons E e a b :
  adj (e :: E) a b <-> adj E a b \/ e = (a, b) \/ e = (b, a).
Proof.
  unfold adj. rewrite !elem_of_cons. split; intros H;
    repeat match goal with H : _ \/ _ |- _ => destruct H as [H|H] end;
    subst; auto.
Qed.

Lemma adj_nil a b : ~ adj [] a b.
Proof. unfold adj. intros [H|H]; by apply elem_of_nil in H. Qed.

Lemma connected_nil a b : connected (adj []) a b -> a = b.
Proof.
  unfold connected, rtsc. induction 1 as [|x y z Hxy _ IH]; [done|].
  apply sc_adj in Hxy. by apply adj_nil in Hxy.
Qed.

(** Adding one edge [a-b]: what becomes connected was connected, or was
    connected to the two ends of the new edge. *)
Lemma connected_add_edge R R' a b u v :
  (forall x y, R' x y -> sc R x y \/ (x = a /\ y = b) \/ (x = b /\ y = a)) ->
  connected R' u v ->
  connected R u v \/
  (connected R u a /\ connected R b v) \/
  (connected R u b /\ connected R a v).
Proof.
  intros H. unfold connected, rtsc. induction 1 as [x|x y z Hxy _ IH].
  - by left.
  - assert (Hs : sc R x y \/ (x = a /\ y = b) \/ (x = b /\ y = a)).
    { destruct Hxy as [Hxy|Hxy]; apply H in Hxy.
      - done.
      - destruct Hxy as [Hxy|[[-> ->]|[-> ->]]]; [left; by symmetry|tauto|tauto]. }
    destruct Hs as [Hs|[[-> ->]|[-> ->]]].
    + destruct IH as [IH|[[IH1 IH2]|[IH1 IH2]]].
      * left. by eapply rtc_l.
      * right. left. split; [by eapply rtc_l|done].
      * right. right. split; [by eapply rtc_l|done].
    + destruct IH as [IH|[[IH1 IH2]|[IH1 IH2]]].
      * right. left. done.
      * right. left. split; [done|]. done.
      * left. done.
    + destruct IH as [IH|[[IH1 IH2]|[IH1 IH2]]].
      * right. right. done.
      * left. done.
      * right. right. split; [done|]. done.
Qed.

Lemma minus_sub R a b x y : minus R a b x y -> R x y.
Proof. by intros [? _]. Qed.

Lemma minus_sym R a b x y : minus R a b x y <-> minus R b a x y.
Proof. unfold minus. tauto. Qed.

(** Joining two components by an edge keeps every edge a bridge. *)
Lemma all_bridges_cons E a b :
  all_bridges (adj E) -> ~ connected (adj E) a b ->
  all_bridges (adj ((a, b) :: E)).
Proof.
  intros Hbr Hab u v Huv Hconn. apply adj_cons in Huv.
  destruct Huv as [Huv|Hnew].
  - (* an old edge *)
    apply (connected_add_edge (minus (sc (adj E)) u v) _ a b) in Hconn.
    + destruct Hconn as [Hc|[[Hc1 Hc2]|[Hc1 Hc2]]].
      * by apply (Hbr u v).
      * apply Hab.
        assert (H1 : connected (adj E) u a).
        { eapply connected_mono; [|exact Hc1]. intros x y [Hxy _].
          apply rtsc_lr. by apply sc_adj. }
        assert (H2 : connected (adj E) b v).
        { eapply connected_mono; [|exact Hc2]. intros x y [Hxy _].
          apply rtsc_lr. by apply sc_adj. }
        assert (H3 : connected (adj E) u v) by by apply rtsc_lr.
        unfold connected in *. etrans; [symmetry; exact H1|].
        etrans; [exact H3|]. by symmetry.
      * apply Hab.
        assert (H1 : connected (adj E) u b).
        { eapply connected_mono; [|exact Hc1]. intros x y [Hxy _].
          apply rtsc_lr. by apply sc_adj. }
        assert (H2 : connected (adj E) a v).
        { eapply connected_mono; [|exact Hc2]. intros x y [Hxy _].
          apply rtsc_lr. by apply sc_adj. }
        assert (H3 : connected (adj E) u v) by by apply rtsc_lr.
        unfold connected in *. etrans; [exact H2|].
        etrans; [symmetry; exact H3|]. done.
    + intros x y (Hxy & Hn1 & Hn2). apply sc_adj, adj_cons in Hxy.
      destruct Hxy as [Hxy|[Hxy|Hxy]]; simplify_eq; [|tauto|tauto].
      left. left. split; [by apply sc_adj|done].
  - (* the new edge *)
    apply Hab.
    assert (Hc : connected (adj E) u v).
    { eapply connected_mono; [|exact Hconn]. intros x y (Hxy & Hn1 & Hn2).
      apply sc_adj, adj_cons in Hxy. apply rtsc_lr.
      destruct Hxy as [Hxy|[Hxy|Hxy]]; [done|simplify_eq..];
        destruct Hnew as [?|?]; simplify_eq; tauto. }
    destruct Hnew as [?|?]; simplify_eq; [done|by symmetry].
Qed.

Lemma walk_tail R x c : walk R (x :: c) -> walk R c.
Proof. destruct c; simpl; [done|]. by intros [_ ?]. Qed.

(** A walk that avoids [a] stays inside the graph without the edge
    between [a] and [b]. *)
Lemma walk_connected R a b c : forall x z,
  walk R (x :: c) -> last (x :: c) = Some z ->
  (forall y, y ∈ x :: c -> y <> a) ->
  connected (minus (sc R) a b) x z.
Proof.
  induction c as [|y c IH]; intros x z Hw Hl Hav.
  - simpl in Hl. by simplify_eq.
  - destruct Hw as [Hxy Hw]. change (last (x :: y :: c)) with (last (y :: c)) in Hl.
    unfold connected. etrans; [|apply (IH y z Hw Hl)].
    + apply rtsc_lr. split; [done|]. split.
      * intros [-> _]. apply (Hav a); [left|done].
      * intros [_ ->]. apply (Hav a); [right; left|done].
    + intros y' Hy'. apply Hav. by right.
Qed.

(** A graph all of whose edges are bridges has no cycle. *)
Lemma all_bridges_acyclic R : all_bridges R -> acyclic R.
Proof.
  intros Hbr c (Hlen & Hnd & Hw & a & z & Hhd & Hlast & Hza).
  destruct c as [|a' [|b c]]; simpl in Hlen; try lia.
  simpl in Hhd. simplify_eq. destruct Hw as [Hab Hw].
  apply NoDup_cons in Hnd as [Ha Hnd].
  change (last (a :: b :: c)) with (last (b :: c)) in Hlast.
  assert (Hz : z ∈ c).
  { destruct c as [|d c]; [simpl in Hlen; lia|].
    change (last (b :: d :: c)) with (last (d :: c)) in Hlast.
    by apply last_Some_elem_of. }
  assert (Hbz : b <> z).
  { apply NoDup_cons in Hnd as [Hb _]. by intros ->. }
  assert (Haz : a <> z).
  { intros ->. apply Ha. by right. }
  assert (Hc : connected (minus (sc R) a b) b a).
  { unfold connected. etrans.
    - apply (walk_connected R a b c b z Hw Hlast). intros y Hy ->. done.
    - apply rtsc_lr. split; [done|]. split; [intros [? _]|intros [? _]]; done. }
  destruct Hab as [Hab|Hba].
  - apply (Hbr a b Hab). by symmetry.
  - apply (Hbr b a Hba). eapply connected_mono; [|exact Hc].
    intros x y Hxy. apply rtsc_lr. by apply minus_sym.
Qed.

Lemma walk_mono R R' c : (forall x y, R x y -> R' x y) -> walk R c -> walk R' c.
Proof.
  intros H. induction c as [|x [|y c] IH]; simpl; try done.
  intros [Hxy Hw]. split; [|by apply IH].
  destruct Hxy as [?|?]; [left|right]; by apply H.
Qed.

Lemma acyclic_iff R R' :
  (forall x y, R x y <-> R' x y) -> acyclic R -> acyclic R'.
Proof.
  intros H Hac c (Hlen & Hnd & Hw & a & z & Hhd & Hlast & Hza).
  apply (Hac c). split; [done|]. split; [done|]. split.
  - eapply walk_mono; [|exact Hw]. intros x y. apply H.
  - exists a, z. split; [done|]. split; [done|].
    destruct Hza as [?|?]; [left|right]; by apply H.
Qed.

End Graphs.

(** * Exit bitmaps *)

Lemma dirs_bits n_rows :
  (dirs n_rows).*1 = [4; 16; 64; 2; 1; 8; 32; 128].
Proof. reflexivity. Qed.

Lemma dirs_fun n_rows bit d d' :
  (bit, d) ∈ dirs n_rows -> (bit, d') ∈ dirs n_rows -> d = d'.
Proof.
  unfold dirs, LDown, LEq, LUp, Down, Up, RDown, REq, RUp.
  rewrite !elem_of_cons, !elem_of_nil.
  intros H H'.
  repeat match goal with H : _ \/ _ |- _ => destruct H as [H|H] end;
    try done; simplify_eq; done.
Qed.

Lemma dirs_bit_mem n_rows bit d :
  (bit, d) ∈ dirs n_rows -> bit ∈ [1; 2; 4; 8; 16; 32; 64; 128].
Proof.
  unfold dirs, LDown, LEq, LUp, Down, Up, RDown, REq, RUp.
  rewrite !elem_of_cons, !elem_of_nil.
  intros H.
  repeat match goal with H : _ \/ _ |- _ => destruct H as [H|H] end;
    try done; simplify_eq; tauto.
Qed.

(** Setting the single bit [b] in [e], seen through the mask [b']. *)
Lemma land_lor_bit e b b' :
  b ∈ [1; 2; 4; 8; 16; 32; 64; 128] -> b' ∈ [1; 2; 4; 8; 16; 32; 64; 128] ->
  Z.land (Z.lor e b) b' <> 0 <-> Z.land e b' <> 0 \/ b = b'.
Proof.
  intros Hb Hb'. rewrite Z.land_lor_distr_l, Z.lor_eq_0_iff.
  assert (Hbb : Z.land b b' = 0 <-> b <> b').
  { rewrite !elem_of_cons, !elem_of_nil in Hb, Hb'.
    repeat match goal with H : _ \/ _ |- _ => destruct H as [H|H] end;
      try done; subst; simpl; split; intros; try done; try lia. }
  rewrite Hbb. destruct (decide (b = b')); tauto.
Qed.

Lemma count_bits_lor L e b :
  NoDup L -> (forall x, x ∈ L -> x ∈ [1; 2; 4; 8; 16; 32; 64; 128]) ->
  b ∈ [1; 2; 4; 8; 16; 32; 64; 128] -> Z.land e b = 0 ->
  count_bits L (Z.lor e b) =
    (count_bits L e + (if decide (b ∈ L) then 1 else 0))%nat.
Proof.
  intros Hnd HL Hb He. unfold count_bits.
  induction L as [|x L IH]; [done|].
  apply NoDup_cons in Hnd as [Hx Hnd].
  assert (Hx8 : x ∈ [1; 2; 4; 8; 16; 32; 64; 128]) by (apply HL; left).
  pose proof (land_lor_bit e b x Hb Hx8) as Hiff.
  assert (IH' := IH Hnd (fun y Hy => HL y (list_elem_of_further _ _ _ Hy))).
  clear IH. rewrite !filter_cons.
  assert (Hmem : b ∈ x :: L <-> b = x \/ b ∈ L) by apply elem_of_cons.
  destruct (decide (b = x)) as [->|Hne].
  - assert (Z.land e x <> 0 -> False) by tauto.
    repeat case_decide; simpl; rewrite ?IH'; try lia; exfalso; tauto.
  - repeat case_decide; simpl; rewrite ?IH'; try lia; exfalso; tauto.
Qed.

Lemma n_exits_lor e b :
  b ∈ [1; 2; 4; 8; 16; 32; 64; 128] -> Z.land e b = 0 ->
  n_exits (Z.lor e b) = S (n_exits e).
Proof.
  intros Hb He. change n_exits with (count_bits [1; 2; 4; 8; 16; 32; 64; 128]).
  rewrite count_bits_lor; try done.
  - rewrite decide_True by done. lia.
  - apply NoDup_ListNoDup. repeat constructor; simpl; intuition lia.
Qed.

Lemma total_exits_insert (nodes : list node) (i : nat) nd nd' :
  nodes !! i = Some nd ->
  (total_exits (<[i := nd']> nodes) + n_exits (Node.exits nd) =
   total_exits nodes + n_exits (Node.exits nd'))%nat.
Proof.
  unfold total_exits. revert i. induction nodes as [|x nodes IH]; intros i Hi.
  - by rewrite lookup_nil in Hi.
  - destruct i as [|i]; simpl in *.
    + simplify_eq. lia.
    + specialize (IH i Hi). lia.
Qed.

Lemma total_exits_wr nodes i nd b nodes' :
  rd nodes i = Some nd -> b ∈ [1; 2; 4; 8; 16; 32; 64; 128] ->
  Z.land (Node.exits nd) b = 0 ->
  wr nodes i (Node.set_exits nd (Z.lor (Node.exits nd) b)) = Some nodes' ->
  total_exits nodes' = S (total_exits nodes).
Proof.
  intros Hr Hb Hz [Hi ->]%wr_Some.
  unfold rd in Hr. case_decide; [|done].
  pose proof (total_exits_insert nodes (Z.to_nat i) nd
    (Node.set_exits nd (Z.lor (Node.exits nd) b)) Hr) as E.
  simpl in E. rewrite (n_exits_lor _ _ Hb Hz) in E. lia.
Qed.

(** Reading the exit relation at one cell. *)
Lemma exit_rel_wr n_rows nodes i nd b d nodes' :
  rd nodes i = Some nd -> (b, d) ∈ dirs n_rows ->
  wr nodes i (Node.set_exits nd (Z.lor (Node.exits nd) b)) = Some nodes' ->
  forall x y, exit_rel n_rows nodes' x y <->
    exit_rel n_rows nodes x y \/ (x = i /\ y = i + d).
Proof.
  intros Hr Hbd Hw x y. unfold exit_rel.
  destruct (decide (x = i)) as [->|Hne].
  - rewrite (rd_wr_eq _ _ _ _ Hw). split.
    + intros (nd' & bit & d' & E & Hin & Hbit & ->). simplify_eq. simpl in Hbit.
      apply land_lor_bit in Hbit; [|by eapply dirs_bit_mem..].
      destruct Hbit as [Hbit| ->].
      * left. exists nd, bit, d'. done.
      * right. split; [done|]. f_equal. by eapply dirs_fun.
    + intros [(nd' & bit & d' & E & Hin & Hbit & ->)|[_ ->]].
      * simplify_eq. eexists _, bit, d'. split; [done|]. split; [done|].
        split; [|done]. simpl. apply land_lor_bit; [by eapply dirs_bit_mem..|].
        by left.
      * eexists _, b, d. split; [done|]. split; [done|]. split; [|done].
        simpl. apply land_lor_bit; [by eapply dirs_bit_mem..|]. by right.
  - rewrite (rd_wr_ne _ _ _ _ _ Hw) by done. split; [by left|].
    intros [?|[? _]]; done.
Qed.

Lemma add_exits_spec n_rows nodes E hi lo dh dl :
  exits_inv n_rows nodes E ->
  0 <= hi < Z.of_nat (length nodes) -> 0 <= lo < Z.of_nat (length nodes) ->
  hi <> lo -> ~ adj E lo hi ->
  (dh, lo - hi) ∈ dirs n_rows -> (dl, hi - lo) ∈ dirs n_rows ->
  exists nodes', add_exits nodes hi lo dh dl = Some nodes' /\
    exits_inv n_rows nodes' ((lo, hi) :: E) /\ length nodes' = length nodes.
Proof.
  intros [Hrel Htot] Hhi Hlo Hne Hnadj Hdh Hdl. unfold add_exits.
  destruct (rd_is_Some nodes hi Hhi) as [nh Hnh]. rewrite Hnh. bind_ok.
  destruct (wr nodes hi (Node.set_exits nh (Z.lor (Node.exits nh) dh)))
    as [nodes1|] eqn:Hw1; [|by rewrite wr_is_Some in Hw1].
  bind_ok. pose proof (wr_length _ _ _ _ Hw1) as Hl1.
  assert (Hnl : exists nl, rd nodes lo = Some nl) by by apply rd_is_Some.
  destruct Hnl as [nl Hnl].
  assert (Hnl1 : rd nodes1 lo = Some nl) by by rewrite (rd_wr_ne _ _ _ _ _ Hw1).
  rewrite Hnl1. bind_ok.
  destruct (wr nodes1 lo (Node.set_exits nl (Z.lor (Node.exits nl) dl)))
    as [nodes2|] eqn:Hw2; [|rewrite wr_is_Some in Hw2; [done|by rewrite Hl1]].
  exists nodes2. split; [done|].
  pose proof (wr_length _ _ _ _ Hw2) as Hl2.
  assert (Hzh : Z.land (Node.exits nh) dh = 0).
  { destruct (decide (Z.land (Node.exits nh) dh = 0)) as [|Hnz]; [done|].
    exfalso. apply Hnadj. apply adj_sym. apply Hrel.
    exists nh, dh, (lo - hi). split; [done|]. split; [done|]. split; [done|lia]. }
  assert (Hzl : Z.land (Node.exits nl) dl = 0).
  { destruct (decide (Z.land (Node.exits nl) dl = 0)) as [|Hnz]; [done|].
    exfalso. apply Hnadj. apply Hrel.
    exists nl, dl, (hi - lo). split; [done|]. split; [done|]. split; [done|lia]. }
  split; [split|congruence].
  - intros a b.
    rewrite (exit_rel_wr n_rows nodes1 lo nl dl (hi - lo) nodes2 Hnl1 Hdl Hw2).
    rewrite (exit_rel_wr n_rows nodes hi nh dh (lo - hi) nodes1 Hnh Hdh Hw1).
    rewrite adj_cons, Hrel.
    replace (hi + (lo - hi)) with lo by lia.
    replace (lo + (hi - lo)) with hi by lia.
    split.
    + intros [[H|[-> ->]]|[-> ->]]; [by left|by right; right|by right; left].
    + intros [H|[H|H]]; [by left; left| |].
      * injection H as <- <-. by right.
      * injection H as <- <-. by left; right.
  - rewrite (total_exits_wr _ _ _ _ _ Hnl1 (dirs_bit_mem _ _ _ Hdl) Hzl Hw2).
    rewrite (total_exits_wr _ _ _ _ _ Hnh (dirs_bit_mem _ _ _ Hdh) Hzh Hw1).
    rewrite Htot. simpl. lia.
Qed.

(** The case analysis on [delta] picks bits that point back at the
    other cell. *)
Lemma open_wall_dirs n_rows nodes lo hi :
  2 <= n_rows -> known_delta n_rows (hi - lo) ->
  exists dh dl, open_wall n_rows nodes lo hi = add_exits nodes hi lo dh dl /\
    (dh, lo - hi) ∈ dirs n_rows /\ (dl, hi - lo) ∈ dirs n_rows.
Proof.
  intros Hn Hd. unfold open_wall, known_delta in *.
  repeat case_decide; try lia;
    eexists _, _; (split; [reflexivity|]);
    unfold dirs, LDown, LEq, LUp, Down, Up, RDown, REq, RUp;
    split; rewrite !elem_of_cons.
  all: repeat match goal with
       | |- (?b, ?x) = (?b, ?y) \/ _ => left; f_equal; lia
       | |- _ \/ _ => right
       end.
Qed.

(** * One step of the carving loop *)


Lemma root_of_det cells c r r' : root_of cells c r -> root_of cells c r' -> r = r'.
Proof. intros [l H] [l' H']. by destruct (chain_det _ _ _ _ H _ _ H'). Qed.

Lemma same_root_roots cells a b ra rb :
  root_of cells a ra -> root_of cells b rb -> same_root cells a b <-> ra = rb.
Proof.
  intros Ha Hb. split.
  - intros (r & Ha' & Hb').
    rewrite (root_of_det _ _ _ _ Ha Ha'). by rewrite (root_of_det _ _ _ _ Hb Hb').
  - intros ->. by exists rb.
Qed.

Lemma kruskal_inv_same_roots n cells cells' E :
  kruskal_inv n cells E -> length cells' = length cells ->
  (forall c r, root_of cells' c r <-> root_of cells c r) ->
  count_roots cells' = count_roots cells ->
  kruskal_inv n cells' E.
Proof.
  intros (Hlen & Hok & Hsame & Hcnt & Hbr & Hsim) Hl Hroots Hc.
  split; [by rewrite Hl|]. split; [|split; [|split; [by rewrite Hc|done]]].
  - intros c Hc'. rewrite Hl in Hc'. destruct (Hok c Hc') as [r Hr].
    exists r. by apply Hroots.
  - intros a b Ha Hb. rewrite <- (Hsame a b Ha Hb). unfold same_root.
    split; intros (r & H1 & H2); exists r; split; by apply Hroots.
Qed.

Lemma base_step n cells E fuel a :
  kruskal_inv n cells E -> 0 <= a < n -> (length cells <= fuel)%nat ->
  exists r cells', base fuel cells a = Some (r, cells') /\
    kruskal_inv n cells' E /\ root_of cells a r /\
    (forall c rc, root_of cells' c rc <-> root_of cells c rc).
Proof.
  intros Hinv Ha Hf. pose proof Hinv as (Hlen & Hok & _).
  destruct (Hok a ltac:(lia)) as (r & l & Hc).
  pose proof (chain_length _ _ _ _ Hc) as Hll.
  destruct (base_spec cells a l r fuel Hc ltac:(lia))
    as (cells' & Hb & Hl & Hin & Hout).
  exists r, cells'. split; [done|].
  assert (Hroots : forall c rc, root_of cells' c rc <-> root_of cells c rc).
  { intros c rc. by eapply compress_root_of. }
  split; [|split; [by exists l|done]].
  eapply kruskal_inv_same_roots; try done.
  eapply base_count; [exact Hc| |exact Hb]. lia.
Qed.

(** * The sizes recorded in the roots *)

Lemma rd_lookup {A} (a : list A) (x : nat) : rd a (Z.of_nat x) = a !! x.
Proof. unfold rd. rewrite decide_True by lia. by rewrite Nat2Z.id. Qed.

Lemma rd_to_nat {A} (a : list A) (i : Z) v :
  rd a i = Some v -> a !! Z.to_nat i = Some v.
Proof. unfold rd. by case_decide. Qed.

Lemma size_sum_insert (cells : list Z) (i : nat) (u v : Z) :
  cells !! i = Some u ->
  size_sum (<[i := v]> cells) =
    size_sum cells - (if decide (u < 0) then - u else 0)
                   + (if decide (v < 0) then - v else 0).
Proof.
  revert i. induction cells as [|w cells IH]; intros i Hi.
  - by rewrite lookup_nil in Hi.
  - destruct i as [|i]; simpl in *.
    + injection Hi as ->. lia.
    + rewrite (IH i Hi). lia.
Qed.

Lemma size_sum_wr cells i u v cells' :
  rd cells i = Some u -> wr cells i v = Some cells' ->
  size_sum cells' =
    size_sum cells - (if decide (u < 0) then - u else 0)
                   + (if decide (v < 0) then - v else 0).
Proof.
  intros Hrd [_ ->]%wr_Some. apply size_sum_insert. by apply rd_to_nat.
Qed.

Lemma size_sum_ext (cells cells' : list Z) :
  length cells' = length cells ->
  (forall (i : nat) u v, cells !! i = Some u -> cells' !! i = Some v ->
     (if decide (v < 0) then - v else 0) = (if decide (u < 0) then - u else 0)) ->
  size_sum cells' = size_sum cells.
Proof.
  revert cells'. induction cells as [|u cells IH]; intros [|v cells'] Hlen H;
    simpl in *; try lia.
  rewrite (IH cells'); [|lia|].
  - by rewrite (H O u v).
  - intros i u' v' Hu Hv. by apply (H (S i)).
Qed.

Lemma size_sum_init n : 0 <= n -> size_sum (init_cells n) = n.
Proof.
  intros Hn. unfold init_cells.
  rewrite <- (Z2Nat.id n) at 2 by done.
  induction (Z.to_nat n) as [|k IH]; [done|].
  change (size_sum (replicate (S k) (-1)))
    with (1 + size_sum (replicate k (-1))).
  rewrite IH. lia.
Qed.

Lemma size_sum_nonneg cells : 0 <= size_sum cells.
Proof.
  induction cells as [|v cells IH]; simpl; [done|]. case_decide; lia.
Qed.

(** Two roots cannot record more than the whole sum. *)
Lemma size_sum_two_roots cells x y sx sy :
  x <> y -> rd cells x = Some sx -> rd cells y = Some sy ->
  sx < 0 -> sy < 0 -> - sx - sy <= size_sum cells.
Proof.
  intros Hne Hx Hy Sx Sy.
  pose proof (rd_Some_range _ _ _ Hx) as Rx.
  pose proof (rd_Some_range _ _ _ Hy) as Ry.
  pose proof (wr_is_Some cells x 0 Rx) as W1.
  pose proof (size_sum_wr cells x sx 0 _ Hx W1) as E1.
  assert (Hy1 : rd (<[Z.to_nat x := 0]> cells) y = Some sy).
  { rewrite (rd_wr_ne _ _ _ _ y W1) by done. done. }
  assert (W2 : wr (<[Z.to_nat x := 0]> cells) y 0 =
               Some (<[Z.to_nat y := 0]> (<[Z.to_nat x := 0]> cells))).
  { apply wr_is_Some. by rewrite length_insert. }
  pose proof (size_sum_wr _ y sy 0 _ Hy1 W2) as E2.
  pose proof (size_sum_nonneg (<[Z.to_nat y := 0]> (<[Z.to_nat x := 0]> cells))).
  repeat case_decide; lia.
Qed.

Lemma base_sizes cells x l r fuel cells' :
  chain cells x l r -> (length l <= fuel)%nat ->
  base fuel cells x = Some (r, cells') ->
  size_sum cells' = size_sum cells.
Proof.
  intros Hc Hf Hb.
  destruct (base_spec cells x l r fuel Hc Hf) as (c2 & Hb2 & Hlen & Hin & Hout).
  rewrite Hb in Hb2. injection Hb2 as <-.
  apply size_sum_ext; [done|]. intros i u v Hu Hv.
  rewrite <- rd_lookup in Hu, Hv.
  destruct (decide (Z.of_nat i ∈ l)) as [Hil|Hil].
  - destruct (chain_elem_link _ _ _ _ _ Hc Hil) as (u' & Hu' & Hu0).
    rewrite Hin in Hv by done.
    pose proof (chain_root_range _ _ _ _ Hc).
    assert (u = u') by congruence. assert (v = r) by congruence. subst.
    by rewrite !decide_False by lia.
  - rewrite Hout in Hv by done. assert (v = u) as -> by congruence. done.
Qed.

Lemma unify_sizes cells x y sx sy cells' :
  x <> y -> rd cells x = Some sx -> rd cells y = Some sy ->
  sx < 0 -> sy < 0 -> -2147483648 <= sx + sy ->
  unify cells x y = Some cells' ->
  size_sum cells' = size_sum cells.
Proof.
  intros Hne Hx Hy Sx Sy Hs. unfold unify. rewrite Hx, Hy. bind_ok. bind_ok.
  rewrite (to_int_small (sx + sy)) by lia.
  pose proof (rd_Some_range _ _ _ Hx) as Rx.
  pose proof (rd_Some_range _ _ _ Hy) as Ry.
  case_decide; intros Hu.
  - destruct (wr cells y x) as [c1|] eqn:H1; [|done].
    rewrite bind_Some in Hu. cbv beta iota in Hu.
    rewrite (size_sum_wr c1 x sx _ _ (eq_trans (rd_wr_ne _ _ _ _ x H1 Hne) Hx) Hu).
    rewrite (size_sum_wr cells y sy _ _ Hy H1).
    repeat case_decide; lia.
  - destruct (wr cells x y) as [c1|] eqn:H1; [|done].
    rewrite bind_Some in Hu. cbv beta iota in Hu.
    assert (Hyx : y <> x) by congruence.
    rewrite (size_sum_wr c1 y sy _ _ (eq_trans (rd_wr_ne _ _ _ _ y H1 Hyx) Hy) Hu).
    rewrite (size_sum_wr cells x sx _ _ Hx H1).
    repeat case_decide; lia.
Qed.

Lemma relink_cases child parent ra rb :
  child <> parent ->
  relink child parent ra = relink child parent rb <->
  ra = rb \/ (ra = child /\ rb = parent) \/ (ra = parent /\ rb = child).
Proof.
  intros Hne. unfold relink.
  destruct (decide (ra = child)) as [->|Ha], (decide (rb = child)) as [->|Hb].
  - split; [by left|done].
  - split; [intros <-; right; by left|].
    intros [E1|[[_ E1]|[E1 _]]]; subst; done.
  - split; [intros ->; right; by right|].
    intros [E1|[[E1 _]|[E1 _]]]; subst; done.
  - split; [by left|]. intros [E1|[[E1 _]|[_ E1]]]; subst; done.
Qed.

Lemma unify_step n cells E x y lo hi :
  kruskal_inv n cells E -> x <> y ->
  root_of cells lo x -> root_of cells hi y -> 0 <= lo < n -> 0 <= hi < n ->
  size_sum cells <= 2147483648 ->
  ~ connected (adj E) lo hi /\
  exists cells', unify cells x y = Some cells' /\
    kruskal_inv n cells' ((lo, hi) :: E) /\
    size_sum cells' = size_sum cells.
Proof.
  intros Hinv Hxy Hlo Hhi Rlo Rhi Hsz.
  pose proof Hinv as (Hlen & Hok & Hsame & Hcnt & Hbr & Hsnd & Hsrev).
  assert (Hnc : ~ connected (adj E) lo hi).
  { intros Hc. apply Hsame in Hc; [|done..].
    by apply (same_root_roots _ _ _ _ _ Hlo Hhi) in Hc. }
  split; [done|].
  destruct Hlo as [l1 Hc1]. destruct Hhi as [l2 Hc2].
  destruct (chain_root_neg _ _ _ _ Hc1) as (sx & Hsx & Hsx0).
  destruct (chain_root_neg _ _ _ _ Hc2) as (sy & Hsy & Hsy0).
  pose proof (size_sum_two_roots cells x y sx sy Hxy Hsx Hsy Hsx0 Hsy0) as Hsum.
  destruct (unify_spec cells x y sx sy Hxy Hsx Hsy ltac:(lia))
    as (cells' & Hu & Hl' & Hchild & Hparent & Hother).
  exists cells'. split; [done|].
  split; [|by apply (unify_sizes cells x y sx sy cells' Hxy Hsx Hsy Hsx0 Hsy0);
             [lia|done]].
  set (child := if decide (sx < sy) then y else x) in *.
  set (parent := if decide (sx < sy) then x else y) in *.
  assert (Hcp : (child = y /\ parent = x) \/ (child = x /\ parent = y)).
  { unfold child, parent. case_decide; tauto. }
  assert (Hne : child <> parent) by (destruct Hcp as [[-> ->]|[-> ->]]; done).
  assert (Hrc : exists v, rd cells child = Some v /\ v < 0).
  { destruct Hcp as [[-> _]|[-> _]]; eauto. }
  assert (Hrp : exists v, rd cells parent = Some v /\ v < 0).
  { destruct Hcp as [[_ ->]|[_ ->]]; eauto. }
  assert (Hs : sx + sy < 0) by lia.
  pose proof (link_root_of cells cells' child parent (sx + sy) Hl' Hrc Hrp
                Hchild Hparent Hs Hother) as Hroots.
  assert (Hrl : relink child parent x = relink child parent y).
  { apply relink_cases; [done|]. destruct Hcp as [[-> ->]|[-> ->]]; tauto. }
  split; [by rewrite Hl'|]. split; [|split; [|split; [|split]]].
  - exact (link_forest_ok cells cells' child parent (sx + sy) Hl' Hrc Hrp
             Hchild Hparent Hs Hother Hok).
  - intros a b Ha Hb.
    destruct (Hok a ltac:(lia)) as [ra Hra]. destruct (Hok b ltac:(lia)) as [rb Hrb].
    assert (Hra' : root_of cells' a (relink child parent ra)).
    { apply Hroots; [done|]. by exists ra. }
    assert (Hrb' : root_of cells' b (relink child parent rb)).
    { apply Hroots; [done|]. by exists rb. }
    rewrite (same_root_roots _ _ _ _ _ Hra' Hrb'), (relink_cases _ _ _ _ Hne).
    assert (Hmono : forall u v, connected (adj E) u v ->
                      connected (adj ((lo, hi) :: E)) u v).
    { intros u v. apply connected_mono. intros p q Hpq. apply rtsc_lr.
      apply adj_cons. by left. }
    assert (Hedge : connected (adj ((lo, hi) :: E)) lo hi).
    { apply rtsc_lr. apply adj_cons. right. by left. }
    assert (Hx : forall c rc, 0 <= c < n -> root_of cells c rc ->
              (rc = x <-> connected (adj E) c lo)).
    { intros c rc Hc Hrt. rewrite <- (Hsame c lo Hc Rlo).
      rewrite (same_root_roots _ _ _ _ _ Hrt (ex_intro _ l1 Hc1)). done. }
    assert (Hy : forall c rc, 0 <= c < n -> root_of cells c rc ->
              (rc = y <-> connected (adj E) c hi)).
    { intros c rc Hc Hrt. rewrite <- (Hsame c hi Hc Rhi).
      rewrite (same_root_roots _ _ _ _ _ Hrt (ex_intro _ l2 Hc2)). done. }
    pose proof (Hx a ra Ha Hra) as Hax. pose proof (Hy a ra Ha Hra) as Hay.
    pose proof (Hx b rb Hb Hrb) as Hbx. pose proof (Hy b rb Hb Hrb) as Hby.
    pose proof (Hsame a b Ha Hb) as Hab.
    rewrite (same_root_roots _ _ _ _ _ Hra Hrb) in Hab.
    split.
    + intros Hcase.
      assert (Hcase' : ra = rb \/ (ra = x /\ rb = y) \/ (ra = y /\ rb = x)).
      { destruct Hcp as [[-> ->]|[-> ->]]; tauto. }
      unfold connected in *.
      destruct Hcase' as [E1|[[E1 E2]|[E1 E2]]].
      * apply Hmono. by apply Hab.
      * etrans; [apply Hmono; by apply Hax|].
        etrans; [exact Hedge|]. symmetry. apply Hmono. by apply Hby.
      * etrans; [apply Hmono; by apply Hay|].
        etrans; [symmetry; exact Hedge|]. symmetry. apply Hmono. by apply Hbx.
    + intros Hc.
      apply (connected_add_edge (adj E) _ lo hi) in Hc.
      * assert (Hcase' : ra = rb \/ (ra = x /\ rb = y) \/ (ra = y /\ rb = x)).
        { destruct Hc as [Hc|[[Hc1' Hc2']|[Hc1' Hc2']]].
          - left. by apply Hab.
          - right. left. split; [by apply Hax|]. apply Hby.
            unfold connected in *. by symmetry.
          - right. right. split; [by apply Hay|]. apply Hbx.
            unfold connected in *. by symmetry. }
        destruct Hcp as [[-> ->]|[-> ->]]; tauto.
      * intros p q Hpq. apply adj_cons in Hpq as [Hpq|[Hpq|Hpq]].
        -- left. by left.
        -- injection Hpq as <- <-. tauto.
        -- injection Hpq as <- <-. tauto.
  - pose proof (unify_count cells x y sx sy cells' Hxy Hsx Hsy Hsx0 Hsy0
                  ltac:(lia) Hu) as Hc.
    simpl. lia.
  - by apply all_bridges_cons.
  - assert (Hn1 : (lo, hi) ∉ E).
    { intros Hin. apply Hnc. apply rtsc_lr. by left. }
    assert (Hn2 : (hi, lo) ∉ E).
    { intros Hin. apply Hnc. apply rtsc_lr. by right. }
    assert (Hn3 : lo <> hi).
    { intros ->. by apply Hnc. }
    split; [by constructor|].
    intros a b [Hab|Hab]%elem_of_cons [Hba|Hba]%elem_of_cons; simplify_eq.
    by eapply Hsrev.
Qed.

Lemma try_wall_spec n n_rows fuel cells nodes E lo hi :
  kruskal_inv n cells E -> exits_inv n_rows nodes E ->
  Z.of_nat (length nodes) = n ->
  0 <= lo < n -> 0 <= hi < n -> 2 <= n_rows ->
  known_delta n_rows (hi - lo) -> (length cells <= fuel)%nat ->
  size_sum cells <= 2147483648 ->
  exists cells' nodes' b,
    try_wall fuel n_rows cells nodes lo hi = Some (cells', nodes', b) /\
    let E' := if (b : bool) then (lo, hi) :: E else E in
    kruskal_inv n cells' E' /\ exits_inv n_rows nodes' E' /\
    Z.of_nat (length nodes') = n /\ connected (adj E') lo hi /\
    size_sum cells' = size_sum cells.
Proof.
  intros Hinv Hex Hln Hlo Hhi Hn Hd Hf Hsz. unfold try_wall.
  destruct (base_step n cells E fuel lo Hinv Hlo Hf)
    as (x & c1 & Hb1 & Hinv1 & Hx & Hr1).
  assert (Hs1 : size_sum c1 = size_sum cells).
  { destruct Hx as [l1 Hc1]. pose proof (chain_length _ _ _ _ Hc1).
    apply (base_sizes cells lo l1 x fuel c1 Hc1); [lia|done]. }
  rewrite Hb1. bind_ok.
  assert (Hf1 : (length c1 <= fuel)%nat).
  { destruct Hinv as [E0 _]. destruct Hinv1 as [E1 _]. lia. }
  destruct (base_step n c1 E fuel hi Hinv1 Hhi Hf1)
    as (y & c2 & Hb2 & Hinv2 & Hy & Hr2).
  assert (Hs2 : size_sum c2 = size_sum c1).
  { destruct Hy as [l2 Hc2]. pose proof (chain_length _ _ _ _ Hc2).
    apply (base_sizes c1 hi l2 y fuel c2 Hc2); [lia|done]. }
  rewrite Hb2. bind_ok.
  assert (Hx2 : root_of c2 lo x) by by apply Hr2, Hr1.
  assert (Hy2 : root_of c2 hi y) by by apply Hr2.
  case_decide as Hxy.
  - destruct (unify_step n c2 E x y lo hi Hinv2 Hxy Hx2 Hy2 Hlo Hhi ltac:(lia))
      as (Hnc & c3 & -> & Hinv3 & Hs3).
    bind_ok.
    destruct (open_wall_dirs n_rows nodes lo hi Hn Hd) as (dh & dl & -> & Hdh & Hdl).
    destruct (add_exits_spec n_rows nodes E hi lo dh dl Hex) as (nodes' & -> & Hex' & Hl');
      try done; try lia.
    { intros ->. apply Hxy. by eapply root_of_det. }
    { intros Hadj. apply Hnc. by apply rtsc_lr. }
    bind_ok. exists c3, nodes', true. split; [done|]. simpl.
    split; [done|]. split; [done|]. split; [lia|]. split; [|lia].
    apply rtsc_lr. apply adj_cons. right. by left.
  - exists c2, nodes, false. split; [done|]. simpl.
    split; [done|]. split; [done|]. split; [done|]. split; [|lia].
    destruct Hinv2 as (_ & _ & Hsame & _). apply Hsame; [done..|].
    exists x. split; [done|]. assert (x = y) as -> by (by destruct (decide (x = y))).
    done.
Qed.

(** * The whole carving loop, wall by wall *)

Lemma opened_mono l : forall bs E a b,
  connected (adj E) a b -> connected (adj (opened E l bs)) a b.
Proof.
  induction l as [|e l IH]; intros [|b0 bs] E a b H; simpl; try done.
  apply IH. destruct b0; [|done].
  eapply connected_mono; [|exact H]. intros x y Hxy. apply rtsc_lr.
  apply adj_cons. by left.
Qed.

Lemma carve_spec n n_rows fuel : forall l cells nodes E,
  kruskal_inv n cells E -> exits_inv n_rows nodes E ->
  Z.of_nat (length nodes) = n -> 2 <= n_rows ->
  (forall lo hi, (lo, hi) ∈ l ->
     0 <= lo < n /\ 0 <= hi < n /\ known_delta n_rows (hi - lo)) ->
  (Z.to_nat n <= fuel)%nat ->
  size_sum cells <= 2147483648 ->
  exists cells' nodes' bs,
    carve fuel n_rows cells nodes l = Some (cells', nodes', bs) /\
    length bs = length l /\
    kruskal_inv n cells' (opened E l bs) /\
    exits_inv n_rows nodes' (opened E l bs) /\
    Z.of_nat (length nodes') = n /\
    (forall lo hi, (lo, hi) ∈ l -> connected (adj (opened E l bs)) lo hi) /\
    (length (opened E l bs) + length (kept l bs) = length E + length l)%nat /\
    size_sum cells' = size_sum cells.
Proof.
  induction l as [|[lo hi] l IH]; intros cells nodes E Hinv Hex Hln Hn Hl Hf Hsz.
  - exists cells, nodes, []. simpl. split; [done|]. split; [done|].
    split; [done|]. split; [done|]. split; [done|]. split; [|lia].
    intros lo hi Hin. by apply elem_of_nil in Hin.
  - destruct (Hl lo hi ltac:(left)) as (Hlo & Hhi & Hd).
    assert (Hfc : (length cells <= fuel)%nat).
    { destruct Hinv as [E0 _]. lia. }
    destruct (try_wall_spec n n_rows fuel cells nodes E lo hi Hinv Hex Hln
                Hlo Hhi Hn Hd Hfc Hsz)
      as (c1 & n1 & b & Htry & Hinv1 & Hex1 & Hln1 & Hconn & Hs1).
    destruct (IH c1 n1 (if b then (lo, hi) :: E else E) Hinv1 Hex1 Hln1 Hn)
      as (c2 & n2 & bs & Hcarve & Hlb & Hinv2 & Hex2 & Hln2 & Hall & Hcount & Hs2).
    { intros lo' hi' Hin. apply Hl. by right. }
    { done. }
    { lia. }
    exists c2, n2, (b :: bs). simpl. rewrite Htry. bind_ok. rewrite Hcarve. bind_ok.
    split; [done|]. split; [by rewrite Hlb|]. split; [done|]. split; [done|].
    split; [done|]. split; [|split; [|lia]].
    + intros lo' hi' [E0|Hin]%elem_of_cons.
      * injection E0 as -> ->. by apply opened_mono.
      * by apply Hall.
    + destruct b; simpl in *; lia.
Qed.

Lemma lseg_frame ws ws' p l e :
  (forall x, x ∈ l -> ws' !! x = ws !! x) -> lseg ws p l e -> lseg ws' p l e.
Proof.
  revert p. induction l as [|x l IH]; intros p Hf; simpl; [done|].
  intros [-> (w & Hw & H)]. split; [done|]. exists w. split.
  - rewrite Hf; [done|left].
  - apply IH; [|done]. intros y Hy. apply Hf. by right.
Qed.

Lemma lseg_snoc ws first acc qi wq p :
  lseg ws first acc qi -> ws !! qi = Some wq -> qi ∉ acc ->
  lseg (<[qi := set_next wq (Some p)]> ws) first (acc ++ [qi]) p.
Proof.
  revert first. induction acc as [|x acc IH]; intros first; simpl.
  - intros -> Hq _. split; [done|]. exists (set_next wq (Some p)).
    split; [|done]. apply list_lookup_insert_eq. by eapply lookup_lt_Some.
  - intros [-> (w & Hw & H)] Hq [Hne Hnin]%not_elem_of_cons.
    split; [done|]. exists w. split; [by rewrite list_lookup_insert_ne|].
    by apply IH.
Qed.

Lemma lseg_close ws first acc qi wq :
  lseg ws first acc qi -> ws !! qi = Some wq -> qi ∉ acc ->
  is_list (<[qi := set_next wq None]> ws) first (acc ++ [qi]).
Proof.
  revert first. induction acc as [|x acc IH]; intros first; simpl.
  - intros -> Hq _. split; [done|]. exists (set_next wq None).
    split; [|done]. apply list_lookup_insert_eq. by eapply lookup_lt_Some.
  - intros [-> (w & Hw & H)] Hq [Hne Hnin]%not_elem_of_cons.
    split; [done|]. exists w. split; [by rewrite list_lookup_insert_ne|].
    by apply IH.
Qed.

Lemma ends_lookup (ws : list wall) (x : nat) w :
  ws !! x = Some w -> (ends <$> ws) !! x = Some (lower w, higher w).
Proof. intros H. by rewrite list_lookup_fmap, H. Qed.

Lemma ends_of_frame ws ws' l es :
  ends <$> ws' = ends <$> ws -> ends_of ws l es -> ends_of ws' l es.
Proof. unfold ends_of. by intros ->. Qed.

(** [create_loop] does to [cells] and [nodes] what [carve] does for the
    walls in list order, and relinks the kept walls behind [q]. *)
Lemma create_loop_spec bfuel n_rows : forall l fuel p q cells nodes ws first acc es
    cells' nodes' bs,
  is_list ws p l -> ends_of ws l es -> kept_inv ws q first acc ->
  NoDup (acc ++ l) -> (length l <= fuel)%nat ->
  carve bfuel n_rows cells nodes es = Some (cells', nodes', bs) ->
  exists ws' first' q',
    create_loop bfuel n_rows fuel p q (Maze cells nodes ws first) =
      Some (Maze cells' nodes' ws' first', q') /\
    kept_inv ws' q' first' (acc ++ kept l bs) /\
    ends <$> ws' = ends <$> ws /\ length ws' = length ws.
Proof.
  induction l as [|x l IH];
    intros fuel p q cells nodes ws first acc es cells' nodes' bs
      Hl He Hq Hnd Hf Hc.
  - simpl in Hl. subst p. apply Forall2_nil_inv_l in He. subst es.
    simpl in Hc. injection Hc as <- <- <-.
    exists ws, first, q. split; [by destruct fuel|].
    simpl. by rewrite app_nil_r.
  - destruct Hl as [-> (w & Hw & Hl)].
    apply Forall2_cons_inv_l in He as (e & es' & Hx & He & ->).
    rewrite (ends_lookup _ _ _ Hw) in Hx. injection Hx as <-.
    simpl in Hc.
    destruct (try_wall bfuel n_rows cells nodes (lower w) (higher w))
      as [[[c1 n1] b]|] eqn:Htry; [|done].
    rewrite bind_Some in Hc. cbv beta iota in Hc.
    destruct (carve bfuel n_rows c1 n1 es') as [[[c2 n2] bs']|] eqn:Hcarve; [|done].
    rewrite bind_Some in Hc. cbv beta iota in Hc. injection Hc as <- <- <-.
    destruct fuel as [|f]; [simpl in Hf; lia|]. simpl in Hf.
    apply NoDup_app in Hnd as (Hnd1 & Hdisj & Hnd2).
    apply NoDup_cons in Hnd2 as [Hxl Hnd2].
    simpl. rewrite Hw. bind_ok. rewrite Htry. bind_ok.
    destruct b.
    + (* the wall is removed *)
      destruct (IH f (next w) q c1 n1 ws first acc es' c2 n2 bs')
        as (ws' & first' & q' & Hloop & Hq' & He' & Hlen'); try done; try lia.
      { apply NoDup_app. split; [done|]. split; [|done].
        intros y Hy Hyl. apply (Hdisj y Hy). by right. }
      exists ws', first', q'. done.
    + (* the wall is kept *)
      assert (exists ws1 first1,
        match q with
        | Some qi => wq ← ws !! qi;
                     Some (<[qi := set_next wq (Some x)]> ws, first)
        | None => Some (ws, Some x)
        end = Some (ws1, first1) /\
        kept_inv ws1 (Some x) first1 (acc ++ [x]) /\
        (forall y, y ∉ acc -> ws1 !! y = ws !! y) /\
        ends <$> ws1 = ends <$> ws /\ length ws1 = length ws)
        as (ws1 & first1 & -> & Hq1 & Hfr1 & He1 & Hlen1).
      { assert (Hxlt : (x < length ws)%nat) by by eapply lookup_lt_Some.
        destruct q as [qi|]; simpl in Hq.
        - destruct Hq as (acc0 & -> & Hseg & Hqi).
          destruct (lookup_lt_is_Some_2 ws qi Hqi) as [wq Hwq].
          rewrite Hwq. bind_ok. eexists _, _. split; [done|].
          apply NoDup_app in Hnd1 as (_ & Hdq & _).
          split; [|split; [|split]].
          + exists (acc0 ++ [qi]). split; [done|].
            split; [|by rewrite length_insert].
            apply lseg_snoc; [done..|]. intros Hin. apply (Hdq qi Hin). left.
          + intros y Hy. apply list_lookup_insert_ne. intros ->.
            apply Hy. apply elem_of_app. right. left.
          + by apply ends_insert_set_next.
          + apply length_insert.
        - subst acc. exists ws, (Some x). split; [done|].
          split; [|done]. exists []. done. }
      bind_ok.
      assert (Hxacc : x ∉ acc).
      { intros Hin. apply (Hdisj x Hin). left. }
      rewrite (Hfr1 x Hxacc), Hw. bind_ok.
      destruct (IH f (next w) (Some x) c1 n1 ws1 first1 (acc ++ [x]) es' c2 n2 bs')
        as (ws' & first' & q' & Hloop & Hq' & He' & Hlen'); try done; try lia.
      { eapply is_list_frame; [|exact Hl]. intros y Hy. apply Hfr1.
        intros Hin. apply (Hdisj y Hin). by right. }
      { by eapply ends_of_frame. }
      { rewrite <- (assoc (++)). simpl. apply NoDup_app. split; [done|].
        split; [done|]. by constructor. }
      exists ws', first', q'. split; [done|].
      rewrite <- (assoc (++)) in Hq'. split; [done|]. split; congruence.
Qed.

(** * The state [create_maze] starts from *)

Lemma rd_replicate {A} (x : A) n i :
  0 <= i < Z.of_nat n -> rd (replicate n x) i = Some x.
Proof.
  intros Hi. unfold rd. case_decide; [|lia].
  apply lookup_replicate. split; [done|lia].
Qed.

Lemma count_roots_init n : count_roots (replicate n (-1)) = n.
Proof.
  unfold count_roots. induction n as [|n IH]; [done|].
  change (replicate (S n) (-1)) with (-1 :: replicate n (-1)).
  rewrite filter_cons, decide_True by lia. simpl. by rewrite IH.
Qed.

Lemma kruskal_inv_init n : 0 <= n -> kruskal_inv n (init_cells n) [].
Proof.
  intros Hn. unfold init_cells.
  assert (Hroot : forall x, 0 <= x < n -> root_of (replicate (Z.to_nat n) (-1)) x x).
  { intros x Hx. exists []. apply chain_root with (-1); [|lia].
    apply rd_replicate. lia. }
  split; [rewrite length_replicate; lia|]. split; [|split; [|split; [|split]]].
  - intros x Hx. rewrite length_replicate in Hx. exists x. apply Hroot. lia.
  - intros a b Ha Hb.
    rewrite (same_root_roots _ _ _ _ _ (Hroot a Ha) (Hroot b Hb)). split.
    + intros ->. done.
    + apply connected_nil.
  - rewrite count_roots_init. simpl. lia.
  - intros a b Hab. by apply adj_nil in Hab.
  - split; [constructor|]. intros a b Hab. by apply elem_of_nil in Hab.
Qed.

Lemma total_exits_init n : total_exits (replicate n Node.zero) = O.
Proof. unfold total_exits. induction n as [|n IH]; [done|]. simpl. by rewrite IH. Qed.

Lemma exits_inv_init n_rows n : exits_inv n_rows (init_nodes n) [].
Proof.
  unfold init_nodes. split; [|by rewrite total_exits_init].
  intros a b. split.
  - intros (nd & bit & d & Hr & _ & Hbit & _). exfalso. apply Hbit.
    unfold rd in Hr. case_decide; [|done].
    apply lookup_replicate in Hr as [-> _]. simpl. apply Z.land_0_l.
  - intros Hab. by apply adj_nil in Hab.
Qed.

(** * Exactly one root *)

Lemma filter_none {A} (P : A -> Prop) `{forall x, Decision (P x)} (l : list A) :
  (forall y, y ∈ l -> ~ P y) -> filter P l = [].
Proof.
  induction l as [|x l IH]; intros Hl; [done|].
  rewrite filter_cons, decide_False by (apply Hl; left).
  apply IH. intros y Hy. apply Hl. by right.
Qed.

Lemma filter_unique_length {A} (P : A -> Prop) `{forall x, Decision (P x)}
    (l : list A) :
  (exists i v, l !! i = Some v /\ P v) ->
  (forall i j vi vj, l !! i = Some vi -> P vi -> l !! j = Some vj -> P vj -> i = j) ->
  length (filter P l) = 1%nat.
Proof.
  induction l as [|x l IH]; intros (i & v & Hi & Hv) Huniq.
  - by rewrite lookup_nil in Hi.
  - rewrite filter_cons. case_decide as Hx.
    + simpl. f_equal. rewrite filter_none; [done|]. intros y Hy Py.
      apply list_elem_of_lookup in Hy as [j Hj].
      by specialize (Huniq O (S j) x y eq_refl Hx Hj Py).
    + apply IH.
      * destruct i as [|i]; simpl in Hi; [by simplify_eq|]. by exists i, v.
      * intros i' j' vi vj Hi' Pi Hj' Pj.
        by specialize (Huniq (S i') (S j') vi vj Hi' Pi Hj' Pj) as [= ->].
Qed.

Lemma count_roots_one cells :
  forest_ok cells -> (0 < length cells)%nat ->
  (forall a b, 0 <= a < Z.of_nat (length cells) ->
     0 <= b < Z.of_nat (length cells) -> same_root cells a b) ->
  count_roots cells = 1%nat.
Proof.
  intros Hok Hpos Hall. unfold count_roots.
  assert (Hself : forall i v, cells !! i = Some v -> v < 0 ->
            root_of cells (Z.of_nat i) (Z.of_nat i)).
  { intros i v Hi Hv. exists []. apply chain_root with v; [|done].
    unfold rd. case_decide; [|lia]. by rewrite Nat2Z.id. }
  apply filter_unique_length.
  - destruct (Hok 0 ltac:(lia)) as (r & l & Hc).
    destruct (chain_root_neg _ _ _ _ Hc) as (v & Hr & Hv).
    exists (Z.to_nat r), v. split; [|done].
    unfold rd in Hr. by case_decide.
  - intros i j vi vj Hi Pi Hj Pj.
    pose proof (Hself i vi Hi Pi) as Ri. pose proof (Hself j vj Hj Pj) as Rj.
    apply lookup_lt_Some in Hi, Hj.
    pose proof (Hall (Z.of_nat i) (Z.of_nat j) ltac:(lia) ltac:(lia)) as Hs.
    apply (same_root_roots _ _ _ _ _ Ri Rj) in Hs. lia.
Qed.

(** * [create_maze] on any connected wall list *)

Lemma kept_elem_of {A} (l : list A) : forall bs x, x ∈ kept l bs -> x ∈ l.
Proof.
  induction l as [|y l IH]; intros [|b bs] x; simpl; try done.
  - intros Hx. by apply elem_of_nil in Hx.
  - destruct b.
    + intros Hx. right. by eapply IH.
    + intros [->|Hx]%elem_of_cons; [left|right; by eapply IH].
Qed.

Lemma kept_NoDup {A} (l : list A) : forall bs, NoDup l -> NoDup (kept l bs).
Proof.
  induction l as [|y l IH]; intros [|b bs] Hnd; simpl; try constructor.
  - apply NoDup_cons in Hnd as [Hy Hnd]. destruct b; [by apply IH|].
    constructor; [|by apply IH]. intros Hin. apply Hy. by eapply kept_elem_of.
Qed.

Lemma kept_length {A B} (l : list A) (l' : list B) : forall bs,
  length l = length l' -> length (kept l bs) = length (kept l' bs).
Proof.
  revert l'. induction l as [|y l IH]; intros [|y' l'] [|b bs] Hl;
    simpl in *; try done.
  destruct b; simpl; auto.
Qed.

Lemma opened_elem_of l : forall bs E e, e ∈ opened E l bs -> e ∈ E \/ e ∈ l.
Proof.
  induction l as [|y l IH]; intros [|b bs] E e; simpl; try tauto.
  intros Hin. apply IH in Hin. destruct b.
  - destruct Hin as [[->|Hin]%elem_of_cons|Hin];
      [right; left|by left|right; by right].
  - destruct Hin as [Hin|Hin]; [by left|right; by right].
Qed.

Lemma create_maze_spec n n_rows fuel ws fw l es :
  0 < n <= 2147483648 -> 2 <= n_rows ->
  is_list ws fw l -> ends_of ws l es ->
  (forall lo hi, (lo, hi) ∈ es ->
     0 <= lo < n /\ 0 <= hi < n /\ known_delta n_rows (hi - lo)) ->
  connected_graph n (adj es) ->
  (Z.to_nat n <= length l)%nat ->
  (length ws <= fuel)%nat -> (Z.to_nat n <= fuel)%nat ->
  exists st q E kl,
    create_maze fuel n_rows (Maze (init_cells n) (init_nodes n) ws fw) =
      Some (st, q) /\
    count_roots (cells st) = 1%nat /\
    Z.of_nat (length E) = n - 1 /\
    simple_edges E /\
    (forall e, e ∈ E -> e ∈ es) /\
    exits_inv n_rows (nodes st) E /\
    connected_graph n (exit_rel n_rows (nodes st)) /\
    acyclic (exit_rel n_rows (nodes st)) /\
    is_list (walls st) (first_wall st) kl /\ last kl = Some q /\
    (length kl + length E = length l)%nat /\
    (forall x, x ∈ kl -> x ∈ l) /\
    ends <$> walls st = ends <$> ws /\
    exists bs,
      carve fuel n_rows (init_cells n) (init_nodes n) es
        = Some (cells st, nodes st, bs) /\
      E = opened [] es bs /\ kl = kept l bs.
Proof.
  intros Hn Hnr Hl He Hes Hconn Hmany Hfw Hfc.
  destruct (carve_spec n n_rows fuel es (init_cells n) (init_nodes n) [])
    as (c' & n' & bs & Hcarve & Hlb & Hinv & Hex & Hln & Hall & Hcount & Hsize);
    try done.
  { apply kruskal_inv_init. lia. }
  { apply exits_inv_init. }
  { unfold init_nodes. rewrite length_replicate. lia. }
  { rewrite size_sum_init; lia. }
  set (E := opened [] es bs) in *.
  destruct (create_loop_spec fuel n_rows l fuel fw None (init_cells n)
              (init_nodes n) ws fw [] es c' n' bs Hl He eq_refl)
    as (ws' & first' & q' & Hloop & Hq' & Hends & Hlen'); try done.
  { simpl. by eapply is_list_NoDup. }
  { etrans; [by eapply is_list_length|done]. }
  simpl in Hq'.
  pose proof Hinv as (Hlc & Hok & Hsame & Hcnt & Hbr & Hsim).
  assert (HconnE : connected_graph n (adj E)).
  { intros a b Ha Hb. eapply connected_mono; [|by apply Hconn].
    intros x y [Hxy|Hxy]; [by apply Hall|].
    unfold connected. symmetry. by apply Hall. }
  assert (Hone : count_roots c' = 1%nat).
  { apply count_roots_one; [done|lia|].
    intros a b Ha Hb. apply Hsame; [lia..|]. apply HconnE; lia. }
  assert (HlenE : Z.of_nat (length E) = n - 1) by lia.
  assert (Hll : length l = length es) by by eapply Forall2_length.
  assert (Hkl : (length (kept l bs) + length E = length l)%nat).
  { rewrite (kept_length l es bs Hll). simpl in Hcount. lia. }
  unfold create_maze. simpl. rewrite Hloop. bind_ok.
  destruct q' as [qi|]; simpl in Hq'; [|rewrite Hq' in Hkl; simpl in Hkl; lia].
  destruct Hq' as (acc0 & Hacc & Hseg & Hqi).
  bind_ok. simpl.
  destruct (lookup_lt_is_Some_2 ws' qi Hqi) as [wq Hwq]. rewrite Hwq. bind_ok.
  eexists _, qi, E, (kept l bs). split; [done|]. simpl.
  split; [done|]. split; [done|]. split; [done|]. split.
  { intros e [Hin|Hin]%opened_elem_of; [by apply elem_of_nil in Hin|done]. }
  split; [done|]. destruct Hex as [Hrel Htot]. split; [|split; [|split]].
  - intros a b Ha Hb. apply (connected_iff (adj E)); [|by apply HconnE].
    intros x y. symmetry. apply Hrel.
  - apply (acyclic_iff (adj E)); [intros x y; symmetry; apply Hrel|].
    by apply all_bridges_acyclic.
  - rewrite Hacc. apply lseg_close; [done..|].
    assert (Hnd : NoDup (kept l bs)).
    { apply kept_NoDup. by eapply is_list_NoDup. }
    rewrite Hacc in Hnd. apply NoDup_app in Hnd as (_ & Hd & _).
    intros Hin. apply (Hd qi Hin). left.
  - split; [by rewrite Hacc, last_snoc|]. split; [done|]. split; [|split].
    + intros x. apply kept_elem_of.
    + rewrite <- Hends. by apply ends_insert_set_next.
    + by exists bs.
Qed.

(** * The hexagonal array *)

Lemma wall_at_range m n lo hi :
  1 <= n -> wall_at m n lo hi ->
  0 <= lo < n * m /\ 0 <= hi < n * m /\ known_delta n (hi - lo).
Proof.
  intros Hn Hw.
  destruct (wall_neighbour m n lo hi Hn Hw)
    as (k & l & k' & l' & [Hk Hl] & [Hk' Hl'] & _ & -> & ->).
  unfold cell_no. split; [nia|]. split; [nia|].
  destruct Hw as (i & j & Hi & Hj & E & Hf). unfold wall_from in Hf.
  rewrite !land_1 in Hf. pose proof (Z.mod_pos_bound i 2 ltac:(lia)) as Hb.
  unfold known_delta, cell_no in *. lia.
Qed.

Lemma hex_connected m n (D : list (Z * Z)) :
  1 <= m -> 2 <= n ->
  (forall p, p ∈ D <-> wall_at m n p.1 p.2) ->
  connected_graph (n * m) (adj D).
Proof.
  intros Hm Hn HD.
  assert (Hedge : forall lo hi, wall_at m n lo hi -> connected (adj D) lo hi).
  { intros lo hi Hw. apply rtsc_lr. left. by apply (HD (lo, hi)). }
  assert (Hcol : forall (j : nat) i, 0 <= i < m -> Z.of_nat j < n ->
            connected (adj D) (n * i + Z.of_nat j) (n * i)).
  { induction j as [|j IH]; intros i Hi Hj.
    - replace (n * i + Z.of_nat 0) with (n * i) by lia. done.
    - unfold connected. etrans; [|apply (IH i Hi); lia]. symmetry.
      apply Hedge. exists i, (Z.of_nat j). split; [done|]. split; [lia|].
      split; [done|]. right. left. split; lia. }
  assert (Hrow : forall (i : nat), Z.of_nat i < m -> connected (adj D) (n * Z.of_nat i) 0).
  { induction i as [|i IH]; intros Hi.
    - replace (n * Z.of_nat 0) with 0 by lia. done.
    - set (b := Z.land (Z.of_nat (S i)) 1).
      assert (Hb : 0 <= b < 2).
      { unfold b. rewrite land_1. apply Z.mod_pos_bound. lia. }
      unfold connected. etrans.
      + apply (Hedge (n * Z.of_nat (S i)) (n * Z.of_nat i + b)).
        exists (Z.of_nat (S i)), 0. split; [lia|]. split; [lia|].
        split; [lia|]. left. fold b. split; [lia|]. split; [lia|]. lia.
      + etrans; [|apply IH; lia].
        replace b with (Z.of_nat (Z.to_nat b)) by lia.
        apply Hcol; lia. }
  assert (Hall : forall a, 0 <= a < n * m -> connected (adj D) a 0).
  { intros a Ha.
    pose proof (Z.div_mod a n ltac:(lia)) as Hdm.
    pose proof (Z.mod_pos_bound a n ltac:(lia)) as Hmod.
    assert (Hdiv : 0 <= a / n < m).
    { split; [apply Z.div_pos; lia|apply Z.div_lt_upper_bound; lia]. }
    rewrite Hdm. unfold connected. etrans.
    - replace (a mod n) with (Z.of_nat (Z.to_nat (a mod n))) by lia.
      apply Hcol; lia.
    - replace (a / n) with (Z.of_nat (Z.to_nat (a / n))) by lia.
      apply Hrow. lia. }
  intros a b Ha Hb. unfold connected. etrans; [by apply Hall|].
  symmetry. by apply Hall.
Qed.

Lemma ends_of_exists ws l :
  (forall x, x ∈ l -> (x < length ws)%nat) -> exists es, ends_of ws l es.
Proof.
  induction l as [|x l IH]; intros Hl.
  - exists []. constructor.
  - destruct IH as [es Hes]; [intros y Hy; apply Hl; by right|].
    destruct (lookup_lt_is_Some_2 (ends <$> ws) x) as [e He].
    { rewrite length_fmap. apply Hl. left. }
    exists (e :: es). by constructor.
Qed.

Lemma ends_of_elem_of ws l es e :
  ends_of ws l es -> (forall x, (x < length ws)%nat -> x ∈ l) ->
  e ∈ es <-> e ∈ ends <$> ws.
Proof.
  intros Hes Hl. split.
  - intros Hin. apply list_elem_of_lookup in Hin as [k Hk].
    destruct (Forall2_lookup_r _ _ _ _ _ Hes Hk) as (x & _ & Hx).
    by eapply list_elem_of_lookup_2.
  - intros Hin. apply list_elem_of_lookup in Hin as [x Hx].
    assert (Hxl : x ∈ l).
    { apply Hl. apply lookup_lt_Some in Hx. by rewrite length_fmap in Hx. }
    apply list_elem_of_lookup in Hxl as [k Hk].
    destruct (Forall2_lookup_l _ _ _ _ _ Hes Hk) as (e' & Hk' & Hx').
    rewrite Hx in Hx'. injection Hx' as <-. by eapply list_elem_of_lookup_2.
Qed.

Lemma ends_of_NoDup ws l es :
  ends_of ws l es -> NoDup l -> NoDup (ends <$> ws) -> NoDup es.
Proof.
  unfold ends_of. intros HF Hl Hw. apply NoDup_alt. intros i j e Hi Hj.
  destruct (Forall2_lookup_r _ _ _ _ _ HF Hi) as (x & Hx & Hxe).
  destruct (Forall2_lookup_r _ _ _ _ _ HF Hj) as (y & Hy & Hye).
  assert (x = y) as -> by (by eapply (NoDup_lookup _ _ _ _ Hw)).
  by eapply (NoDup_lookup _ _ _ _ Hl).
Qed.

Lemma ends_of_kept ws l es bs :
  ends_of ws l es -> ends_of ws (kept l bs) (kept es bs).
Proof.
  unfold ends_of. intros H. revert bs.
  induction H as [|x e l es Hx H IH]; intros [|[] bs]; simpl;
    try constructor; try done.
  all: apply IH.
Qed.

(** * From [init_walls] to the end of [create_maze] *)

Section Pipeline.
Context {rng : Type} (Random : rng -> Z * rng).

Lemma make_maze_spec fuel m n g :
  2 <= m <= 1000 -> 2 <= n <= 1000 -> (Z.to_nat (3 * m * n) <= fuel)%nat ->
  exists st q E kl,
    make_maze Random fuel m n g = Some (st, q) /\
    count_roots (cells st) = 1%nat /\
    Z.of_nat (length E) = m * n - 1 /\
    simple_edges E /\
    (forall lo hi, (lo, hi) ∈ E -> wall_at m n lo hi) /\
    exits_inv n (nodes st) E /\
    connected_graph (m * n) (exit_rel n (nodes st)) /\
    acyclic (exit_rel n (nodes st)) /\
    is_list (walls st) (first_wall st) kl /\ last kl = Some q /\
    Z.of_nat (length kl) = 2 * (m - 1) * (n - 1) /\
    (forall p, p ∈ ends <$> walls st <-> wall_at m n p.1 p.2) /\
    Z.of_nat (length (walls st)) = 3 * m * n - m - m - n - n + 1 /\
    exists es bs,
      (forall e, e ∈ es <-> wall_at m n e.1 e.2) /\
      carve fuel n (init_cells (n * m)) (init_nodes (n * m)) es
        = Some (cells st, nodes st, bs) /\
      E = opened [] es bs /\
      ends_of (walls st) kl (kept es bs) /\
      NoDup es /\ length bs = length es /\ NoDup kl.
Proof.
  intros Hm Hn Hf. unfold make_maze.
  destruct (init_walls_spec m n) as (ws0 & -> & Hlen0 & Hmem0 & Hnd0 & Hlist0);
    [lia|lia|nia|].
  bind_ok.
  destruct (shuffle_walls_spec Random fuel ws0 (seq 0 (length ws0)) g Hlist0)
    as (ws1 & fw & l & g' & -> & Hl & Hperm & Hends1 & Hlen1); [nia|].
  bind_ok.
  assert (Hlt : forall x, x ∈ l -> (x < length ws1)%nat).
  { intros x Hx. by eapply is_list_lt. }
  destruct (ends_of_exists ws1 l Hlt) as [es Hes].
  assert (Hall : forall x, (x < length ws1)%nat -> x ∈ l).
  { intros x Hx. rewrite Hperm. apply elem_of_seq. lia. }
  assert (Hmem : forall e, e ∈ es <-> wall_at m n e.1 e.2).
  { intros e. rewrite (ends_of_elem_of ws1 l es e Hes Hall), Hends1. apply Hmem0. }
  assert (Hll : length l = length ws0).
  { rewrite Hperm. apply length_seq. }
  assert (Hrange : forall lo hi, (lo, hi) ∈ es ->
            0 <= lo < n * m /\ 0 <= hi < n * m /\ known_delta n (hi - lo)).
  { intros lo hi Hin. apply Hmem in Hin. apply (wall_at_range m n); [lia|done]. }
  assert (Hconn : connected_graph (n * m) (adj es)).
  { intros a b Ha Hb. eapply (connected_mono (adj (ends <$> ws0))).
    - intros x y Hxy. apply rtsc_lr.
      destruct Hxy as [Hxy|Hxy]; [left|right];
        apply Hmem; by apply Hmem0 in Hxy.
    - apply (hex_connected m n); [lia|lia|done|lia|lia]. }
  assert (Hmany : (Z.to_nat (n * m) <= length l)%nat) by nia.
  assert (Hfw : (length ws1 <= fuel)%nat) by nia.
  assert (Hfc : (Z.to_nat (n * m) <= fuel)%nat) by nia.
  destruct (create_maze_spec (n * m) n fuel ws1 fw l es ltac:(nia) ltac:(lia)
              Hl Hes Hrange Hconn Hmany Hfw Hfc)
    as (st & q & E & kl & Hcm & Hone & HlE & Hsim & HEs & Hex & Hcon & Hac & Hkl
        & Hlast & Hcnt & _ & Hends & bs & Hcarve & HE & Hkept).
  rewrite Hcm. exists st, q, E, kl. split; [done|]. split; [done|].
  split; [lia|]. split; [done|]. split.
  { intros lo hi Hin. by apply (Hmem (lo, hi)), HEs. }
  split; [done|]. replace (m * n) with (n * m) by lia.
  split; [done|]. split; [done|]. split; [done|]. split; [done|].
  split; [nia|]. split; [|split].
  - intros p. rewrite Hends, Hends1. apply Hmem0.
  - apply (f_equal length) in Hends. rewrite !length_fmap in Hends. lia.
  - exists es, bs. split; [done|]. split; [done|]. split; [done|].
    assert (Hndl : NoDup l) by (by eapply is_list_NoDup).
    split; [|split; [|split]].
    + subst kl. apply (ends_of_frame ws1); [done|]. by apply ends_of_kept.
    + apply (ends_of_NoDup ws1 l); [done|done|]. by rewrite Hends1.
    + assert (Hinit : kruskal_inv (n * m) (init_cells (n * m)) [])
        by (apply kruskal_inv_init; nia).
      assert (Hlenn : Z.of_nat (length (init_nodes (n * m))) = n * m).
      { unfold init_nodes. rewrite length_replicate. nia. }
      destruct (carve_spec (n * m) n fuel es (init_cells (n * m))
                  (init_nodes (n * m)) [] Hinit (exits_inv_init n (n * m))
                  Hlenn ltac:(lia) Hrange Hfc
                  ltac:(rewrite size_sum_init; nia))
        as (c' & n' & bs' & Hcarve' & Hlb & _).
      rewrite Hcarve in Hcarve'. by injection Hcarve' as <- <- <-.
    + subst kl. by apply kept_NoDup.
Qed.

End Pipeline.

(** * Tree analysis *)

Section Tree_facts.
Import Node Tree.
Implicit Types (nodes : list node) (n m x y : nat) (l : list nat).

(** Two stores that agree on the nodes [S]. *)
Local Abbreviation agree nodes nodes' S :=
  (forall y, y ∈ S -> nodes' !! y = nodes !! y).

Lemma upd_Some nodes n f nd :
  nodes !! n = Some nd -> upd nodes n f = Some (<[n := f nd]> nodes).
Proof. intros H. unfold upd. by rewrite H. Qed.

Lemma lookup_insert_same nodes n nd nd' :
  nodes !! n = Some nd -> <[n := nd']> nodes !! n = Some nd'.
Proof. intros H. apply list_lookup_insert_eq. by eapply lookup_lt_Some. Qed.

Lemma shape_insert nodes n nd nd' :
  nodes !! n = Some nd -> shape nd' = shape nd ->
  shape <$> <[n := nd']> nodes = shape <$> nodes.
Proof.
  intros H E. rewrite list_fmap_insert. apply list_insert_id.
  by rewrite list_lookup_fmap, H, E.
Qed.

Lemma shape_lookup nodes nodes' y :
  shape <$> nodes' = shape <$> nodes ->
  shape <$> (nodes' !! y) = shape <$> (nodes !! y).
Proof. intros E. by rewrite <- !list_lookup_fmap, E. Qed.

Lemma children_shape nodes nodes' x :
  shape <$> nodes' = shape <$> nodes -> children nodes' x = children nodes x.
Proof.
  intros E. pose proof (shape_lookup nodes nodes' x E) as H. unfold children.
  destruct (nodes' !! x) as [nd'|], (nodes !! x) as [nd|]; simpl in H; try done.
  unfold shape in H. injection H as H1 H2. by rewrite H1, H2.
Qed.

Lemma subtree_shape nodes nodes' :
  shape <$> nodes' = shape <$> nodes ->
  forall fuel n, subtree fuel nodes' n = subtree fuel nodes n.
Proof.
  intros E. induction fuel as [|f IH]; intros n; [done|]. simpl.
  pose proof (shape_lookup nodes nodes' n E) as H.
  destruct (nodes' !! n) as [nd'|], (nodes !! n) as [nd|]; simpl in H; try done.
  unfold shape in H. injection H as H1 H2. simpl.
  rewrite H1, H2. case_decide; [|done]. by rewrite (mapM_ext _ _ _ IH).
Qed.

Lemma subtree_inv fuel nodes n l :
  subtree fuel nodes n = Some l ->
  exists f nd subs, fuel = S f /\ nodes !! n = Some nd /\
    0 <= n_kids nd <= Z.of_nat (List.length (kids nd)) /\
    Forall2 (fun m lm => subtree f nodes m = Some lm) (children nodes n) subs /\
    l = n :: concat subs.
Proof.
  destruct fuel as [|f]; [done|]. simpl. unfold children.
  destruct (nodes !! n) as [nd|]; [|done]. simpl.
  case_decide; [|done].
  destruct (mapM _ _) as [subs|] eqn:Hm; [|done]. simpl. intros [= <-].
  exists f, nd, subs. split; [done|]. split; [done|]. split; [done|].
  split; [|done]. by apply mapM_Some_1.
Qed.

Lemma subtree_head fuel nodes n l : subtree fuel nodes n = Some l -> n ∈ l.
Proof.
  intros (f & nd & subs & _ & _ & _ & _ & ->)%subtree_inv. left.
Qed.

(** The children of a node of the tree are in the tree. *)
Lemma subtree_children fuel : forall nodes n l x y,
  subtree fuel nodes n = Some l -> x ∈ l -> y ∈ children nodes x -> y ∈ l.
Proof.
  induction fuel as [|f IH]; intros nodes n l x y Hs Hx Hy; [done|].
  apply subtree_inv in Hs as (f' & nd & subs & [= <-] & Hn & Hk & Hsubs & ->).
  apply elem_of_cons in Hx as [->|Hx].
  - right. apply list_elem_of_lookup in Hy as [j Hj].
    destruct (Forall2_lookup_l _ _ _ _ _ Hsubs Hj) as (lm & Hlm & Hsm).
    eapply elem_of_concat_lookup; [exact Hlm|]. by eapply subtree_head.
  - right. apply elem_of_concat_inv in Hx as (j & lm & Hj & Hx).
    destruct (Forall2_lookup_r _ _ _ _ _ Hsubs Hj) as (m & _ & Hm).
    eapply elem_of_concat_lookup; [exact Hj|]. by eapply IH.
Qed.

Lemma dist_agree nodes nodes' y :
  nodes' !! y = nodes !! y -> dist nodes' y = dist nodes y.
Proof. unfold dist. by intros ->. Qed.
Lemma len_agree nodes nodes' y :
  nodes' !! y = nodes !! y -> len nodes' y = len nodes y.
Proof. unfold len. by intros ->. Qed.
Lemma far_agree nodes nodes' y :
  nodes' !! y = nodes !! y -> far nodes' y = far nodes y.
Proof. unfold far. by intros ->. Qed.
Lemma fst_end_agree nodes nodes' y :
  nodes' !! y = nodes !! y -> fst_end nodes' y = fst_end nodes y.
Proof. unfold fst_end. by intros ->. Qed.
Lemma snd_end_agree nodes nodes' y :
  nodes' !! y = nodes !! y -> snd_end nodes' y = snd_end nodes y.
Proof. unfold snd_end. by intros ->. Qed.

Lemma children_agree nodes nodes' x :
  nodes' !! x = nodes !! x -> children nodes' x = children nodes x.
Proof. unfold children. by intros ->. Qed.

Lemma combine_agree nodes nodes' x c1 cl D1 D2 sec :
  agree nodes nodes' [x; c1; cl] ->
  combine nodes x c1 cl D1 D2 sec -> combine nodes' x c1 cl D1 D2 sec.
Proof.
  intros Ha. unfold combine.
  assert (Hx : nodes' !! x = nodes !! x) by (apply Ha; rewrite !elem_of_cons; tauto).
  assert (H1 : nodes' !! c1 = nodes !! c1) by (apply Ha; rewrite !elem_of_cons; tauto).
  assert (Hl : nodes' !! cl = nodes !! cl) by (apply Ha; rewrite !elem_of_cons; tauto).
  rewrite (dist_agree _ _ _ Hx), (len_agree _ _ _ Hx), (len_agree _ _ _ Hl),
    (far_agree _ _ _ Hx), (far_agree _ _ _ H1), (fst_end_agree _ _ _ Hx),
    (fst_end_agree _ _ _ Hl), (snd_end_agree _ _ _ Hx), (snd_end_agree _ _ _ Hl).
  done.
Qed.

(** The rule at [x] only looks at [x] and its children. *)
Lemma actual_rule_agree nodes nodes' x :
  agree nodes nodes' (x :: children nodes x) ->
  actual_rule nodes x -> actual_rule nodes' x.
Proof.
  intros Ha. unfold actual_rule.
  assert (Hx : nodes' !! x = nodes !! x) by (apply Ha; left).
  rewrite (children_agree _ _ _ Hx).
  assert (HK : forall y, y ∈ children nodes x -> nodes' !! y = nodes !! y).
  { intros y Hy. apply Ha. by right. }
  destruct (children nodes x) as [|c [|c' K]] eqn:EK.
  - unfold leaf_rule.
    by rewrite (dist_agree _ _ _ Hx), (len_agree _ _ _ Hx), (far_agree _ _ _ Hx),
      (fst_end_agree _ _ _ Hx), (snd_end_agree _ _ _ Hx).
  - unfold single_rule. intros Hc.
    rewrite (dist_agree _ _ _ (HK c ltac:(left))).
    eapply combine_agree; [|exact Hc].
    intros y Hy. apply Ha. rewrite !elem_of_cons in *. tauto.
  - unfold internal_rule. rewrite (children_agree _ _ _ Hx), EK.
    intros (c1 & c2 & cl & H1 & H2 & Hl & Hne & Hd1 & Hd2 & Hl1 & Hc).
    exists c1, c2, cl. split; [done|]. split; [done|]. split; [done|].
    split; [done|].
    rewrite !(dist_agree _ _ _ (HK c1 H1)), !(dist_agree _ _ _ (HK c2 H2)),
      !(len_agree _ _ _ (HK cl Hl)), (far_agree _ _ _ (HK c2 H2)).
    split; [|split; [|split]].
    + intros y Hy. rewrite (dist_agree _ _ _ (HK y Hy)). by apply Hd1.
    + intros y Hy. rewrite (dist_agree _ _ _ (HK y Hy)). by apply Hd2.
    + intros y Hy. rewrite (len_agree _ _ _ (HK y Hy)). by apply Hl1.
    + eapply combine_agree; [|exact Hc]. intros y Hy. apply Ha.
      rewrite !elem_of_cons in Hy. rewrite elem_of_cons.
      destruct Hy as [->|[->|[->|Hy]]]; [by left|by right|by right|].
      by apply elem_of_nil in Hy.
Qed.

Lemma visited_agree nodes nodes' P a :
  agree nodes nodes' P -> visited nodes P a -> visited nodes' P a.
Proof.
  intros Ha. unfold visited. destruct P as [|p P]; [done|].
  intros (c1 & cl & H1 & Hl & Hc1 & Hcl & Hd & Hlen & Hmax & Hlmax & H2).
  exists c1, cl. split; [done|]. split; [done|]. split; [done|]. split; [done|].
  rewrite (dist_agree _ _ _ (Ha c1 Hc1)), (len_agree _ _ _ (Ha cl Hcl)).
  split; [done|]. split; [done|]. split; [|split].
  - intros y Hy. rewrite (dist_agree _ _ _ (Ha y Hy)). by apply Hmax.
  - intros y Hy. rewrite (len_agree _ _ _ (Ha y Hy)). by apply Hlmax.
  - destruct P as [|p' P]; simpl in *; [done|].
    destruct H2 as (c2 & H2 & Hc2 & Hne & Hd2 & Hmax2).
    exists c2. split; [done|]. split; [done|]. split; [done|].
    rewrite (dist_agree _ _ _ (Ha c2 Hc2)). split; [done|].
    intros y Hy Hyc. rewrite (dist_agree _ _ _ (Ha y Hy)). by apply Hmax2.
Qed.

(** One more child [m], with non-negative results, joins the visited. *)
Lemma visited_visit nodes P a m mn :
  visited nodes P a -> m ∉ P -> nodes !! m = Some mn ->
  0 <= distance mn -> 0 <= length mn ->
  visited nodes (m :: P) (visit a m mn).
Proof.
  intros Hv Hm Hmn Hd Hl.
  assert (Edist : dist nodes m = distance mn) by (unfold dist; by rewrite Hmn).
  assert (Elen : len nodes m = length mn) by (unfold len; by rewrite Hmn).
  destruct P as [|p P].
  - simpl in Hv. subst a. unfold visit, locals0. simpl.
    destruct (decide (0 <= length mn)); [|lia]. simpl.
    destruct (decide (0 <= distance mn)); [|lia]. simpl.
    exists m, m. rewrite Edist, Elen.
    repeat (split; [done || left|]). split; [|split; [|done]].
    + intros y ->%list_elem_of_singleton. lia.
    + intros y ->%list_elem_of_singleton. lia.
  - destruct Hv as (c1 & cl & H1 & Hl1 & Hc1 & Hcl & Hd1 & Hlen & Hmax & Hlmax & H2).
    assert (Hmc1 : m <> c1) by (by intros ->).
    unfold visit. cbv zeta.
    set (a1 := if decide (l1 a <= length mn)
               then Locals (length mn) (Some m) (d1 a) (dn1 a) (d2 a) (dn2 a)
               else a).
    assert (Ha1 : d1 a1 = d1 a /\ dn1 a1 = dn1 a /\ d2 a1 = d2 a /\
                  dn2 a1 = dn2 a) by (unfold a1; by case_decide).
    destruct Ha1 as (E1 & E2 & E3 & E4).
    assert (HL : exists cl', ln1 a1 = Some cl' /\ cl' ∈ m :: p :: P /\
              l1 a1 = len nodes cl' /\
              forall y, y ∈ m :: p :: P -> len nodes y <= l1 a1).
    { unfold a1. case_decide; simpl.
      - exists m. split; [done|]. split; [left|]. split; [done|].
        intros y [->|Hy]%elem_of_cons; [lia|]. specialize (Hlmax y Hy). lia.
      - exists cl. split; [done|]. split; [by right|]. split; [done|].
        intros y [->|Hy]%elem_of_cons; [lia|]. by apply Hlmax. }
    destruct HL as (cl' & HL1 & HL2 & HL3 & HL4).
    rewrite E1, E3.
    destruct (decide (d1 a <= distance mn)) as [Hge|Hlt].
    + (* the new child has the largest distance *)
      exists m, cl'. simpl. rewrite ?E1, ?E2, ?E3, ?E4.
      split; [done|]. split; [done|]. split; [left|]. split; [done|].
      split; [done|]. split; [done|]. split; [|split; [done|]].
      * intros y [->|Hy]%elem_of_cons; [lia|]. specialize (Hmax y Hy). lia.
      * exists c1. split; [done|]. split; [by right|]. split; [done|].
        split; [done|]. intros y [->|Hy]%elem_of_cons Hne; [done|].
        specialize (Hmax y Hy). lia.
    + destruct (decide (d2 a <= distance mn)) as [Hge2|Hlt2].
      * (* the new child has the second largest distance *)
        exists c1, cl'. simpl. rewrite ?E1, ?E2, ?E3, ?E4.
        split; [done|]. split; [done|]. split; [by right|]. split; [done|].
        split; [done|]. split; [done|]. split; [|split; [done|]].
        -- intros y [->|Hy]%elem_of_cons; [lia|]. specialize (Hmax y Hy). lia.
        -- exists m. split; [done|]. split; [left|]. split; [done|].
           split; [done|]. intros y [->|Hy]%elem_of_cons Hne; [lia|].
           destruct P as [|p' P].
           ++ apply list_elem_of_singleton in Hy, Hc1. congruence.
           ++ destruct H2 as (c2 & _ & _ & _ & Ed2 & Hmax2).
              specialize (Hmax2 y Hy Hne). lia.
      * (* the two largest stay *)
        destruct P as [|p' P].
        { destruct H2 as [_ Ed2]. lia. }
        destruct H2 as (c2 & Hdn2 & Hc2 & Hne2 & Ed2 & Hmax2).
        exists c1, cl'. simpl. rewrite ?E1, ?E2, ?E3, ?E4.
        split; [done|]. split; [done|]. split; [by right|]. split; [done|].
        split; [done|]. split; [done|]. split; [|split; [done|]].
        -- intros y [->|Hy]%elem_of_cons; [lia|]. specialize (Hmax y Hy). lia.
        -- exists c2. rewrite ?E1, ?E2, ?E3, ?E4. split; [done|]. split; [by right|].
           split; [done|]. split; [done|].
           intros y [->|Hy]%elem_of_cons Hne; [lia|]. specialize (Hmax2 y Hy Hne). lia.
Qed.

Lemma NoDup_concat_disjoint {A} (bs : list (list A)) :
  NoDup (concat bs) -> forall j j' b b' (x : A),
  bs !! j = Some b -> bs !! j' = Some b' -> j <> j' -> x ∈ b -> x ∉ b'.
Proof.
  induction bs as [|c bs IH]; intros Hnd j j' b b' x Hj Hj' Hne Hx Hx'.
  - by rewrite lookup_nil in Hj.
  - simpl in Hnd. apply NoDup_app in Hnd as (_ & Hd & Hnd).
    destruct j as [|j], j' as [|j']; simplify_eq/=.
    + apply (Hd x Hx). by eapply elem_of_concat_lookup.
    + apply (Hd x Hx'). by eapply elem_of_concat_lookup.
    + eapply (IH Hnd j j'); eauto.
Qed.

Lemma NoDup_concat_lookup {A} (bs : list (list A)) j b :
  NoDup (concat bs) -> bs !! j = Some b -> NoDup b.
Proof.
  revert j. induction bs as [|c bs IH]; intros j Hnd Hj.
  - by rewrite lookup_nil in Hj.
  - simpl in Hnd. apply NoDup_app in Hnd as (Hc & _ & Hnd).
    destruct j as [|j]; simplify_eq/=; [done|]. by eapply IH.
Qed.

Lemma upd_insert nodes n nd0 nd f :
  nodes !! n = Some nd0 ->
  upd (<[n := nd]> nodes) n f = Some (<[n := f nd]> nodes).
Proof.
  intros H. unfold upd. rewrite (lookup_insert_same _ _ _ _ H). bind_ok.
  by rewrite list_insert_insert_eq.
Qed.

Lemma set_leaf_spec nodes n nd :
  nodes !! n = Some nd ->
  exists ndF, set_leaf nodes n = Some (<[n := ndF]> nodes) /\
    shape ndF = shape nd /\ distance ndF = 0 /\ length ndF = 0 /\
    first ndF = Some n /\ second ndF = Some n /\ furthest ndF = Some n.
Proof.
  intros H. unfold set_leaf. rewrite (upd_Some _ _ _ _ H). bind_ok.
  do 3 (rewrite (upd_insert _ _ _ _ _ H); bind_ok).
  rewrite (upd_insert _ _ _ _ _ H). eexists. split; [done|]. done.
Qed.

Lemma set_inner_spec nodes n nd a c1 (n1 : node) cl (nl : node) :
  nodes !! n = Some nd ->
  dn1 a = Some c1 -> c1 <> n -> nodes !! c1 = Some n1 ->
  ln1 a = Some cl -> cl <> n -> nodes !! cl = Some nl ->
  (forall c2, dn2 a = Some c2 -> c2 <> n /\ is_Some (nodes !! c2)) ->
  exists ndF, set_inner nodes n a = Some (<[n := ndF]> nodes) /\
    shape ndF = shape nd /\
    distance ndF = d1 a + n_kids nd /\ furthest ndF = furthest n1 /\
    if decide (l1 a < (d1 a + n_kids nd) + (d2 a + n_kids nd)) then
      length ndF = (d1 a + n_kids nd) + (d2 a + n_kids nd) /\
      first ndF = furthest n1 /\
      second ndF = match dn2 a with
                   | Some c2 => far nodes c2
                   | None => Some n
                   end
    else
      length ndF = l1 a /\ first ndF = first nl /\ second ndF = second nl.
Proof.
  intros H H1 Hc1 Hn1 Hl Hcl Hnl H2. unfold set_inner. rewrite H. bind_ok.
  rewrite (upd_Some _ _ _ _ H). bind_ok. rewrite H1. bind_ok.
  rewrite list_lookup_insert_ne by done. rewrite Hn1. bind_ok.
  rewrite (upd_insert _ _ _ _ _ H). bind_ok.
  case_decide.
  - rewrite (upd_insert _ _ _ _ _ H). bind_ok.
    rewrite list_lookup_insert_ne by done. rewrite Hn1. bind_ok.
    rewrite (upd_insert _ _ _ _ _ H). bind_ok.
    destruct (dn2 a) as [c2|] eqn:E2.
    + destruct (H2 c2 eq_refl) as [Hc2 [n2 Hn2]].
      rewrite list_lookup_insert_ne by done. rewrite Hn2. bind_ok.
      rewrite (upd_insert _ _ _ _ _ H). eexists. split; [done|].
      unfold far. rewrite Hn2. done.
    + rewrite (upd_insert _ _ _ _ _ H). eexists. split; [done|]. done.
  - rewrite (upd_insert _ _ _ _ _ H). bind_ok. rewrite Hl. bind_ok.
    rewrite list_lookup_insert_ne by done. rewrite Hnl. bind_ok.
    rewrite (upd_insert _ _ _ _ _ H). bind_ok.
    rewrite list_lookup_insert_ne by done. rewrite Hnl. bind_ok.
    rewrite (upd_insert _ _ _ _ _ H). eexists. split; [done|]. done.
Qed.

(** What a recursive call is assumed to do on a tree of depth [f0]. *)
Local Abbreviation analysed f0 rec :=
  (forall nodes m lm, subtree f0 nodes m = Some lm -> NoDup lm ->
   exists nodes', rec nodes m = Some nodes' /\
     shape <$> nodes' = shape <$> nodes /\
     (forall y, y ∉ lm -> nodes' !! y = nodes !! y) /\
     (forall x, x ∈ lm -> actual_rule nodes' x) /\
     0 <= dist nodes' m /\ 0 <= len nodes' m).

Section Kid_loop.
Variables (f0 : nat) (rec : list node -> nat -> option (list node)).
Hypothesis Hrec : analysed f0 rec.
Variables (nodes0 : list node) (n : nat) (nd0 : node) (subs : list (list nat)).
Hypothesis Hn0 : nodes0 !! n = Some nd0.
Hypothesis Hk0 : 0 <= n_kids nd0 <= Z.of_nat (List.length (kids nd0)).
Local Abbreviation K := (children nodes0 n).
Hypothesis Hsubs : Forall2 (fun m lm => subtree f0 nodes0 m = Some lm) K subs.
Hypothesis Hnd : NoDup (n :: concat subs).

Lemma kid_in_sub j m lm : K !! j = Some m -> subs !! j = Some lm -> m ∈ lm.
Proof.
  intros Hm Hl. pose proof (Forall2_lookup_lr _ _ _ _ _ _ Hsubs Hm Hl) as Hs.
  simpl in Hs. by eapply subtree_head.
Qed.

Lemma kid_sub_lookup j m : K !! j = Some m -> exists lm, subs !! j = Some lm.
Proof.
  intros Hm. destruct (Forall2_lookup_l _ _ _ _ _ Hsubs Hm) as (lm & Hl & _).
  by exists lm.
Qed.

Lemma kids_not_root m : m ∈ K -> m <> n.
Proof.
  intros Hm ->. apply list_elem_of_lookup in Hm as [j Hj].
  destruct (kid_sub_lookup _ _ Hj) as [lm Hl].
  apply NoDup_cons in Hnd as [Hn _]. apply Hn.
  eapply elem_of_concat_lookup; [exact Hl|]. by eapply kid_in_sub.
Qed.

Lemma kids_apart j j' m m' lm :
  K !! j = Some m -> K !! j' = Some m' -> j <> j' ->
  subs !! j = Some lm -> m' ∉ lm.
Proof.
  intros Hm Hm' Hne Hl Hin.
  destruct (kid_sub_lookup _ _ Hm') as [lm' Hl'].
  apply NoDup_cons in Hnd as [_ Hndc].
  apply (NoDup_concat_disjoint subs Hndc j' j lm' lm m' Hl' Hl); [done| |done].
  by eapply kid_in_sub.
Qed.

Lemma kid_loop_spec : forall i nodes a,
  (i <= List.length K)%nat -> shape <$> nodes = shape <$> nodes0 ->
  visited nodes (drop i K) a ->
  (forall x, x ∈ concat (drop i subs) -> actual_rule nodes x) ->
  (forall y, y ∈ drop i K -> 0 <= dist nodes y /\ 0 <= len nodes y) ->
  exists nodes' a',
    kid_loop rec n i nodes a = Some (nodes', a') /\
    shape <$> nodes' = shape <$> nodes0 /\
    visited nodes' K a' /\
    (forall x, x ∈ concat subs -> actual_rule nodes' x) /\
    (forall y, y ∈ K -> 0 <= dist nodes' y /\ 0 <= len nodes' y) /\
    (forall y, y ∉ concat (take i subs) -> nodes' !! y = nodes !! y).
Proof.
  induction i as [|i IH]; intros nodes a Hi Hsh Hv Hrules Hpos.
  - exists nodes, a. rewrite !drop_0 in *. done.
  - pose proof (Forall2_length _ _ _ Hsubs) as Hlen.
    destruct (lookup_lt_is_Some_2 K i ltac:(lia)) as [m Hm].
    destruct (kid_sub_lookup _ _ Hm) as [lm Hlm].
    pose proof (Forall2_lookup_lr _ _ _ _ _ _ Hsubs Hm Hlm) as Hsm. simpl in Hsm.
    pose proof Hnd as [Hnroot Hndc]%NoDup_cons.
    (* reading [n->kids[i]] *)
    pose proof (shape_lookup _ _ n Hsh) as Hshn. rewrite Hn0 in Hshn.
    destruct (nodes !! n) as [nd|] eqn:Hn; [|done].
    simpl in Hshn. unfold shape in Hshn. injection Hshn as Hsk Hsks.
    assert (Hkid : kids nd !! i = Some m).
    { rewrite Hsks. unfold children in Hm. rewrite Hn0 in Hm.
      by apply lookup_take_Some in Hm as [Hm _]. }
    simpl. rewrite Hn. bind_ok. rewrite Hkid. bind_ok.
    (* the recursive call *)
    rewrite <- (subtree_shape _ _ Hsh) in Hsm.
    destruct (Hrec nodes m lm Hsm (NoDup_concat_lookup _ _ _ Hndc Hlm))
      as (nodes1 & -> & Hsh1 & Hfr1 & Hr1 & Hd1 & Hl1).
    bind_ok.
    assert (Hmn : exists mn, nodes1 !! m = Some mn).
    { apply subtree_inv in Hsm as (_ & ndm & _ & _ & Hndm & _).
      pose proof (shape_lookup _ _ m Hsh1) as H. rewrite Hndm in H.
      destruct (nodes1 !! m) as [mn|]; [by exists mn|done]. }
    destruct Hmn as [mn Hmn]. rewrite Hmn. bind_ok.
    assert (Hdrop : drop i K = m :: drop (S i) K) by (by apply drop_S).
    assert (Hdrops : drop i subs = lm :: drop (S i) subs) by (by apply drop_S).
    assert (Hrest : forall m', m' ∈ drop (S i) K -> m' ∉ lm).
    { intros m' Hm'. apply list_elem_of_lookup in Hm' as [j Hj].
      rewrite lookup_drop in Hj.
      apply (kids_apart i (S i + j) m m' lm Hm Hj); [lia|done]. }
    destruct (IH nodes1 (visit a m mn)) as (nodes' & a' & Hloop & Hsh' & Hv' & Hr' & Hp' & Hfr').
    + lia.
    + by rewrite Hsh1.
    + rewrite Hdrop. apply visited_visit.
      * eapply visited_agree; [|exact Hv]. intros y Hy. apply Hfr1. by apply Hrest.
      * intros Hin. apply (Hrest m Hin). by eapply kid_in_sub.
      * done.
      * unfold dist in Hd1. by rewrite Hmn in Hd1.
      * unfold len in Hl1. by rewrite Hmn in Hl1.
    + rewrite Hdrops. simpl. intros x [Hx|Hx]%elem_of_app; [by apply Hr1|].
      eapply actual_rule_agree; [|by apply Hrules].
      apply elem_of_concat_inv in Hx as (j & lm' & Hj & Hx).
      rewrite lookup_drop in Hj.
      destruct (Forall2_lookup_r _ _ _ _ _ Hsubs Hj) as (m' & Hm' & Hsm').
      simpl in Hsm'. rewrite <- (subtree_shape _ _ Hsh) in Hsm'.
      intros y Hy. apply Hfr1.
      assert (Hylm' : y ∈ lm').
      { apply elem_of_cons in Hy as [->|Hy]; [done|].
        by eapply subtree_children. }
      apply (NoDup_concat_disjoint subs Hndc (S i + j) i lm' lm y Hj Hlm);
        [lia|done].
    + rewrite Hdrop. intros y [->|Hy]%elem_of_cons; [done|].
      rewrite (dist_agree nodes nodes1), (len_agree nodes nodes1);
        [by apply Hpos|apply Hfr1; by apply Hrest|apply Hfr1; by apply Hrest].
    + exists nodes', a'. split; [done|]. split; [done|]. split; [done|].
      split; [done|]. split; [done|]. intros y Hy.
      rewrite (take_S_r subs i lm Hlm) in Hy.
      assert (Hy' : (y ∉ concat (take i subs)) /\ (y ∉ lm)).
      { split; intros Hin; apply Hy.
        - rewrite concat_app. apply elem_of_app. by left.
        - rewrite concat_app. apply elem_of_app. right. simpl.
          by rewrite app_nil_r. }
      destruct Hy' as [Hy1 Hy2]. rewrite Hfr' by done. by apply Hfr1.
Qed.

End Kid_loop.

(** [analyse_tree] on a tree: it returns, touches only the nodes of the
    tree, leaves the tree as it is, and every node ends up following
    [actual_rule]. *)
Lemma analyse_tree_spec : forall f0 fuel nodes n l,
  subtree f0 nodes n = Some l -> NoDup l -> (f0 <= fuel)%nat ->
  exists nodes', analyse_tree fuel nodes n = Some nodes' /\
    shape <$> nodes' = shape <$> nodes /\
    (forall y, y ∉ l -> nodes' !! y = nodes !! y) /\
    (forall x, x ∈ l -> actual_rule nodes' x) /\
    0 <= dist nodes' n /\ 0 <= len nodes' n.
Proof.
  induction f0 as [|f IH]; intros fuel nodes n l Hs Hnd Hf; [done|].
  apply subtree_inv in Hs as (f' & nd & subs & [= <-] & Hn & Hk & Hsubs & ->).
  destruct fuel as [|fuel]; [lia|]. simpl. rewrite Hn. bind_ok.
  assert (HK : children nodes n = take (Z.to_nat (n_kids nd)) (kids nd)).
  { unfold children. by rewrite Hn. }
  case_decide as Hk0.
  - (* a leaf *)
    rewrite HK, Hk0 in Hsubs. simpl in Hsubs. apply Forall2_nil_inv_l in Hsubs.
    subst subs. simpl.
    destruct (set_leaf_spec nodes n nd Hn)
      as (ndF & -> & Hsh & Hd & Hl & H1 & H2 & H3).
    assert (HnF : <[n := ndF]> nodes !! n = Some ndF) by by eapply lookup_insert_same.
    eexists. split; [done|]. split; [by eapply shape_insert|]. split; [|split; [|split]].
    + intros y Hy. apply list_lookup_insert_ne. intros ->. apply Hy. left.
    + intros x ->%list_elem_of_singleton. unfold actual_rule, children.
      rewrite HnF. unfold shape in Hsh. injection Hsh as -> ->.
      rewrite Hk0. simpl. unfold leaf_rule, dist, len, far, fst_end, snd_end.
      rewrite HnF. simpl. done.
    + unfold dist. rewrite HnF. lia.
    + unfold len. rewrite HnF. lia.
  - (* at least one child *)
    assert (Hrec : analysed f (analyse_tree fuel)).
    { intros nodes2 m lm Hsm Hndm. apply (IH fuel nodes2 m lm Hsm Hndm). lia. }
    assert (HlenK : List.length (children nodes n) = Z.to_nat (n_kids nd)).
    { rewrite HK, length_take. lia. }
    pose proof (Forall2_length _ _ _ Hsubs) as Hlsubs.
    destruct (kid_loop_spec f (analyse_tree fuel) Hrec nodes n nd subs Hn Hsubs
                Hnd (Z.to_nat (n_kids nd)) nodes locals0)
      as (nodes1 & a & -> & Hsh1 & Hv & Hr & Hpos & Hfr1).
    { lia. }
    { done. }
    { rewrite drop_ge by lia. done. }
    { rewrite drop_ge by lia. intros x Hx. by apply elem_of_nil in Hx. }
    { rewrite drop_ge by lia. intros y Hy. by apply elem_of_nil in Hy. }
    bind_ok.
    (* the node [n] after the loop *)
    pose proof (shape_lookup _ _ n Hsh1) as Hshn. rewrite Hn in Hshn.
    destruct (nodes1 !! n) as [nd1|] eqn:Hn1; [|done].
    simpl in Hshn. unfold shape in Hshn. injection Hshn as Hsk Hsks.
    assert (HK1 : children nodes1 n = children nodes n) by by apply children_shape.
    (* every child has a node *)
    assert (Hkid : forall c, c ∈ children nodes n ->
              c <> n /\ exists nc, nodes1 !! c = Some nc).
    { intros c Hc. split; [by eapply kids_not_root|].
      apply list_elem_of_lookup in Hc as [j Hj].
      destruct (Forall2_lookup_l _ _ _ _ _ Hsubs Hj) as (lm & _ & Hsm).
      apply subtree_inv in Hsm as (_ & ndc & _ & _ & Hndc & _).
      pose proof (shape_lookup _ _ c Hsh1) as H. rewrite Hndc in H.
      destruct (nodes1 !! c) as [nc|]; [by exists nc|done]. }
    destruct (children nodes n) as [|k0 K0] eqn:EK.
    { simpl in HlenK. lia. }
    pose proof Hv as (c1 & cl & H1 & Hl & Hc1 & Hcl & Hd1 & Hl1 & Hmax & Hlmax & H2).
    destruct (Hkid c1 Hc1) as [Hc1n [n1 Hn1']].
    destruct (Hkid cl Hcl) as [Hcln [nl Hnl']].
    assert (H2' : forall c2, dn2 a = Some c2 -> c2 <> n /\ is_Some (nodes1 !! c2)).
    { intros c2 Hc2. destruct K0 as [|k1 K1].
      - destruct H2 as [H2 _]. congruence.
      - destruct H2 as (c2' & H2 & Hin & _). rewrite H2 in Hc2. injection Hc2 as ->.
        destruct (Hkid c2 Hin) as [? [nc ?]]. split; [done|by exists nc]. }
    destruct (set_inner_spec nodes1 n nd1 a c1 n1 cl nl Hn1 H1 Hc1n Hn1' Hl Hcln
                Hnl' H2')
      as (ndF & -> & HshF & HdF & HfF & Hbranch).
    set (nodes' := <[n := ndF]> nodes1).
    assert (HnF : nodes' !! n = Some ndF) by by eapply lookup_insert_same.
    assert (Hoth : forall y, y <> n -> nodes' !! y = nodes1 !! y).
    { intros y Hy. by apply list_lookup_insert_ne. }
    assert (Hsh' : shape <$> nodes' = shape <$> nodes1) by by eapply shape_insert.
    assert (HKF : children nodes' n = k0 :: K0).
    { rewrite (children_shape _ _ _ Hsh'), HK1. done. }
    assert (HkidF : forall c, c ∈ k0 :: K0 -> nodes' !! c = nodes1 !! c).
    { intros c Hc. apply Hoth. by apply Hkid. }
    assert (Hpos1 : 0 <= dist nodes1 c1 /\ 0 <= len nodes1 cl).
    { split; [by apply Hpos|by apply Hpos]. }
    assert (Hkpos : 0 < n_kids nd1) by lia.
    assert (Hd2pos : 0 <= d2 a).
    { destruct K0 as [|k1 K1]; [destruct H2 as [_ ->]; lia|].
      destruct H2 as (c2 & _ & Hin & _ & -> & _). by apply Hpos. }
    rewrite take_ge in Hfr1 by lia.
    assert (Hnsub : n ∉ concat subs) by (by apply NoDup_cons in Hnd as [? _]).
    (* the fields of [n], read back *)
    assert (Ed : dist nodes' n = d1 a + n_kids nd1) by (unfold dist; by rewrite HnF).
    assert (Ef : far nodes' n = far nodes' c1).
    { unfold far. rewrite HnF, (HkidF c1 Hc1), Hn1'. simpl. done. }
    assert (Efar1 : far nodes' c1 = far nodes1 c1) by (apply far_agree; by apply HkidF).
    assert (Edc1 : dist nodes' c1 = dist nodes1 c1) by (apply dist_agree; by apply HkidF).
    assert (Elcl : len nodes' cl = len nodes1 cl) by (apply len_agree; by apply HkidF).
    assert (Efcl : fst_end nodes' cl = first nl).
    { unfold fst_end. by rewrite (HkidF cl Hcl), Hnl'. }
    assert (Escl : snd_end nodes' cl = second nl).
    { unfold snd_end. by rewrite (HkidF cl Hcl), Hnl'. }
    assert (Efn1 : far nodes1 c1 = furthest n1) by (unfold far; by rewrite Hn1').
    assert (Eln : len nodes' n = length ndF) by (unfold len; by rewrite HnF).
    assert (Efn : fst_end nodes' n = first ndF) by (unfold fst_end; by rewrite HnF).
    assert (Esn : snd_end nodes' n = second ndF) by (unfold snd_end; by rewrite HnF).
    exists nodes'. split; [done|]. split; [by rewrite Hsh'|].
    split; [|split; [|split]].
    + intros y Hy. apply not_elem_of_cons in Hy as [Hyn Hy].
      rewrite Hoth by done. by apply Hfr1.
    + intros x [->|Hx]%elem_of_cons.
      * (* the node itself *)
        unfold actual_rule. rewrite HKF. destruct K0 as [|k1 K1].
        -- (* a single child *)
           apply list_elem_of_singleton in Hc1, Hcl. subst c1 cl.
           destruct H2 as [H2 Hd2].
           assert (Hone : n_kids nd1 = 1) by (simpl in HlenK; lia).
           unfold single_rule, combine.
           rewrite Ed, Ef, Edc1, Hone, <- Hd1. split; [done|]. split; [done|].
           rewrite Elcl, <- Hl1, Eln, Efn, Esn, Efar1, Efn1, Efcl, Escl.
           rewrite Hone, Hd2, H2 in Hbranch.
           destruct (decide (l1 a < d1 a + 1 + (0 + 1))) as [Hlt|Hge];
             [rewrite decide_True by lia|rewrite decide_False by lia].
           ++ destruct Hbranch as (-> & -> & ->). split; [lia|done].
           ++ destruct Hbranch as (-> & -> & ->). done.
        -- (* two children or more *)
           destruct H2 as (c2 & H2 & Hc2 & Hne & Hd2 & Hmax2).
           destruct (Hkid c2 Hc2) as [Hc2n [n2 Hn2']].
           assert (Edc2 : dist nodes' c2 = dist nodes1 c2)
             by (apply dist_agree; by apply HkidF).
           assert (Efar2 : far nodes' c2 = far nodes1 c2)
             by (apply far_agree; by apply HkidF).
           assert (Hcnt : Z.of_nat (List.length (k0 :: k1 :: K1)) = n_kids nd1) by lia.
           unfold internal_rule. rewrite HKF. cbv zeta. rewrite Hcnt.
           exists c1, c2, cl. split; [done|]. split; [done|]. split; [done|].
           split; [by apply not_eq_sym|]. split; [|split; [|split]].
           ++ intros y Hy. rewrite Edc1, (dist_agree nodes1 nodes' y (HkidF y Hy)).
              rewrite <- Hd1. by apply Hmax.
           ++ intros y Hy Hyc. rewrite Edc2, (dist_agree nodes1 nodes' y (HkidF y Hy)).
              rewrite <- Hd2. by apply Hmax2.
           ++ intros y Hy. rewrite Elcl, (len_agree nodes1 nodes' y (HkidF y Hy)).
              rewrite <- Hl1. by apply Hlmax.
           ++ unfold combine.
              rewrite Ed, Ef, Edc1, Edc2, <- Hd1, <- Hd2. split; [done|]. split; [done|].
              rewrite Elcl, <- Hl1, Eln, Efn, Esn, Efar1, Efar2, Efn1, Efcl, Escl.
              rewrite H2 in Hbranch.
              case_decide; destruct Hbranch as (-> & -> & ->); done.
      * (* a node below *)
        eapply actual_rule_agree; [|by apply Hr].
        apply elem_of_concat_inv in Hx as (j & lm & Hj & Hx).
        destruct (Forall2_lookup_r _ _ _ _ _ Hsubs Hj) as (m & Hm & Hsm).
        simpl in Hsm. rewrite <- (subtree_shape _ _ Hsh1) in Hsm.
        intros y Hy. apply Hoth. intros ->. apply Hnsub.
        eapply elem_of_concat_lookup; [exact Hj|].
        apply elem_of_cons in Hy as [->|Hy]; [done|].
        by eapply subtree_children.
    + rewrite Ed. lia.
    + rewrite Eln. case_decide; destruct Hbranch as [-> _]; lia.
Qed.

End Tree_facts.

(** * The claims *)

(** C8.  In a forest in which every cell leads to a root, [base x]
    returns (with [length cells] units of fuel or more) the root [r]
    reached by following the links from [x]; afterwards every cell [l]
    visited on the way, the root excluded, points straight at [r], and
    every other entry is as before. *)
Theorem base_path_compression cells x fuel :
  UF.forest_ok cells -> 0 <= x < Z.of_nat (length cells) ->
  (length cells <= fuel)%nat ->
  exists l r cells',
    UF.chain cells x l r /\
    (exists v, rd cells r = Some v /\ v < 0) /\
    UF.base fuel cells x = Some (r, cells') /\
    length cells' = length cells /\
    (forall c, c ∈ l -> rd cells' c = Some r) /\
    (forall c, c ∉ l -> rd cells' c = rd cells c) /\
    r ∉ l.
Proof.
  intros Hok Hx Hf. destruct (Hok x Hx) as (r & l & Hc).
  pose proof (chain_length _ _ _ _ Hc) as Hl.
  destruct (base_spec cells x l r fuel Hc ltac:(lia))
    as (cells' & Hb & Hlen & Hin & Hout).
  exists l, r, cells'. split; [done|]. split; [by eapply chain_root_neg|].
  split; [done|]. split; [done|]. split; [done|]. split; [done|].
  by eapply chain_root_notin.
Qed.

Lemma base_path_compression_witness :
  exists l r cells',
    UF.chain [1; 2; -3] 0 l r /\
    (exists v, rd [1; 2; -3] r = Some v /\ v < 0) /\
    UF.base 3 [1; 2; -3] 0 = Some (r, cells') /\
    length cells' = length [1; 2; -3] /\
    (forall c, c ∈ l -> rd cells' c = Some r) /\
    (forall c, c ∉ l -> rd cells' c = rd [1; 2; -3] c) /\
    r ∉ l.
Proof.
  apply (base_path_compression [1; 2; -3] 0 3); [|simpl; lia|simpl; lia].
  intros x Hx. simpl in Hx.
  assert (Hr : UF.chain [1; 2; -3] 2 [] 2) by (apply UF.chain_root with (-3); [reflexivity|lia]).
  assert (H1 : UF.chain [1; 2; -3] 1 [1] 2) by (apply UF.chain_step with 2; [reflexivity|lia|exact Hr]).
  assert (H0 : UF.chain [1; 2; -3] 0 [0; 1] 2) by (apply UF.chain_step with 1; [reflexivity|lia|exact H1]).
  exists 2.
  destruct (decide (x = 0)) as [->|?]; [by eexists|].
  destruct (decide (x = 1)) as [->|?]; [by eexists|].
  assert (x = 2) as -> by lia. by eexists.
Defined.

(** C7.  For two distinct roots [x] and [y] holding minus the sizes [nx]
    and [ny] of their components, with minus the sum of the two sizes
    still an [int], [unify x y] links the root of the component that is
    not the larger one ([child]) directly under the other root
    ([parent]), stores minus the sum of the two sizes there, and leaves
    every other entry alone; both cells then have [parent] as their
    root. *)
Theorem unify_by_size cells x y nx ny :
  x <> y -> rd cells x = Some (- nx) -> rd cells y = Some (- ny) ->
  0 < nx -> 0 < ny -> nx + ny <= 2147483648 ->
  exists cells' child parent,
    UF.unify cells x y = Some cells' /\
    ((child = y /\ parent = x /\ ny < nx) \/
     (child = x /\ parent = y /\ nx <= ny)) /\
    rd cells' child = Some parent /\
    rd cells' parent = Some (- (nx + ny)) /\
    (forall c, c <> x -> c <> y -> rd cells' c = rd cells c) /\
    UF.root_of cells' x parent /\ UF.root_of cells' y parent.
Proof.
  intros Hne Hx Hy Hnx Hny Hsum.
  destruct (unify_spec cells x y (- nx) (- ny) Hne Hx Hy ltac:(lia))
    as (cells' & Hu & Hlen & Hc & Hp & Ho).
  assert (Hroot : forall p c, rd cells' p = Some (- nx + - ny) ->
            rd cells' c = Some p -> UF.root_of cells' p p /\ UF.root_of cells' c p).
  { intros p c Hp' Hc'.
    assert (UF.chain cells' p [] p) by (apply UF.chain_root with (- nx + - ny); [done|lia]).
    split; [by exists []|]. exists [c]. apply UF.chain_step with p; [done| |done].
    apply rd_Some_range in Hp'. lia. }
  replace (- (nx + ny)) with (- nx + - ny) by lia.
  case_decide.
  - exists cells', y, x. destruct (Hroot x y Hp Hc) as [R1 R2].
    split; [done|]. split; [left; split; [done|]; split; [done|lia]|].
    split; [done|]. split; [done|]. split; [|done].
    intros c ? ?. by apply Ho.
  - exists cells', x, y. destruct (Hroot y x Hp Hc) as [R1 R2].
    split; [done|]. split; [right; split; [done|]; split; [done|lia]|].
    split; [done|]. split; [done|]. split; [|done].
    intros c ? ?. by apply Ho.
Qed.

Lemma unify_by_size_witness :
  exists cells' child parent,
    UF.unify [-1; -2; 1] 0 1 = Some cells' /\
    ((child = 1 /\ parent = 0 /\ 2 < 1) \/
     (child = 0 /\ parent = 1 /\ 1 <= 2)) /\
    rd cells' child = Some parent /\
    rd cells' parent = Some (- (1 + 2)) /\
    (forall c, c <> 0 -> c <> 1 -> rd cells' c = rd [-1; -2; 1] c) /\
    UF.root_of cells' 0 parent /\ UF.root_of cells' 1 parent.
Proof.
  apply (unify_by_size [-1; -2; 1] 0 1 1 2);
    [lia|reflexivity|reflexivity|lia|lia|lia].
Defined.

(** C6.  For [2 <= m, n <= 1000], [init_walls m n] does not take the
    exit for a wrong count; the number of walls it writes is
    [(m-1)*(2n-1) + m*(n-1) = 3mn-2m-2n+1]; every pair of neighbouring
    cells of the array is joined by exactly one wall of the table, and
    every wall of the table joins two neighbouring cells. *)
Theorem init_walls_enumerates m n :
  2 <= m <= 1000 -> 2 <= n <= 1000 ->
  exists ws, init_walls m n = Some ws /\
    Z.of_nat (length ws) = (m - 1) * (2 * n - 1) + m * (n - 1) /\
    Z.of_nat (length ws) = 3 * m * n - 2 * m - 2 * n + 1 /\
    (forall k l k' l', in_grid m n k l -> in_grid m n k' l' ->
       neighbour k l k' l' ->
       length (filter (fun w => joins w (cell_no n k l) (cell_no n k' l')) ws)
         = 1%nat) /\
    (forall w, w ∈ ws -> exists k l k' l',
       in_grid m n k l /\ in_grid m n k' l' /\ neighbour k l k' l' /\
       lower w = cell_no n k l /\ higher w = cell_no n k' l').
Proof.
  intros Hm Hn.
  destruct (init_walls_spec m n) as (ws & Hi & Hlen & Hmem & Hnd & _);
    [lia|lia|nia|].
  exists ws. split; [done|]. split; [lia|]. split; [lia|]. split.
  - intros k l k' l' Hg Hg' Hnb.
    destruct (neighbour_wall m n k l k' l' Hg Hg' Hnb) as [Hne [[Hw Hnw]|[Hw Hnw]]].
    + apply joins_once; [done| |].
      * by apply (Hmem (_, _)).
      * intros Hin. by apply (Hmem (_, _)) in Hin.
    + rewrite (list_filter_iff _ (fun w => joins w (cell_no n k' l') (cell_no n k l)))
        by (intros w; apply joins_sym).
      apply joins_once; [done| |].
      * by apply (Hmem (_, _)).
      * intros Hin. by apply (Hmem (_, _)) in Hin.
  - intros w Hw.
    assert (Hin : ends w ∈ ends <$> ws) by (by apply list_elem_of_fmap_2).
    apply Hmem in Hin. simpl in Hin.
    destruct (wall_neighbour m n _ _ ltac:(lia) Hin)
      as (k & l & k' & l' & ? & ? & ? & ? & ?).
    exists k, l, k', l'. done.
Qed.

Lemma init_walls_enumerates_witness :
  exists ws, init_walls 2 2 = Some ws /\
    Z.of_nat (length ws) = (2 - 1) * (2 * 2 - 1) + 2 * (2 - 1) /\
    Z.of_nat (length ws) = 3 * 2 * 2 - 2 * 2 - 2 * 2 + 1 /\
    (forall k l k' l', in_grid 2 2 k l -> in_grid 2 2 k' l' ->
       neighbour k l k' l' ->
       length (filter (fun w => joins w (cell_no 2 k l) (cell_no 2 k' l')) ws)
         = 1%nat) /\
    (forall w, w ∈ ws -> exists k l k' l',
       in_grid 2 2 k l /\ in_grid 2 2 k' l' /\ neighbour k l k' l' /\
       lower w = cell_no 2 k l /\ higher w = cell_no 2 k' l').
Proof. apply (init_walls_enumerates 2 2); lia. Defined.

(** C5.  For walls linked through their [next] fields into the list [l]
    that starts at [walls], [shuffle_walls] returns, and the list then
    headed by [first_wall] is a permutation of [l]: every wall occurs in
    it exactly once, none is lost and none is duplicated, and no wall's
    two cells are touched. *)
Theorem shuffle_walls_permutation {rng : Type} (Random : rng -> Z * rng)
    (fuel : nat) (ws : list wall) (l : list nat) (g : rng) :
  is_list ws (Some O) l -> (length ws <= fuel)%nat ->
  exists ws' first l' g',
    shuffle_walls Random fuel ws g = Some (ws', first, g') /\
    is_list ws' first l' /\ l' ≡ₚ l /\ NoDup l' /\
    (forall x, x ∈ l <-> x ∈ l') /\
    ends <$> ws' = ends <$> ws.
Proof.
  intros Hl Hf.
  destruct (shuffle_walls_spec Random fuel ws l g Hl Hf)
    as (ws' & first & l' & g' & Hs & Hl' & Hp & He & _).
  exists ws', first, l', g'. split; [done|]. split; [done|]. split; [done|].
  split; [by eapply is_list_NoDup|]. split; [|done].
  intros x. by rewrite Hp.
Qed.

Lemma shuffle_walls_permutation_witness :
  exists ws' first l' g',
    shuffle_walls lcg 3 [Wall (Some 1%nat) 0 1; Wall (Some 2%nat) 0 2; Wall None 1 3] 42
      = Some (ws', first, g') /\
    is_list ws' first l' /\ l' ≡ₚ [0; 1; 2]%nat /\ NoDup l' /\
    (forall x, x ∈ [0; 1; 2]%nat <-> x ∈ l') /\
    ends <$> ws' = ends <$> [Wall (Some 1%nat) 0 1; Wall (Some 2%nat) 0 2; Wall None 1 3].
Proof.
  apply (shuffle_walls_permutation lcg 3
           [Wall (Some 1%nat) 0 1; Wall (Some 2%nat) 0 2; Wall None 1 3]
           [0; 1; 2]%nat 42).
  - simpl. split; [reflexivity|]. eexists. split; [reflexivity|]. simpl.
    split; [reflexivity|]. eexists. split; [reflexivity|]. simpl.
    split; [reflexivity|]. eexists. split; [reflexivity|]. reflexivity.
  - simpl. lia.
Defined.


(** C1.  For [2 <= m, n <= 1000] columns and rows and any generator
    (any seed), the run from [init_walls] to the end of [create_maze]
    returns; exactly one component of the forest remains; the list [E]
    of removed walls has [m*n - 1] entries, all different walls of the
    table; the exit bitmaps hold two bits for every removed wall, one at
    either end, and nothing else; and the exit relation, read as an
    undirected graph on the [m*n] cells, is connected and has no
    cycle. *)
Theorem create_maze_spanning_tree {rng : Type} (Random : rng -> Z * rng)
    (fuel : nat) (m n : Z) (g : rng) :
  2 <= m <= 1000 -> 2 <= n <= 1000 -> (Z.to_nat (3 * m * n) <= fuel)%nat ->
  exists st q E,
    make_maze Random fuel m n g = Some (st, q) /\
    UF.count_roots (cells st) = 1%nat /\
    Z.of_nat (length E) = m * n - 1 /\
    simple_edges E /\
    (forall lo hi, (lo, hi) ∈ E -> (lo, hi) ∈ ends <$> walls st) /\
    (forall a b, exit_rel n (nodes st) a b <-> adj E a b) /\
    total_exits (nodes st) = (2 * length E)%nat /\
    connected_graph (m * n) (exit_rel n (nodes st)) /\
    acyclic (exit_rel n (nodes st)).
Proof.
  intros Hm Hn Hf.
  destruct (make_maze_spec Random fuel m n g) as
    (st & q & E & kl & Hmk & Hone & HlE & Hsim & HE & [Hrel Htot] & Hcon & Hac
       & _ & _ & _ & Hends & _); [lia|lia|done|].
  exists st, q, E. split; [done|]. split; [done|]. split; [done|].
  split; [done|]. split.
  { intros lo hi Hin. apply Hends. simpl. by apply HE. }
  done.
Qed.

Lemma create_maze_spanning_tree_witness :
  exists st q E,
    make_maze lcg 12 2 2 42 = Some (st, q) /\
    UF.count_roots (cells st) = 1%nat /\
    Z.of_nat (length E) = 2 * 2 - 1 /\
    simple_edges E /\
    (forall lo hi, (lo, hi) ∈ E -> (lo, hi) ∈ ends <$> walls st) /\
    (forall a b, exit_rel 2 (nodes st) a b <-> adj E a b) /\
    total_exits (nodes st) = (2 * length E)%nat /\
    connected_graph (2 * 2) (exit_rel 2 (nodes st)) /\
    acyclic (exit_rel 2 (nodes st)).
Proof. apply (create_maze_spanning_tree lcg 12 2 2 42); lia. Defined.

(** C9.  For [2 <= m, n <= 1000] the table holds [3mn-2m-2n+1] walls,
    which is more than the [mn-1] walls removed, [2(m-1)(n-1) > 0] being
    the difference.  So the carving loop ends with [q] pointing at a
    wall [qi] of the table, the last of the non-empty list [kl] of kept
    walls, and the closing [q->next=0] writes into that wall: the run of
    [create_maze] returns. *)
Theorem create_maze_keeps_a_wall {rng : Type} (Random : rng -> Z * rng)
    (fuel : nat) (m n : Z) (g : rng) :
  2 <= m <= 1000 -> 2 <= n <= 1000 -> (Z.to_nat (3 * m * n) <= fuel)%nat ->
  3 * m * n - 2 * m - 2 * n + 1 > m * n - 1 /\
  3 * m * n - 2 * m - 2 * n + 1 - (m * n - 1) = 2 * (m - 1) * (n - 1) /\
  exists ws0 ws fw g' st' qi wq st kl,
    init_walls m n = Some ws0 /\
    Z.of_nat (length ws0) = 3 * m * n - 2 * m - 2 * n + 1 /\
    shuffle_walls Random fuel ws0 g = Some (ws, fw, g') /\
    create_loop fuel n fuel fw None
      (Maze (UF.init_cells (n * m)) (init_nodes (n * m)) ws fw)
      = Some (st', Some qi) /\
    walls st' !! qi = Some wq /\
    create_maze fuel n
      (Maze (UF.init_cells (n * m)) (init_nodes (n * m)) ws fw)
      = Some (st, qi) /\
    is_list (walls st) (first_wall st) kl /\ last kl = Some qi /\
    Z.of_nat (length kl) = 2 * (m - 1) * (n - 1) /\
    (0 < length kl)%nat.
Proof.
  intros Hm Hn Hf. split; [nia|]. split; [lia|].
  destruct (make_maze_spec Random fuel m n g) as
    (st & q & E & kl & Hmk & _ & _ & _ & _ & _ & _ & _
       & Hkl & Hlast & Hcnt & _ & _); [lia|lia|done|].
  destruct (init_walls_spec m n) as (ws0 & Hi & Hlen & _); [lia|lia|nia|].
  unfold make_maze in Hmk. rewrite Hi in Hmk. simpl in Hmk.
  destruct (shuffle_walls Random fuel ws0 g) as [[[ws fw] g']|] eqn:Hs;
    [|discriminate].
  simpl in Hmk. pose proof Hmk as Hcm. unfold create_maze in Hmk.
  destruct (create_loop _ _ _ _ _ _) as [[st' oq]|] eqn:Hloop; [|discriminate].
  simpl in Hmk. destruct oq as [qi|]; [|discriminate]. simpl in Hmk.
  destruct (walls st' !! qi) as [wq|] eqn:Hwq; [|discriminate].
  simpl in Hmk. injection Hmk as Hst Hq. subst q.
  exists ws0, ws, fw, g', st', qi, wq, st, kl.
  split; [done|]. split; [lia|]. split; [done|]. split; [exact Hloop|].
  split; [done|]. split; [done|]. split; [done|]. split; [done|].
  split; [done|]. nia.
Qed.

Lemma create_maze_keeps_a_wall_witness :
  3 * 2 * 2 - 2 * 2 - 2 * 2 + 1 > 2 * 2 - 1 /\
  3 * 2 * 2 - 2 * 2 - 2 * 2 + 1 - (2 * 2 - 1) = 2 * (2 - 1) * (2 - 1) /\
  exists ws0 ws fw g' st' qi wq st kl,
    init_walls 2 2 = Some ws0 /\
    Z.of_nat (length ws0) = 3 * 2 * 2 - 2 * 2 - 2 * 2 + 1 /\
    shuffle_walls lcg 12 ws0 42 = Some (ws, fw, g') /\
    create_loop 12 2 12 fw None
      (Maze (UF.init_cells (2 * 2)) (init_nodes (2 * 2)) ws fw)
      = Some (st', Some qi) /\
    walls st' !! qi = Some wq /\
    create_maze 12 2
      (Maze (UF.init_cells (2 * 2)) (init_nodes (2 * 2)) ws fw)
      = Some (st, qi) /\
    is_list (walls st) (first_wall st) kl /\ last kl = Some qi /\
    Z.of_nat (length kl) = 2 * (2 - 1) * (2 - 1) /\
    (0 < length kl)%nat.
Proof. apply (create_maze_keeps_a_wall lcg 12 2 2 42); lia. Defined.

(** C2.  What [init_rand] does with a seed given on the command line.
    Compiled without [-DSUN], the assignment [seed=clock()+time(0)] is
    not guarded by a test of [seed]: whatever [main] read from the third
    argument is overwritten, and the value handed to [SRandom] is the
    low 31 bits of [clock()+time(0)].  Two runs with the arguments
    [3 3 42], one when [time(0)] is 1000 and one when it is 2000, seed
    the generator with 1000 and with 2000.  Compiled with [-DSUN] the
    seed 42 is used as given. *)
Theorem init_rand_overwrites_seed :
  (forall env s,
     init_rand false env s = Z.land (clock env + time0 env) 2147483647) /\
  main_seed false (Env 0 1000 0 0) (Some 42) = 1000 /\
  main_seed false (Env 0 2000 0 0) (Some 42) = 2000 /\
  (forall env, main_seed true env (Some 42) = 42).
Proof.
  split; [done|]. split; [done|]. split; [done|]. done.
Qed.

Section Tree_claims.
Import Node Tree.

(** C3, as claimed: a root with one leaf below it.  The root has no two
    children to take two largest distances from: the code adds the child
    count to the initial [d2=0], finds [d1+d2 = 2 > l1 = 0], and stores
    the root itself in [second], which is the furthest leaf of no child
    of the root. *)
Lemma analyse_tree_single_child_counterexample :
  is_tree chain2 0 [0; 1]%nat /\
  exists nodes',
    analyse_tree 2 chain2 0 = Some nodes' /\
    children nodes' 0 = [1%nat] /\
    len nodes' 0 = 2 /\
    snd_end nodes' 0 = Some 0%nat /\
    (forall c, c ∈ children nodes' 0 -> snd_end nodes' 0 <> far nodes' c) /\
    ~ claimed_rule nodes' 0.
Proof.
  split.
  { exists 2%nat. split; [reflexivity|]. apply (bool_decide_unpack _). reflexivity. }
  eexists. split; [reflexivity|]. split; [reflexivity|]. split; [reflexivity|].
  split; [reflexivity|]. split.
  - intros c Hc. change (c ∈ [1%nat]) in Hc. apply list_elem_of_singleton in Hc.
    subst c. discriminate.
  - intros (c1 & c2 & cl & H1 & H2 & _ & Hne & _).
    change (c1 ∈ [1%nat]) in H1. change (c2 ∈ [1%nat]) in H2.
    apply list_elem_of_singleton in H1, H2. congruence.
Qed.

(** C3, amended.  On a tree rooted at [n] with nodes [l], [analyse_tree]
    returns, changes neither [n_kids] nor [kids] and no node outside the
    tree, and leaves every node [x] of the tree as [actual_rule] says: a
    node without children has [distance = length = 0] and [first],
    [second], [furthest] equal to itself; a node with two or more
    children follows the combination rule on its two top children; a
    node with a single child [c] follows it with [d1 = distance c + 1],
    [d2 = 1] and the node itself in the place of the second furthest
    leaf. *)
Theorem analyse_tree_rule (f0 fuel : nat) (nodes : list node) (n : nat)
    (l : list nat) :
  subtree f0 nodes n = Some l -> NoDup l -> (f0 <= fuel)%nat ->
  exists nodes',
    analyse_tree fuel nodes n = Some nodes' /\
    shape <$> nodes' = shape <$> nodes /\
    (forall y, y ∉ l -> nodes' !! y = nodes !! y) /\
    (forall x, x ∈ l -> children nodes' x = children nodes x) /\
    (forall x, x ∈ l -> actual_rule nodes' x).
Proof.
  intros Hs Hnd Hf.
  destruct (analyse_tree_spec f0 fuel nodes n l Hs Hnd Hf)
    as (nodes' & Ha & Hsh & Hout & Hin & _).
  exists nodes'. split; [done|]. split; [done|]. split; [done|].
  split; [|done]. intros x _. by apply children_shape.
Qed.

Lemma analyse_tree_rule_witness :
  exists nodes',
    analyse_tree 3 two_level 0 = Some nodes' /\
    shape <$> nodes' = shape <$> two_level /\
    (forall y, y ∉ [0; 1; 3; 2]%nat -> nodes' !! y = two_level !! y) /\
    (forall x, x ∈ [0; 1; 3; 2]%nat -> children nodes' x = children two_level x) /\
    (forall x, x ∈ [0; 1; 3; 2]%nat -> actual_rule nodes' x).
Proof.
  apply (analyse_tree_rule 3 3 two_level 0 [0; 1; 3; 2]%nat).
  - reflexivity.
  - apply (bool_decide_unpack _). reflexivity.
  - lia.
Defined.

End Tree_claims.

Section Star.
Import Node Tree.

Lemma mapM_fmap_Some {A B} (f : A -> option B) (g : A -> B) (l : list A) :
  (forall x, x ∈ l -> f x = Some (g x)) -> mapM f l = Some (g <$> l).
Proof.
  induction l as [|x l IH]; intros H; [done|].
  simpl. rewrite (H x) by left. simpl. rewrite IH; [done|].
  intros y Hy. apply H. by right.
Qed.

Lemma concat_singletons {A} (l : list A) : concat ((fun x => [x]) <$> l) = l.
Proof. induction l as [|x l IH]; [done|]. simpl. by f_equal. Qed.

Lemma star_lookup_leaf k i :
  (1 <= i <= k)%nat -> star k !! i = Some zero.
Proof.
  intros Hi. unfold star. destruct i as [|i]; [lia|]. simpl.
  apply lookup_replicate_2. lia.
Qed.

Lemma star_children_root k : children (star k) 0 = seq 1 k.
Proof.
  unfold children, star. simpl. rewrite Nat2Z.id.
  apply take_ge. by rewrite length_seq.
Qed.

Lemma star_children_leaf k i : (1 <= i <= k)%nat -> children (star k) i = [].
Proof. intros Hi. unfold children. by rewrite star_lookup_leaf. Qed.

Lemma star_subtree k : subtree 2 (star k) 0 = Some (0%nat :: seq 1 k).
Proof.
  change (subtree 2 (star k) 0) with
    (if decide (0 <= Z.of_nat k <= Z.of_nat (List.length (seq 1 k))) then
       subs ← mapM (subtree 1 (star k)) (take (Z.to_nat (Z.of_nat k)) (seq 1 k));
       Some (0%nat :: concat subs)
     else None).
  rewrite length_seq. rewrite decide_True by lia.
  rewrite Nat2Z.id, take_ge by (by rewrite length_seq).
  rewrite (mapM_fmap_Some _ (fun x => [x])).
  - simpl. by rewrite concat_singletons.
  - intros x Hx. apply elem_of_seq in Hx. simpl.
    rewrite star_lookup_leaf by lia. reflexivity.
Qed.

(** C4, as claimed: the star with two leaves.  After [analyse_tree] on
    the root, the [distance] field of either leaf is 0, not 2; it is the
    root whose [distance] is 2. *)
Lemma star_leaf_distance_counterexample :
  exists nodes',
    analyse_tree 2 (star 2) 0 = Some nodes' /\
    children nodes' 0 = [1; 2]%nat /\
    children nodes' 1 = [] /\ children nodes' 2 = [] /\
    dist nodes' 1 = 0 /\ dist nodes' 2 = 0 /\
    dist nodes' 1 <> 2 /\ dist nodes' 2 <> 2 /\
    dist nodes' 0 = 2.
Proof.
  eexists. split; [reflexivity|]. split; [reflexivity|]. split; [reflexivity|].
  split; [reflexivity|]. split; [reflexivity|]. split; [reflexivity|].
  split; [discriminate|]. split; [discriminate|]. reflexivity.
Qed.

(** C4, amended.  On the star whose root [0] has the [k] leaves [1..k]
    as children, [analyse_tree] on the root returns; each leaf has
    [distance = 0] and [length = 0] and is its own [furthest]; the root
    has [distance = k], the edge to a child weighing the number [k] of
    children, and [length = 2k]. *)
Theorem star_distances (k fuel : nat) :
  (2 <= fuel)%nat ->
  exists nodes',
    analyse_tree fuel (star k) 0 = Some nodes' /\
    children nodes' 0 = seq 1 k /\
    dist nodes' 0 = Z.of_nat k /\
    len nodes' 0 = 2 * Z.of_nat k /\
    (forall i, (1 <= i <= k)%nat ->
       children nodes' i = [] /\
       dist nodes' i = 0 /\ len nodes' i = 0 /\ far nodes' i = Some i).
Proof.
  intros Hf.
  assert (Hnd : NoDup (0%nat :: seq 1 k)).
  { constructor; [|apply NoDup_seq]. rewrite elem_of_seq. lia. }
  destruct (analyse_tree_spec 2 fuel (star k) 0 _ (star_subtree k) Hnd Hf)
    as (nodes' & Ha & Hsh & _ & Hin & _).
  assert (Hleaf : forall i, (1 <= i <= k)%nat ->
            children nodes' i = [] /\ leaf_rule nodes' i).
  { intros i Hi.
    assert (Hc : children nodes' i = []).
    { rewrite (children_shape _ _ _ Hsh). by apply star_children_leaf. }
    split; [done|].
    assert (Hi' : i ∈ 0%nat :: seq 1 k).
    { right. rewrite elem_of_seq. lia. }
    specialize (Hin i Hi'). unfold actual_rule in Hin. by rewrite Hc in Hin. }
  assert (Hroot : children nodes' 0 = seq 1 k).
  { rewrite (children_shape _ _ _ Hsh). apply star_children_root. }
  exists nodes'. split; [done|]. split; [done|].
  assert (H0 : actual_rule nodes' 0) by (apply Hin; left).
  unfold actual_rule in H0. rewrite Hroot in H0. split; [|split].
  - destruct k as [|[|k]].
    + simpl in H0. by destruct H0 as (-> & _).
    + simpl in H0. destruct H0 as (-> & _).
      destruct (Hleaf 1%nat ltac:(lia)) as (_ & -> & _). done.
    + destruct H0 as (c1 & c2 & cl & Hc1 & _ & _ & _ & _ & _ & _ & Hd & _).
      rewrite Hroot in Hd, Hc1. rewrite length_seq in Hd. rewrite Hd.
      apply elem_of_seq in Hc1.
      destruct (Hleaf c1 ltac:(lia)) as (_ & -> & _). lia.
  - destruct k as [|[|k]].
    + simpl in H0. by destruct H0 as (_ & -> & _).
    + simpl in H0. destruct H0 as (_ & _ & H0).
      destruct (Hleaf 1%nat ltac:(lia)) as (_ & Hd1 & Hl1 & _).
      rewrite Hd1, Hl1 in H0. rewrite decide_True in H0 by lia.
      destruct H0 as (-> & _). done.
    + destruct H0 as (c1 & c2 & cl & Hc1 & Hc2 & Hcl & _ & _ & _ & _ & _ & _ & H0).
      rewrite Hroot in H0, Hc1, Hc2, Hcl. rewrite length_seq in H0.
      apply elem_of_seq in Hc1, Hc2, Hcl.
      destruct (Hleaf c1 ltac:(lia)) as (_ & Hd1 & _).
      destruct (Hleaf c2 ltac:(lia)) as (_ & Hd2 & _).
      destruct (Hleaf cl ltac:(lia)) as (_ & _ & Hl & _).
      rewrite Hd1, Hd2, Hl in H0. rewrite decide_True in H0 by lia.
      destruct H0 as (-> & _). lia.
  - intros i Hi. destruct (Hleaf i Hi) as (Hc & Hd & Hl & _ & _ & Hfar). done.
Qed.

Lemma star_distances_witness :
  exists nodes',
    analyse_tree 2 (star 3) 0 = Some nodes' /\
    children nodes' 0 = seq 1 3 /\
    dist nodes' 0 = Z.of_nat 3 /\
    len nodes' 0 = 2 * Z.of_nat 3 /\
    (forall i, (1 <= i <= 3)%nat ->
       children nodes' i = [] /\
       dist nodes' i = 0 /\ len nodes' i = 0 /\ far nodes' i = Some i).
Proof. apply (star_distances 3 2). lia. Defined.

(** C10.  In a tree, take a node [x] with the single child [c].  Once
    [analyse_tree] has run, if the branch through the node was taken at
    [x], that is [d1 + d2 > l1] with [d1 = distance c + 1], [d2 = 1] the
    child count and [l1 = length c], then [second] of [x] is [x] itself,
    which has a child and so is no leaf.  The root can be such a node:
    on the root with one leaf below it, the two ends reported are the
    leaf and the root. *)
Theorem single_child_second_is_self (f0 fuel : nat) (nodes : list node)
    (n : nat) (l : list nat) (x c : nat) :
  subtree f0 nodes n = Some l -> NoDup l -> (f0 <= fuel)%nat ->
  x ∈ l -> children nodes x = [c] ->
  (exists nodes',
     analyse_tree fuel nodes n = Some nodes' /\
     children nodes' x = [c] /\
     (len nodes' c < (dist nodes' c + 1) + 1 ->
        snd_end nodes' x = Some x /\
        fst_end nodes' x = far nodes' c /\
        len nodes' x = (dist nodes' c + 1) + 1)) /\
  (exists nodes',
     analyse_tree 2 chain2 0 = Some nodes' /\
     children nodes' 0 = [1%nat] /\
     fst_end nodes' 0 = Some 1%nat /\ snd_end nodes' 0 = Some 0%nat).
Proof.
  intros Hs Hnd Hf Hx Hc. split.
  - destruct (analyse_tree_spec f0 fuel nodes n l Hs Hnd Hf)
      as (nodes' & Ha & Hsh & _ & Hin & _).
    exists nodes'. split; [done|].
    assert (Hc' : children nodes' x = [c])
      by (by rewrite (children_shape _ _ _ Hsh)).
    split; [done|]. intros Hlt.
    specialize (Hin x Hx). unfold actual_rule in Hin. rewrite Hc' in Hin.
    destruct Hin as (_ & _ & Hin). rewrite decide_True in Hin by done.
    destruct Hin as (? & ? & ?). done.
  - eexists. split; [reflexivity|]. split; [reflexivity|].
    split; reflexivity.
Qed.

Lemma single_child_second_is_self_witness :
  (exists nodes',
     analyse_tree 2 chain2 0 = Some nodes' /\
     children nodes' 0 = [1%nat] /\
     (len nodes' 1 < (dist nodes' 1 + 1) + 1 ->
        snd_end nodes' 0 = Some 0%nat /\
        fst_end nodes' 0 = far nodes' 1 /\
        len nodes' 0 = (dist nodes' 1 + 1) + 1)) /\
  (exists nodes',
     analyse_tree 2 chain2 0 = Some nodes' /\
     children nodes' 0 = [1%nat] /\
     fst_end nodes' 0 = Some 1%nat /\ snd_end nodes' 0 = Some 0%nat).
Proof.
  apply (single_child_second_is_self 2 2 chain2 0 [0; 1]%nat 0 1).
  - reflexivity.
  - apply (bool_decide_unpack _). reflexivity.
  - lia.
  - left.
  - reflexivity.
Defined.

End Star.

(** * Exit bits and the geometry of the array *)

Lemma geo_bit_mem bit s : (bit, s) ∈ geo -> bit ∈ [1; 2; 4; 8; 16; 32; 64; 128].
Proof.
  unfold geo, LDown, LEq, LUp, Down, Up, RDown, REq, RUp.
  rewrite !elem_of_cons, !elem_of_nil. intros H.
  repeat match goal with H : _ \/ _ |- _ => destruct H as [H|H] end;
    try done; simplify_eq; tauto.
Qed.

(** In [geo] a bit and a step determine each other. *)
Lemma geo_fun bit s bit' s' :
  (bit, s) ∈ geo -> (bit', s') ∈ geo -> (bit = bit' <-> s = s').
Proof.
  unfold geo, LDown, LEq, LUp, Down, Up, RDown, REq, RUp.
  rewrite !elem_of_cons, !elem_of_nil. intros H H'.
  repeat match goal with H : _ \/ _ |- _ => destruct H as [H|H] end;
    try done; simplify_eq; split; intros; congruence.
Qed.

Lemma lor_bit_range e b :
  0 <= e < 256 -> b ∈ [1; 2; 4; 8; 16; 32; 64; 128] -> 0 <= Z.lor e b < 256.
Proof.
  intros He Hb.
  assert (Hb' : 0 < b < 256).
  { rewrite !elem_of_cons, elem_of_nil in Hb.
    repeat match goal with H : _ \/ _ |- _ => destruct H as [H|H] end;
      try done; lia. }
  assert (H0 : 0 <= Z.lor e b) by (apply Z.lor_nonneg; lia).
  split; [done|].
  assert (Hpos : 0 < Z.lor e b).
  { destruct (decide (Z.lor e b = 0)) as [E|]; [|lia].
    apply Z.lor_eq_0_iff in E. lia. }
  change 256 with (2 ^ 8). apply Z.log2_lt_pow2; [done|].
  rewrite Z.log2_lor by lia.
  assert (Z.log2 b < 8) by (apply Z.log2_lt_pow2; lia).
  destruct (decide (e = 0)) as [->|]; [simpl; lia|].
  assert (Z.log2 e < 8) by (apply Z.log2_lt_pow2; lia). lia.
Qed.

Lemma neighbour_sym k l k' l' : neighbour k l k' l' -> neighbour k' l' k l.
Proof.
  unfold neighbour. rewrite !land_1.
  pose proof (Z.mod_pos_bound k 2 ltac:(lia)) as Hk.
  pose proof (parity_succ k) as Hs. pose proof (parity_pred k) as Hp.
  intros [[-> Hl]|[[-> | ->] Hl]]; [left; lia|right..];
    (split; [lia|]); lia.
Qed.

Lemma add_exits_inv nodes hi lo dh dl nodes' :
  add_exits nodes hi lo dh dl = Some nodes' -> hi <> lo ->
  exists nh nl,
    rd nodes hi = Some nh /\ rd nodes lo = Some nl /\
    rd nodes' hi = Some (Node.set_exits nh (Z.lor (Node.exits nh) dh)) /\
    rd nodes' lo = Some (Node.set_exits nl (Z.lor (Node.exits nl) dl)) /\
    (forall x, x <> hi -> x <> lo -> rd nodes' x = rd nodes x).
Proof.
  unfold add_exits. intros H Hne.
  destruct (rd nodes hi) as [nh|] eqn:Hh; [|done].
  rewrite bind_Some in H. cbv beta iota in H.
  destruct (wr nodes hi _) as [nodes1|] eqn:Hw1; [|done].
  rewrite bind_Some in H. cbv beta iota in H.
  destruct (rd nodes1 lo) as [nl|] eqn:Hl; [|done].
  rewrite bind_Some in H. cbv beta iota in H.
  exists nh, nl. split; [done|].
  rewrite (rd_wr_ne _ _ _ _ lo Hw1) in Hl by done.
  split; [done|]. split; [|split].
  - rewrite (rd_wr_ne _ _ _ _ hi H) by done. by eapply rd_wr_eq.
  - by eapply rd_wr_eq.
  - intros x Hx1 Hx2. rewrite (rd_wr_ne _ _ _ _ x H) by done.
    by rewrite (rd_wr_ne _ _ _ _ x Hw1).
Qed.

(** The bits written for one wall, from the side of one of its cells. *)
Lemma geo_add_bit m n E k l dk dl b e a c :
  0 <= e < 256 ->
  in_grid m n (k + dk) (l + dl) -> neighbour k l (k + dk) (l + dl) ->
  (b, (dk, dl)) ∈ geo -> a <> c ->
  a = cell_no n k l \/ c = cell_no n k l ->
  (a = cell_no n k l -> c = cell_no n (k + dk) (l + dl)) ->
  (c = cell_no n k l -> a = cell_no n (k + dk) (l + dl)) ->
  0 <= l < n ->
  (forall bit dk' dl', (bit, (dk', dl')) ∈ geo ->
     (Z.land e bit <> 0 <->
      in_grid m n (k + dk') (l + dl') /\ neighbour k l (k + dk') (l + dl') /\
      adj E (cell_no n k l) (cell_no n (k + dk') (l + dl')))) ->
  0 <= Z.lor e b < 256 /\
  forall bit dk' dl', (bit, (dk', dl')) ∈ geo ->
    (Z.land (Z.lor e b) bit <> 0 <->
     in_grid m n (k + dk') (l + dl') /\ neighbour k l (k + dk') (l + dl') /\
     adj ((a, c) :: E) (cell_no n k l) (cell_no n (k + dk') (l + dl'))).
Proof.
  intros He Hg Hnb Hb Hac Hside Ha Hc Hl Hold.
  assert (Hb8 := geo_bit_mem _ _ Hb).
  split; [by apply lor_bit_range|].
  intros bit dk' dl' Hbit.
  rewrite (land_lor_bit e b bit Hb8 (geo_bit_mem _ _ Hbit)).
  rewrite (Hold bit dk' dl' Hbit), adj_cons.
  pose proof (geo_fun _ _ _ _ Hb Hbit) as Hfun.
  split.
  - intros [(H1 & H2 & H3)|Heq]; [by split; [|split; [|left]]|].
    apply Hfun in Heq. injection Heq as <- <-.
    split; [done|]. split; [done|]. right.
    destruct Hside as [Hs|Hs].
    + left. by rewrite <- Hs, <- (Ha Hs).
    + right. by rewrite <- Hs, <- (Hc Hs).
  - intros (H1 & H2 & [H3|[H3|H3]]); [by left|right..].
    + injection H3 as E1 E2. rewrite E1 in Ha. specialize (Ha eq_refl).
      rewrite Ha in E2. unfold cell_no in E2.
      destruct H1 as [_ H1], Hg as [_ Hg].
      apply cell_no_inj in E2 as [E3 E4]; [|lia..].
      apply Hfun. f_equal; lia.
    + injection H3 as E1 E2. rewrite E2 in Hc. specialize (Hc eq_refl).
      rewrite Hc in E1. unfold cell_no in E1.
      destruct H1 as [_ H1], Hg as [_ Hg].
      apply cell_no_inj in E1 as [E3 E4]; [|lia..].
      apply Hfun. f_equal; lia.
Qed.

Lemma neighbour_irrefl k l : ~ neighbour k l k l.
Proof. unfold neighbour. lia. Qed.

Lemma add_exits_geo m n nodes E k l dk dl bl bh nodes' :
  1 <= n -> in_grid m n k l -> in_grid m n (k + dk) (l + dl) ->
  neighbour k l (k + dk) (l + dl) ->
  (bl, (dk, dl)) ∈ geo -> (bh, (- dk, - dl)) ∈ geo ->
  exits_geo m n nodes E ->
  add_exits nodes (cell_no n (k + dk) (l + dl)) (cell_no n k l) bh bl
    = Some nodes' ->
  exits_geo m n nodes' ((cell_no n k l, cell_no n (k + dk) (l + dl)) :: E).
Proof.
  intros Hn Hg Hg' Hnb Hbl Hbh Hgeo Hadd.
  set (lo := cell_no n k l) in *. set (hi := cell_no n (k + dk) (l + dl)) in *.
  assert (Hne : hi <> lo).
  { unfold hi, lo, cell_no. intros E0.
    destruct Hg as [_ Hg], Hg' as [_ Hg'].
    apply cell_no_inj in E0 as [E1 E2]; [|lia..].
    unfold neighbour in Hnb. lia. }
  destruct (add_exits_inv _ _ _ _ _ _ Hadd Hne)
    as (nh & nl & Hh & Hl & Hh' & Hl' & Hother).
  intros k0 l0 Hg0.
  destruct (Hgeo k0 l0 Hg0) as (nd0 & Hrd0 & Hr0 & Hbits0).
  destruct (decide (cell_no n k0 l0 = lo)) as [E0|Hnlo].
  - assert (k0 = k /\ l0 = l) as [-> ->].
    { unfold lo, cell_no in E0. destruct Hg as [_ Hg], Hg0 as [_ Hg0].
      apply cell_no_inj in E0; [exact E0|lia..]. }
    fold lo in Hrd0. rewrite Hl in Hrd0. injection Hrd0 as ->.
    eexists. split; [exact Hl'|]. simpl.
    apply (geo_add_bit m n E k l dk dl); try done.
    + by left.
    + by destruct Hg.
  - destruct (decide (cell_no n k0 l0 = hi)) as [E0|Hnhi].
    + assert (k0 = k + dk /\ l0 = l + dl) as [-> ->].
      { unfold hi, cell_no in E0. destruct Hg' as [_ Hg'], Hg0 as [_ Hg0].
        apply cell_no_inj in E0; [exact E0|lia..]. }
      fold hi in Hrd0. rewrite Hh in Hrd0. injection Hrd0 as ->.
      eexists. split; [exact Hh'|]. simpl.
      assert (Ek : k + dk + - dk = k) by lia.
      assert (El : l + dl + - dl = l) by lia.
      apply (geo_add_bit m n E (k + dk) (l + dl) (- dk) (- dl)); try done.
      * by rewrite Ek, El.
      * rewrite Ek, El. by apply neighbour_sym.
      * by right.
      * intros _. by rewrite Ek, El.
      * by destruct Hg'.
    + exists nd0. rewrite (Hother _ Hnhi Hnlo). split; [done|]. split; [done|].
      intros bit dk' dl' Hbit. rewrite (Hbits0 bit dk' dl' Hbit), adj_cons.
      split; [intros (? & ? & ?); by split; [|split; [|left]]|].
      intros (? & ? & [?|[E1|E1]]); [done|..]; injection E1 as E1 E2;
        congruence.
Qed.

Lemma open_wall_geo m n nodes E lo hi nodes' :
  2 <= n -> wall_at m n lo hi -> exits_geo m n nodes E ->
  open_wall n nodes lo hi = Some nodes' ->
  exits_geo m n nodes' ((lo, hi) :: E).
Proof.
  intros Hn (i & j & Hi & Hj & -> & Hw) Hgeo Hopen.
  assert (Hg : in_grid m n i j) by done.
  pose proof (land_1 i) as Hpar.
  pose proof (Z.mod_pos_bound i 2 ltac:(lia)) as Hmod.
  assert (Hcase : forall dk dl bl bh,
    hi = cell_no n (i + dk) (j + dl) ->
    in_grid m n (i + dk) (j + dl) -> neighbour i j (i + dk) (j + dl) ->
    (bl, (dk, dl)) ∈ geo -> (bh, (- dk, - dl)) ∈ geo ->
    open_wall n nodes (n * i + j) hi = add_exits nodes hi (n * i + j) bh bl ->
    exits_geo m n nodes' ((n * i + j, hi) :: E)).
  { intros dk dl bl bh -> Hg' Hnb Hbl Hbh Ho. rewrite Ho in Hopen.
    by apply (add_exits_geo m n nodes E i j dk dl bl bh nodes'); [lia|..]. }
  unfold wall_from in Hw.
  destruct (decide (Z.land i 1 = 0)) as [Hev|Hodd].
  - (* an even column *)
    destruct Hw as [(H1 & H2 & ->)|[(H1 & ->)|(H1 & H2 & ->)]].
    + apply (Hcase (-1) 0 LEq REq).
      * unfold cell_no. lia.
      * unfold in_grid. lia.
      * unfold neighbour. lia.
      * unfold geo. rewrite !elem_of_cons. tauto.
      * unfold geo. rewrite !elem_of_cons. tauto.
      * unfold open_wall. repeat case_decide; try lia; reflexivity.
    + apply (Hcase 0 1 Up Down).
      * unfold cell_no. lia.
      * unfold in_grid. lia.
      * unfold neighbour. lia.
      * unfold geo. rewrite !elem_of_cons. tauto.
      * unfold geo. rewrite !elem_of_cons. tauto.
      * unfold open_wall. repeat case_decide; try lia; reflexivity.
    + apply (Hcase 1 0 REq LEq).
      * unfold cell_no. lia.
      * unfold in_grid. lia.
      * unfold neighbour. lia.
      * unfold geo. rewrite !elem_of_cons. tauto.
      * unfold geo. rewrite !elem_of_cons. tauto.
      * unfold open_wall. repeat case_decide; try lia; reflexivity.
  - (* an odd column *)
    assert (Hone : Z.land i 1 = 1) by lia.
    destruct Hw as [(H1 & H2 & ->)|[(H1 & ->)|(H1 & H2 & ->)]].
    + apply (Hcase (-1) 1 LUp RDown).
      * unfold cell_no. lia.
      * unfold in_grid. lia.
      * unfold neighbour. lia.
      * unfold geo. rewrite !elem_of_cons. tauto.
      * unfold geo. rewrite !elem_of_cons. tauto.
      * unfold open_wall. repeat case_decide; try lia; reflexivity.
    + apply (Hcase 0 1 Up Down).
      * unfold cell_no. lia.
      * unfold in_grid. lia.
      * unfold neighbour. lia.
      * unfold geo. rewrite !elem_of_cons. tauto.
      * unfold geo. rewrite !elem_of_cons. tauto.
      * unfold open_wall. repeat case_decide; try lia; reflexivity.
    + apply (Hcase 1 1 RUp LDown).
      * unfold cell_no. lia.
      * unfold in_grid. lia.
      * unfold neighbour. lia.
      * unfold geo. rewrite !elem_of_cons. tauto.
      * unfold geo. rewrite !elem_of_cons. tauto.
      * unfold open_wall. repeat case_decide; try lia; reflexivity.
Qed.

(** What [try_wall] does to the bitmaps. *)
Lemma try_wall_nodes fuel n_rows cells nodes lo hi cells' nodes' b :
  try_wall fuel n_rows cells nodes lo hi = Some (cells', nodes', b) ->
  if (b : bool) then open_wall n_rows nodes lo hi = Some nodes'
  else nodes' = nodes.
Proof.
  unfold try_wall. intros H.
  destruct (UF.base fuel cells lo) as [[x c1]|]; [|done].
  rewrite bind_Some in H. cbv beta iota in H.
  destruct (UF.base fuel c1 hi) as [[y c2]|]; [|done].
  rewrite bind_Some in H. cbv beta iota in H.
  case_decide.
  - destruct (UF.unify c2 x y) as [c3|]; [|done].
    rewrite bind_Some in H. cbv beta iota in H.
    destruct (open_wall n_rows nodes lo hi) as [n1|]; [|done].
    rewrite bind_Some in H. cbv beta iota in H. by injection H as <- <- <-.
  - by injection H as <- <- <-.
Qed.

Lemma carve_geo m n fuel : forall l cells nodes E cells' nodes' bs,
  2 <= n -> (forall lo hi, (lo, hi) ∈ l -> wall_at m n lo hi) ->
  exits_geo m n nodes E ->
  carve fuel n cells nodes l = Some (cells', nodes', bs) ->
  exits_geo m n nodes' (opened E l bs).
Proof.
  induction l as [|[lo hi] l IH]; intros cells nodes E cells' nodes' bs Hn Hl Hgeo Hc.
  - simpl in Hc. by injection Hc as <- <- <-.
  - simpl in Hc.
    destruct (try_wall fuel n cells nodes lo hi) as [[[c1 n1] b]|] eqn:Htry;
      [|done].
    rewrite bind_Some in Hc. cbv beta iota in Hc.
    destruct (carve fuel n c1 n1 l) as [[[c2 n2] bs']|] eqn:Hcarve; [|done].
    rewrite bind_Some in Hc. cbv beta iota in Hc. injection Hc as <- <- <-.
    simpl. apply (IH c1 n1 _ c2 n2 bs' Hn); [|  |done].
    + intros lo' hi' Hin. apply Hl. by right.
    + apply try_wall_nodes in Htry. destruct b.
      * apply (open_wall_geo m n nodes); try done. apply Hl. left.
      * by subst n1.
Qed.

Lemma exits_geo_init m n : 1 <= n -> 0 <= m -> exits_geo m n (init_nodes (n * m)) [].
Proof.
  intros Hn Hm k l [Hk Hl]. exists Node.zero. split; [|split; [done|]].
  - unfold init_nodes. apply rd_replicate. unfold cell_no. nia.
  - intros bit dk dl _. simpl. rewrite Z.land_0_l. split; [done|].
    intros (_ & _ & H). by apply adj_nil in H.
Qed.

Section Geometry.
Context {rng : Type} (Random : rng -> Z * rng).

(** After [create_maze] the bitmaps agree with the geometry and with
    the list of walls removed. *)
Lemma make_maze_geo fuel m n g :
  2 <= m <= 1000 -> 2 <= n <= 1000 -> (Z.to_nat (3 * m * n) <= fuel)%nat ->
  exists st q E,
    make_maze Random fuel m n g = Some (st, q) /\
    Z.of_nat (length (nodes st)) = m * n /\
    Z.of_nat (length E) = m * n - 1 /\
    simple_edges E /\
    (forall lo hi, (lo, hi) ∈ E -> wall_at m n lo hi) /\
    exits_inv n (nodes st) E /\
    exits_geo m n (nodes st) E /\
    connected_graph (m * n) (adj E) /\
    all_bridges (adj E).
Proof.
  intros Hm Hn Hf.
  destruct (make_maze_spec Random fuel m n g Hm Hn Hf)
    as (st & q & E & kl & Hmk & Hone & HlE & Hsim & HE & Hex & Hcon & Hac & _
        & _ & _ & _ & _ & es & bs & Hes & Hcarve & -> & _).
  exists st, q, (opened [] es bs). split; [done|].
  assert (Hwall : forall lo hi, (lo, hi) ∈ es -> wall_at m n lo hi).
  { intros lo hi Hin. by apply (Hes (lo, hi)). }
  destruct (carve_spec (n * m) n fuel es (UF.init_cells (n * m))
              (init_nodes (n * m)) [])
    as (c' & n' & bs' & Hcarve' & _ & Hinv & _ & Hln & _).
  { apply kruskal_inv_init. nia. }
  { apply exits_inv_init. }
  { unfold init_nodes. rewrite length_replicate. nia. }
  { lia. }
  { intros lo hi Hin. apply (wall_at_range m n); [lia|by apply Hwall]. }
  { nia. }
  { rewrite size_sum_init; nia. }
  rewrite Hcarve in Hcarve'. injection Hcarve' as <- <- <-.
  split; [lia|]. split; [done|]. split; [done|]. split; [done|].
  split; [done|]. split.
  { apply (carve_geo m n fuel es (UF.init_cells (n * m)) (init_nodes (n * m))
             [] (cells st) (nodes st) bs); try done; try lia.
    apply exits_geo_init; lia. }
  destruct Hex as [Hrel _]. split.
  - intros a b Ha Hb. apply (connected_iff (exit_rel n (nodes st))); [|by apply Hcon].
    intros x y. apply Hrel.
  - by destruct Hinv as (_ & _ & _ & _ & Hbr & _).
Qed.

End Geometry.

(** * Trees as graphs: the two sides of an edge *)

Section Sides.
Context (G : relation Z).
Hypothesis Hbr : all_bridges G.

Lemma bridge_irrefl a : ~ G a a.
Proof. intros H. apply (Hbr a a H). reflexivity. Qed.

Lemma bridge_sc a b : sc G a b -> ~ connected (minus (sc G) a b) a b.
Proof.
  intros [H|H]; [by apply Hbr|].
  intros Hc. apply (Hbr b a H). symmetry.
  eapply connected_mono; [|exact Hc].
  intros x y Hxy. apply rtsc_lr. by apply minus_sym.
Qed.

Lemma side_refl p n : side G p n n.
Proof. unfold side, connected. reflexivity. Qed.

(** The far side of an edge does not contain its near end. *)
Lemma side_not_end n m x : sc G n m -> side G n m x -> x <> n.
Proof.
  intros Hnm Hs ->. apply (bridge_sc n m Hnm).
  unfold side, connected in *. by symmetry.
Qed.

(** A path on the far side of the edge [n]-[m] uses no edge at [n]. *)
Lemma side_avoid n m q x :
  sc G n m -> side G n m x -> connected (minus (sc G) q n) m x.
Proof.
  intros Hnm Hs.
  enough (side G n m x /\ connected (minus (sc G) q n) m x) by tauto.
  unfold side, connected, rtsc in Hs. revert x Hs.
  apply rtc_ind_r; [|intros y z Hmy Hyz [IH1 IH2]].
  - split; [apply side_refl|reflexivity].
  - assert (Hz : side G n m z).
    { unfold side, connected. etrans; [exact IH1|]. by apply rtc_once. }
    split; [done|].
    pose proof (side_not_end n m y Hnm IH1) as Hy.
    pose proof (side_not_end n m z Hnm Hz) as Hz'.
    unfold connected. etrans; [exact IH2|]. apply rtc_once.
    destruct Hyz as [(Hsc & _ & _)|(Hsc & _ & _)]; [left|right];
      (split; [done|]); split; intros [? ?]; congruence.
Qed.

(** The side of a further edge at [n] lies within the side of [n]. *)
Lemma side_sub p n m x :
  sc G n m -> m <> p -> side G n m x -> side G p n x.
Proof.
  intros Hnm Hmp Hs.
  pose proof (side_avoid n m p x Hnm Hs) as Hc.
  unfold side, connected. etrans; [|exact Hc]. apply rtc_once. left.
  split; [done|]. split; intros [? ?]; congruence.
Qed.

(** The sides of two edges at [n] are disjoint. *)
Lemma side_disjoint n m1 m2 x :
  sc G n m1 -> sc G n m2 -> m1 <> m2 ->
  side G n m1 x -> side G n m2 x -> False.
Proof.
  intros H1 H2 Hne Hs1 Hs2.
  pose proof (side_avoid n m1 m2 x H1 Hs1) as Hc.
  apply (bridge_sc n m2 H2).
  assert (Hn1 : n <> m1).
  { intros ->. exact (side_not_end m1 m1 m1 H1 (side_refl _ _) eq_refl). }
  unfold connected. etrans; [apply rtc_once; left|].
  { split; [exact H1|]. split; intros [? ?]; congruence. }
  etrans.
  { eapply connected_mono; [|exact Hc].
    intros u v Huv. apply rtsc_lr. by apply minus_sym. }
  unfold side, connected in Hs2. by symmetry.
Qed.

(** The side of [n] is [n] and the sides of the further edges at [n]. *)
Lemma side_cover p n x :
  side G p n x ->
  x = n \/ exists m, sc G n m /\ m <> p /\ side G n m x.
Proof.
  unfold side at 1, connected, rtsc. revert x.
  apply rtc_ind_r; [by left|intros y z Hny Hyz IH].
  destruct (decide (z = n)) as [->|Hzn]; [by left|]. right.
  assert (Hyz' : sc G y z /\ ~ (y = p /\ z = n) /\ ~ (y = n /\ z = p)).
  { destruct Hyz as [(Hsc & H1 & H2)|(Hsc & H1 & H2)].
    - tauto.
    - split; [by symmetry|]. tauto. }
  destruct Hyz' as (Hsc & H1 & H2).
  destruct IH as [->|(m & Hnm & Hmp & Hs)].
  - exists z. split; [done|]. split; [intros ->; tauto|]. apply side_refl.
  - exists m. split; [done|]. split; [done|].
    pose proof (side_not_end n m y Hnm Hs) as Hy.
    unfold side, connected. etrans; [exact Hs|]. apply rtc_once. left.
    split; [done|]. split; intros [? ?]; congruence.
Qed.

End Sides.

(** * Building the tree *)

(** The mark on a bitmap that holds exit bits only. *)
Lemma small_exits_all :
  Forall (fun e =>
    ~ is_visited e /\ mark e = e - 2147483648 /\ is_visited (mark e) /\
    Forall (fun bit => Z.land (mark e) bit = Z.land e bit)
           [1; 2; 4; 8; 16; 32; 64; 128])
    (Z.of_nat <$> seq 0 256).
Proof. apply (bool_decide_unpack _). vm_compute. reflexivity. Qed.

Lemma small_exits e :
  0 <= e < 256 ->
  ~ is_visited e /\ mark e = e - 2147483648 /\ is_visited (mark e) /\
  forall bit, bit ∈ [1; 2; 4; 8; 16; 32; 64; 128] ->
    Z.land (mark e) bit = Z.land e bit.
Proof.
  intros He. pose proof small_exits_all as H.
  rewrite Forall_forall in H.
  destruct (H e) as (H1 & H2 & H3 & H4).
  { apply list_elem_of_fmap. exists (Z.to_nat e). split; [lia|].
    apply elem_of_seq. lia. }
  split; [done|]. split; [done|]. split; [done|].
  by rewrite Forall_forall in H4.
Qed.

Lemma subtree_agree fuel : forall nodes nodes' n l,
  (forall x, x ∈ l -> nodes' !! x = nodes !! x) ->
  Tree.subtree fuel nodes n = Some l -> Tree.subtree fuel nodes' n = Some l.
Proof.
  induction fuel as [|f IH]; intros nodes nodes' n l Hag Hs; [done|].
  pose proof Hs as (f' & nd & subs & [= <-] & Hn & Hk & Hsubs & ->)%subtree_inv.
  simpl. rewrite (Hag n) by left. rewrite Hn. simpl.
  rewrite decide_True by done.
  unfold Tree.children in Hsubs. rewrite Hn in Hsubs.
  assert (Hgen : forall K subs0,
    Forall2 (fun m lm => Tree.subtree f nodes m = Some lm) K subs0 ->
    (forall x, x ∈ concat subs0 -> nodes' !! x = nodes !! x) ->
    Forall2 (fun m lm => Tree.subtree f nodes' m = Some lm) K subs0).
  { intros K subs0 HF. induction HF as [|m lm K subs0 Hm HF IH']; intros Hag';
      constructor.
    - apply (IH nodes); [|done]. intros x Hx. apply Hag'. simpl.
      apply elem_of_app. by left.
    - apply IH'. intros x Hx. apply Hag'. simpl. apply elem_of_app. by right. }
  erewrite (mapM_Some_2 (Tree.subtree f nodes')); [done|].
  apply Hgen; [done|]. intros x Hx. apply Hag. by right.
Qed.

Lemma filter_remove_length (L : list Z) (n : Z) :
  n ∈ L -> (length (filter (fun x => x <> n) L) < length L)%nat.
Proof.
  induction L as [|y L IH]; intros Hin; [by apply elem_of_nil in Hin|].
  rewrite filter_cons. pose proof (length_filter (fun x => x <> n) L) as Hle.
  case_decide as Hy; simpl.
  - apply elem_of_cons in Hin as [->|Hin]; [done|]. specialize (IH Hin). lia.
  - lia.
Qed.

Lemma count_bits_dirs n_rows e : count_bits (dirs n_rows).*1 e = n_exits e.
Proof.
  rewrite dirs_bits. unfold count_bits, n_exits.
  rewrite !filter_cons, !filter_nil.
  repeat case_decide; reflexivity.
Qed.

Lemma set_kid_take ks K nk p :
  take nk ks = K -> length K = nk -> (nk < 6)%nat ->
  exists ks', set_kid ks (Z.of_nat nk) p = Some ks' /\
    take (S nk) ks' = K ++ [p].
Proof.
  intros Ht Hl H6. unfold set_kid. rewrite decide_True by lia.
  rewrite Nat2Z.id.
  assert (Hle : (nk <= length ks)%nat).
  { rewrite <- Ht, length_take in Hl. lia. }
  case_decide as Hlt.
  - eexists. split; [done|].
    destruct (lookup_lt_is_Some_2 ks nk Hlt) as [y Hy].
    rewrite (take_S_r _ _ p).
    + by rewrite take_insert_ge, Ht by lia.
    + apply list_lookup_insert_eq. lia.
  - rewrite decide_True by lia. eexists. split; [done|].
    rewrite take_ge by (rewrite length_app; simpl; lia).
    rewrite take_ge in Ht by lia. by rewrite Ht.
Qed.

Section Build.
Variables (n_rows : Z) (nodes0 : list node).
Local Abbreviation G := (exit_rel n_rows nodes0).
Hypothesis H256 :
  forall a nd, rd nodes0 a = Some nd -> 0 <= Node.exits nd < 256.
Hypothesis H6 :
  forall a nd, rd nodes0 a = Some nd -> (n_exits (Node.exits nd) <= 6)%nat.
Hypothesis Hsym : forall a b, G a b -> G b a.
Hypothesis Hbr : all_bridges G.

Lemma G_range a b : G a b -> is_Some (rd nodes0 a) /\ is_Some (rd nodes0 b).
Proof.
  intros H. pose proof (Hsym _ _ H) as H'.
  destruct H as (nd & _ & _ & Hrd & _). destruct H' as (nd' & _ & _ & Hrd' & _).
  split; by eexists.
Qed.

Lemma G_sc a b : sc G a b -> G a b.
Proof. intros [H|H]; [done|by apply Hsym]. Qed.

Lemma marking_orig nodes x nd :
  marking nodes0 nodes -> rd nodes x = Some nd -> ~ Node.exits nd < 0 ->
  rd nodes0 x = Some nd.
Proof.
  intros [_ Hinv] Hrd Hnn. destruct (Hinv x nd Hrd) as [?|(nd0 & H0 & E)]; [done|].
  pose proof (H256 _ _ H0) as Hr.
  destruct (small_exits _ Hr) as (_ & Hm & _). rewrite E, Hm in Hnn. lia.
Qed.

Lemma marking_marked nodes x nd :
  marking nodes0 nodes -> rd nodes x = Some nd -> Node.exits nd < 0 ->
  is_visited (Node.exits nd) /\
  exists nd0, rd nodes0 x = Some nd0 /\ Node.exits nd = mark (Node.exits nd0).
Proof.
  intros [_ Hinv] Hrd Hneg. destruct (Hinv x nd Hrd) as [H0|(nd0 & H0 & E)].
  - pose proof (H256 _ _ H0). lia.
  - split; [|by exists nd0].
    destruct (small_exits _ (H256 _ _ H0)) as (_ & _ & Hv & _). by rewrite E.
Qed.

Lemma marking_is_Some nodes x :
  marking nodes0 nodes -> is_Some (rd nodes0 x) -> is_Some (rd nodes x).
Proof.
  intros [Hlen _] [nd Hrd]. apply rd_is_Some. rewrite Hlen.
  by eapply rd_Some_range.
Qed.

Lemma build_tree_S f nodes x :
  build_tree (S f) n_rows nodes x =
    nd ← rd nodes x;
    if decide (is_visited (Node.exits nd)) then Some (nodes, false)
    else
      nodes1 ← wr nodes x (Node.set_exits nd (mark (Node.exits nd)));
      '(nodes2, nk) ← probe (build_tree f n_rows) x (Node.exits nd)
                            (dirs n_rows) nodes1 0;
      nd' ← rd nodes2 x;
      nodes3 ← wr nodes2 x (set_n_kids nd' nk);
      Some (nodes3, true).
Proof. reflexivity. Qed.

Lemma build_tree_visited f nodes x :
  marking nodes0 nodes -> vis nodes x ->
  build_tree (S f) n_rows nodes x = Some (nodes, false).
Proof.
  intros Hinv (nd & Hrd & Hneg). rewrite build_tree_S, Hrd. bind_ok.
  destruct (marking_marked nodes x nd Hinv Hrd Hneg) as [Hv _].
  by rewrite decide_True.
Qed.

Section Probe.
Variables (f : nat) (rec : list node -> Z -> option (list node * bool)).
Hypothesis Hrec_vis : forall nodes x,
  marking nodes0 nodes -> vis nodes x -> rec nodes x = Some (nodes, false).
Hypothesis Hrec_fresh : builds n_rows nodes0 f rec.

Variables (nodesC : list node) (p n : Z) (L : list Z) (nd0 : node).
Hypothesis HuntC : forall x, side G p n x -> rd nodesC x = rd nodes0 x.
Hypothesis HpC : G n p -> vis nodesC p.
Hypothesis HL : forall x, side G p n x -> x ∈ L.
Hypothesis HLf : (length L <= f)%nat.

Local Abbreviation pinv :=
  (probe_inv n_rows nodes0 f nodesC p n (Node.exits nd0)).

Lemma parent_vis nodes :
  (forall x, ~ side G p n x -> rd nodes x = rd nodesC x) ->
  G n p -> vis nodes p.
Proof.
  intros Hfr Hnp. destruct (HpC Hnp) as (nd & Hrd & Hneg).
  assert (Hns : ~ side G p n p).
  { intros Hs. rewrite (HuntC p Hs) in Hrd.
    pose proof (H256 _ _ Hrd). lia. }
  exists nd. by rewrite (Hfr p Hns).
Qed.

(** A neighbour found visited is the parent or a kid entered before. *)
Lemma visited_neighbour ds nodes K subs m :
  pinv ds nodes K subs -> G n m -> vis nodes m -> m = p \/ m ∈ K.
Proof.
  intros (Hinv & _ & HK & _ & _ & _ & _ & Hunt & _) Hnm (nd & Hrd & Hneg).
  destruct (decide (m = p)) as [|Hmp]; [by left|]. right.
  destruct (decide (m ∈ K)) as [|HmK]; [done|]. exfalso.
  assert (Hs : side G p n m).
  { apply (side_sub G Hbr p n m); [by left|done|apply side_refl]. }
  assert (Hmn : m <> n).
  { intros ->. by apply (bridge_irrefl G Hbr n). }
  rewrite (Hunt m Hs Hmn) in Hrd.
  - pose proof (H256 _ _ Hrd). lia.
  - intros m' Hm' Hs'. destruct (HK m' Hm') as [Hnm' _].
    apply (side_disjoint G Hbr n m' m m); [by left|by left| |done|apply side_refl].
    intros ->. done.
Qed.

Lemma count_bits_cons_set bit (bs : list Z) e :
  Z.land e bit <> 0 -> count_bits (bit :: bs) e = S (count_bits bs e).
Proof. intros H. unfold count_bits. by rewrite filter_cons, decide_True. Qed.

Lemma count_bits_cons_clear bit (bs : list Z) e :
  ~ Z.land e bit <> 0 -> count_bits (bit :: bs) e = count_bits bs e.
Proof. intros H. unfold count_bits. by rewrite filter_cons, decide_False. Qed.

(** Entering a neighbour not yet visited. *)
Lemma probe_enter ds nodes K subs bit d :
  pinv ((bit, d) :: ds) nodes K subs ->
  Z.land (Node.exits nd0) bit <> 0 -> G n (n + d) -> ~ vis nodes (n + d) ->
  exists nodes1 lm ndn ks nodes2,
    rec nodes (n + d) = Some (nodes1, true) /\
    rd nodes1 n = Some ndn /\
    set_kid (Node.kids ndn) (Z.of_nat (length K)) (Z.to_nat (n + d)) = Some ks /\
    wr nodes1 n (set_kids ndn ks) = Some nodes2 /\
    pinv ds nodes2 (K ++ [n + d]) (subs ++ [lm]).
Proof.
  intros HP Hbit Hnm Hnv. set (m := n + d) in *.
  destruct HP as (Hinv & (ndn & Hrdn & Hneg & Htake) & HK & Hlen & Hsubs & Hnd
                  & Hvis & Hunt & Hfr & Hcnt & Hall).
  assert (Hmp : m <> p).
  { intros E. apply Hnv. rewrite E. apply parent_vis; [done|]. by rewrite <- E. }
  assert (HmK : m ∉ K).
  { intros HmK. apply Hnv. apply Hvis. right. exists m. split; [done|].
    apply side_refl. }
  assert (Hmn : m <> n).
  { intros E. rewrite E in Hnm. by apply (bridge_irrefl G Hbr n). }
  assert (Hsc : sc G n m) by (by left).
  assert (Hsub : forall x, side G n m x -> side G p n x).
  { intros x. by apply (side_sub G Hbr). }
  assert (Hnotn : forall x, side G n m x -> x <> n).
  { intros x. by apply (side_not_end G Hbr). }
  assert (Hdisj : forall m' x, m' ∈ K -> side G n m' x -> side G n m x -> False).
  { intros m' x Hm' Hs' Hs. destruct (HK m' Hm') as [Hnm' _].
    apply (side_disjoint G Hbr n m' m x); [by left|done| |done|done].
    intros ->. done. }
  assert (Hfresh : forall x, side G n m x -> rd nodes x = rd nodes0 x).
  { intros x Hs. apply Hunt; [by apply Hsub|by apply Hnotn|].
    intros m' Hm' Hs'. by apply (Hdisj m' x). }
  destruct (Hrec_fresh nodes n m (filter (fun x => x <> n) L))
    as (nodes1 & lm & Hrec & Hinv1 & Hfr1 & Hvis1 & Hsub1 & Hnd1 & Hmem1 & Hch1
        & _ & Hpar1).
  { done. }
  { done. }
  { by destruct (G_range n m Hnm). }
  { intros _. by exists ndn. }
  { intros x Hs. apply list_elem_of_filter. split; [by apply Hnotn|].
    by apply HL, Hsub. }
  { pose proof (filter_remove_length L n (HL n (side_refl G p n))). lia. }
  assert (Hn1 : rd nodes1 n = Some ndn).
  { rewrite Hfr1; [done|]. intros Hs. by apply (Hnotn n). }
  assert (HK6 : (length K < 6)%nat).
  { simpl in Hcnt. rewrite count_bits_cons_set in Hcnt by done. lia. }
  destruct (set_kid_take (Node.kids ndn) (Z.to_nat <$> K) (length K) (Z.to_nat m))
    as (ks & Hks & Htk); [done|by rewrite length_fmap|done|].
  pose proof (rd_Some_range _ _ _ Hn1) as Hnr.
  pose proof (wr_is_Some nodes1 n (set_kids ndn ks) Hnr) as Hwr.
  set (nodes2 := <[Z.to_nat n := set_kids ndn ks]> nodes1) in *.
  assert (Hrd2n : rd nodes2 n = Some (set_kids ndn ks)) by (by eapply rd_wr_eq).
  assert (Hrd2 : forall x, x <> n -> rd nodes2 x = rd nodes1 x).
  { intros x Hx. by eapply rd_wr_ne. }
  assert (Hmono : forall x, vis nodes x -> vis nodes2 x).
  { intros x (nd & Hrd & Hn). destruct (decide (x = n)) as [->|Hxn].
    - exists (set_kids ndn ks). done.
    - exists nd. rewrite (Hrd2 x Hxn), Hfr1; [done|].
      intros Hs. rewrite (Hfresh x Hs) in Hrd. pose proof (H256 _ _ Hrd). lia. }
  assert (Hag_new : forall x : nat,
            side G n m (Z.of_nat x) -> nodes2 !! x = nodes1 !! x).
  { intros x Hs. rewrite <- !rd_lookup. apply Hrd2. by apply Hnotn. }
  assert (Hag_old : forall m' (x : nat), m' ∈ K ->
            side G n m' (Z.of_nat x) -> nodes2 !! x = nodes !! x).
  { intros m' x Hm' Hs. rewrite <- !rd_lookup. destruct (HK m' Hm') as [Hnm' _].
    rewrite Hrd2 by (apply (side_not_end G Hbr n m'); [by left|done]).
    apply Hfr1. intros Hs'. by apply (Hdisj m' (Z.of_nat x)). }
  exists nodes1, lm, ndn, ks, nodes2.
  split; [done|]. split; [done|]. split; [done|]. split; [done|].
  split; [|split; [|split; [|split; [|split; [|split; [|split; [|split;
    [|split; [|split]]]]]]]]].
  - (* marking *)
    split.
    { unfold nodes2. rewrite length_insert. by destruct Hinv1. }
    intros x nd Hrd. destruct (decide (x = n)) as [->|Hxn].
    + rewrite Hrd2n in Hrd. injection Hrd as <-.
      destruct (marking_marked nodes1 n ndn Hinv1 Hn1 Hneg) as [_ (nd' & H0 & E)].
      right. by exists nd'.
    + rewrite (Hrd2 x Hxn) in Hrd. by apply Hinv1.
  - (* the node itself *)
    exists (set_kids ndn ks). split; [done|]. split; [done|]. simpl.
    rewrite length_app, fmap_app. simpl. by rewrite Nat.add_1_r.
  - (* the kids are neighbours *)
    intros m' [Hm' | ->%list_elem_of_singleton]%elem_of_app; [by apply HK|done].
  - rewrite !length_app. simpl. lia.
  - (* below each kid *)
    intros j m' lm' Hj Hj'.
    apply lookup_app_Some in Hj as [Hj|[Hge Hj]].
    + assert (Hj2 : subs !! j = Some lm').
      { apply lookup_app_Some in Hj' as [?|[Hge _]]; [done|].
        apply lookup_lt_Some in Hj. lia. }
      destruct (Hsubs j m' lm' Hj Hj2) as (Hs & Hm & Hc & Hpa).
      assert (Hm'K : m' ∈ K) by (by eapply list_elem_of_lookup_2).
      assert (Hag : forall x, x ∈ lm' -> nodes2 !! x = nodes !! x).
      { intros x Hx. apply (Hag_old m'); [done|]. by apply Hm. }
      split; [|split; [done|split]].
      * by apply (subtree_agree f nodes).
      * intros x c Hx Hcx. apply Hc; [done|].
        by rewrite <- (children_agree nodes nodes2 x (Hag x Hx)).
      * intros x Hx. destruct (Hpa x Hx) as [px Hpx]. exists px.
        intros m'' Hg. rewrite (children_agree nodes nodes2 x (Hag x Hx)).
        by apply Hpx.
    + apply list_lookup_singleton_Some in Hj as [Hj0 <-].
      assert (Hj2 : lm' = lm).
      { apply lookup_app_Some in Hj' as [Hj'|[_ Hj']].
        - apply lookup_lt_Some in Hj'. lia.
        - apply list_lookup_singleton_Some in Hj' as [_ ?]. done. }
      subst lm'.
      assert (Hag : forall x, x ∈ lm -> nodes2 !! x = nodes1 !! x).
      { intros x Hx. apply Hag_new. by apply Hmem1. }
      split; [|split; [done|split]].
      * by apply (subtree_agree f nodes1).
      * intros x c Hx Hcx. apply Hch1; [done|].
        by rewrite <- (children_agree nodes1 nodes2 x (Hag x Hx)).
      * intros x Hx. destruct (Hpar1 x Hx) as [px Hpx]. exists px.
        intros m'' Hg. rewrite (children_agree nodes1 nodes2 x (Hag x Hx)).
        by apply Hpx.
  - (* no node twice *)
    rewrite concat_app. simpl. rewrite app_nil_r. apply NoDup_app.
    split; [done|]. split; [|done].
    intros x Hx Hx'. apply elem_of_concat_inv in Hx as (j & lm' & Hj & Hx).
    destruct (lookup_lt_is_Some_2 K j) as [m' Hm'].
    { rewrite Hlen. by eapply lookup_lt_Some. }
    destruct (Hsubs j m' lm' Hm' Hj) as (_ & Hm & _).
    apply (Hdisj m' (Z.of_nat x)).
    + by eapply list_elem_of_lookup_2.
    + by apply Hm.
    + by apply Hmem1.
  - (* visited *)
    intros x [->|(m' & [Hm' | ->%list_elem_of_singleton]%elem_of_app & Hs)].
    + by exists (set_kids ndn ks).
    + apply Hmono, Hvis. right. by exists m'.
    + destruct (Hvis1 x Hs) as (nd & Hrd & Hn). exists nd.
      by rewrite (Hrd2 x (Hnotn x Hs)).
  - (* not yet touched *)
    intros x Hs Hxn Hno. rewrite (Hrd2 x Hxn), Hfr1.
    + apply Hunt; [done..|]. intros m' Hm'. apply Hno, elem_of_app. by left.
    + apply Hno, elem_of_app. right. left.
  - (* outside *)
    intros x Hns.
    assert (Hxn : x <> n).
    { intros ->. apply Hns, side_refl. }
    rewrite (Hrd2 x Hxn), Hfr1; [by apply Hfr|].
    intros Hs. by apply Hns, Hsub.
  - rewrite length_app. simpl length. rewrite fmap_cons in Hcnt.
    simpl fst in Hcnt. rewrite count_bits_cons_set in Hcnt by done. lia.
  - intros m'' Hg.
    destruct (Hall m'' Hg) as [?|[?|(bit' & d' & Hin & Hb & ->)]]; [by left|..].
    + right. left. apply elem_of_app. by left.
    + apply elem_of_cons in Hin as [[= -> ->]|Hin].
      * right. left. apply elem_of_app. right. left.
      * right. right. by exists bit', d'.
Qed.

(** Finding a neighbour visited. *)
Lemma probe_skip ds nodes K subs bit d :
  pinv ((bit, d) :: ds) nodes K subs ->
  Z.land (Node.exits nd0) bit <> 0 -> G n (n + d) -> vis nodes (n + d) ->
  pinv ds nodes K subs.
Proof.
  intros HP Hbit Hnm Hv.
  pose proof (visited_neighbour _ _ _ _ _ HP Hnm Hv) as Hpk.
  destruct HP as (Hinv & Hn & HK & Hlen & Hsubs & Hnd
                  & Hvis & Hunt & Hfr & Hcnt & Hall).
  split; [done|]. split; [done|]. split; [done|]. split; [done|].
  split; [done|]. split; [done|]. split; [done|]. split; [done|].
  split; [done|]. split.
  - rewrite fmap_cons in Hcnt. simpl fst in Hcnt.
    rewrite count_bits_cons_set in Hcnt by done. lia.
  - intros m Hg.
    destruct (Hall m Hg) as [?|[?|(bit' & d' & Hin & Hb & ->)]];
      [by left|by right; left|].
    apply elem_of_cons in Hin as [[= -> ->]|Hin].
    + destruct Hpk; [by left|by right; left].
    + right. right. by exists bit', d'.
Qed.

(** A direction without an exit. *)
Lemma probe_clear ds nodes K subs bit d :
  pinv ((bit, d) :: ds) nodes K subs ->
  ~ Z.land (Node.exits nd0) bit <> 0 ->
  pinv ds nodes K subs.
Proof.
  intros HP Hbit.
  destruct HP as (Hinv & Hn & HK & Hlen & Hsubs & Hnd
                  & Hvis & Hunt & Hfr & Hcnt & Hall).
  split; [done|]. split; [done|]. split; [done|]. split; [done|].
  split; [done|]. split; [done|]. split; [done|]. split; [done|].
  split; [done|]. split.
  - rewrite fmap_cons in Hcnt. simpl fst in Hcnt.
    rewrite count_bits_cons_clear in Hcnt by done. lia.
  - intros m Hg.
    destruct (Hall m Hg) as [?|[?|(bit' & d' & Hin & Hb & ->)]];
      [by left|by right; left|].
    apply elem_of_cons in Hin as [[= -> ->]|Hin]; [done|].
    right. right. by exists bit', d'.
Qed.

Lemma probe_cons bit d ds nodes nk :
  probe rec n (Node.exits nd0) ((bit, d) :: ds) nodes nk =
    if decide (Z.land (Node.exits nd0) bit <> 0) then
      '(nodes1, r) ← rec nodes (n + d);
      if (r : bool) then
        nd ← rd nodes1 n;
        ks ← set_kid (Node.kids nd) nk (Z.to_nat (n + d));
        nodes2 ← wr nodes1 n (set_kids nd ks);
        probe rec n (Node.exits nd0) ds nodes2 (nk + 1)
      else probe rec n (Node.exits nd0) ds nodes1 nk
    else probe rec n (Node.exits nd0) ds nodes nk.
Proof. reflexivity. Qed.

(** The eight probes. *)
Lemma probe_spec : forall ds nodes K subs,
  (forall bit d, (bit, d) ∈ ds -> Z.land (Node.exits nd0) bit <> 0 ->
     G n (n + d)) ->
  pinv ds nodes K subs ->
  exists nodes' K' subs',
    probe rec n (Node.exits nd0) ds nodes (Z.of_nat (length K))
      = Some (nodes', Z.of_nat (length K')) /\
    pinv [] nodes' K' subs'.
Proof.
  induction ds as [|[bit d] ds IH]; intros nodes K subs Hds HP.
  - by exists nodes, K, subs.
  - assert (Hds' : forall bit d, (bit, d) ∈ ds ->
              Z.land (Node.exits nd0) bit <> 0 -> G n (n + d)).
    { intros bit' d' Hin. apply Hds. by right. }
    rewrite probe_cons. case_decide as Hbit.
    + assert (Hnm : G n (n + d)) by (apply (Hds bit d); [left|done]).
      pose proof HP as (Hinv & _).
      destruct (marking_is_Some nodes (n + d) Hinv) as [ndm Hm].
      { by destruct (G_range n (n + d) Hnm). }
      destruct (decide (Node.exits ndm < 0)) as [Hneg|Hnn].
      * assert (Hv : vis nodes (n + d)) by (by exists ndm).
        rewrite (Hrec_vis nodes (n + d) Hinv Hv). bind_ok.
        apply (IH nodes K subs); [exact Hds'|]. by apply (probe_skip ds nodes K subs bit d).
      * assert (Hnv : ~ vis nodes (n + d)).
        { intros (nd' & Hrd' & Hneg'). congruence. }
        destruct (probe_enter ds nodes K subs bit d HP Hbit Hnm Hnv)
          as (nodes1 & lm & ndn & ks & nodes2 & Hrec & Hn1 & Hks & Hwr & HP2).
        rewrite Hrec. bind_ok. rewrite Hn1. bind_ok. rewrite Hks. bind_ok.
        rewrite Hwr. bind_ok.
        replace (Z.of_nat (length K) + 1) with (Z.of_nat (length (K ++ [n + d])))
          by (rewrite length_app, Nat2Z.inj_add; reflexivity).
        apply (IH nodes2 (K ++ [n + d]) (subs ++ [lm])); [exact Hds'|exact HP2].
    + apply (IH nodes K subs); [exact Hds'|].
      apply (probe_clear ds nodes K subs bit d); [done|]. intros H. by apply H.
Qed.

End Probe.

Lemma build_tree_builds : forall fuel,
  builds n_rows nodes0 fuel (build_tree fuel n_rows).
Proof.
  induction fuel as [|f IH]; intros nodes p n L Hinv Hunt [nd0 Hn0] Hp HL Hlt.
  { simpl in Hlt. lia. }
  assert (Hn : rd nodes n = Some nd0).
  { rewrite Hunt; [done|]. apply side_refl. }
  pose proof (H256 n nd0 Hn0) as Hr.
  destruct (small_exits _ Hr) as (Hnv & Hmk & Hv & Hbits).
  rewrite build_tree_S, Hn. bind_ok. rewrite decide_False by done.
  pose proof (rd_Some_range _ _ _ Hn) as Hnr.
  rewrite (wr_is_Some nodes n _ Hnr). bind_ok.
  set (nodesE := <[Z.to_nat n := Node.set_exits nd0 (mark (Node.exits nd0))]> nodes).
  assert (HwrE : wr nodes n (Node.set_exits nd0 (mark (Node.exits nd0)))
                 = Some nodesE) by (by apply wr_is_Some).
  assert (HrdEn : rd nodesE n = Some (Node.set_exits nd0 (mark (Node.exits nd0))))
    by (by eapply rd_wr_eq).
  assert (HrdE : forall x, x <> n -> rd nodesE x = rd nodes x).
  { intros x Hx. by eapply rd_wr_ne. }
  assert (HnL : n ∈ L) by apply HL, side_refl.
  assert (Hf1 : exists f', f = S f').
  { destruct f as [|f']; [|by exists f'].
    destruct L; [by apply elem_of_nil in HnL|simpl in Hlt; lia]. }
  destruct Hf1 as [f' ->].
  destruct (probe_spec (S f') (build_tree (S f') n_rows)
              (build_tree_visited f') IH nodes p n L nd0 Hunt Hp HL
              ltac:(lia) (dirs n_rows) nodesE [] [])
    as (nodes' & K & subs & Hprobe & HP).
  { intros bit d Hin Hbit. exists nd0, bit, d. done. }
  { split; [|split; [|split; [|split; [|split; [|split; [|split; [|split;
      [|split; [|split]]]]]]]]].
    - split.
      { unfold nodesE. rewrite length_insert. by destruct Hinv. }
      intros x nd Hrd. destruct (decide (x = n)) as [->|Hxn].
      + rewrite HrdEn in Hrd. injection Hrd as <-. right. by exists nd0.
      + rewrite (HrdE x Hxn) in Hrd. by apply Hinv.
    - eexists. split; [exact HrdEn|]. simpl. split; [lia|done].
    - intros m Hm. by apply elem_of_nil in Hm.
    - done.
    - intros j m lm Hj. by rewrite lookup_nil in Hj.
    - constructor.
    - intros x [->|(m & Hm & _)]; [|by apply elem_of_nil in Hm].
      eexists. split; [exact HrdEn|]. simpl. lia.
    - intros x Hs Hxn _. rewrite (HrdE x Hxn). by apply Hunt.
    - intros x Hns. apply HrdE. intros ->. apply Hns, side_refl.
    - simpl length. rewrite count_bits_dirs. apply (H6 n nd0 Hn0).
    - intros m (nd & bit & d & Hrd & Hin & Hbit & ->).
      rewrite Hn0 in Hrd. injection Hrd as <-. right. right. by exists bit, d. }
  simpl length in Hprobe. change (Z.of_nat 0) with 0 in Hprobe.
  rewrite Hprobe. bind_ok.
  destruct HP as (Hinv' & (ndn & Hrdn & Hneg & Htake) & HK & Hlen & Hsubs & Hnd
                  & Hvis & Hunt' & Hfr & Hcnt & Hall).
  rewrite Hrdn. bind_ok.
  pose proof (rd_Some_range _ _ _ Hrdn) as Hnr'.
  rewrite (wr_is_Some nodes' n _ Hnr'). bind_ok.
  set (nodesF := <[Z.to_nat n := set_n_kids ndn (Z.of_nat (length K))]> nodes').
  assert (HwrF : wr nodes' n (set_n_kids ndn (Z.of_nat (length K)))
                 = Some nodesF) by (by apply wr_is_Some).
  assert (HrdFn : rd nodesF n = Some (set_n_kids ndn (Z.of_nat (length K))))
    by (by eapply rd_wr_eq).
  assert (HrdF : forall x, x <> n -> rd nodesF x = rd nodes' x).
  { intros x Hx. by eapply rd_wr_ne. }
  assert (Hkid : forall m, G n m -> m <> p -> m ∈ K).
  { intros m Hg Hmp.
    destruct (Hall m Hg) as [?|[?|(bit & d & Hin & _)]]; [done|done|].
    by apply elem_of_nil in Hin. }
  assert (HagF : forall m (x : nat), m ∈ K -> side G n m (Z.of_nat x) ->
            nodesF !! x = nodes' !! x).
  { intros m x Hm Hs. rewrite <- !rd_lookup. apply HrdF.
    destruct (HK m Hm) as [Hg _].
    apply (side_not_end G Hbr n m); [by left|done]. }
  assert (Hn0' : 0 <= n) by lia.
  assert (HchF : Tree.children nodesF (Z.to_nat n) = Z.to_nat <$> K).
  { unfold Tree.children. rewrite (rd_to_nat _ _ _ HrdFn). simpl.
    by rewrite Nat2Z.id, Htake. }
  assert (HparF : forall m, G n m ->
            m = p \/ Z.to_nat m ∈ Tree.children nodesF (Z.to_nat n)).
  { intros m Hg. destruct (decide (m = p)) as [|Hmp]; [by left|]. right.
    rewrite HchF. apply list_elem_of_fmap. exists m. split; [done|].
    by apply Hkid. }
  exists nodesF, (Z.to_nat n :: concat subs).
  split; [done|].
  split; [|split; [|split; [|split; [|split; [|split; [|split; [|split]]]]]]].
  - (* marking *)
    split.
    { unfold nodesF. rewrite length_insert. by destruct Hinv'. }
    intros x nd Hrd. destruct (decide (x = n)) as [->|Hxn].
    + rewrite HrdFn in Hrd. injection Hrd as <-.
      destruct (marking_marked nodes' n ndn Hinv' Hrdn Hneg) as [_ (nd' & H0 & E)].
      right. by exists nd'.
    + rewrite (HrdF x Hxn) in Hrd. by apply Hinv'.
  - (* outside *)
    intros x Hns.
    assert (Hxn : x <> n).
    { intros ->. apply Hns, side_refl. }
    by rewrite (HrdF x Hxn), (Hfr x Hns).
  - (* visited *)
    intros x Hs.
    destruct (side_cover G Hbr p n x Hs) as [->|(m & Hsc & Hmp & Hsm)].
    + eexists. split; [exact HrdFn|]. done.
    + assert (Hxn : x <> n) by (by apply (side_not_end G Hbr n m)).
      destruct (Hvis x) as (nd & Hrd & Hn').
      { right. exists m. split; [|done]. apply Hkid; [by apply G_sc|done]. }
      exists nd. by rewrite (HrdF x Hxn).
  - (* the tree below *)
    change (Tree.subtree (S (S f')) nodesF (Z.to_nat n)) with
      (nd ← nodesF !! Z.to_nat n;
       if decide (0 <= Node.n_kids nd <= Z.of_nat (length (Node.kids nd))) then
         subs ← mapM (Tree.subtree (S f') nodesF)
                     (take (Z.to_nat (Node.n_kids nd)) (Node.kids nd));
         Some (Z.to_nat n :: concat subs)
       else None).
    rewrite (rd_to_nat _ _ _ HrdFn). bind_ok. simpl Node.n_kids. simpl Node.kids.
    assert (Hlk : (length K <= length (Node.kids ndn))%nat).
    { apply (f_equal length) in Htake.
      rewrite length_take, length_fmap in Htake. lia. }
    rewrite decide_True by lia. rewrite Nat2Z.id, Htake.
    erewrite mapM_Some_2; [done|].
    apply Forall2_same_length_lookup_2; [by rewrite length_fmap|].
    intros j c lm Hj Hj'. rewrite list_lookup_fmap in Hj.
    destruct (K !! j) as [m|] eqn:HKj; [|done]. injection Hj as <-.
    destruct (Hsubs j m lm HKj Hj') as (Hs & Hm & _).
    apply (subtree_agree (S f') nodes'); [|done].
    intros x Hx. apply (HagF m); [by eapply list_elem_of_lookup_2|by apply Hm].
  - (* no node twice *)
    constructor; [|done]. intros Hin.
    apply elem_of_concat_inv in Hin as (j & lm & Hj & Hx).
    destruct (lookup_lt_is_Some_2 K j) as [m HKj].
    { rewrite Hlen. by eapply lookup_lt_Some. }
    destruct (Hsubs j m lm HKj Hj) as (_ & Hm & _).
    apply Hm in Hx. rewrite Z2Nat.id in Hx by done.
    destruct (HK m (list_elem_of_lookup_2 _ _ _ HKj)) as [Hg _].
    apply (side_not_end G Hbr n m n); [by left|done|done].
  - (* the nodes of the tree *)
    intros x. rewrite elem_of_cons. split.
    + intros [->|Hin].
      * rewrite Z2Nat.id by done. apply side_refl.
      * apply elem_of_concat_inv in Hin as (j & lm & Hj & Hx).
        destruct (lookup_lt_is_Some_2 K j) as [m HKj].
        { rewrite Hlen. by eapply lookup_lt_Some. }
        destruct (Hsubs j m lm HKj Hj) as (_ & Hm & _).
        destruct (HK m (list_elem_of_lookup_2 _ _ _ HKj)) as [Hg Hmp].
        apply (side_sub G Hbr p n m); [by left|done|by apply Hm].
    + intros Hs.
      destruct (side_cover G Hbr p n _ Hs) as [E|(m & Hsc & Hmp & Hsm)].
      * left. lia.
      * right. assert (HmK : m ∈ K) by (apply Hkid; [by apply G_sc|done]).
        apply list_elem_of_lookup_1 in HmK as [j HKj].
        destruct (lookup_lt_is_Some_2 subs j) as [lm Hj].
        { rewrite <- Hlen. by eapply lookup_lt_Some. }
        destruct (Hsubs j m lm HKj Hj) as (_ & Hm & _).
        eapply elem_of_concat_lookup; [exact Hj|]. by apply Hm.
  - (* kids are neighbours *)
    intros x c [->|Hin]%elem_of_cons Hc.
    + rewrite HchF in Hc.
      apply list_elem_of_fmap in Hc as (m & -> & Hm).
      destruct (HK m Hm) as [Hg _].
      destruct (G_range n m Hg) as [_ [ndm Hrm]].
      pose proof (rd_Some_range _ _ _ Hrm). rewrite !Z2Nat.id by lia. done.
    + apply elem_of_concat_inv in Hin as (j & lm & Hj & Hx).
      destruct (lookup_lt_is_Some_2 K j) as [m HKj].
      { rewrite Hlen. by eapply lookup_lt_Some. }
      destruct (Hsubs j m lm HKj Hj) as (_ & Hm & Hch).
      apply Hch; [done|].
      rewrite <- (children_agree nodes' nodesF x); [done|].
      apply (HagF m); [by eapply list_elem_of_lookup_2|by apply Hm].
  - done.
  - (* the one neighbour that is not a kid *)
    intros x [->|Hin]%elem_of_cons.
    + exists p. intros m Hg. rewrite Z2Nat.id in Hg by done. by apply HparF.
    + apply elem_of_concat_inv in Hin as (j & lm & Hj & Hx).
      destruct (lookup_lt_is_Some_2 K j) as [m HKj].
      { rewrite Hlen. by eapply lookup_lt_Some. }
      destruct (Hsubs j m lm HKj Hj) as (_ & Hm & _ & Hpa).
      destruct (Hpa x Hx) as [px Hpx]. exists px. intros m' Hg.
      rewrite (children_agree nodes' nodesF x); [by apply Hpx|].
      apply (HagF m); [by eapply list_elem_of_lookup_2|by apply Hm].
Qed.

End Build.

(** * The tree of the whole maze *)

Lemma connected_end (R : relation Z) a x :
  connected R a x -> x = a \/ exists y, sc R y x.
Proof.
  unfold connected, rtsc. revert x.
  apply rtc_ind_r; [by left|]. intros y z _ Hyz _. right. by exists y.
Qed.

(** [build_tree] on the root of a maze none of whose [N] nodes is
    visited, when the exits make a tree of the cells. *)
Lemma build_tree_root n_rows nodes0 N r fuel :
  Z.of_nat (length nodes0) = N -> 0 <= r < N ->
  (forall a nd, rd nodes0 a = Some nd -> 0 <= Node.exits nd < 256) ->
  (forall a nd, rd nodes0 a = Some nd -> (n_exits (Node.exits nd) <= 6)%nat) ->
  (forall a b, exit_rel n_rows nodes0 a b -> exit_rel n_rows nodes0 b a) ->
  all_bridges (exit_rel n_rows nodes0) ->
  connected_graph N (exit_rel n_rows nodes0) ->
  (Z.to_nat N < fuel)%nat ->
  exists nodes' l,
    build_tree fuel n_rows nodes0 r = Some (nodes', true) /\
    marking nodes0 nodes' /\
    (forall x, 0 <= x < N -> vis nodes' x) /\
    Tree.subtree fuel nodes' (Z.to_nat r) = Some l /\ NoDup l /\
    (forall x : nat, x ∈ l <-> Z.of_nat x < N) /\
    (forall x c, x ∈ l -> c ∈ Tree.children nodes' x ->
       exit_rel n_rows nodes0 (Z.of_nat x) (Z.of_nat c)) /\
    (forall m, exit_rel n_rows nodes0 r m ->
       Z.to_nat m ∈ Tree.children nodes' (Z.to_nat r)) /\
    (forall x, x ∈ l -> exists px, forall m,
       exit_rel n_rows nodes0 (Z.of_nat x) m ->
       m = px \/ Z.to_nat m ∈ Tree.children nodes' x).
Proof.
  intros Hlen Hr H256 H6 Hsym Hbr Hconn Hf.
  set (G := exit_rel n_rows nodes0) in *.
  assert (Hrange : forall a b, G a b -> 0 <= b < N).
  { intros a b Hab. destruct (G_range n_rows nodes0 Hsym a b Hab) as [_ [nd Hb]].
    apply rd_Some_range in Hb. lia. }
  assert (Hside : forall x, side G r r x <-> 0 <= x < N).
  { intros x. split.
    - intros Hs. apply connected_end in Hs as [->|[y Hy]]; [done|].
      assert (Hyx : sc G y x).
      { destruct Hy as [(H & _)|(H & _)]; [done|by symmetry]. }
      apply (G_sc n_rows nodes0 Hsym) in Hyx. by eapply Hrange.
    - intros Hx. eapply connected_mono; [|by apply (Hconn r x)].
      intros u v Huv. apply rtsc_lr. split; [by left|].
      split; intros [-> ->]; by apply (bridge_irrefl G Hbr r). }
  destruct (build_tree_builds n_rows nodes0 H256 H6 Hsym Hbr fuel nodes0 r r
              (Z.of_nat <$> seq 0 (Z.to_nat N)))
    as (nodes' & l & Hb & Hm & _ & Hv & Hs & Hnd & Hmem & Hch & Hpr & Hpa).
  - split; [done|]. intros x nd Hrd. by left.
  - done.
  - apply rd_is_Some. lia.
  - intros Hrr. by apply (bridge_irrefl G Hbr r) in Hrr.
  - intros x Hx%Hside. apply list_elem_of_fmap. exists (Z.to_nat x).
    split; [lia|]. apply elem_of_seq. lia.
  - by rewrite length_fmap, length_seq.
  - exists nodes', l. split; [done|]. split; [done|]. split.
    { intros x Hx. by apply Hv, Hside. }
    split; [done|]. split; [done|]. split; [|split; [done|split; [|done]]].
    + intros x. split.
      * intros Hx. apply Hmem in Hx. apply Hside in Hx. lia.
      * intros Hx. apply Hmem, Hside. lia.
    + intros m Hg. destruct (Hpr m Hg) as [->|?]; [|done].
      by apply (bridge_irrefl G Hbr r) in Hg.
Qed.

(** * The ends of the longest path *)

Lemma ends_ok_weaken nodes l l' n :
  (forall x, x ∈ l -> x ∈ l') -> ends_ok nodes l n -> ends_ok nodes l' n.
Proof.
  intros Hsub (Hd & (a & Ha & Hal & Hac) & (b & Hb & Hbl & Hbc)
               & (c & Hc & Hcl & Hcc) & Hne).
  split; [done|]. split; [exists a; auto|]. split; [exists b; auto|].
  split; [exists c; auto|]. done.
Qed.

Lemma tree_ends fuel : forall nodes n l,
  Tree.subtree fuel nodes n = Some l -> NoDup l ->
  (forall x, x ∈ l -> Tree.actual_rule nodes x) ->
  ends_ok nodes l n.
Proof.
  induction fuel as [|f IH]; intros nodes n l Hs Hnd Hrule; [done|].
  pose proof Hs as (f' & nd & subs & [= <-] & Hn & Hk & Hsubs & ->)%subtree_inv.
  apply NoDup_cons in Hnd as [Hnl Hnd].
  remember (Tree.children nodes n) as K eqn:HK.
  assert (Hchild : forall c, c ∈ K ->
            exists j lm, K !! j = Some c /\ subs !! j = Some lm /\
              c ∈ lm /\ ends_ok nodes lm c).
  { intros c Hc. apply list_elem_of_lookup_1 in Hc as [j Hj].
    destruct (Forall2_lookup_l _ _ _ _ _ Hsubs Hj) as (lm & Hlm & Hsub).
    exists j, lm. split; [done|]. split; [done|].
    split; [by eapply subtree_head|].
    apply (IH nodes c lm Hsub).
    - by eapply NoDup_concat_lookup.
    - intros x Hx. apply Hrule. right. by eapply elem_of_concat_lookup. }
  assert (Hin : forall j lm x, subs !! j = Some lm -> x ∈ lm ->
            x ∈ n :: concat subs).
  { intros j lm x Hj Hx. right. by eapply elem_of_concat_lookup. }
  assert (Hnotn : forall j lm x, subs !! j = Some lm -> x ∈ lm -> x <> n).
  { intros j lm x Hj Hx ->. apply Hnl. by eapply elem_of_concat_lookup. }
  assert (Hleaf : forall c, c ∈ K -> Tree.children nodes c = [] ->
            Tree.len nodes c = 0).
  { intros c Hc Hcc. destruct (Hchild c Hc) as (j & lm & _ & Hj & Hclm & _).
    pose proof (Hrule c (Hin j lm c Hj Hclm)) as Hr.
    unfold Tree.actual_rule in Hr. rewrite Hcc in Hr. by destruct Hr as (_ & ? & _). }
  pose proof (Hrule n ltac:(left)) as Hr. unfold Tree.actual_rule in Hr.
  rewrite <- HK in Hr. destruct K as [|c0 [|c0' K']].
  - (* a leaf *)
    destruct Hr as (Hd & Hl & Hf & Hs' & Hfar).
    split; [lia|]. split; [exists n; split; [done|]; split; [left|done]|].
    split; [exists n; split; [done|]; split; [left|done]|].
    split; [exists n; split; [done|]; split; [left|by left]|]. done.
  - (* one child *)
    destruct (Hchild c0 ltac:(left)) as (j & lm & Hj & Hlm & Hc0 & Ec).
    destruct Ec as (Hdc & (a & Ha & Hal & Hac) & (b & Hb & Hbl & Hbc)
                    & (c & Hc & Hcl & Hcc) & Hnec).
    destruct Hr as (Hd & Hfar & Hr).
    split; [|split; [|split; [|split]]].
    + case_decide; destruct Hr as (Hl & _); lia.
    + exists a. rewrite Hfar. eauto.
    + case_decide; destruct Hr as (_ & Hf & _).
      * exists a. rewrite Hf. eauto.
      * exists b. rewrite Hf. eauto.
    + case_decide as Hlt; destruct Hr as (Hl & _ & Hs').
      * exists n. split; [done|]. split; [left|]. right.
        split; [done|]. split; [lia|]. by exists c0.
      * exists c. rewrite Hs'. split; [done|]. split; [eauto|].
        destruct Hcc as [?|(-> & Hlc & _)]; [by left|lia].
    + intros _. split; [|lia].
      case_decide as Hlt; destruct Hr as (Hl & Hf & Hs').
      * rewrite Hf, Hs', Ha. intros [= E]. by apply (Hnotn j lm a Hlm Hal).
      * rewrite Hf, Hs'. apply Hnec. intros Hcc0.
        pose proof (Hleaf c0 ltac:(left) Hcc0). lia.
  - (* two children or more *)
    unfold Tree.internal_rule in Hr. cbv zeta in Hr. rewrite <- HK in Hr.
    destruct Hr as (c1 & c2 & cl & Hc1 & Hc2 & Hcl & Hne12 & Hmax1 & Hmax2
                    & Hmaxl & Hd & Hfar & Hr).
    set (kk := Z.of_nat (length (c0 :: c0' :: K'))) in *.
    assert (Hkk : 2 <= kk) by (unfold kk; simpl; lia).
    destruct (Hchild c1 Hc1) as (j1 & lm1 & Hj1 & Hlm1 & Hc1m & E1).
    destruct (Hchild c2 Hc2) as (j2 & lm2 & Hj2 & Hlm2 & Hc2m & E2).
    destruct (Hchild cl Hcl) as (jl & lml & Hjl & Hlml & Hclm & El).
    destruct E1 as (Hd1 & (a1 & Ha1 & Hal1 & Hac1) & _).
    destruct E2 as (Hd2 & (a2 & Ha2 & Hal2 & Hac2) & _).
    destruct El as (Hdl & _ & (b & Hb & Hbl & Hbc) & (c & Hc & Hcl' & Hcc) & Hnel).
    pose proof (Hmax1 cl Hcl) as Hm1.
    split; [|split; [|split; [|split]]].
    + case_decide; destruct Hr as (Hl & _); lia.
    + exists a1. rewrite Hfar. eauto.
    + case_decide; destruct Hr as (_ & Hf & _).
      * exists a1. rewrite Hf. eauto.
      * exists b. rewrite Hf. eauto.
    + case_decide as Hlt; destruct Hr as (Hl & _ & Hs').
      * exists a2. rewrite Hs'. split; [done|]. split; [eauto|]. by left.
      * exists c. rewrite Hs'. split; [done|]. split; [eauto|].
        destruct Hcc as [?|(-> & Hlc & _)]; [by left|lia].
    + intros _. split; [|lia].
      case_decide as Hlt; destruct Hr as (Hl & Hf & Hs').
      * rewrite Hf, Hs', Ha1, Ha2. intros [= ->].
        assert (Hj12 : j1 <> j2) by (intros ->; congruence).
        by apply (NoDup_concat_disjoint subs Hnd j1 j2 lm1 lm2 a2).
      * rewrite Hf, Hs'. apply Hnel. intros Hcc0.
        pose proof (Hleaf cl Hcl Hcc0). lia.
Qed.

(** * [analyse_tree] leaves the bitmaps alone *)

Ltac bind_inv H :=
  repeat match type of H with
  | mbind _ ?x = Some _ =>
      let E := fresh "E" in
      destruct x eqn:E; [rewrite bind_Some in H; cbv beta iota in H|discriminate H]
  end.

Lemma upd_exits nodes n f nodes' :
  Tree.upd nodes n f = Some nodes' ->
  (forall nd, Node.exits (f nd) = Node.exits nd) ->
  Node.exits <$> nodes' = Node.exits <$> nodes.
Proof.
  unfold Tree.upd. intros H Hf. bind_inv H. injection H as <-.
  rewrite list_fmap_insert. apply list_insert_id.
  by rewrite list_lookup_fmap, E, Hf.
Qed.

Lemma set_leaf_exits nodes n nodes' :
  Tree.set_leaf nodes n = Some nodes' ->
  Node.exits <$> nodes' = Node.exits <$> nodes.
Proof.
  unfold Tree.set_leaf. intros H. bind_inv H.
  apply upd_exits in E, E0, E1, E2, H; try done. congruence.
Qed.

Lemma set_inner_exits nodes n a nodes' :
  Tree.set_inner nodes n a = Some nodes' ->
  Node.exits <$> nodes' = Node.exits <$> nodes.
Proof.
  unfold Tree.set_inner. intros H. bind_inv H.
  apply upd_exits in E0; [|done]. apply upd_exits in E3; [|done].
  case_decide.
  - bind_inv H. apply upd_exits in E4; [|done]. apply upd_exits in E6; [|done].
    destruct (Tree.dn2 a).
    + bind_inv H. apply upd_exits in H; [|done]. congruence.
    + apply upd_exits in H; [|done]. congruence.
  - bind_inv H. apply upd_exits in E4; [|done]. apply upd_exits in E7; [|done].
    apply upd_exits in H; [|done]. congruence.
Qed.

Lemma kid_loop_exits rec n :
  (forall nodes m nodes', rec nodes m = Some nodes' ->
     Node.exits <$> nodes' = Node.exits <$> nodes) ->
  forall i nodes a nodes' a',
  Tree.kid_loop rec n i nodes a = Some (nodes', a') ->
  Node.exits <$> nodes' = Node.exits <$> nodes.
Proof.
  intros Hrec. induction i as [|i IH]; intros nodes a nodes' a' H.
  - simpl in H. by injection H as <- <-.
  - simpl in H. bind_inv H. apply IH in H. apply Hrec in E1. congruence.
Qed.

Lemma analyse_tree_exits fuel : forall nodes n nodes',
  Tree.analyse_tree fuel nodes n = Some nodes' ->
  Node.exits <$> nodes' = Node.exits <$> nodes.
Proof.
  induction fuel as [|f IH]; intros nodes n nodes' H; [done|].
  simpl in H. bind_inv H. case_decide.
  - by eapply set_leaf_exits.
  - destruct (Tree.kid_loop _ _ _ _ _) as [[nodes1 a]|] eqn:Hk; [|done].
    rewrite bind_Some in H. cbv beta iota in H.
    apply (kid_loop_exits _ _ IH) in Hk. apply set_inner_exits in H. congruence.
Qed.

(** * From the maze to its tree *)

Lemma cell_coords m n a :
  1 <= n -> 0 <= a < n * m ->
  in_grid m n (a / n) (a mod n) /\ a = cell_no n (a / n) (a mod n).
Proof.
  intros Hn Ha. pose proof (Z.div_mod a n ltac:(lia)) as Hdm.
  pose proof (Z.mod_pos_bound a n ltac:(lia)) as Hmod.
  assert (0 <= a / n) by (apply Z.div_pos; lia).
  assert (a / n < m) by (apply Z.div_lt_upper_bound; lia).
  unfold in_grid, cell_no. lia.
Qed.

Lemma n_exits_le_6 e b1 b2 :
  (b1 = 64 /\ b2 = 128) \/ (b1 = 4 /\ b2 = 8) ->
  Z.land e b1 = 0 -> Z.land e b2 = 0 -> (n_exits e <= 6)%nat.
Proof.
  intros Hb H1 H2. unfold n_exits. rewrite !filter_cons, !filter_nil.
  destruct Hb as [[-> ->]|[-> ->]]; repeat case_decide; simpl; try lia; done.
Qed.

Lemma geo_cell m n nodes E a nd :
  1 <= n -> exits_geo m n nodes E -> 0 <= a < n * m ->
  rd nodes a = Some nd ->
  0 <= Node.exits nd < 256 /\ (n_exits (Node.exits nd) <= 6)%nat.
Proof.
  intros Hn Hgeo Ha Hrd.
  destruct (cell_coords m n a Hn Ha) as [Hg Ea].
  destruct (Hgeo _ _ Hg) as (nd' & Hrd' & Hr & Hbits).
  rewrite <- Ea, Hrd in Hrd'. injection Hrd' as <-. split; [done|].
  set (k := a / n) in *. set (l := a mod n) in *.
  assert (Hclear : forall bit dk dl, (bit, (dk, dl)) ∈ geo ->
            ~ neighbour k l (k + dk) (l + dl) -> Z.land (Node.exits nd) bit = 0).
  { intros bit dk dl Hin Hnn.
    destruct (decide (Z.land (Node.exits nd) bit = 0)) as [|Hne]; [done|].
    apply (Hbits bit dk dl Hin) in Hne as (_ & Hnb & _). done. }
  pose proof (land_1 k) as Hpar.
  pose proof (Z.mod_pos_bound k 2 ltac:(lia)) as Hmod.
  destruct (decide (Z.land k 1 = 0)) as [Hev|Hodd].
  - apply (n_exits_le_6 _ 64 128); [by left|..].
    + apply (Hclear LUp (-1) 1).
      * unfold geo. rewrite !elem_of_cons. tauto.
      * unfold neighbour. lia.
    + apply (Hclear RUp 1 1).
      * unfold geo. rewrite !elem_of_cons. tauto.
      * unfold neighbour. lia.
  - apply (n_exits_le_6 _ 4 8); [by right|..].
    + apply (Hclear LDown (-1) (-1)).
      * unfold geo. rewrite !elem_of_cons. tauto.
      * unfold neighbour. lia.
    + apply (Hclear RDown 1 (-1)).
      * unfold geo. rewrite !elem_of_cons. tauto.
      * unfold neighbour. lia.
Qed.

Lemma all_bridges_iff (R R' : relation Z) :
  (forall x y, R x y <-> R' x y) -> all_bridges R -> all_bridges R'.
Proof.
  intros Hiff Hbr a b Hab Hc. apply (Hbr a b); [by apply Hiff|].
  eapply connected_mono; [|exact Hc].
  intros x y (Hxy & H1 & H2). apply rtsc_lr. split; [|done].
  destruct Hxy as [?|?]; [left|right]; by apply Hiff.
Qed.

Section Run.
Context {rng : Type} (Random : rng -> Z * rng).

(** The whole run, phase by phase. *)
Lemma run_spec fuel m n g :
  2 <= m <= 1000 -> 2 <= n <= 1000 -> (Z.to_nat (3 * m * n) <= fuel)%nat ->
  exists st q E nodes1 nodes2 l start finish,
    make_maze Random fuel m n g = Some (st, q) /\
    (Z.of_nat (length (nodes st)) = m * n /\
     exits_inv n (nodes st) E /\ exits_geo m n (nodes st) E /\
     simple_edges E /\ Z.of_nat (length E) = m * n - 1 /\
     (forall lo hi, (lo, hi) ∈ E -> wall_at m n lo hi)) /\
    (build_tree fuel n (nodes st) 0 = Some (nodes1, true) /\
     marking (nodes st) nodes1 /\
     (forall x, 0 <= x < m * n -> vis nodes1 x)) /\
    (Tree.subtree fuel nodes1 0 = Some l /\ NoDup l /\
     (forall x : nat, x ∈ l <-> Z.of_nat x < m * n) /\
     (forall x c, x ∈ l -> c ∈ Tree.children nodes1 x ->
        exit_rel n (nodes st) (Z.of_nat x) (Z.of_nat c)) /\
     (forall c, exit_rel n (nodes st) 0 c ->
        Z.to_nat c ∈ Tree.children nodes1 0) /\
     (forall x, x ∈ l -> exists px, forall c,
        exit_rel n (nodes st) (Z.of_nat x) c ->
        c = px \/ Z.to_nat c ∈ Tree.children nodes1 x)) /\
    (Tree.analyse_tree fuel nodes1 0 = Some nodes2 /\
     Tree.shape <$> nodes2 = Tree.shape <$> nodes1 /\
     Node.exits <$> nodes2 = Node.exits <$> nodes1 /\
     (forall x, x ∈ l -> Tree.actual_rule nodes2 x) /\
     ends_ok nodes2 l 0) /\
    Tree.fst_end nodes2 0 = Some start /\
    Tree.snd_end nodes2 0 = Some finish /\
    run Random fuel m n g =
      Some (Maze (cells st) nodes2 (walls st) (first_wall st), start, finish).
Proof.
  intros Hm Hn Hf.
  destruct (make_maze_geo Random fuel m n g Hm Hn Hf)
    as (st & q & E & Hmk & Hlen & HlE & Hsim & HE & Hex & Hgeo & Hconn & Hbr).
  pose proof Hex as [Hrel _].
  assert (Hcell : forall a nd, rd (nodes st) a = Some nd ->
            0 <= Node.exits nd < 256 /\ (n_exits (Node.exits nd) <= 6)%nat).
  { intros a nd Hrd. apply (geo_cell m n (nodes st) E a); [lia|done| |done].
    apply rd_Some_range in Hrd. lia. }
  destruct (build_tree_root n (nodes st) (m * n) 0 fuel)
    as (nodes1 & l & Hb & Hmark & Hvis & Hsub & Hnd & Hmem & Hch & Hroot & Hpar).
  { done. }
  { nia. }
  { intros a nd Hrd. by apply (Hcell a nd). }
  { intros a nd Hrd. by apply (Hcell a nd). }
  { intros a b Hab. apply Hrel, adj_sym. by apply Hrel. }
  { apply (all_bridges_iff (adj E)); [|done]. intros x y. symmetry. apply Hrel. }
  { intros a b Ha Hb. apply (connected_iff (adj E)); [|by apply Hconn].
    intros x y. symmetry. apply Hrel. }
  { nia. }
  change (Z.to_nat 0) with 0%nat in *.
  destruct (analyse_tree_spec fuel fuel nodes1 0%nat l Hsub Hnd ltac:(lia))
    as (nodes2 & Han & Hsh & _ & Hrule & _).
  assert (Hsub2 : Tree.subtree fuel nodes2 0 = Some l).
  { by rewrite (subtree_shape nodes1 nodes2 Hsh). }
  pose proof (tree_ends fuel nodes2 0%nat l Hsub2 Hnd Hrule) as Hends.
  pose proof Hends as (_ & _ & (b & Hfst & _) & (c & Hsnd & _) & _).
  exists st, q, E, nodes1, nodes2, l, b, c.
  split; [done|]. split; [done|]. split; [done|]. split; [done|]. split.
  { split; [done|]. split; [done|]. split; [by eapply analyse_tree_exits|].
    done. }
  split; [done|]. split; [done|].
  unfold run. rewrite Hmk. bind_ok. rewrite Hb. bind_ok. rewrite Han. bind_ok.
  unfold Tree.fst_end, Tree.snd_end in Hfst, Hsnd.
  destruct (nodes2 !! 0%nat) as [root|]; [|done]. simpl in Hfst, Hsnd.
  bind_ok. rewrite Hfst. bind_ok. rewrite Hsnd. by bind_ok.
Qed.

End Run.

(** * Further properties of the run *)

Lemma marked_bits nodes0 nodes1 nodes2 x nd0 :
  (forall a nd, rd nodes0 a = Some nd -> 0 <= Node.exits nd < 256) ->
  marking nodes0 nodes1 ->
  Node.exits <$> nodes2 = Node.exits <$> nodes1 ->
  rd nodes0 x = Some nd0 ->
  exists nd2, rd nodes2 x = Some nd2 /\
    forall bit, bit ∈ [1; 2; 4; 8; 16; 32; 64; 128] ->
      Z.land (Node.exits nd2) bit = Z.land (Node.exits nd0) bit.
Proof.
  intros H256 [Hlen Hmark] Hex H0.
  pose proof (rd_Some_range _ _ _ H0) as Hr.
  destruct (rd_is_Some nodes1 x ltac:(lia)) as [nd1 H1].
  assert (H2 : Node.exits <$> rd nodes2 x = Some (Node.exits nd1)).
  { unfold rd in *. case_decide; [|done].
    by rewrite <- list_lookup_fmap, Hex, list_lookup_fmap, H1. }
  destruct (rd nodes2 x) as [nd2|]; [|done]. injection H2 as H2.
  exists nd2. split; [done|]. intros bit Hbit. rewrite H2.
  destruct (Hmark x nd1 H1) as [H1'|(nd0' & H0' & E)].
  - congruence.
  - rewrite H0 in H0'. injection H0' as <-. rewrite E.
    destruct (small_exits _ (H256 _ _ H0)) as (_ & _ & _ & Hb). by apply Hb.
Qed.

(** The exits read off the final nodes are those of the maze. *)
Lemma exit_rel_final n_rows nodes0 nodes1 nodes2 a b :
  (forall a nd, rd nodes0 a = Some nd -> 0 <= Node.exits nd < 256) ->
  marking nodes0 nodes1 ->
  Node.exits <$> nodes2 = Node.exits <$> nodes1 ->
  exit_rel n_rows nodes2 a b <-> exit_rel n_rows nodes0 a b.
Proof.
  intros H256 Hmark Hex. split.
  - intros (nd2 & bit & d & Hrd & Hin & Hbit & ->).
    assert (Hr : is_Some (rd nodes0 a)).
    { apply rd_is_Some. destruct Hmark as [Hl _].
      apply rd_Some_range in Hrd. apply (f_equal length) in Hex.
      rewrite !length_fmap in Hex. lia. }
    destruct Hr as [nd0 H0].
    destruct (marked_bits nodes0 nodes1 nodes2 a nd0 H256 Hmark Hex H0)
      as (nd2' & Hrd' & Hb).
    rewrite Hrd in Hrd'. injection Hrd' as <-.
    exists nd0, bit, d. rewrite <- (Hb bit) by (by eapply dirs_bit_mem). done.
  - intros (nd0 & bit & d & H0 & Hin & Hbit & ->).
    destruct (marked_bits nodes0 nodes1 nodes2 a nd0 H256 Hmark Hex H0)
      as (nd2 & Hrd & Hb).
    exists nd2, bit, d. rewrite (Hb bit) by (by eapply dirs_bit_mem). done.
Qed.

Lemma connected_start (R : relation Z) a b :
  connected R a b -> a <> b -> exists z, sc R a z.
Proof.
  unfold connected, rtsc. intros H Hne.
  apply rtc_inv in H as [?|(z & Hz & _)]; [done|]. by exists z.
Qed.

(** X1.  After [create_maze], the bitmap of every cell holds exit bits
    only, at most six of them, and a bit is set exactly when the step it
    stands for leads to a neighbouring cell of the array and the wall
    between the two cells is one of the walls removed.  The walls
    removed are [m*n - 1] different walls of the table, none of them
    listed twice in either direction. *)
Theorem exits_match_geometry {rng : Type} (Random : rng -> Z * rng)
    (fuel : nat) (m n : Z) (g : rng) :
  2 <= m <= 1000 -> 2 <= n <= 1000 -> (Z.to_nat (3 * m * n) <= fuel)%nat ->
  exists st q E,
    make_maze Random fuel m n g = Some (st, q) /\
    Z.of_nat (length E) = m * n - 1 /\
    simple_edges E /\
    (forall lo hi, (lo, hi) ∈ E -> wall_at m n lo hi) /\
    exits_geo m n (nodes st) E /\
    (forall a nd, rd (nodes st) a = Some nd ->
       0 <= Node.exits nd < 256 /\ (n_exits (Node.exits nd) <= 6)%nat).
Proof.
  intros Hm Hn Hf.
  destruct (make_maze_geo Random fuel m n g ltac:(lia) ltac:(lia) Hf)
    as (st & q & E & Hmk & Hlen & HlE & Hsim & HE & Hex & Hgeo & Hconn & Hbr).
  exists st, q, E. split; [done|]. split; [done|]. split; [done|].
  split; [done|]. split; [done|]. intros a nd Hrd.
  apply (geo_cell m n (nodes st) E a); [lia|done| |done].
  apply rd_Some_range in Hrd. lia.
Qed.

Lemma exits_match_geometry_witness :
  exists st q E,
    make_maze lcg 12 2 2 42 = Some (st, q) /\
    Z.of_nat (length E) = 2 * 2 - 1 /\
    simple_edges E /\
    (forall lo hi, (lo, hi) ∈ E -> wall_at 2 2 lo hi) /\
    exits_geo 2 2 (nodes st) E /\
    (forall a nd, rd (nodes st) a = Some nd ->
       0 <= Node.exits nd < 256 /\ (n_exits (Node.exits nd) <= 6)%nat).
Proof. apply (exits_match_geometry lcg 12 2 2 42); lia. Defined.

(** X2.  In the run, [build_tree] called on cell 0 of the carved maze
    returns 1 without writing outside any [kids] array.  It marks every
    cell as visited and changes nothing else of the bitmaps; the kids
    make a tree below cell 0 in which every cell of the maze occurs
    exactly once; the kids of a cell are cells it has an exit to, every
    exit of cell 0 leads to a kid, and every exit of another cell leads
    to a kid or to the one cell [px] it was entered from.  Called again
    on cell 0, [build_tree] returns 0 and changes nothing. *)
Theorem build_tree_spans_maze {rng : Type} (Random : rng -> Z * rng)
    (fuel : nat) (m n : Z) (g : rng) :
  2 <= m <= 1000 -> 2 <= n <= 1000 -> (Z.to_nat (3 * m * n) <= fuel)%nat ->
  exists st q nodes1 l,
    make_maze Random fuel m n g = Some (st, q) /\
    build_tree fuel n (nodes st) 0 = Some (nodes1, true) /\
    marking (nodes st) nodes1 /\
    (forall x, 0 <= x < m * n ->
       exists nd, rd nodes1 x = Some nd /\ is_visited (Node.exits nd)) /\
    (forall a b, exit_rel n nodes1 a b <-> exit_rel n (nodes st) a b) /\
    Tree.subtree fuel nodes1 0 = Some l /\ NoDup l /\
    (forall x : nat, x ∈ l <-> Z.of_nat x < m * n) /\
    (forall x c, x ∈ l -> c ∈ Tree.children nodes1 x ->
       exit_rel n (nodes st) (Z.of_nat x) (Z.of_nat c)) /\
    (forall c, exit_rel n (nodes st) 0 c ->
       Z.to_nat c ∈ Tree.children nodes1 0) /\
    (forall x, x ∈ l -> exists px, forall c,
       exit_rel n (nodes st) (Z.of_nat x) c ->
       c = px \/ Z.to_nat c ∈ Tree.children nodes1 x) /\
    build_tree fuel n nodes1 0 = Some (nodes1, false).
Proof.
  intros Hm Hn Hf.
  destruct (run_spec Random fuel m n g ltac:(lia) ltac:(lia) Hf)
    as (st & q & E & nodes1 & nodes2 & l & start & finish & Hmk
        & (Hlen & Hex & Hgeo & _) & (Hb & Hmark & Hvis)
        & (Hsub & Hnd & Hmem & Hch & Hroot & Hpar) & _).
  assert (H256 : forall a nd, rd (nodes st) a = Some nd ->
            0 <= Node.exits nd < 256).
  { intros a nd Hrd. apply (geo_cell m n (nodes st) E a); [lia|done| |done].
    apply rd_Some_range in Hrd. lia. }
  exists st, q, nodes1, l. split; [done|]. split; [done|]. split; [done|].
  split; [|split; [|split; [done|split; [done|split; [done|split;
    [done|split; [done|split; [done|]]]]]]]].
  - intros x Hx. destruct (Hvis x Hx) as (nd & Hrd & Hneg). exists nd.
    split; [done|].
    by destruct (marking_marked (nodes st) H256 nodes1 x nd Hmark Hrd Hneg).
  - intros a b. by apply (exit_rel_final n (nodes st) nodes1 nodes1).
  - destruct fuel as [|f]; [simpl in Hf; lia|].
    apply (build_tree_visited n (nodes st) H256); [done|]. apply Hvis. lia.
Qed.

Lemma build_tree_spans_maze_witness :
  exists st q nodes1 l,
    make_maze lcg 12 2 2 42 = Some (st, q) /\
    build_tree 12 2 (nodes st) 0 = Some (nodes1, true) /\
    marking (nodes st) nodes1 /\
    (forall x, 0 <= x < 2 * 2 ->
       exists nd, rd nodes1 x = Some nd /\ is_visited (Node.exits nd)) /\
    (forall a b, exit_rel 2 nodes1 a b <-> exit_rel 2 (nodes st) a b) /\
    Tree.subtree 12 nodes1 0 = Some l /\ NoDup l /\
    (forall x : nat, x ∈ l <-> Z.of_nat x < 2 * 2) /\
    (forall x c, x ∈ l -> c ∈ Tree.children nodes1 x ->
       exit_rel 2 (nodes st) (Z.of_nat x) (Z.of_nat c)) /\
    (forall c, exit_rel 2 (nodes st) 0 c ->
       Z.to_nat c ∈ Tree.children nodes1 0) /\
    (forall x, x ∈ l -> exists px, forall c,
       exit_rel 2 (nodes st) (Z.of_nat x) c ->
       c = px \/ Z.to_nat c ∈ Tree.children nodes1 x) /\
    build_tree 12 2 nodes1 0 = Some (nodes1, false).
Proof. apply (build_tree_spans_maze lcg 12 2 2 42); lia. Defined.


(** X3.  On a tree rooted at [n] with nodes [l], [analyse_tree] returns
    and changes no bitmap.  Afterwards [0 <= distance <= length] at [n],
    [furthest] and [first] of [n] are leaves of the tree, [second] is a
    leaf of the tree or is [n] itself, in which case [n] has a single
    child and [length = distance + 1]; and unless [n] is a leaf, [first]
    and [second] are different nodes. *)
Theorem analyse_tree_ends (f0 fuel : nat) (nodes : list node) (n : nat)
    (l : list nat) :
  Tree.subtree f0 nodes n = Some l -> NoDup l -> (f0 <= fuel)%nat ->
  exists nodes',
    Tree.analyse_tree fuel nodes n = Some nodes' /\
    Node.exits <$> nodes' = Node.exits <$> nodes /\
    ends_ok nodes' l n.
Proof.
  intros Hs Hnd Hf.
  destruct (analyse_tree_spec f0 fuel nodes n l Hs Hnd Hf)
    as (nodes' & Ha & Hsh & _ & Hrule & _).
  exists nodes'. split; [done|]. split; [by eapply analyse_tree_exits|].
  apply (tree_ends f0); [|done|done]. by rewrite (subtree_shape nodes nodes' Hsh).
Qed.

Lemma analyse_tree_ends_witness :
  exists nodes',
    Tree.analyse_tree 3 Tree.two_level 0 = Some nodes' /\
    Node.exits <$> nodes' = Node.exits <$> Tree.two_level /\
    ends_ok nodes' [0; 1; 3; 2]%nat 0.
Proof.
  apply (analyse_tree_ends 3 3 Tree.two_level 0 [0; 1; 3; 2]%nat).
  - reflexivity.
  - apply (bool_decide_unpack _). reflexivity.
  - lia.
Defined.

(** Once the arrays are there, the run gets to the call of
    [print_maze], and the two ends it hands over are two different
    cells of the maze, each of them a dead end. *)
Lemma run_ends {rng : Type} (Random : rng -> Z * rng)
    (fuel : nat) (m n : Z) (g : rng) :
  2 <= m <= 1000 -> 2 <= n <= 1000 -> (Z.to_nat (3 * m * n) <= fuel)%nat ->
  exists st start finish,
    run Random fuel m n g = Some (st, start, finish) /\
    start <> finish /\
    Z.of_nat start < m * n /\ Z.of_nat finish < m * n /\
    (exists z, exit_rel n (nodes st) (Z.of_nat start) z /\
       forall z', exit_rel n (nodes st) (Z.of_nat start) z' -> z' = z) /\
    (exists z, exit_rel n (nodes st) (Z.of_nat finish) z /\
       forall z', exit_rel n (nodes st) (Z.of_nat finish) z' -> z' = z).
Proof.
  intros Hm Hn Hf.
  destruct (run_spec Random fuel m n g ltac:(lia) ltac:(lia) Hf)
    as (st & q & E & nodes1 & nodes2 & l & start & finish & Hmk
        & (Hlen & Hex & Hgeo & _) & (Hb & Hmark & Hvis)
        & (Hsub & Hnd & Hmem & Hch & Hroot & Hpar)
        & (Han & Hsh & Hexits & Hrule & Hends) & Hfst & Hsnd & Hrun).
  assert (H256 : forall a nd, rd (nodes st) a = Some nd ->
            0 <= Node.exits nd < 256).
  { intros a nd Hrd. apply (geo_cell m n (nodes st) E a); [lia|done| |done].
    apply rd_Some_range in Hrd. lia. }
  assert (Hfin : forall a b, exit_rel n nodes2 a b <-> exit_rel n (nodes st) a b).
  { intros a b. by apply (exit_rel_final n (nodes st) nodes1 nodes2). }
  pose proof Hex as [Hrel _].
  destruct (make_maze_geo Random fuel m n g ltac:(lia) ltac:(lia) Hf)
    as (st' & q' & E' & Hmk' & _ & _ & _ & _ & Hex' & _ & Hconn & _).
  rewrite Hmk in Hmk'. injection Hmk' as <- <-.
  assert (Hconn0 : connected_graph (m * n) (exit_rel n (nodes st))).
  { intros a b Ha Hb'. apply (connected_iff (adj E')); [|by apply Hconn].
    intros x y. symmetry. apply Hex'. }
  assert (Hsome : forall x, 0 <= x < m * n -> exists z, exit_rel n (nodes st) x z).
  { intros x Hx.
    assert (exists y, 0 <= y < m * n /\ x <> y) as (y & Hy & Hxy).
    { destruct (decide (x = 0)); [exists 1|exists 0]; split; nia. }
    destruct (connected_start _ x y (Hconn0 x y Hx Hy) Hxy) as [z [Hz|Hz]].
    - by exists z.
    - exists z. apply Hrel, adj_sym. by apply Hrel. }
  assert (Hch2 : forall x, Tree.children nodes2 x = Tree.children nodes1 x).
  { intros x. by apply children_shape. }
  assert (Hleaf : forall x, x ∈ l -> Tree.children nodes2 x = [] ->
            exists z, exit_rel n (nodes st) (Z.of_nat x) z /\
              forall z', exit_rel n (nodes st) (Z.of_nat x) z' -> z' = z).
  { intros x Hx Hcx. rewrite Hch2 in Hcx.
    destruct (Hpar x Hx) as [px Hpx].
    destruct (Hsome (Z.of_nat x)) as [z Hz].
    { apply Hmem in Hx. lia. }
    assert (Hone : forall z', exit_rel n (nodes st) (Z.of_nat x) z' -> z' = px).
    { intros z' Hz'. destruct (Hpx z' Hz') as [?|Hin]; [done|].
      rewrite Hcx in Hin. by apply elem_of_nil in Hin. }
    exists z. split; [done|]. intros z' Hz'. rewrite (Hone z' Hz').
    symmetry. by apply Hone. }
  destruct Hends as (_ & _ & (b & Hb1 & Hbl & Hbc) & (c & Hc1 & Hcl & Hcc) & Hne).
  assert (b = start) as -> by congruence.
  assert (c = finish) as -> by congruence.
  assert (Hroot_kids : Tree.children nodes2 0 <> []).
  { rewrite Hch2. destruct (Hsome 0 ltac:(nia)) as [z Hz].
    intros E0. specialize (Hroot z Hz). rewrite E0 in Hroot.
    by apply elem_of_nil in Hroot. }
  exists (Maze (cells st) nodes2 (walls st) (first_wall st)), start, finish.
  split; [done|]. simpl. split; [|split; [by apply Hmem|split; [by apply Hmem|]]].
  { destruct (Hne Hroot_kids) as [Hd _]. rewrite Hfst, Hsnd in Hd. congruence. }
  split.
  - destruct (Hleaf start Hbl Hbc) as (z & Hz & Hu). exists z.
    split; [by apply Hfin|]. intros z' Hz'. by apply Hu, Hfin.
  - destruct Hcc as [Hcc|(-> & _ & k & Hk)].
    + destruct (Hleaf finish Hcl Hcc) as (z & Hz & Hu). exists z.
      split; [by apply Hfin|]. intros z' Hz'. by apply Hu, Hfin.
    + destruct (Hsome 0 ltac:(nia)) as [z Hz].
      assert (Hone : forall z', exit_rel n (nodes st) 0 z' -> z' = Z.of_nat k).
      { intros z' Hz'. pose proof (Hroot z' Hz') as Hin.
        rewrite <- Hch2, Hk in Hin. apply list_elem_of_singleton in Hin.
        assert (Hback : exit_rel n (nodes st) z' 0).
        { apply Hrel, adj_sym. by apply Hrel. }
        destruct Hback as (nd & _ & _ & Hrd & _).
        apply rd_Some_range in Hrd. lia. }
      exists z. change (Z.of_nat 0) with 0. split; [by apply Hfin|].
      intros z' Hz'%Hfin. rewrite (Hone z' Hz'). symmetry. by apply Hone.
Qed.

(** * The picture *)

Ltac eval_letter :=
  repeat match goal with
  | |- context [Z.lor ?a ?b] =>
      let v := eval vm_compute in (Z.lor a b) in change (Z.lor a b) with v
  end;
  repeat match goal with
  | |- context [65 + ?a] =>
      let v := eval vm_compute in (65 + a) in change (65 + a) with v
  end.

Lemma cell_letter_range i x : 65 <= cell_letter i x <= 72.
Proof. unfold cell_letter. repeat case_decide; eval_letter; lia. Qed.

(** A letter draws a wall exactly when the exit bit tested for it is
    clear. *)
Lemma letter_walls_spec i x w :
  w ∈ letter_walls (cell_letter i x) <-> ~ Z.land x (wall_bit i w) <> 0.
Proof.
  unfold cell_letter, wall_bit.
  destruct w; repeat case_decide; eval_letter;
    (split; [intros Hin|intros Hz]);
    first [ assumption
          | apply (bool_decide_unpack _); reflexivity
          | exfalso; refine (bool_decide_eq_false_1 _ _ Hin); reflexivity
          | contradiction
          | congruence ].
Qed.

Lemma wall_bit_geo k l w :
  exists dk dl, (wall_bit k w, (dk, dl)) ∈ geo /\
    across w k l = (k + dk, l + dl) /\ neighbour k l (k + dk) (l + dl).
Proof.
  pose proof (land_1 k) as Hpar.
  pose proof (Z.mod_pos_bound k 2 ltac:(lia)) as Hmod.
  assert (Hfin : forall b dk dl,
    (b, (dk, dl)) ∈ geo -> neighbour k l (k + dk) (l + dl) ->
    forall k' l', k' = k + dk -> l' = l + dl ->
    exists dk dl, (b, (dk, dl)) ∈ geo /\
      (k', l') = (k + dk, l + dl) /\ neighbour k l (k + dk) (l + dl)).
  { intros b dk dl Hin Hnb k' l' -> ->. by exists dk, dl. }
  unfold wall_bit, across. destruct w; repeat case_decide.
  - apply (Hfin Up 0 1); [unfold geo; rewrite !elem_of_cons; tauto| |lia..].
    unfold neighbour. lia.
  - apply (Hfin LUp (-1) 1); [unfold geo; rewrite !elem_of_cons; tauto| |lia..].
    unfold neighbour. lia.
  - apply (Hfin LEq (-1) 0); [unfold geo; rewrite !elem_of_cons; tauto| |lia..].
    unfold neighbour. lia.
  - apply (Hfin RUp 1 1); [unfold geo; rewrite !elem_of_cons; tauto| |lia..].
    unfold neighbour. lia.
  - apply (Hfin REq 1 0); [unfold geo; rewrite !elem_of_cons; tauto| |lia..].
    unfold neighbour. lia.
Qed.

Lemma lookup_seqZ_0 (len i : Z) :
  0 <= i < len -> seqZ 0 len !! Z.to_nat i = Some i.
Proof.
  intros Hi. rewrite lookup_seqZ. split; lia.
Qed.

(** X5.  In the run, the loop of [print_maze] over the cells reads
    inside the array and prints, for each column, one letter from [A] to
    [H] per cell.  By the operators of the prologue the letter of a cell
    draws its wall to the north, north-west or north-east exactly when
    the cell across that wall is outside the array or no exit leads to
    it: the picture shows the walls that were kept. *)
Theorem inner_walls_show_kept {rng : Type} (Random : rng -> Z * rng)
    (fuel : nat) (m n : Z) (g : rng) :
  2 <= m <= 1000 -> 2 <= n <= 1000 -> (Z.to_nat (3 * m * n) <= fuel)%nat ->
  exists st start finish letters,
    run Random fuel m n g = Some (st, start, finish) /\
    inner_walls m n (nodes st) = Some letters /\
    length letters = Z.to_nat m /\
    forall k l, in_grid m n k l ->
      exists row c,
        letters !! Z.to_nat k = Some row /\ length row = Z.to_nat n /\
        row !! Z.to_nat l = Some c /\ 65 <= c <= 72 /\
        forall w, w ∈ letter_walls c <->
          ~ (in_grid m n (across w k l).1 (across w k l).2 /\
             exit_rel n (nodes st) (cell_no n k l)
               (cell_no n (across w k l).1 (across w k l).2)).
Proof.
  intros Hm Hn Hf.
  destruct (run_spec Random fuel m n g ltac:(lia) ltac:(lia) Hf)
    as (st & q & E & nodes1 & nodes2 & ltree & start & finish & Hmk
        & (Hlen & Hex & Hgeo & _) & (Hb & Hmark & Hvis) & _
        & (Han & Hsh & Hexits & _) & _ & _ & Hrun).
  assert (H256 : forall a nd, rd (nodes st) a = Some nd ->
            0 <= Node.exits nd < 256).
  { intros a nd Hrd. apply (geo_cell m n (nodes st) E a); [lia|done| |done].
    apply rd_Some_range in Hrd. lia. }
  assert (Hfin : forall a b, exit_rel n nodes2 a b <-> exit_rel n (nodes st) a b).
  { intros a b. by apply (exit_rel_final n (nodes st) nodes1 nodes2). }
  pose proof Hex as [Hrel _].
  set (gcell := fun i j : Z =>
         cell_letter i (default 0 (Node.exits <$> rd nodes2 (i * n + j)))).
  assert (Hcell : forall k l, in_grid m n k l ->
            exists nd0 nd2, rd (nodes st) (cell_no n k l) = Some nd0 /\
              rd nodes2 (k * n + l) = Some nd2 /\
              (forall bit, bit ∈ [1; 2; 4; 8; 16; 32; 64; 128] ->
                 Z.land (Node.exits nd2) bit = Z.land (Node.exits nd0) bit) /\
              forall bit dk dl, (bit, (dk, dl)) ∈ geo ->
                (Z.land (Node.exits nd0) bit <> 0 <->
                 in_grid m n (k + dk) (l + dl) /\
                 neighbour k l (k + dk) (l + dl) /\
                 adj E (cell_no n k l) (cell_no n (k + dk) (l + dl)))).
  { intros k l Hg. destruct (Hgeo k l Hg) as (nd0 & H0 & _ & Hbits).
    destruct (marked_bits (nodes st) nodes1 nodes2 _ nd0 H256 Hmark Hexits H0)
      as (nd2 & H2 & Hb2).
    exists nd0, nd2. split; [done|]. split; [|done].
    by replace (k * n + l) with (cell_no n k l) by (unfold cell_no; lia). }
  assert (Hinner : forall i, 0 <= i < m ->
            mapM (fun j => nd ← rd nodes2 (i * n + j);
                           Some (cell_letter i (Node.exits nd))) (seqZ 0 n)
            = Some (gcell i <$> seqZ 0 n)).
  { intros i Hi. apply mapM_fmap_Some. intros j Hj%elem_of_seqZ.
    destruct (Hcell i j) as (nd0 & nd2 & _ & H2 & _); [unfold in_grid; lia|].
    unfold gcell. by rewrite H2. }
  assert (Hletters : inner_walls m n nodes2
            = Some ((fun i => gcell i <$> seqZ 0 n) <$> seqZ 0 m)).
  { unfold inner_walls. apply mapM_fmap_Some. intros i Hi%elem_of_seqZ.
    apply Hinner. lia. }
  exists (Maze (cells st) nodes2 (walls st) (first_wall st)), start, finish,
    ((fun i => gcell i <$> seqZ 0 n) <$> seqZ 0 m).
  split; [done|]. simpl. split; [done|].
  split; [by rewrite length_fmap, length_seqZ|].
  intros k l [Hk Hl].
  exists (gcell k <$> seqZ 0 n), (gcell k l).
  split; [by rewrite list_lookup_fmap, lookup_seqZ_0|].
  split; [by rewrite length_fmap, length_seqZ|].
  split; [by rewrite list_lookup_fmap, lookup_seqZ_0|].
  split; [apply cell_letter_range|].
  intros w. destruct (Hcell k l) as (nd0 & nd2 & H0 & H2 & Hb2 & Hbits); [done|].
  unfold gcell. rewrite H2. simpl. rewrite letter_walls_spec.
  destruct (wall_bit_geo k l w) as (dk & dl & Hin & Hac & Hnb).
  rewrite Hac. simpl.
  rewrite (Hb2 _ (geo_bit_mem _ _ Hin)), (Hbits _ dk dl Hin), Hfin, Hrel.
  tauto.
Qed.

Lemma inner_walls_show_kept_witness :
  exists st start finish letters,
    run lcg 12 2 2 42 = Some (st, start, finish) /\
    inner_walls 2 2 (nodes st) = Some letters /\
    length letters = Z.to_nat 2 /\
    forall k l, in_grid 2 2 k l ->
      exists row c,
        letters !! Z.to_nat k = Some row /\ length row = Z.to_nat 2 /\
        row !! Z.to_nat l = Some c /\ 65 <= c <= 72 /\
        forall w, w ∈ letter_walls c <->
          ~ (in_grid 2 2 (across w k l).1 (across w k l).2 /\
             exit_rel 2 (nodes st) (cell_no 2 k l)
               (cell_no 2 (across w k l).1 (across w k l).2)).
Proof. apply (inner_walls_show_kept lcg 12 2 2 42); lia. Defined.

Lemma init_rand_range sun env seed :
  0 <= init_rand sun env seed <= 2147483647.
Proof.
  unfold init_rand. change 2147483647 with (Z.ones 31) at 1 2.
  rewrite Z.land_ones by lia.
  match goal with |- context [?a mod 2 ^ 31] =>
    pose proof (Z.mod_pos_bound a (2 ^ 31) ltac:(lia)) end.
  lia.
Qed.

(** X6.  [main] always ends, in one of four ways.  It prints the usage
    message exactly when it is not given two or three arguments; given
    two or three, it reports bad dimensions exactly when one of the
    first two is outside 2..1000; with good arguments it stops with
    [exit(1)] for lack of memory for an array exactly when that array is
    the first of [cells], [nodes] and [walls] it does not get; and it
    goes through to [print_maze] exactly when it gets all three, then
    without an access outside an array and with a seed between 0 and
    [0x7FFFFFFF]. *)
Theorem main_outcome {rng : Type} (sun : bool) (env : clock_env)
    (alloc : block -> bool) (SRandom : Z -> rng) (Random : rng -> Z * rng)
    (fuel : nat) (args : list Z) :
  (forall c r, args !! 0%nat = Some c -> args !! 1%nat = Some r ->
     2 <= c <= 1000 -> 2 <= r <= 1000 -> (Z.to_nat (3 * c * r) <= fuel)%nat) ->
  exists o,
    main sun env alloc SRandom Random fuel args = Some o /\
    (o = Usage <-> length args <> 2%nat /\ length args <> 3%nat) /\
    (o = Bad_dimensions <->
       (length args = 2%nat \/ length args = 3%nat) /\
       exists c r, args !! 0%nat = Some c /\ args !! 1%nat = Some r /\
         (c < 2 \/ r < 2 \/ c > 1000 \/ r > 1000)) /\
    (o = No_memory Cells_block <->
       good_args args /\ alloc Cells_block = false) /\
    (o = No_memory Nodes_block <->
       good_args args /\ alloc Cells_block = true /\
       alloc Nodes_block = false) /\
    (o = No_memory Walls_block <->
       good_args args /\ alloc Cells_block = true /\
       alloc Nodes_block = true /\ alloc Walls_block = false) /\
    ((exists seed st start finish, o = Printed seed st start finish) <->
       good_args args /\ forall b, alloc b = true) /\
    (forall seed st start finish, o = Printed seed st start finish ->
       seed = main_seed sun env (args !! 2%nat) /\
       0 <= seed <= 2147483647 /\
       exists c r, args !! 0%nat = Some c /\ args !! 1%nat = Some r /\
         run Random fuel c r (SRandom seed) = Some (st, start, finish)).
Proof.
  intros Hfuel. unfold main. case_decide as Hlen.
  { assert (Hng : ~ good_args args) by (intros [[?|?] _]; lia).
    exists Usage. split_and!; try done.
    - split; [done|]. intros [[?|?] _]; lia.
    - split; [done|]. by intros [? _].
    - split; [done|]. by intros [? _].
    - split; [done|]. by intros [? _].
    - split; [by intros (? & ? & ? & ? & ?)|]. by intros [? _]. }
  assert (exists c r rest, args = c :: r :: rest) as (c & r & rest & ->).
  { destruct args as [|c [|r rest]]; simpl in Hlen; try lia. by exists c, r, rest. }
  assert (Hl23 : length (c :: r :: rest) = 2%nat \/ length (c :: r :: rest) = 3%nat)
    by lia.
  simpl. case_decide as Hdim.
  { assert (Hng : ~ good_args (c :: r :: rest)).
    { intros (_ & c' & r' & [= <-] & [= <-] & ? & ?). lia. }
    exists Bad_dimensions. split_and!; try done.
    - split; [|done]. intros _. split; [done|]. by exists c, r.
    - split; [done|]. by intros [? _].
    - split; [done|]. by intros [? _].
    - split; [done|]. by intros [? _].
    - split; [by intros (? & ? & ? & ? & ?)|]. by intros [? _]. }
  assert (Hgood : good_args (c :: r :: rest)).
  { split; [done|]. exists c, r. split; [done|]. split; [done|]. lia. }
  assert (Hnb : ~ ((length (c :: r :: rest) = 2%nat \/
                    length (c :: r :: rest) = 3%nat) /\
            exists c' r', (c :: r :: rest) !! 0%nat = Some c' /\
              (c :: r :: rest) !! 1%nat = Some r' /\
              (c' < 2 \/ r' < 2 \/ c' > 1000 \/ r' > 1000))).
  { intros (_ & c' & r' & [= <-] & [= <-] & Hbad). lia. }
  unfold first_refused.
  destruct (alloc Cells_block) eqn:Hc; simpl.
  2:{ exists (No_memory Cells_block). split_and!; try done;
        try (split; [done | intros [_ ?]; destruct_and?; congruence]).
      split; [by intros (? & ? & ? & ? & ?)|].
      intros [_ Hall]. rewrite Hall in Hc. done. }
  destruct (alloc Nodes_block) eqn:Hn; simpl.
  2:{ exists (No_memory Nodes_block). split_and!; try done;
        try (split; [done | intros [_ ?]; destruct_and?; congruence]).
      split; [by intros (? & ? & ? & ? & ?)|].
      intros [_ Hall]. rewrite Hall in Hn. done. }
  destruct (alloc Walls_block) eqn:Hw; simpl.
  2:{ exists (No_memory Walls_block). split_and!; try done;
        try (split; [done | intros [_ ?]; destruct_and?; congruence]).
      split; [by intros (? & ? & ? & ? & ?)|].
      intros [_ Hall]. rewrite Hall in Hw. done. }
  destruct (run_spec Random fuel c r
              (SRandom (main_seed sun env (rest !! 0%nat)))) as
    (st & q & E & nodes1 & nodes2 & l & start & finish & _ & _ & _ & _ & _
     & _ & _ & Hrun); [lia|lia|apply (Hfuel c r); (done || lia)|].
  rewrite Hrun. bind_ok. eexists. split_and!; try done;
    try (split; [done | intros [_ ?]; destruct_and?; congruence]).
  - split; [|by eexists _, _, _, _]. intros _. split; [done|]. by intros [].
  - intros seed st' s' e' [= <- <- <- <-]. split; [done|].
    split; [apply init_rand_range|]. by exists c, r.
Qed.

Lemma main_outcome_witness :
  exists o,
    main false (Env 0 1000 0 0) (fun _ => true) (fun s => s) lcg 12 [2; 2; 42]
      = Some o /\
    (o = Usage <->
       length [2; 2; 42] <> 2%nat /\ length [2; 2; 42] <> 3%nat) /\
    (o = Bad_dimensions <->
       (length [2; 2; 42] = 2%nat \/ length [2; 2; 42] = 3%nat) /\
       exists c r, [2; 2; 42] !! 0%nat = Some c /\ [2; 2; 42] !! 1%nat = Some r /\
         (c < 2 \/ r < 2 \/ c > 1000 \/ r > 1000)) /\
    (o = No_memory Cells_block <->
       good_args [2; 2; 42] /\ (fun _ : block => true) Cells_block = false) /\
    (o = No_memory Nodes_block <->
       good_args [2; 2; 42] /\ (fun _ : block => true) Cells_block = true /\
       (fun _ : block => true) Nodes_block = false) /\
    (o = No_memory Walls_block <->
       good_args [2; 2; 42] /\ (fun _ : block => true) Cells_block = true /\
       (fun _ : block => true) Nodes_block = true /\
       (fun _ : block => true) Walls_block = false) /\
    ((exists seed st start finish, o = Printed seed st start finish) <->
       good_args [2; 2; 42] /\ forall b, (fun _ : block => true) b = true) /\
    (forall seed st start finish, o = Printed seed st start finish ->
       seed = main_seed false (Env 0 1000 0 0) ([2; 2; 42] !! 2%nat) /\
       0 <= seed <= 2147483647 /\
       exists c r, [2; 2; 42] !! 0%nat = Some c /\ [2; 2; 42] !! 1%nat = Some r /\
         run lcg 12 c r ((fun s => s) seed) = Some (st, start, finish)).
Proof.
  apply (main_outcome false (Env 0 1000 0 0) (fun _ => true) (fun s => s) lcg 12
           [2; 2; 42]).
  intros c r [= <-] [= <-] _ _. simpl. lia.
Defined.

(** X4.  Given two good dimensions [c] and [r], with or without a seed,
    and the memory for its three arrays, [main] gets to the call of
    [print_maze], and the two ends it hands over are two different
    cells of the maze, each of them a dead end: it has an exit, and all
    its exits lead to the same cell. *)
Theorem maze_ends_are_dead_ends {rng : Type} (sun : bool) (env : clock_env)
    (alloc : block -> bool) (SRandom : Z -> rng) (Random : rng -> Z * rng)
    (fuel : nat) (c r : Z) (rest : list Z) :
  2 <= c <= 1000 -> 2 <= r <= 1000 -> (length rest <= 1)%nat ->
  (forall b, alloc b = true) ->
  (Z.to_nat (3 * c * r) <= fuel)%nat ->
  exists seed st start finish,
    main sun env alloc SRandom Random fuel (c :: r :: rest) =
      Some (Printed seed st start finish) /\
    start <> finish /\
    Z.of_nat start < c * r /\ Z.of_nat finish < c * r /\
    (exists z, exit_rel r (nodes st) (Z.of_nat start) z /\
       forall z', exit_rel r (nodes st) (Z.of_nat start) z' -> z' = z) /\
    (exists z, exit_rel r (nodes st) (Z.of_nat finish) z /\
       forall z', exit_rel r (nodes st) (Z.of_nat finish) z' -> z' = z).
Proof.
  intros Hc Hr Hrest Hall Hf.
  destruct (run_ends Random fuel c r
              (SRandom (main_seed sun env (rest !! 0%nat))) Hc Hr Hf)
    as (st & start & finish & Hrun & Hends).
  exists (main_seed sun env (rest !! 0%nat)), st, start, finish.
  split; [|done]. unfold main.
  rewrite decide_False by (simpl; lia). simpl.
  rewrite decide_False by lia.
  unfold first_refused. rewrite !Hall. simpl. by rewrite Hrun.
Qed.

Lemma maze_ends_are_dead_ends_witness :
  exists seed st start finish,
    main false (Env 0 1000 0 0) (fun _ => true) (fun s => s) lcg 12
      (2 :: 2 :: [42]) = Some (Printed seed st start finish) /\
    start <> finish /\
    Z.of_nat start < 2 * 2 /\ Z.of_nat finish < 2 * 2 /\
    (exists z, exit_rel 2 (nodes st) (Z.of_nat start) z /\
       forall z', exit_rel 2 (nodes st) (Z.of_nat start) z' -> z' = z) /\
    (exists z, exit_rel 2 (nodes st) (Z.of_nat finish) z /\
       forall z', exit_rel 2 (nodes st) (Z.of_nat finish) z' -> z' = z).
Proof.
  apply (maze_ends_are_dead_ends false (Env 0 1000 0 0) (fun _ => true)
           (fun s => s) lcg 12 2 2 [42]); (simpl; lia) || done.
Defined.

(** * More on the disjoint-set forest *)

Section Forest_more.
Import UF.

(** X7.  In a forest in which every cell leads to a root, [base x]
    returns and changes neither the root of any cell, nor the number of
    roots, nor any entry of a root (so no recorded size); and [base x]
    called again returns the same root and changes nothing at all. *)
Theorem base_keeps_components cells x fuel :
  forest_ok cells -> 0 <= x < Z.of_nat (length cells) ->
  (length cells <= fuel)%nat ->
  exists r cells',
    base fuel cells x = Some (r, cells') /\
    forest_ok cells' /\
    (forall c rc, root_of cells' c rc <-> root_of cells c rc) /\
    count_roots cells' = count_roots cells /\
    (forall c v, rd cells c = Some v -> v < 0 -> rd cells' c = Some v) /\
    base fuel cells' x = Some (r, cells').
Proof.
  intros Hok Hx Hf. destruct (Hok x Hx) as (r & l & Hc).
  pose proof (chain_length _ _ _ _ Hc) as Hl.
  destruct (base_spec cells x l r fuel Hc ltac:(lia))
    as (cells' & Hb & Hlen & Hin & Hout).
  exists r, cells'. split; [done|].
  split; [by eapply compress_forest_ok|].
  split; [intros c rc; by eapply compress_root_of|].
  split; [eapply base_count; [exact Hc| |exact Hb]; lia|].
  split.
  { intros c v Hrd Hv. rewrite Hout; [done|]. intros Hcl.
    destruct (chain_elem_link _ _ _ _ _ Hc Hcl) as (v' & Hv' & ?).
    rewrite Hrd in Hv'. injection Hv' as <-. lia. }
  pose proof (compress_root cells cells' x l r Hc Hout) as Hroot.
  assert (exists l', chain cells' x l' r /\ (length l' <= 1)%nat /\
            forall c, c ∈ l' -> rd cells' c = Some r) as (l' & Hc' & Hl' & Hin').
  { destruct (decide (x ∈ l)) as [Hxl|Hxl].
    - exists [x]. split; [|split; [simpl; lia|]].
      + apply chain_step with r; [by apply Hin| |done].
        pose proof (chain_root_range _ _ _ _ Hc). lia.
      + intros c ->%list_elem_of_singleton. by apply Hin.
    - exists []. inversion Hc; subst.
      + split; [done|]. split; [simpl; lia|]. intros c Hcn.
        by apply elem_of_nil in Hcn.
      + exfalso. apply Hxl. left. }
  destruct (base_spec cells' x l' r fuel Hc' ltac:(lia))
    as (cells'' & Hb' & Hlen' & Hin'' & Hout').
  rewrite Hb'. f_equal. f_equal. apply rd_ext; [done|].
  intros i. destruct (decide (i ∈ l')) as [Hil|Hil].
  - by rewrite Hin'', Hin'.
  - by apply Hout'.
Qed.

Lemma base_keeps_components_witness :
  exists r cells',
    base 3 [1; 2; -3] 0 = Some (r, cells') /\
    forest_ok cells' /\
    (forall c rc, root_of cells' c rc <-> root_of [1; 2; -3] c rc) /\
    count_roots cells' = count_roots [1; 2; -3] /\
    (forall c v, rd [1; 2; -3] c = Some v -> v < 0 -> rd cells' c = Some v) /\
    base 3 cells' 0 = Some (r, cells').
Proof.
  apply (base_keeps_components [1; 2; -3] 0 3); [|simpl; lia|simpl; lia].
  intros x Hx. simpl in Hx.
  assert (Hr : chain [1; 2; -3] 2 [] 2)
    by (apply chain_root with (-3); [reflexivity|lia]).
  assert (H1 : chain [1; 2; -3] 1 [1] 2)
    by (apply chain_step with 2; [reflexivity|lia|exact Hr]).
  assert (H0 : chain [1; 2; -3] 0 [0; 1] 2)
    by (apply chain_step with 1; [reflexivity|lia|exact H1]).
  exists 2.
  destruct (decide (x = 0)) as [->|?]; [by eexists|].
  destruct (decide (x = 1)) as [->|?]; [by eexists|].
  assert (x = 2) as -> by lia. by eexists.
Defined.

(** ** The sizes recorded in the roots *)

(** With a single root, it records the whole sum. *)
Lemma single_root_size (cells : list Z) :
  count_roots cells = 1%nat ->
  exists r v, rd cells r = Some v /\ v < 0 /\ size_sum cells = - v /\
    forall c u, rd cells c = Some u -> u < 0 -> c = r.
Proof.
  unfold count_roots. induction cells as [|w cells IH]; intros Hone; [done|].
  rewrite filter_cons in Hone. case_decide as Hw.
  - simpl in Hone. assert (Hnone : filter (fun v => v < 0) cells = []).
    { destruct (filter _ cells); [done|simpl in Hone; lia]. }
    assert (Hall : forall u, u ∈ cells -> ~ u < 0).
    { intros u Hu Hneg.
      assert (Hin : u ∈ filter (fun v => v < 0) cells)
        by (by apply list_elem_of_filter).
      rewrite Hnone in Hin. by apply elem_of_nil in Hin. }
    assert (Hz : size_sum cells = 0).
    { clear -Hall. induction cells as [|u cells IH]; [done|]. simpl.
      rewrite IH by (intros u' Hu'; apply Hall; by right).
      rewrite decide_False; [done|]. apply Hall. left. }
    exists 0, w. split; [done|]. split; [done|]. split.
    { simpl. rewrite decide_True by done. lia. }
    intros c u Hrd Hu. destruct (decide (c = 0)) as [|Hc]; [done|]. exfalso.
    unfold rd in Hrd. case_decide; [|done].
    assert (Z.to_nat c = S (Z.to_nat (c - 1))) as E by lia.
    rewrite E in Hrd. simpl in Hrd. apply (Hall u); [|done].
    by eapply list_elem_of_lookup_2.
  - destruct (IH Hone) as (r & v & Hrd & Hv & Hs & Huniq).
    pose proof (rd_Some_range _ _ _ Hrd) as Hr.
    exists (r + 1), v. split; [|split; [done|split]].
    + unfold rd in *. rewrite decide_True by lia. rewrite decide_True in Hrd by lia.
      replace (Z.to_nat (r + 1)) with (S (Z.to_nat r)) by lia. done.
    + simpl. rewrite decide_False by done. lia.
    + intros c u Hc Hu. pose proof (rd_Some_range _ _ _ Hc) as Hcr.
      destruct (decide (c = 0)) as [->|Hc0].
      { unfold rd in Hc. simpl in Hc. injection Hc as ->. done. }
      assert (c - 1 = r); [|lia]. apply (Huniq (c - 1) u); [|done].
      unfold rd in *. rewrite decide_True by lia. rewrite decide_True in Hc by lia.
      replace (Z.to_nat c) with (S (Z.to_nat (c - 1))) in Hc by lia. done.
Qed.

(** X8.  After [create_maze] one cell [r] is the root of every cell, and
    its entry is minus [m*n]: the size recorded for the one component
    left is the number of cells.  Every other entry is a link. *)
Theorem root_records_size {rng : Type} (Random : rng -> Z * rng)
    (fuel : nat) (m n : Z) (g : rng) :
  2 <= m <= 1000 -> 2 <= n <= 1000 -> (Z.to_nat (3 * m * n) <= fuel)%nat ->
  exists st q r,
    make_maze Random fuel m n g = Some (st, q) /\
    rd (cells st) r = Some (- (m * n)) /\
    (forall c, 0 <= c < m * n -> root_of (cells st) c r) /\
    (forall c v, rd (cells st) c = Some v -> c <> r -> 0 <= v).
Proof.
  intros Hm Hn Hf.
  destruct (make_maze_spec Random fuel m n g ltac:(lia) ltac:(lia) Hf)
    as (st & q & E & kl & Hmk & Hone & _ & _ & _ & _ & _ & _ & _ & _ & _ & _
        & _ & es & bs & Hes & Hcarve & -> & _).
  assert (Hrange : forall lo hi, (lo, hi) ∈ es ->
            0 <= lo < n * m /\ 0 <= hi < n * m /\ known_delta n (hi - lo)).
  { intros lo hi Hin. apply (wall_at_range m n); [lia|]. by apply (Hes (lo, hi)). }
  assert (Hinit : kruskal_inv (n * m) (init_cells (n * m)) [])
    by (apply kruskal_inv_init; nia).
  assert (Hlen0 : Z.of_nat (length (init_nodes (n * m))) = n * m).
  { unfold init_nodes. rewrite length_replicate. nia. }
  destruct (carve_spec (n * m) n fuel es (init_cells (n * m))
              (init_nodes (n * m)) [] Hinit (exits_inv_init n (n * m)) Hlen0
              ltac:(lia) Hrange ltac:(nia) ltac:(rewrite size_sum_init; nia))
    as (c' & n' & bs' & Hcarve' & _ & Hinv & _ & _ & _ & _ & Hsize).
  rewrite Hcarve in Hcarve'. injection Hcarve' as <- <- <-.
  rewrite size_sum_init in Hsize by nia.
  destruct (single_root_size (cells st) Hone) as (r & v & Hr & Hv & Hs & Huniq).
  destruct Hinv as (Hlc & Hok & _).
  exists st, q, r. split; [done|]. split; [|split].
  - rewrite Hr. f_equal. lia.
  - intros c Hc. destruct (Hok c ltac:(lia)) as (rc & lc & Hch).
    destruct (chain_root_neg _ _ _ _ Hch) as (u & Hu & Hu0).
    rewrite <- (Huniq rc u Hu Hu0). by exists lc.
  - intros c u Hc Hne. destruct (decide (u < 0)) as [Hu|]; [|lia].
    by destruct (Hne (Huniq c u Hc Hu)).
Qed.

Lemma root_records_size_witness :
  exists st q r,
    make_maze lcg 12 2 2 42 = Some (st, q) /\
    rd (cells st) r = Some (- (2 * 2)) /\
    (forall c, 0 <= c < 2 * 2 -> root_of (cells st) c r) /\
    (forall c v, rd (cells st) c = Some v -> c <> r -> 0 <= v).
Proof. apply (root_records_size lcg 12 2 2 42); lia. Defined.

End Forest_more.

(** * The table of walls and the list of walls kept *)

(** X9.  For [2 <= m, n <= 1000] the walls written by [init_walls] are
    linked through [next] in the order of the table, from [walls[0]] to
    the last one, whose [next] is null, which is what [shuffle_walls]
    starts from.  Both cells of every wall are cells of the array, they
    differ, and [higher - lower] is one of the seven differences
    [create_maze] has a case for; [higher] is not always the larger. *)
Theorem init_walls_linked (m n : Z) :
  2 <= m <= 1000 -> 2 <= n <= 1000 ->
  exists ws,
    init_walls m n = Some ws /\
    is_list ws (Some O) (seq 0 (length ws)) /\
    (forall w, w ∈ ws ->
       0 <= lower w < m * n /\ 0 <= higher w < m * n /\
       lower w <> higher w /\ known_delta n (higher w - lower w)) /\
    (exists w, w ∈ ws /\ higher w < lower w).
Proof.
  intros Hm Hn.
  destruct (init_walls_spec m n) as (ws & Hi & Hlen & Hmem & Hnd & Hlist);
    [lia|lia|nia|].
  exists ws. split; [done|]. split; [done|]. split.
  - intros w Hw.
    assert (Hin : ends w ∈ ends <$> ws) by (by apply list_elem_of_fmap_2).
    apply Hmem in Hin. simpl in Hin.
    destruct (wall_at_range m n _ _ ltac:(lia) Hin) as (Hlo & Hhi & Hd).
    split; [lia|]. split; [lia|]. split; [|done].
    unfold known_delta in Hd. lia.
  - assert (Hin : (n * 1 + 0, n * 1 + 0 - n + Z.land 1 1) ∈ ends <$> ws).
    { apply Hmem. simpl. exists 1, 0. split; [lia|]. split; [lia|].
      split; [done|]. left. split; [lia|]. split; [left; lia|done]. }
    apply list_elem_of_fmap in Hin as (w & Hw & Hin).
    exists w. split; [done|]. unfold ends in Hw. injection Hw as Hlo Hhi.
    rewrite <- Hlo, <- Hhi. change (Z.land 1 1) with 1. lia.
Qed.

Lemma init_walls_linked_witness :
  exists ws,
    init_walls 2 2 = Some ws /\
    is_list ws (Some O) (seq 0 (length ws)) /\
    (forall w, w ∈ ws ->
       0 <= lower w < 2 * 2 /\ 0 <= higher w < 2 * 2 /\
       lower w <> higher w /\ known_delta 2 (higher w - lower w)) /\
    (exists w, w ∈ ws /\ higher w < lower w).
Proof. apply (init_walls_linked 2 2); lia. Defined.

Lemma opened_superset l : forall bs E e, e ∈ E -> e ∈ opened E l bs.
Proof.
  induction l as [|e0 l IH]; intros [|b bs] E e He; simpl; try done.
  apply IH. destruct b; [by right|done].
Qed.

(** A wall is kept exactly when it is not removed. *)
Lemma opened_kept l : forall bs E,
  length bs = length l -> NoDup l -> (forall e, e ∈ l -> e ∉ E) ->
  forall e, e ∈ l -> (e ∈ kept l bs <-> e ∉ opened E l bs).
Proof.
  induction l as [|e0 l IH]; intros [|b bs] E Hlen Hnd Hdis e He;
    simpl in *; try done; try lia.
  { by apply elem_of_nil in He. }
  apply NoDup_cons in Hnd as [He0 Hnd].
  assert (Hlen' : length bs = length l) by lia.
  apply elem_of_cons in He as [->|He].
  - destruct b.
    + split.
      * intros Hk. by apply kept_elem_of in Hk.
      * intros Hno. exfalso. apply Hno. apply opened_superset. left.
    + split; [|intros _; left].
      intros _ [Hin|Hin]%opened_elem_of; [|done].
      apply (Hdis e0); [left|done].
  - assert (Hne : e <> e0) by (intros ->; done).
    assert (Hdis' : forall e', e' ∈ l -> e' ∉ (if b then e0 :: E else E)).
    { intros e' He' Hin. destruct b.
      - apply elem_of_cons in Hin as [->|Hin]; [done|].
        apply (Hdis e'); [by right|done].
      - apply (Hdis e'); [by right|done]. }
    rewrite <- (IH bs _ Hlen' Hnd Hdis' e He).
    destruct b; [done|]. rewrite elem_of_cons. tauto.
Qed.

Lemma wall_at_one_way m n lo hi :
  1 <= n -> wall_at m n lo hi -> ~ wall_at m n hi lo.
Proof.
  intros Hn Hw.
  destruct (wall_neighbour m n lo hi Hn Hw)
    as (k & l & k' & l' & Hg & Hg' & Hnb & -> & ->).
  destruct (neighbour_wall m n k l k' l' Hg Hg' Hnb) as [_ [[_ ?]|[_ ?]]]; done.
Qed.

(** X10.  When [create_maze] is done, the list that starts at
    [first_wall] holds no wall twice and ends with the wall [q] whose
    [next] was set to null; a pair of cells is joined by a wall of that
    list exactly when it is joined by a wall of the table and no exit
    leads from the one cell to the other. *)
Theorem kept_walls_listed {rng : Type} (Random : rng -> Z * rng)
    (fuel : nat) (m n : Z) (g : rng) :
  2 <= m <= 1000 -> 2 <= n <= 1000 -> (Z.to_nat (3 * m * n) <= fuel)%nat ->
  exists st q kl,
    make_maze Random fuel m n g = Some (st, q) /\
    is_list (walls st) (first_wall st) kl /\ last kl = Some q /\ NoDup kl /\
    forall lo hi,
      (exists x w, x ∈ kl /\ walls st !! x = Some w /\ ends w = (lo, hi)) <->
      (wall_at m n lo hi /\ ~ exit_rel n (nodes st) lo hi).
Proof.
  intros Hm Hn Hf.
  destruct (make_maze_spec Random fuel m n g ltac:(lia) ltac:(lia) Hf)
    as (st & q & E & kl & Hmk & _ & _ & _ & HE & [Hrel _] & _ & _ & Hkl & Hlast
        & _ & _ & _ & es & bs & Hes & _ & -> & Hkept & Hnd & Hlb & Hndk).
  exists st, q, kl. split; [done|]. split; [done|]. split; [done|].
  split; [done|]. intros lo hi.
  assert (Hpart : forall e, e ∈ es -> (e ∈ kept es bs <-> e ∉ opened [] es bs)).
  { apply opened_kept; [done|done|]. intros e _ Hin. by apply elem_of_nil in Hin. }
  assert (Hlisted :
    (exists x w, x ∈ kl /\ walls st !! x = Some w /\ ends w = (lo, hi)) <->
    (lo, hi) ∈ kept es bs).
  { unfold ends_of in Hkept. split.
    - intros (x & w & Hx & Hw & He).
      apply list_elem_of_lookup_1 in Hx as [i Hi].
      destruct (Forall2_lookup_l _ _ _ _ _ Hkept Hi) as (e & Hie & Hxe).
      rewrite list_lookup_fmap, Hw in Hxe. simpl in Hxe.
      injection Hxe as <-. rewrite <- He. by eapply list_elem_of_lookup_2.
    - intros Hin. apply list_elem_of_lookup_1 in Hin as [i Hi].
      destruct (Forall2_lookup_r _ _ _ _ _ Hkept Hi) as (x & Hx & Hxe).
      rewrite list_lookup_fmap in Hxe.
      destruct (walls st !! x) as [w|] eqn:Hw; [|done].
      simpl in Hxe. injection Hxe as Hlo Hhi.
      exists x, w. split; [by eapply list_elem_of_lookup_2|]. split; [done|].
      unfold ends. by rewrite Hlo, Hhi. }
  rewrite Hlisted. split.
  - intros Hin.
    assert (Hes' : (lo, hi) ∈ es) by (by apply kept_elem_of in Hin).
    assert (Hw : wall_at m n lo hi) by (by apply (Hes (lo, hi))).
    split; [done|]. intros Hx%Hrel. apply (Hpart _ Hes') in Hin.
    destruct Hx as [Hx|Hx]; [done|].
    apply HE in Hx. by apply (wall_at_one_way m n lo hi ltac:(lia)) in Hx.
  - intros [Hw Hno]. apply Hpart; [by apply (Hes (lo, hi))|].
    intros Hin. apply Hno, Hrel. by left.
Qed.

Lemma kept_walls_listed_witness :
  exists st q kl,
    make_maze lcg 12 2 2 42 = Some (st, q) /\
    is_list (walls st) (first_wall st) kl /\ last kl = Some q /\ NoDup kl /\
    forall lo hi,
      (exists x w, x ∈ kl /\ walls st !! x = Some w /\ ends w = (lo, hi)) <->
      (wall_at 2 2 lo hi /\ ~ exit_rel 2 (nodes st) lo hi).
Proof. apply (kept_walls_listed lcg 12 2 2 42); lia. Defined.
